(** * EPUB-to-ZIP converter: name sequencing, archive building, batch pipeline

    A shallow embedding of the algorithmic core of the browser tool
    (the classes [Utils], [NameProcessor], [EpubParser], [ZipGenerator] and
    [EpubToZipApp] of js/utils.js, js/zipGenerator.js and js/epubParser.js,
    with the file registry of js/fileHandler.js) and the properties of its
    specification.

    Conventions.
    - A JavaScript string is the list of its UTF-16 code units ([jsstring]);
      [length], [charCodeAt], indexing and the regular expressions of the
      source all work on code units.
    - JavaScript numbers that the code only uses as integers are [Z] (values,
      scores, hashes) or [nat] (indices, lengths, counters); the 32-bit
      wrap-around of the bit operators is written out with [toInt32].
    - Objects mutated in place (the [Map] registries, the [JSZip] instance,
      the regular expression's [lastIndex]) are passed as explicit state. *)

From Stdlib Require Import ZArith List Bool Lia Arith String Ascii.
From Stdlib Require Import Permutation Sorted FinFun.
Import ListNotations.

Set Implicit Arguments.

(* ================================================================== *)
(** ** JavaScript strings and numbers *)
(* ================================================================== *)

Module JS.

Definition jsstring := list Z.

(** Literal: the code units of an ASCII literal of the source. *)
Definition str (s : string) : jsstring :=
  map (fun a => Z.of_nat (nat_of_ascii a)) (list_ascii_of_string s).

Definition jsstring_eq_dec : forall a b : jsstring, {a = b} + {a <> b} :=
  list_eq_dec Z.eq_dec.

Definition streq (a b : jsstring) : bool :=
  if jsstring_eq_dec a b then true else false.

Lemma streq_true a b : streq a b = true <-> a = b.
Proof. unfold streq. destruct (jsstring_eq_dec a b); split; congruence. Qed.

Lemma streq_false a b : streq a b = false <-> a <> b.
Proof. unfold streq. destruct (jsstring_eq_dec a b); split; congruence. Qed.

Lemma streq_refl a : streq a a = true.
Proof. now apply streq_true. Qed.

(** [s.charAt(i)] / [s[i]]: [None] models the empty string / undefined
    obtained out of range. *)
Definition charAt (s : jsstring) (i : nat) : option Z := nth_error s i.

(** [s.slice(start)] for a non-negative start: clamps to the length. *)
Definition sliceFrom (s : jsstring) (start : Z) : jsstring :=
  if (Z.of_nat (List.length s) <=? start)%Z then []
  else skipn (Z.to_nat start) s.

(** [s.lastIndexOf(c)] for a one-character needle, -1 when absent. *)
Fixpoint lastIndexOfFrom (s : jsstring) (c : Z) (pos : Z) (found : Z) : Z :=
  match s with
  | [] => found
  | x :: r => lastIndexOfFrom r c (pos + 1) (if (x =? c)%Z then pos else found)
  end.

Definition lastIndexOf (s : jsstring) (c : Z) : Z := lastIndexOfFrom s c 0 (-1).

(** [s.endsWith(suffix)] *)
Definition endsWith (s suffix : jsstring) : bool :=
  (List.length suffix <=? List.length s)%nat &&
  streq (skipn (List.length s - List.length suffix) s) suffix.

(** [s.split(sep)] for a one-character separator. *)
Fixpoint splitOn (sep : Z) (s : jsstring) : list jsstring :=
  match s with
  | [] => [[]]
  | c :: r =>
      if (c =? sep)%Z then [] :: splitOn sep r
      else match splitOn sep r with
           | [] => [[c]]
           | h :: t => (c :: h) :: t
           end
  end.

(** [s.startsWith(prefix)] and [s.includes(needle)] *)
Fixpoint startsWith (s prefix : jsstring) : bool :=
  match prefix, s with
  | [], _ => true
  | _ :: _, [] => false
  | p :: prefix', c :: s' => (c =? p)%Z && startsWith s' prefix'
  end.

Fixpoint includes (s needle : jsstring) : bool :=
  match s with
  | [] => startsWith [] needle
  | _ :: r => startsWith s needle || includes r needle
  end.

(** ToInt32: the wrap-around every bit operator applies to its operands. *)
Definition toInt32 (z : Z) : Z := ((z + 2 ^ 31) mod 2 ^ 32 - 2 ^ 31)%Z.

(** ToUint32, as applied by [>>> 0]. *)
Definition toUint32 (z : Z) : Z := (z mod 2 ^ 32)%Z.

(** ASCII case folding. [toLowerCase] and the [i] flag of a regular
    expression without the [u] flag agree with it on every pattern of the
    source: those patterns are ASCII words, and no code unit outside ASCII
    folds to one of their letters in a way that completes a match. *)
Definition lowerChar (c : Z) : Z :=
  if ((65 <=? c) && (c <=? 90))%Z then (c + 32)%Z else c.

Definition toLowerCase (s : jsstring) : jsstring := map lowerChar s.

Definition isDigit (c : Z) : bool := ((48 <=? c) && (c <=? 57))%Z.

(** *** Number.prototype.toString() on a non-negative integer *)

Definition digitChar (d : nat) : Z := (48 + Z.of_nat d)%Z.

Fixpoint toStringFuel (fuel n : nat) : jsstring :=
  match fuel with
  | O => []
  | S f =>
      if (n <? 10)%nat then [digitChar n]
      else toStringFuel f (n / 10) ++ [digitChar (n mod 10)]
  end.

Definition toString (n : nat) : jsstring := toStringFuel (S n) n.

(** [s.padStart(targetLength, fill)] for a one-character fill. *)
Definition padStart (s : jsstring) (targetLength : nat) (fill : Z) : jsstring :=
  repeat fill (targetLength - List.length s) ++ s.

(** The integer that a run of decimal digits writes. *)
Definition parseDigits (s : jsstring) : Z :=
  fold_left (fun acc c => (10 * acc + (c - 48))%Z) s 0%Z.

(** The Number (a double) of a non-negative integer: the integer itself
    below 2^53, and above it the integer rounded to 53 significant bits,
    to the nearest and to the even one of two that are as near. The finite
    doubles are below 2^1024; 2^1024 stands for [Infinity], which is what
    the rounding gives from 2^1024 - 2^970 on. The program compares these
    Numbers ([<=], [!==]) and reads the sign of their difference: for
    that, [Infinity] is to the finite doubles what 2^1024 is to them. *)
Definition toNumber (z : Z) : Z :=
  if (z <? 2 ^ 53)%Z then z
  else
    let unit := (2 ^ (Z.log2 z - 52))%Z in
    let kept := (z / unit)%Z in
    let rest := (z mod unit)%Z in
    let kept :=
      if (2 * rest <? unit)%Z then kept
      else if (unit <? 2 * rest)%Z then (kept + 1)%Z
      else if Z.even kept then kept else (kept + 1)%Z in
    Z.min (kept * unit) (2 ^ 1024).

(** [parseInt(s, 10)] on a non-empty run of decimal digits: the double
    nearest to the integer the digits write, as the engines compute it
    (ECMAScript lets an engine read the digits after the twentieth
    as zeros). *)
Definition parseInt (s : jsstring) : Z := toNumber (parseDigits s).

(** Code-unit lexicographic order, the order of [<] on JavaScript strings. *)
Fixpoint lexLt (a b : jsstring) : Prop :=
  match a, b with
  | _, [] => False
  | [], _ :: _ => True
  | x :: a', y :: b' => (x < y)%Z \/ (x = y /\ lexLt a' b')
  end.

(** *** Array.prototype.sort(compare)

    The sort of the language is stable, and for a consistent comparator the
    stable sorted arrangement is unique; it is computed here by insertion:
    an element goes in front of the first element it does not compare
    greater than. *)
Section Sort.
Variable A : Type.
Variable compare : A -> A -> Z.

Fixpoint insertSorted (x : A) (l : list A) : list A :=
  match l with
  | [] => [x]
  | y :: r =>
      if (compare x y <=? 0)%Z then x :: y :: r
      else y :: insertSorted x r
  end.

Fixpoint sort (l : list A) : list A :=
  match l with
  | [] => []
  | x :: r => insertSorted x (sort r)
  end.

Lemma insertSorted_perm x l : Permutation (x :: l) (insertSorted x l).
Proof.
  induction l as [|y r IH]; simpl; [reflexivity|].
  destruct (compare x y <=? 0)%Z; [reflexivity|].
  rewrite perm_swap. now constructor.
Qed.

Lemma sort_perm l : Permutation l (sort l).
Proof.
  induction l as [|x r IH]; simpl; [constructor|].
  rewrite <- insertSorted_perm. now constructor.
Qed.

Lemma sort_length l : List.length (sort l) = List.length l.
Proof. symmetry. apply Permutation_length, sort_perm. Qed.

(** Sorting related lists with a comparator that respects the relation
    gives related lists. *)
Lemma insertSorted_Forall2 (R : A -> A -> Prop) :
  (forall x x' y y', R x x' -> R y y' -> compare x y = compare x' y') ->
  forall x x' l l', R x x' -> Forall2 R l l' ->
  Forall2 R (insertSorted x l) (insertSorted x' l').
Proof.
  intros Hc x x' l l' Hx Hl. induction Hl as [|y y' l l' Hy Hl IH]; cbn.
  - now repeat constructor.
  - rewrite (Hc x x' y y' Hx Hy).
    destruct (compare x' y' <=? 0)%Z; repeat constructor; auto.
Qed.

Lemma sort_Forall2 (R : A -> A -> Prop) :
  (forall x x' y y', R x x' -> R y y' -> compare x y = compare x' y') ->
  forall l l', Forall2 R l l' -> Forall2 R (sort l) (sort l').
Proof.
  intros Hc l l' Hl. induction Hl; cbn; [constructor|].
  now apply insertSorted_Forall2.
Qed.

End Sort.

(** *** Facts on decimal numerals *)

Lemma toStringFuel_irrelevant f1 : forall f2 n,
  (n < f1)%nat -> (n < f2)%nat -> toStringFuel f1 n = toStringFuel f2 n.
Proof.
  induction f1 as [|f1 IH]; intros f2 n H1 H2; [lia|].
  destruct f2 as [|f2]; [lia|]. cbn [toStringFuel].
  destruct (n <? 10)%nat eqn:E; [reflexivity|].
  apply Nat.ltb_ge in E.
  assert (n / 10 < n)%nat by (apply Nat.div_lt; lia).
  f_equal. apply IH; lia.
Qed.

Lemma toString_unfold n :
  toString n =
  if (n <? 10)%nat then [digitChar n]
  else toString (n / 10) ++ [digitChar (n mod 10)].
Proof.
  unfold toString at 1. cbn [toStringFuel].
  destruct (n <? 10)%nat eqn:E; [reflexivity|].
  apply Nat.ltb_ge in E.
  assert (n / 10 < n)%nat by (apply Nat.div_lt; lia).
  f_equal. apply toStringFuel_irrelevant; lia.
Qed.

Lemma parseDigits_snoc s c :
  parseDigits (s ++ [c]) = (10 * parseDigits s + (c - 48))%Z.
Proof. unfold parseDigits. now rewrite fold_left_app. Qed.

Lemma parseDigits_toString n : parseDigits (toString n) = Z.of_nat n.
Proof.
  induction n as [n IH] using lt_wf_ind.
  rewrite toString_unfold.
  destruct (n <? 10)%nat eqn:E.
  - unfold parseDigits, digitChar. cbn [fold_left]. lia.
  - apply Nat.ltb_ge in E.
    rewrite parseDigits_snoc, IH by (apply Nat.div_lt; lia).
    unfold digitChar.
    pose proof (Nat.div_mod_eq n 10). lia.
Qed.

Lemma toString_inj n m : toString n = toString m -> n = m.
Proof.
  intros H. apply Nat2Z.inj.
  now rewrite <- !parseDigits_toString, H.
Qed.

Lemma isDigit_digitChar d : (d < 10)%nat -> isDigit (digitChar d) = true.
Proof.
  intros H. unfold isDigit, digitChar.
  apply andb_true_intro; split; apply Z.leb_le; lia.
Qed.

Lemma toString_digits n : Forall (fun c => isDigit c = true) (toString n).
Proof.
  induction n as [n IH] using lt_wf_ind.
  rewrite toString_unfold.
  destruct (n <? 10)%nat eqn:E.
  - apply Nat.ltb_lt in E. constructor; [now apply isDigit_digitChar|constructor].
  - apply Nat.ltb_ge in E. apply Forall_app; split.
    + apply IH, Nat.div_lt; lia.
    + constructor; [|constructor].
      apply isDigit_digitChar, Nat.mod_upper_bound; lia.
Qed.

Lemma toString_nonempty n : toString n <> [].
Proof.
  rewrite toString_unfold. destruct (n <? 10)%nat; [discriminate|].
  intros H. apply app_eq_nil in H. destruct H; discriminate.
Qed.

(** The numeral of [n] has at most [k] digits exactly when [n < 10^k]. *)
Lemma toString_length_le n : forall k,
  (1 <= k)%nat -> (List.length (toString n) <= k)%nat <-> (n < 10 ^ k)%nat.
Proof.
  induction n as [n IH] using lt_wf_ind. intros k Hk.
  rewrite toString_unfold.
  destruct (n <? 10)%nat eqn:E.
  - apply Nat.ltb_lt in E. simpl. split; intros _; [|lia].
    assert (10 ^ 1 <= 10 ^ k)%nat by (apply Nat.pow_le_mono_r; lia).
    simpl in *. lia.
  - apply Nat.ltb_ge in E. rewrite length_app. cbn [List.length].
    destruct k as [|[|k]]; [lia| |].
    + pose proof (toString_nonempty (n / 10)).
      destruct (toString (n / 10)); [congruence|].
      cbn [List.length]. change (10 ^ 1)%nat with 10%nat. split; lia.
    + assert (Hlt : (n / 10 < n)%nat) by (apply Nat.div_lt; lia).
      specialize (IH _ Hlt (S k) ltac:(lia)).
      replace (10 ^ S (S k))%nat with (10 * 10 ^ S k)%nat
        by (rewrite (Nat.pow_succ_r' 10 (S k)); reflexivity).
      pose proof (Nat.div_mod_eq n 10).
      pose proof (Nat.mod_upper_bound n 10 ltac:(lia)).
      split; intros H1.
      * assert (n / 10 < 10 ^ S k)%nat by (apply IH; lia). lia.
      * assert (n / 10 < 10 ^ S k)%nat.
        { apply Nat.Div0.div_lt_upper_bound. lia. }
        apply IH in H2. lia.
Qed.

Lemma toString_length_mono n m :
  (n <= m)%nat -> (List.length (toString n) <= List.length (toString m))%nat.
Proof.
  intros H.
  assert (Hm : (1 <= List.length (toString m))%nat).
  { pose proof (toString_nonempty m). destruct (toString m); [congruence|simpl; lia]. }
  apply toString_length_le; [exact Hm|].
  assert (m < 10 ^ List.length (toString m))%nat by (apply toString_length_le; lia).
  lia.
Qed.

(** *** Padding *)

Lemma padStart_length s k c :
  List.length (padStart s k c) = Nat.max k (List.length s).
Proof. unfold padStart. rewrite length_app, repeat_length. lia. Qed.

Lemma parseDigits_zeros k s :
  parseDigits (repeat 48%Z k ++ s) = parseDigits s.
Proof.
  unfold parseDigits. rewrite fold_left_app. f_equal.
  induction k as [|k IH]; simpl; [reflexivity|exact IH].
Qed.

Lemma parseDigits_padStart s k : parseDigits (padStart s k 48%Z) = parseDigits s.
Proof. apply parseDigits_zeros. Qed.

Lemma padStart_digits s k :
  Forall (fun c => isDigit c = true) s ->
  Forall (fun c => isDigit c = true) (padStart s k 48%Z).
Proof.
  intros H. apply Forall_app; split; [|exact H].
  apply Forall_forall. intros x Hx. apply repeat_spec in Hx. now subst.
Qed.


(** *** Lexicographic order on numerals of equal length *)

Lemma fold_parse_acc s : forall acc,
  fold_left (fun acc c => (10 * acc + (c - 48))%Z) s acc =
  (acc * 10 ^ Z.of_nat (List.length s) + parseDigits s)%Z.
Proof.
  unfold parseDigits.
  induction s as [|c s IH]; intros acc; cbn [fold_left List.length].
  - change (10 ^ Z.of_nat 0)%Z with 1%Z. lia.
  - rewrite IH, (IH (10 * 0 + (c - 48))%Z).
    rewrite Nat2Z.inj_succ, Z.pow_succ_r by lia. ring.
Qed.

Lemma parseDigits_cons c s :
  parseDigits (c :: s) = ((c - 48) * 10 ^ Z.of_nat (List.length s) + parseDigits s)%Z.
Proof.
  unfold parseDigits at 1. cbn [fold_left]. rewrite fold_parse_acc. ring.
Qed.

Lemma isDigit_range c : isDigit c = true -> (0 <= c - 48 <= 9)%Z.
Proof.
  unfold isDigit. intros H. apply andb_prop in H. destruct H as [H1 H2].
  apply Z.leb_le in H1, H2. lia.
Qed.

Lemma parseDigits_bound s :
  Forall (fun c => isDigit c = true) s ->
  (0 <= parseDigits s < 10 ^ Z.of_nat (List.length s))%Z.
Proof.
  induction 1 as [|c s Hc Hs IH].
  - unfold parseDigits. cbn. lia.
  - rewrite parseDigits_cons. cbn [List.length].
    rewrite Nat2Z.inj_succ, Z.pow_succ_r by lia.
    apply isDigit_range in Hc. nia.
Qed.

Lemma lexLt_irrefl a : ~ lexLt a a.
Proof. induction a as [|x a IH]; cbn; [tauto|]. intros [H|[_ H]]; [lia|tauto]. Qed.

Lemma lexLt_asym a : forall b, lexLt a b -> ~ lexLt b a.
Proof.
  induction a as [|x a IH]; intros [|y b]; cbn; try tauto.
  intros [H|[E H]] [H'|[E' H']]; try lia. now apply (IH b).
Qed.

Lemma lexLt_app a : forall b t t',
  List.length a = List.length b -> lexLt a b -> lexLt (a ++ t) (b ++ t').
Proof.
  induction a as [|x a IH]; intros [|y b] t t' Hl; cbn in *; try discriminate; try tauto.
  intros [H|[E H]]; [now left|right; split; [exact E|]].
  apply IH; [congruence|exact H].
Qed.

Lemma lexLt_parseDigits a : forall b,
  List.length a = List.length b ->
  Forall (fun c => isDigit c = true) a ->
  Forall (fun c => isDigit c = true) b ->
  (parseDigits a < parseDigits b)%Z -> lexLt a b.
Proof.
  induction a as [|x a IH]; intros [|y b] Hl Ha Hb; try discriminate.
  injection Hl as Hl.
  inversion Ha as [|? ? Hx Ha']; inversion Hb as [|? ? Hy Hb']; subst.
  rewrite !parseDigits_cons, Hl. intros Hlt. cbn [lexLt].
  pose proof (parseDigits_bound Ha') as Ba.
  pose proof (parseDigits_bound Hb') as Bb.
  rewrite Hl in Ba.
  destruct (Z.lt_trichotomy x y) as [L|[E|G]].
  - now left.
  - right. split; [exact E|]. subst y. apply IH; auto. lia.
  - exfalso. nia.
Qed.

Lemma last_app_cons (A : Type) (l : list A) x r d : last (l ++ x :: r) d = last (x :: r) d.
Proof.
  induction l as [|a l IH]; [reflexivity|].
  cbn [app]. destruct (l ++ x :: r) eqn:E.
  - destruct l; discriminate.
  - rewrite <- IH. reflexivity.
Qed.


(** *** Substrings and segments *)

Lemma startsWith_iff p : forall s,
  startsWith s p = true <-> exists r, s = p ++ r.
Proof.
  induction p as [|x p IH]; intros s.
  - split; [intros _; now exists s|intros _; now destruct s].
  - destruct s as [|c s]; cbn [startsWith].
    + split; [discriminate|]. intros [r H]. discriminate.
    + rewrite andb_true_iff, Z.eqb_eq, IH. split.
      * intros [-> [r ->]]. now exists r.
      * intros [r H]. injection H as -> ->. eauto.
Qed.

Lemma includes_iff needle : forall s,
  includes s needle = true <-> exists pre r, s = pre ++ needle ++ r.
Proof.
  induction s as [|c s IH].
  - cbn [includes]. rewrite startsWith_iff. split.
    + intros [r H]. now exists [], r.
    + intros (pre & r & H). destruct pre; [|discriminate]. now exists r.
  - cbn [includes]. rewrite orb_true_iff, startsWith_iff, IH. split.
    + intros [[r H]|(pre & r & H)].
      * now exists [], r.
      * exists (c :: pre), r. now rewrite H.
    + intros (pre & r & H). destruct pre as [|c' pre].
      * left. now exists r.
      * right. injection H as -> H. now exists pre, r.
Qed.

(** [segments.join(sep)] *)
Fixpoint joinWith (sep : Z) (segments : list jsstring) : jsstring :=
  match segments with
  | [] => []
  | [x] => x
  | x :: r => x ++ sep :: joinWith sep r
  end.

Lemma splitOn_nonempty sep s : splitOn sep s <> [].
Proof.
  destruct s as [|c s]; cbn; [discriminate|].
  destruct (c =? sep)%Z; [discriminate|]. now destruct (splitOn sep s).
Qed.

Lemma splitOn_app sep a : forall b,
  splitOn sep (a ++ sep :: b) = splitOn sep a ++ splitOn sep b.
Proof.
  induction a as [|c a IH]; intros b; cbn [app splitOn].
  - now rewrite Z.eqb_refl.
  - rewrite IH. destruct (c =? sep)%Z; [reflexivity|].
    pose proof (splitOn_nonempty sep a).
    destruct (splitOn sep a); [congruence|reflexivity].
Qed.

Lemma splitOn_whole sep d :
  forallb (fun c => negb (c =? sep)%Z) d = true -> splitOn sep d = [d].
Proof.
  induction d as [|c d IH]; cbn; [reflexivity|].
  intros H. apply andb_prop in H. destruct H as [H1 H2].
  apply negb_true_iff in H1. rewrite H1, IH by exact H2. reflexivity.
Qed.

Lemma joinWith_cons sep x r :
  r <> [] -> joinWith sep (x :: r) = x ++ sep :: joinWith sep r.
Proof. destruct r; [congruence|reflexivity]. Qed.

Lemma joinWith_app sep X : forall Y,
  X <> [] -> Y <> [] -> joinWith sep (X ++ Y) = joinWith sep X ++ sep :: joinWith sep Y.
Proof.
  induction X as [|x X IH]; intros Y HX HY; [congruence|].
  destruct X as [|x2 X].
  - cbn [app]. now rewrite joinWith_cons.
  - change ((x :: x2 :: X) ++ Y) with (x :: ((x2 :: X) ++ Y)).
    rewrite joinWith_cons by discriminate.
    rewrite IH by (discriminate || assumption).
    rewrite (@joinWith_cons sep x (x2 :: X)) by discriminate.
    now rewrite <- app_assoc.
Qed.

Lemma joinWith_splitOn sep s : joinWith sep (splitOn sep s) = s.
Proof.
  induction s as [|c s IH]; [reflexivity|]. cbn [splitOn].
  pose proof (splitOn_nonempty sep s) as Hne.
  destruct (c =? sep)%Z eqn:E.
  - apply Z.eqb_eq in E. subst c.
    rewrite joinWith_cons by exact Hne. now rewrite IH.
  - destruct (splitOn sep s) as [|h [|h2 t]]; [congruence| |].
    + cbn in *. now rewrite IH.
    + rewrite joinWith_cons in IH |- * by discriminate.
      cbn [app]. now rewrite IH.
Qed.

(** The segments of a path other than the first and the last. *)
Definition interiorSegments (sep : Z) (s : jsstring) : list jsstring :=
  removelast (tl (splitOn sep s)).

(** A name without separator is an interior segment exactly when it occurs
    between two separators. *)
Lemma interiorSegments_iff sep d s :
  forallb (fun c => negb (c =? sep)%Z) d = true ->
  In d (interiorSegments sep s) <-> exists pre r, s = pre ++ sep :: d ++ sep :: r.
Proof.
  intros Hd. unfold interiorSegments. split.
  - intros Hin.
    pose proof (joinWith_splitOn sep s) as Hjoin. unfold jsstring in *.
    destruct (splitOn sep s) as [|f T]; [contradiction|]. cbn [tl] in Hin.
    assert (HT : T <> []) by (intros ->; contradiction).
    apply in_split in Hin. destruct Hin as (A & B & HAB).
    assert (Hsplit : f :: T = (f :: A) ++ d :: (B ++ [last T []])).
    { rewrite (app_removelast_last [] HT) at 1. rewrite HAB.
      cbn [app]. now rewrite <- app_assoc. }
    exists (joinWith sep (f :: A)), (joinWith sep (B ++ [last T []])).
    rewrite <- Hjoin, Hsplit.
    etransitivity; [apply joinWith_app; discriminate|].
    f_equal. f_equal. apply joinWith_cons. destruct B; discriminate.
  - intros (pre & r & ->).
    rewrite splitOn_app, splitOn_app, (splitOn_whole sep d Hd).
    pose proof (splitOn_nonempty sep pre) as Hp.
    pose proof (splitOn_nonempty sep r) as Hr.
    destruct (splitOn sep pre) as [|p P]; [congruence|]. cbn [app tl].
    change (d :: splitOn sep r) with ([d] ++ splitOn sep r).
    rewrite app_assoc, removelast_app by exact Hr.
    apply in_or_app. left. apply in_or_app. right. now left.
Qed.

(** *** Suffixes and case folding *)

Lemma endsWith_iff s suffix :
  endsWith s suffix = true <-> exists pre, s = pre ++ suffix.
Proof.
  unfold endsWith. rewrite andb_true_iff, Nat.leb_le, streq_true. split.
  - intros [Hl Hs]. exists (firstn (List.length s - List.length suffix) s).
    transitivity (firstn (List.length s - List.length suffix) s
                  ++ skipn (List.length s - List.length suffix) s);
      [symmetry; apply firstn_skipn|now rewrite Hs].
  - intros [pre ->]. rewrite length_app. split; [lia|].
    replace (List.length pre + List.length suffix - List.length suffix)%nat
      with (List.length pre) by lia.
    rewrite skipn_app, skipn_all, Nat.sub_diag. reflexivity.
Qed.

Lemma toLowerCase_app a b : toLowerCase (a ++ b) = toLowerCase a ++ toLowerCase b.
Proof. apply map_app. Qed.

Lemma toLowerCase_app_inv s a b :
  toLowerCase s = a ++ b ->
  exists a' b', s = a' ++ b' /\ toLowerCase a' = a /\ toLowerCase b' = b.
Proof. apply map_eq_app. Qed.

Lemma toLowerCase_length s : List.length (toLowerCase s) = List.length s.
Proof. apply length_map. Qed.

(** Folding the case neither makes nor unmakes a character that is not a
    letter. *)
Lemma lowerChar_other c k :
  (k < 65 \/ 90 < k)%Z -> (k < 97 \/ 122 < k)%Z -> lowerChar c = k <-> c = k.
Proof.
  intros H1 H2. unfold lowerChar.
  destruct ((65 <=? c) && (c <=? 90))%Z eqn:E.
  - apply andb_prop in E. destruct E as [Ea Eb].
    apply Z.leb_le in Ea, Eb. split; lia.
  - apply andb_false_iff in E. destruct E as [E|E]; apply Z.leb_gt in E; split; lia.
Qed.

Lemma lowerChar_idem c : lowerChar (lowerChar c) = lowerChar c.
Proof.
  unfold lowerChar.
  destruct ((65 <=? c) && (c <=? 90))%Z eqn:E.
  - replace ((65 <=? c + 32) && (c + 32 <=? 90))%Z with false; [reflexivity|].
    symmetry. apply andb_false_iff. right. apply Z.leb_gt.
    apply andb_prop in E. destruct E as [Ea _]. apply Z.leb_le in Ea. lia.
  - now rewrite E.
Qed.

Lemma toLowerCase_idem s : toLowerCase (toLowerCase s) = toLowerCase s.
Proof.
  unfold toLowerCase. rewrite map_map. apply map_ext. intros c. apply lowerChar_idem.
Qed.

Lemma filter_partition_perm (A : Type) (f : A -> bool) (l : list A) :
  Permutation (filter f l ++ filter (fun x => negb (f x)) l) l.
Proof.
  induction l as [|x l IH]; cbn [filter]; [constructor|].
  destruct (f x); cbn [negb app].
  - now constructor.
  - rewrite <- Permutation_middle. now constructor.
Qed.

(** *** Sets

    A [Set] of strings or of numbers: its elements in insertion order,
    without repetition. *)

Definition setHas (A : Type) (eqb : A -> A -> bool) (s : list A) (x : A) : bool :=
  existsb (eqb x) s.

Definition setAdd (A : Type) (eqb : A -> A -> bool) (s : list A) (x : A) : list A :=
  if setHas eqb s x then s else s ++ [x].

Section SetFacts.
Variable A : Type.
Variable eqb : A -> A -> bool.
Hypothesis eqb_spec : forall x y, eqb x y = true <-> x = y.

Lemma setHas_In s x : setHas eqb s x = true <-> In x s.
Proof.
  unfold setHas. rewrite existsb_exists. split.
  - intros (y & Hy & E). apply eqb_spec in E. now subst.
  - intros H. exists x. split; [exact H|now apply eqb_spec].
Qed.

Lemma setHas_not_In s x : setHas eqb s x = false <-> ~ In x s.
Proof.
  rewrite <- setHas_In. destruct (setHas eqb s x); split; congruence.
Qed.

Lemma setAdd_In s x y : In y (setAdd eqb s x) <-> In y s \/ y = x.
Proof.
  unfold setAdd. destruct (setHas eqb s x) eqn:E.
  - apply setHas_In in E. split; [now left|]. intros [H| ->]; assumption.
  - rewrite in_app_iff. cbn [In]. split; intros [H|H]; auto.
    + destruct H as [<-|[]]. now right.
Qed.

Lemma setAdd_NoDup s x : NoDup s -> NoDup (setAdd eqb s x).
Proof.
  intros H. unfold setAdd. destruct (setHas eqb s x) eqn:E; [exact H|].
  apply setHas_not_In in E. apply NoDup_app; [exact H|repeat constructor; intros []|].
  intros y Hy [<-|[]]. contradiction.
Qed.

Lemma fold_setAdd_In l : forall s y,
  In y (fold_left (setAdd eqb) l s) <-> In y s \/ In y l.
Proof.
  induction l as [|x l IH]; intros s y; cbn [fold_left In]; [tauto|].
  rewrite IH, setAdd_In. split; intros H; intuition auto.
Qed.

Lemma fold_setAdd_NoDup l : forall s, NoDup s -> NoDup (fold_left (setAdd eqb) l s).
Proof.
  induction l as [|x l IH]; intros s H; cbn [fold_left]; [exact H|].
  now apply IH, setAdd_NoDup.
Qed.

End SetFacts.

(** *** The last segment of a path *)

Lemma removelast_cons (A : Type) (x : A) (l : list A) :
  l <> [] -> removelast (x :: l) = x :: removelast l.
Proof. destruct l; [congruence|reflexivity]. Qed.

Lemma last_cons (A : Type) (x : A) (l : list A) d : l <> [] -> last (x :: l) d = last l d.
Proof. destruct l; [congruence|reflexivity]. Qed.

(** Text without separator appended to a string extends its last segment. *)
Lemma splitOn_app_plain sep b :
  forallb (fun c => negb (c =? sep)%Z) b = true ->
  forall a,
    splitOn sep (a ++ b) =
    removelast (splitOn sep a) ++ [last (splitOn sep a) [] ++ b].
Proof.
  intros Hb. induction a as [|c a IH]; cbn [app].
  - now rewrite splitOn_whole.
  - cbn [splitOn]. rewrite IH. pose proof (splitOn_nonempty sep a) as Hne.
    destruct (c =? sep)%Z.
    + rewrite removelast_cons, last_cons by exact Hne. reflexivity.
    + destruct (splitOn sep a) as [|h [|h2 t]]; [congruence|reflexivity|reflexivity].
Qed.

Lemma last_splitOn_app_plain sep a b :
  forallb (fun c => negb (c =? sep)%Z) b = true ->
  last (splitOn sep (a ++ b)) [] = last (splitOn sep a) [] ++ b.
Proof. intros Hb. rewrite splitOn_app_plain by exact Hb. apply last_last. Qed.

(** A string is a directory part, empty or ended by the separator, followed
    by its last segment, which holds no separator. *)
Lemma splitOn_last sep s :
  exists dir,
    s = dir ++ last (splitOn sep s) [] /\
    (dir = [] \/ exists d, dir = d ++ [sep]) /\
    forallb (fun c => negb (c =? sep)%Z) (last (splitOn sep s) []) = true.
Proof.
  induction s as [|c r (dir & Hr & Hdir & Hplain)] using rev_ind.
  - exists []. repeat split. now left.
  - destruct (c =? sep)%Z eqn:E.
    + apply Z.eqb_eq in E. subst c. exists (r ++ [sep]).
      rewrite splitOn_app. cbn [splitOn]. rewrite last_last.
      rewrite app_nil_r. split; [reflexivity|]. split; [right; now exists r|reflexivity].
    + assert (Hc : forallb (fun x => negb (x =? sep)%Z) [c] = true)
        by (cbn; now rewrite E).
      rewrite (@last_splitOn_app_plain sep r [c] Hc).
      exists dir. split; [rewrite Hr at 1; now rewrite <- app_assoc|].
      split; [exact Hdir|]. rewrite forallb_app, Hplain, Hc. reflexivity.
Qed.

(** *** Sorting with a comparator that is a consistent comparison *)

Section SortFacts.
Variable A : Type.
Variable compare : A -> A -> Z.
Hypothesis compare_swap : forall x y, (0 < compare x y -> compare y x <= 0)%Z.
Hypothesis compare_trans : forall x y z,
  (compare x y <= 0 -> compare y z <= 0 -> compare x z <= 0)%Z.

Lemma insertSorted_sorted x : forall l,
  StronglySorted (fun a b => (compare a b <= 0)%Z) l ->
  StronglySorted (fun a b => (compare a b <= 0)%Z) (insertSorted compare x l).
Proof.
  induction l as [|y r IH]; intros Hs; cbn [insertSorted].
  - repeat constructor.
  - apply StronglySorted_inv in Hs. destruct Hs as [Hs Hall].
    destruct (compare x y <=? 0)%Z eqn:E.
    + apply Z.leb_le in E. constructor; [now constructor|].
      constructor; [exact E|].
      eapply Forall_impl; [|exact Hall]. intros z Hz. now apply compare_trans with (y := y).
    + apply Z.leb_gt in E. constructor; [now apply IH|].
      apply Forall_forall. intros z Hz.
      apply (Permutation_in _ (Permutation_sym (insertSorted_perm compare x r))) in Hz.
      destruct Hz as [<-|Hz]; [now apply compare_swap|].
      rewrite Forall_forall in Hall. now apply Hall.
Qed.

Lemma sort_StronglySorted l :
  StronglySorted (fun a b => (compare a b <= 0)%Z) (sort compare l).
Proof.
  induction l as [|x r IH]; cbn [sort]; [constructor|]. now apply insertSorted_sorted.
Qed.

End SortFacts.

Lemma StronglySorted_filter_map (A B : Type) (R : A -> A -> Prop) (S : B -> B -> Prop)
    (g : A -> option B) (l : list A) :
  (forall a a' b b', R a a' -> g a = Some b -> g a' = Some b' -> S b b') ->
  StronglySorted R l ->
  StronglySorted S (flat_map (fun a => match g a with Some b => [b] | None => [] end) l).
Proof.
  intros HR. induction 1 as [|a l Hs IH Hall]; cbn [flat_map]; [constructor|].
  destruct (g a) as [b|] eqn:E; cbn [app]; [|exact IH].
  constructor; [exact IH|]. apply Forall_forall. intros b' Hb'.
  apply in_flat_map in Hb'. destruct Hb' as (a' & Ha' & Hb').
  destruct (g a') as [b''|] eqn:E'; [|contradiction].
  destruct Hb' as [<-|[]]. rewrite Forall_forall in Hall.
  exact (HR a a' b b'' (Hall a' Ha') E E').
Qed.

Lemma Permutation_filter (A : Type) (f : A -> bool) (l l' : list A) :
  Permutation l l' -> Permutation (filter f l) (filter f l').
Proof.
  induction 1 as [|x l l' H IH|x y l|l l' l'' H1 IH1 H2 IH2]; cbn [filter].
  - constructor.
  - destruct (f x); [now constructor|exact IH].
  - destruct (f x), (f y); try reflexivity. apply perm_swap.
  - now transitivity (filter f l').
Qed.

(** *** The Number of an integer *)

Lemma toNumber_exact z : (z < 2 ^ 53)%Z -> toNumber z = z.
Proof. intros H. unfold toNumber. apply Z.ltb_lt in H. now rewrite H. Qed.

Lemma toNumber_range z : (0 <= z)%Z -> (0 <= toNumber z <= 2 ^ 1024)%Z.
Proof.
  intros Hz. unfold toNumber. destruct (z <? 2 ^ 53)%Z eqn:E.
  - apply Z.ltb_lt in E. split; [exact Hz|].
    assert (2 ^ 53 <= 2 ^ 1024)%Z by (apply Z.pow_le_mono_r; lia). lia.
  - cbv zeta.
    set (unit := (2 ^ (Z.log2 z - 52))%Z).
    assert (Hu : (0 < unit)%Z).
    { apply Z.pow_pos_nonneg; [lia|]. apply Z.ltb_ge in E.
      assert (53 <= Z.log2 z)%Z by (apply Z.log2_le_pow2; lia). lia. }
    assert (Hk : (0 <= z / unit)%Z) by (apply Z.div_pos; lia).
    assert (H1024 : (0 < 2 ^ 1024)%Z) by (apply Z.pow_pos_nonneg; lia).
    split; [|apply Z.le_min_r].
    apply Z.min_glb; [|lia].
    destruct (2 * (z mod unit) <? unit)%Z; [nia|].
    destruct (unit <? 2 * (z mod unit))%Z; [nia|].
    destruct (Z.even (z / unit)); nia.
Qed.

(** The rounding keeps 53 significant bits and moves the integer by half
    a unit of the last of them at most. *)
Lemma toNumber_nearest z :
  (2 ^ 53 <= z)%Z -> (toNumber z < 2 ^ 1024)%Z ->
  let unit := (2 ^ (Z.log2 z - 52))%Z in
  (toNumber z mod unit = 0)%Z /\
  (2 * Z.abs (toNumber z - z) <= unit)%Z /\
  ((2 * Z.abs (toNumber z - z))%Z = unit -> Z.even (toNumber z / unit)%Z = true).
Proof.
  intros Hz Hfin unit. unfold toNumber in *.
  assert (E : (z <? 2 ^ 53)%Z = false) by (apply Z.ltb_ge; exact Hz).
  rewrite E in *. cbv zeta in *. fold unit in Hfin. fold unit.
  assert (Hu : (0 < unit)%Z).
  { apply Z.pow_pos_nonneg; [lia|].
    assert (53 <= Z.log2 z)%Z by (apply Z.log2_le_pow2; lia). lia. }
  pose proof (Z.div_mod z unit ltac:(lia)) as Hdm.
  pose proof (Z.mod_pos_bound z unit Hu) as Hr.
  set (q := (z / unit)%Z) in *. set (r := (z mod unit)%Z) in *.
  set (kept := if (2 * r <? unit)%Z then q
               else if (unit <? 2 * r)%Z then (q + 1)%Z
                    else if Z.even q then q else (q + 1)%Z) in *.
  rewrite Z.min_l in * by lia.
  split; [apply Z.mod_mul; lia|].
  rewrite Z.div_mul by lia.
  unfold kept. destruct (2 * r <? unit)%Z eqn:E1.
  { apply Z.ltb_lt in E1. split; [|intros H]; nia. }
  apply Z.ltb_ge in E1. destruct (unit <? 2 * r)%Z eqn:E2.
  { apply Z.ltb_lt in E2. split; [|intros H]; nia. }
  apply Z.ltb_ge in E2. destruct (Z.even q) eqn:E3.
  - split; [nia|intros _; exact E3].
  - split; [nia|intros _]. rewrite Z.even_add, E3. reflexivity.
Qed.

Lemma parseInt_exact s :
  Forall (fun c => isDigit c = true) s -> (List.length s <= 15)%nat ->
  parseInt s = parseDigits s.
Proof.
  intros Hd Hlen. unfold parseInt. apply toNumber_exact.
  pose proof (parseDigits_bound Hd) as Hb.
  assert (10 ^ Z.of_nat (List.length s) <= 10 ^ 15)%Z by (apply Z.pow_le_mono_r; lia).
  assert (10 ^ 15 < 2 ^ 53)%Z by reflexivity. lia.
Qed.

(** Seventeen digits are rounded, to the even one of two doubles that are
    as near; the digits of the largest double give that double, and 309
    nines give [Infinity]. *)
Example parseInt_rounds :
  parseInt (str "12345678901234567") = 12345678901234568%Z /\
  parseInt (str "9007199254740993") = 9007199254740992%Z /\
  parseInt (str "9007199254740995") = 9007199254740996%Z /\
  parseInt (str "17976931348623157" ++ repeat 48%Z 292) = ((2 ^ 53 - 1) * 2 ^ 971)%Z /\
  parseInt (repeat 57%Z 309) = (2 ^ 1024)%Z.
Proof. repeat split; vm_compute; reflexivity. Qed.

End JS.

(* ================================================================== *)
(** ** Data model *)
(* ================================================================== *)

(** A [Blob]: its bytes. *)
Definition Blob := list Z.

(** The outcome of a call that may throw, or of a promise that may reject,
    with the message of the error. *)
Inductive Result (A : Type) : Type :=
| Ok (a : A)
| Throw (message : string).
Arguments Ok {A} a.
Arguments Throw {A} message.

(** An entry of an archive opened with [JSZip.loadAsync]: its relative
    path, whether it is a directory, and what reading its bytes with
    [file.async] gives. *)
Module ZipObject.
Record t := { path : JS.jsstring; dir : bool; data : Result (list Z) }.
End ZipObject.

(** A user file: bytes that [loadAsync] rejects (with the error's message),
    or an archive with its entries in the order [forEach] visits them. *)
Inductive File : Type :=
| Unreadable (message : string)
| Archive (entries : list ZipObject.t).

Inductive Status := waiting | processing | completed | error.

(** The file object created by [FileHandler.addFiles]. *)
Module FileObj.
Record t := {
  id : JS.jsstring;
  file : File;
  name : JS.jsstring;
  size : Z;
  status : Status;
  outputName : JS.jsstring;
  progress : Z;
  error : option string
}.
End FileObj.

(** The object [FileHandler.addFiles] creates for a selected file. *)
Definition newFileObj (fileId : JS.jsstring) (file : File) (name : JS.jsstring)
    (size : Z) : FileObj.t :=
  {| FileObj.id := fileId;
     FileObj.file := file;
     FileObj.name := name;
     FileObj.size := size;
     FileObj.status := waiting;
     FileObj.outputName := [];
     FileObj.progress := 0;
     FileObj.error := None |}.

(** A [File] of the browser, as the file picker or a drop hands it over:
    its name, its size in bytes, what reading its first four bytes gives
    ([file.slice(0, 4).arrayBuffer()]: at most four bytes, or the error of
    the read), and its content. *)
Module UserFile.
Record t := {
  name : JS.jsstring;
  size : Z;
  header : Result (list Z);
  file : File
}.
End UserFile.

(** [{value, originalString, index, length}], pushed by [extractNumbers];
    [value] is a Number (see [JS.toNumber]). *)
Module NumberToken.
Record t := {
  value : Z;
  originalString : JS.jsstring;
  index : nat;
  length : nat
}.
End NumberToken.

(** [{...fileObj, fileName, numbers, primaryNumber, originalIndex}] *)
Module RankedFile.
Record t := {
  fileObj : FileObj.t;
  fileName : JS.jsstring;
  numbers : list NumberToken.t;
  primaryNumber : Z;
  originalIndex : nat
}.
End RankedFile.

(** The elements of the array returned by [generateOutputNames]. *)
Module OutputMapping.
Record t := {
  fileId : JS.jsstring;
  originalName : JS.jsstring;
  outputName : JS.jsstring;
  sequenceNumber : nat;
  primaryNumber : Z
}.
End OutputMapping.

(* ================================================================== *)
(** ** js/utils.js: class Utils *)
(* ================================================================== *)

Module Utils.
Import JS.

(** The tail [[^/.]+$] of the pattern of [removeFileExtension]: a non-empty
    rest of the string without [/] and [.]. *)
Definition extensionTail (r : jsstring) : bool :=
  match r with
  | [] => false
  | _ => forallb (fun c => negb (c =? 47)%Z && negb (c =? 46)%Z) r
  end.

(** [filename.replace(/\.[^/.]+$/, '')]: the leftmost match is cut. *)
Fixpoint removeFileExtension (filename : jsstring) : jsstring :=
  match filename with
  | [] => []
  | c :: r =>
      if (c =? 46)%Z && extensionTail r then []
      else c :: removeFileExtension r
  end.

(** [filename.slice((filename.lastIndexOf('.') - 1 >>> 0) + 2)] *)
Definition getFileExtension (filename : jsstring) : jsstring :=
  sliceFrom filename (toUint32 (lastIndexOf filename 46 - 1) + 2)%Z.

(** *** Facts on [removeFileExtension] and [getFileExtension] *)

Lemma extensionTail_forallb r :
  extensionTail r = true ->
  forallb (fun c => negb (c =? 47)%Z && negb (c =? 46)%Z) r = true /\ r <> [].
Proof. destruct r; [discriminate|]. intros H. split; [exact H|discriminate]. Qed.

Lemma extensionTail_dot x r : extensionTail (x ++ 46%Z :: r) = false.
Proof.
  unfold extensionTail.
  assert (H : forallb (fun c => negb (c =? 47)%Z && negb (c =? 46)%Z) (x ++ 46%Z :: r) = false).
  { rewrite forallb_app. cbn. now rewrite andb_false_r. }
  rewrite H. now destruct (x ++ 46%Z :: r).
Qed.

(** A name [base.ext] loses [.ext]. *)
Lemma removeFileExtension_base base ext :
  extensionTail ext = true ->
  removeFileExtension (base ++ 46%Z :: ext) = base.
Proof.
  intros He. induction base as [|c base IH]; cbn [app removeFileExtension].
  - now rewrite He.
  - rewrite extensionTail_dot, andb_false_r. now rewrite IH.
Qed.

Lemma lastIndexOfFrom_absent s c : forall pos found,
  forallb (fun x => negb (x =? c)%Z) s = true ->
  lastIndexOfFrom s c pos found = found.
Proof.
  induction s as [|x s IH]; intros pos found H; cbn in *; [reflexivity|].
  apply andb_prop in H. destruct H as [H1 H2].
  apply negb_true_iff in H1. rewrite H1. now apply IH.
Qed.

Lemma lastIndexOfFrom_last base c ext : forall pos found,
  forallb (fun x => negb (x =? c)%Z) ext = true ->
  lastIndexOfFrom (base ++ c :: ext) c pos found = (pos + Z.of_nat (List.length base))%Z.
Proof.
  induction base as [|x base IH]; intros pos found H; cbn [app lastIndexOfFrom List.length].
  - rewrite Z.eqb_refl, lastIndexOfFrom_absent by exact H. cbn. lia.
  - rewrite IH by exact H. lia.
Qed.


(** *** The whole of [removeFileExtension] and [getFileExtension] *)

Lemma removeFileExtension_unchanged filename :
  (forall base ext, filename = base ++ 46%Z :: ext -> extensionTail ext = false) ->
  removeFileExtension filename = filename.
Proof.
  induction filename as [|c r IH]; intros H; cbn [removeFileExtension]; [reflexivity|].
  destruct ((c =? 46)%Z && extensionTail r) eqn:E.
  - apply andb_prop in E. destruct E as [E1 E2]. apply Z.eqb_eq in E1. subst c.
    rewrite (H [] r eq_refl) in E2. discriminate.
  - f_equal. apply IH. intros base ext ->. apply (H (c :: base) ext). reflexivity.
Qed.

Lemma removeFileExtension_cut filename :
  exists rest,
    filename = removeFileExtension filename ++ rest /\
    (rest = [] \/ exists ext, rest = 46%Z :: ext /\ extensionTail ext = true).
Proof.
  induction filename as [|c r (rest & Hr & Hcut)]; cbn [removeFileExtension].
  - exists []. split; [reflexivity|now left].
  - destruct ((c =? 46)%Z && extensionTail r) eqn:E.
    + apply andb_prop in E. destruct E as [E1 E2]. apply Z.eqb_eq in E1. subst c.
      exists (46%Z :: r). split; [reflexivity|]. right. now exists r.
    + exists rest. split; [cbn [app]; now rewrite <- Hr|exact Hcut].
Qed.

(** X1. [removeFileExtension] cuts a name at a dot exactly when what
    follows the dot is not empty and holds neither a dot nor a slash (so the
    dot is the last one of the name), and it removes the dot with what
    follows; every other name is returned as it is. In both cases the result
    is the beginning of the name. So [archive.tar.gz] loses [.gz] only, a
    name that is only an extension, [.epub], becomes empty, and a name
    without dot, one that ends with a dot and one whose last dot is in a
    directory part are unchanged. *)
Theorem removeFileExtension_cases (filename : jsstring) :
  (forall base ext,
     filename = base ++ 46%Z :: ext -> extensionTail ext = true ->
     removeFileExtension filename = base) /\
  ((forall base ext, filename = base ++ 46%Z :: ext -> extensionTail ext = false) ->
   removeFileExtension filename = filename) /\
  (exists rest,
     filename = removeFileExtension filename ++ rest /\
     (rest = [] \/ exists ext, rest = 46%Z :: ext /\ extensionTail ext = true)) /\
  removeFileExtension (str "archive.tar.gz") = str "archive.tar" /\
  removeFileExtension (str ".epub") = [] /\
  removeFileExtension (str "chapter 12") = str "chapter 12" /\
  removeFileExtension (str "chapter.") = str "chapter." /\
  removeFileExtension (str "vol.1/chapter") = str "vol.1/chapter".
Proof.
  split; [intros base ext -> He; now apply removeFileExtension_base|].
  split; [apply removeFileExtension_unchanged|].
  split; [apply removeFileExtension_cut|].
  repeat split.
Qed.

Definition noDot (s : jsstring) : bool := forallb (fun c => negb (c =? 46)%Z) s.

Lemma lastIndexOf_absent s : noDot s = true -> lastIndexOf s 46 = (-1)%Z.
Proof. intros H. unfold lastIndexOf. now apply lastIndexOfFrom_absent. Qed.

Lemma lastIndexOf_last base ext :
  noDot ext = true -> lastIndexOf (base ++ 46%Z :: ext) 46 = Z.of_nat (List.length base).
Proof. intros H. unfold lastIndexOf. now rewrite lastIndexOfFrom_last. Qed.

Lemma extensionTail_noDot ext : extensionTail ext = true -> noDot ext = true.
Proof.
  intros H. apply extensionTail_forallb in H. destruct H as [H _].
  unfold noDot. apply forallb_forall. intros x Hx.
  rewrite forallb_forall in H. specialize (H x Hx). apply andb_prop in H. tauto.
Qed.

(** The text after the last dot, when the dot is not the first character. *)
Lemma getFileExtension_after_dot base ext :
  base <> [] -> noDot ext = true ->
  (Z.of_nat (List.length (base ++ 46%Z :: ext)) < 2 ^ 32)%Z ->
  getFileExtension (base ++ 46%Z :: ext) = ext.
Proof.
  intros Hb He Hlen. unfold getFileExtension. rewrite lastIndexOf_last by exact He.
  rewrite length_app in Hlen. cbn [List.length] in Hlen.
  assert (0 < List.length base)%nat by (destruct base; [congruence|cbn; lia]).
  unfold toUint32. rewrite Z.mod_small by lia.
  unfold sliceFrom. rewrite length_app. cbn [List.length].
  destruct (Z.of_nat (List.length base + S (List.length ext))
            <=? Z.of_nat (List.length base) - 1 + 2)%Z eqn:E.
  - apply Z.leb_le in E. assert (List.length ext = 0)%nat by lia.
    destruct ext; [reflexivity|discriminate].
  - replace (Z.to_nat (Z.of_nat (List.length base) - 1 + 2))
      with (List.length base + 1)%nat by lia.
    rewrite skipn_app.
    replace (List.length base + 1 - List.length base)%nat with 1%nat by lia.
    rewrite skipn_all2 by lia. reflexivity.
Qed.

(** X2. On a name of fewer than 2^32 characters, [getFileExtension]
    returns the text after the last dot when that dot is not the first
    character of the name, and the empty string when the name has no dot or
    when its only dot is its first character (the subtraction and the
    unsigned shift send the indices -1 and 0 past the end of the name). It
    agrees with [removeFileExtension] on the names that function cuts with a
    non-empty result: such a name is the stripped name, a dot and the
    extension. *)
Theorem getFileExtension_cases (filename : jsstring) :
  (Z.of_nat (List.length filename) < 2 ^ 32)%Z ->
  (noDot filename = true -> getFileExtension filename = []) /\
  (forall ext, filename = 46%Z :: ext -> noDot ext = true ->
     getFileExtension filename = []) /\
  (forall base ext, filename = base ++ 46%Z :: ext -> base <> [] -> noDot ext = true ->
     getFileExtension filename = ext) /\
  (forall base ext, filename = base ++ 46%Z :: ext -> base <> [] ->
     extensionTail ext = true ->
     removeFileExtension filename ++ 46%Z :: getFileExtension filename = filename).
Proof.
  intros Hlen. split; [|split; [|split]].
  - intros H. unfold getFileExtension. rewrite lastIndexOf_absent by exact H.
    unfold toUint32, sliceFrom.
    change ((-1 - 1) mod 2 ^ 32 + 2)%Z with (2 ^ 32)%Z.
    destruct (Z.of_nat (List.length filename) <=? 2 ^ 32)%Z eqn:E; [reflexivity|].
    apply Z.leb_gt in E. lia.
  - intros ext -> H. unfold getFileExtension.
    pose proof (lastIndexOf_last [] ext H) as Hi. cbn [app List.length] in Hi. rewrite Hi.
    unfold toUint32, sliceFrom.
    change ((Z.of_nat 0 - 1) mod 2 ^ 32 + 2)%Z with (2 ^ 32 + 1)%Z.
    destruct (Z.of_nat (List.length (46%Z :: ext)) <=? 2 ^ 32 + 1)%Z eqn:E; [reflexivity|].
    apply Z.leb_gt in E. lia.
  - intros base ext -> Hb He. now apply getFileExtension_after_dot.
  - intros base ext -> Hb He.
    rewrite removeFileExtension_base by exact He.
    rewrite getFileExtension_after_dot; auto using extensionTail_noDot.
Qed.

(** The name [report.final.PDF]. *)
Lemma getFileExtension_cases_witness :
  (Z.of_nat (List.length (str "report.final.PDF")) < 2 ^ 32)%Z /\
  ((noDot (str "report.final.PDF") = true -> getFileExtension (str "report.final.PDF") = []) /\
   (forall ext, str "report.final.PDF" = 46%Z :: ext -> noDot ext = true ->
      getFileExtension (str "report.final.PDF") = []) /\
   (forall base ext, str "report.final.PDF" = base ++ 46%Z :: ext -> base <> [] ->
      noDot ext = true -> getFileExtension (str "report.final.PDF") = ext) /\
   (forall base ext, str "report.final.PDF" = base ++ 46%Z :: ext -> base <> [] ->
      extensionTail ext = true ->
      removeFileExtension (str "report.final.PDF")
        ++ 46%Z :: getFileExtension (str "report.final.PDF") = str "report.final.PDF")).
Proof.
  split; [vm_compute; reflexivity|].
  apply (getFileExtension_cases (str "report.final.PDF")). vm_compute. reflexivity.
Defined.

(** *** Validation of the selected files *)

(** [Utils.isValidFileType(file, allowedTypes)]. The case folding is that
    of ASCII, which is [toLowerCase] on the types the source passes
    ([.epub]) and accepts the same names: no character outside ASCII folds
    to a character of [.epub]. *)
Definition isValidFileType (file : UserFile.t) (allowedTypes : list jsstring) : bool :=
  let fileName := toLowerCase (UserFile.name file) in
  existsb (fun type => endsWith fileName (toLowerCase type)) allowedTypes.

(** The test of the signature of a ZIP file on the bytes read:
    50 4B, then 03, 05 or 07; a byte that is not there equals none. *)
Definition isZipHeader (view : list Z) : bool :=
  match view with
  | b0 :: b1 :: b2 :: _ =>
      ((b0 =? 80) && (b1 =? 75) && ((b2 =? 3) || (b2 =? 5) || (b2 =? 7)))%Z
  | _ => false
  end.

(** [Utils.validateEpubFile(file)]. The outer [catch] is not reached on a
    [File]: neither the test of the name nor the test of the size throws. *)
Definition validateEpubFile (file : UserFile.t) : bool :=
  if negb (isValidFileType file [str ".epub"]) then false
  else if (UserFile.size file =? 0)%Z then false
  else
    match UserFile.header file with
    | Ok view =>
        let isZip := isZipHeader view in
        if negb isZip then true else true
    | Throw _ => true
    end.

(** [Utils.validateFiles(files)]: the pair [(valid, invalid)]. *)
Definition validateFiles (files : list UserFile.t) : list UserFile.t * list UserFile.t :=
  let results := map (fun file => (file, validateEpubFile file)) files in
  (map fst (filter (fun r => snd r) results),
   map fst (filter (fun r => negb (snd r)) results)).

(** The name ends with [.epub], in any mix of cases. *)
Definition hasEpubExtension (name : jsstring) : Prop :=
  exists base ext, name = base ++ ext /\ toLowerCase ext = str ".epub".

Lemma isValidFileType_epub file :
  isValidFileType file [str ".epub"] = true <-> hasEpubExtension (UserFile.name file).
Proof.
  unfold isValidFileType, hasEpubExtension. cbn [existsb]. rewrite orb_false_r.
  change (toLowerCase (str ".epub")) with (str ".epub").
  rewrite endsWith_iff. split.
  - intros [pre H]. apply toLowerCase_app_inv in H.
    destruct H as (a & b & Hn & _ & Hb). now exists a, b.
  - intros (base & ext & -> & He). exists (toLowerCase base).
    now rewrite toLowerCase_app, He.
Qed.

Lemma validateEpubFile_eq file :
  validateEpubFile file =
  isValidFileType file [str ".epub"] && negb (UserFile.size file =? 0)%Z.
Proof.
  unfold validateEpubFile.
  destruct (isValidFileType file [str ".epub"]); cbn [negb andb]; [|reflexivity].
  destruct (UserFile.size file =? 0)%Z; cbn [negb]; [reflexivity|].
  destruct (UserFile.header file) as [view|message]; [|reflexivity].
  now destruct (negb (isZipHeader view)).
Qed.

Lemma map_fst_filter_snd (A : Type) (v p : A -> bool) (l : list A) :
  (forall x, p x = v x) ->
  map fst (filter (fun r : A * bool => snd r) (map (fun x => (x, p x)) l)) = filter v l.
Proof.
  intros H. induction l as [|x l IH]; cbn; [reflexivity|].
  rewrite H. destruct (v x); cbn; now rewrite IH.
Qed.

Lemma map_fst_filter_not_snd (A : Type) (v p : A -> bool) (l : list A) :
  (forall x, p x = v x) ->
  map fst (filter (fun r : A * bool => negb (snd r)) (map (fun x => (x, p x)) l))
  = filter (fun x => negb (v x)) l.
Proof.
  intros H. induction l as [|x l IH]; cbn; [reflexivity|].
  rewrite H. destruct (v x); cbn; now rewrite IH.
Qed.

(** X3. A selected file is accepted exactly when its name ends with
    [.epub] (in any mix of upper and lower case) and its size is not zero:
    what its first bytes are, and whether they can be read at all, has no
    effect on the verdict. [validateFiles] splits the selection into the
    accepted and the rejected files, each list in the order of the
    selection, and every selected file is in one of them and not in both. *)
Theorem validateFiles_partition (files : list UserFile.t) :
  let valid := fst (validateFiles files) in
  let invalid := snd (validateFiles files) in
  (forall file,
     validateEpubFile file = true <->
     hasEpubExtension (UserFile.name file) /\ UserFile.size file <> 0%Z) /\
  (forall file file',
     UserFile.name file' = UserFile.name file -> UserFile.size file' = UserFile.size file ->
     validateEpubFile file' = validateEpubFile file) /\
  valid = filter validateEpubFile files /\
  invalid = filter (fun file => negb (validateEpubFile file)) files /\
  Permutation (valid ++ invalid) files /\
  (forall file, In file valid -> ~ In file invalid).
Proof.
  intros valid invalid.
  assert (Hv : valid = filter validateEpubFile files).
  { unfold valid, validateFiles. cbn [fst]. now apply map_fst_filter_snd. }
  assert (Hi : invalid = filter (fun file => negb (validateEpubFile file)) files).
  { unfold invalid, validateFiles. cbn [snd]. now apply map_fst_filter_not_snd. }
  split.
  { intros file. rewrite validateEpubFile_eq, andb_true_iff, isValidFileType_epub.
    rewrite negb_true_iff, Z.eqb_neq. tauto. }
  split.
  { intros file file' Hn Hs. rewrite !validateEpubFile_eq.
    unfold isValidFileType. now rewrite Hn, Hs. }
  split; [exact Hv|]. split; [exact Hi|]. split.
  - rewrite Hv, Hi. apply filter_partition_perm.
  - intros file. rewrite Hv, Hi, !filter_In. intros [_ H1] [_ H2].
    rewrite H1 in H2. discriminate.
Qed.

(** The stripped name of an accepted file is its name without its last
    five characters. *)
Lemma removeFileExtension_epub name :
  hasEpubExtension name ->
  removeFileExtension name = firstn (List.length name - 5) name /\
  toLowerCase (skipn (List.length name - 5) name) = str ".epub".
Proof.
  intros (base & ext & -> & He).
  assert (Hlen : List.length ext = 5%nat).
  { rewrite <- (toLowerCase_length ext), He. reflexivity. }
  destruct ext as [|c0 [|c1 [|c2 [|c3 [|c4 [|c5 r]]]]]]; try discriminate.
  cbn in He. injection He as H0 H1 H2 H3 H4.
  apply (lowerChar_other c0 (k := 46%Z)) in H0; [|lia|lia]. subst c0.
  assert (Ht : extensionTail [c1; c2; c3; c4] = true).
  { cbn [extensionTail forallb].
    assert (Hc : forall c k, lowerChar c = k -> (97 <= k <= 122)%Z ->
                   negb (c =? 47)%Z && negb (c =? 46)%Z = true).
    { intros c k Hk Hr. unfold lowerChar in Hk.
      destruct ((65 <=? c) && (c <=? 90))%Z eqn:E.
      - apply andb_prop in E. destruct E as [Ea Eb]. apply Z.leb_le in Ea, Eb.
        apply andb_true_intro. split; apply negb_true_iff, Z.eqb_neq; lia.
      - apply andb_true_intro. split; apply negb_true_iff, Z.eqb_neq; lia. }
    rewrite (Hc c1 _ H1), (Hc c2 _ H2), (Hc c3 _ H3), (Hc c4 _ H4) by lia.
    reflexivity. }
  rewrite length_app. cbn [List.length].
  replace (List.length base + 5 - 5)%nat with (List.length base) by lia.
  rewrite removeFileExtension_base by exact Ht.
  rewrite firstn_app, Nat.sub_diag, firstn_all. cbn [firstn]. rewrite app_nil_r.
  split; [reflexivity|].
  rewrite skipn_app, skipn_all, Nat.sub_diag. cbn [skipn app toLowerCase map].
  now rewrite H1, H2, H3, H4.
Qed.

End Utils.

(* ================================================================== *)
(** ** js/zipGenerator.js: class NameProcessor *)
(* ================================================================== *)

Module NameProcessor.
Import JS.

(** The state of a processor: [numberPattern.lastIndex] and [sortedFiles]. *)
Record State := {
  lastIndex : nat;
  sortedFiles : list RankedFile.t
}.

(** The constructor. *)
Definition init : State := {| lastIndex := 0; sortedFiles := [] |}.

Fixpoint takeDigits (s : jsstring) : jsstring :=
  match s with
  | c :: r => if isDigit c then c :: takeDigits r else []
  | [] => []
  end.

(** The first match of [(\d+)] in [rest], which starts at position [pos] of
    the subject: its start and its text (the longest run, [+] is greedy). *)
Fixpoint findDigitRun (rest : jsstring) (pos : nat) : option (nat * jsstring) :=
  match rest with
  | [] => None
  | c :: r =>
      if isDigit c then Some (pos, takeDigits rest)
      else findDigitRun r (S pos)
  end.

(** [numberPattern.exec(s)] for the global pattern [/(\d+)/g]: the search
    starts at [lastIndex]; a match moves [lastIndex] to its end, a failure
    resets it to 0. The result is the match (index, text) and the new
    [lastIndex]. *)
Definition exec (s : jsstring) (li : nat) : option (nat * jsstring) * nat :=
  if (List.length s <? li)%nat then (None, 0%nat)
  else match findDigitRun (skipn li s) li with
       | None => (None, 0%nat)
       | Some (p, m) => (Some (p, m), (p + List.length m)%nat)
       end.

Definition mkToken (p : nat) (m : jsstring) : NumberToken.t :=
  {| NumberToken.value := parseInt m;
     NumberToken.originalString := m;
     NumberToken.index := p;
     NumberToken.length := List.length m |}.

(** [while ((match = this.numberPattern.exec(fileName)) !== null) push]:
    [None] when the fuel is used up before [exec] fails. *)
Fixpoint execLoop (fuel : nat) (s : jsstring) (li : nat)
    (numbers : list NumberToken.t) : option (list NumberToken.t * nat) :=
  match fuel with
  | O => None
  | S f =>
      match exec s li with
      | (None, li') => Some (numbers, li')
      | (Some (p, m), li') => execLoop f s li' (numbers ++ [mkToken p m])
      end
  end.

(** [hashCode]: [hash = ((hash << 5) - hash) + char; hash = hash & hash]
    over the code units, then [Math.abs]. *)
Definition hashStep (hash char : Z) : Z :=
  toInt32 (toInt32 (hash * 32) - hash + char).

Definition hashCode (s : jsstring) : Z := Z.abs (fold_left hashStep s 0%Z).

Definition separators : list Z := [45; 95; 32; 46; 40; 41; 91; 93]%Z.

(** [separators.includes(ch)]; the empty string taken out of range is not
    a separator. *)
Definition isSeparator (ch : option Z) : bool :=
  match ch with
  | Some c => existsb (Z.eqb c) separators
  | None => false
  end.

(** [calculateNumberScore]. The tests [index < fileNameLength * 0.2] and
    [index > fileNameLength * 0.8] are on doubles; for integers they are
    [5 * index < fileNameLength] and [5 * index > 4 * fileNameLength]. *)
Definition calculateNumberScore (numberObj : NumberToken.t) (fileName : jsstring) : Z :=
  let value := NumberToken.value numberObj in
  let index := NumberToken.index numberObj in
  let length := NumberToken.length numberObj in
  let fileNameLength := List.length fileName in
  let score := 0%Z in
  let score :=
    if (index =? 0)%nat || (index + length =? fileNameLength)%nat
    then (score + 50)%Z
    else if (5 * index <? fileNameLength)%nat || (4 * fileNameLength <? 5 * index)%nat
    then (score + 30)%Z
    else score in
  let score :=
    if (1 <=? length)%nat && (length <=? 3)%nat
    then (score + (30 - (Z.of_nat length - 1) * 5))%Z
    else score in
  let score :=
    if (value <=? 999)%Z
    then (score + Z.max 0 (20 - value / 50))%Z
    else score in
  let beforeChar := if (0 <? index)%nat then charAt fileName (index - 1) else None in
  let afterChar :=
    if (index + length <? fileNameLength)%nat then charAt fileName (index + length)
    else None in
  if isSeparator beforeChar || isSeparator afterChar
  then (score + 15)%Z
  else score.

(** The loop of [getPrimaryNumber] over [numbers[1..]]. *)
Fixpoint bestFrom (fileName : jsstring) (rest : list NumberToken.t)
    (bestNumber : NumberToken.t) (bestScore : Z) : NumberToken.t :=
  match rest with
  | [] => bestNumber
  | n :: rest' =>
      let score := calculateNumberScore n fileName in
      if (bestScore <? score)%Z then bestFrom fileName rest' n score
      else bestFrom fileName rest' bestNumber bestScore
  end.

Definition getPrimaryNumber (numbers : list NumberToken.t) (fileName : jsstring) : Z :=
  match numbers with
  | [] => hashCode fileName
  | [n] => NumberToken.value n
  | n0 :: rest =>
      NumberToken.value (bestFrom fileName rest n0 (calculateNumberScore n0 fileName))
  end.

(** One round of the callback of [extractNumbers]; [i] is
    [files.indexOf(fileObj)], the position of the object in the batch (the
    batch holds distinct objects). The second component is [lastIndex] as
    the loop leaves it. *)
Definition rankFile (i : nat) (fileObj : FileObj.t) : option (RankedFile.t * nat) :=
  let fileName := Utils.removeFileExtension (FileObj.name fileObj) in
  match execLoop (S (List.length fileName)) fileName 0 [] with
  | None => None
  | Some (numbers, li) =>
      Some ({| RankedFile.fileObj := fileObj;
               RankedFile.fileName := fileName;
               RankedFile.numbers := numbers;
               RankedFile.primaryNumber := getPrimaryNumber numbers fileName;
               RankedFile.originalIndex := i |}, li)
  end.

(** [extractNumbers]: [files.map(...)], threading [lastIndex]. *)
Fixpoint extractNumbersFrom (i : nat) (files : list FileObj.t) (li : nat)
    : option (list RankedFile.t * nat) :=
  match files with
  | [] => Some ([], li)
  | f :: rest =>
      match rankFile i f with
      | None => None
      | Some (r, li') =>
          match extractNumbersFrom (S i) rest li' with
          | None => None
          | Some (rs, li'') => Some (r :: rs, li'')
          end
      end
  end.

Definition extractNumbers (files : list FileObj.t) (st : State)
    : option (list RankedFile.t * State) :=
  match extractNumbersFrom 0 files (lastIndex st) with
  | None => None
  | Some (rs, li) => Some (rs, {| lastIndex := li; sortedFiles := sortedFiles st |})
  end.

(** [generateOutputNames] *)
Definition outputNameOf (digits sequenceNumber : nat) : jsstring :=
  padStart (toString sequenceNumber) digits 48%Z ++ str ".zip".

Fixpoint mapIndexFrom (A B : Type) (f : A -> nat -> B) (i : nat) (l : list A) : list B :=
  match l with
  | [] => []
  | x :: r => f x i :: mapIndexFrom f (S i) r
  end.

Definition generateOutputNames (sortedFiles : list RankedFile.t) : list OutputMapping.t :=
  let totalFiles := List.length sortedFiles in
  let digits := Nat.max 3 (List.length (toString totalFiles)) in
  mapIndexFrom (fun fileObj index =>
    let sequenceNumber := (index + 1)%nat in
    {| OutputMapping.fileId := FileObj.id (RankedFile.fileObj fileObj);
       OutputMapping.originalName := FileObj.name (RankedFile.fileObj fileObj);
       OutputMapping.outputName := outputNameOf digits sequenceNumber;
       OutputMapping.sequenceNumber := sequenceNumber;
       OutputMapping.primaryNumber := RankedFile.primaryNumber fileObj |})
    0 sortedFiles.

Section Sorting.
(** [a.localeCompare(b, 'zh-CN', {numeric: true})], the collation of the
    host. *)
Variable localeCompare : jsstring -> jsstring -> Z.

(** The comparator of [sortFilesByNumbers]. *)
Definition compareFiles (a b : RankedFile.t) : Z :=
  if negb (RankedFile.primaryNumber a =? RankedFile.primaryNumber b)%Z
  then (RankedFile.primaryNumber a - RankedFile.primaryNumber b)%Z
  else if negb (streq (RankedFile.fileName a) (RankedFile.fileName b))
  then localeCompare (RankedFile.fileName a) (RankedFile.fileName b)
  else (Z.of_nat (RankedFile.originalIndex a) - Z.of_nat (RankedFile.originalIndex b))%Z.

Definition sortFilesByNumbers (filesWithNumbers : list RankedFile.t) : list RankedFile.t :=
  sort compareFiles filesWithNumbers.

(** [processFileNames]: the mapping, and the processor afterwards. Nothing
    in the [try] block throws; [None] stands for an extraction loop that
    does not end. *)
Definition processFileNames (files : list FileObj.t) (st : State)
    : option (list OutputMapping.t * State) :=
  match extractNumbers files st with
  | None => None
  | Some (filesWithNumbers, st1) =>
      let sorted := sortFilesByNumbers filesWithNumbers in
      let nameMapping := generateOutputNames sorted in
      Some (nameMapping, {| lastIndex := lastIndex st1; sortedFiles := sorted |})
  end.

End Sorting.

(** *** The extraction loop computes the maximal digit runs *)

(** The maximal runs of decimal digits of [s], left to right, each with the
    position of its first digit; [s] starts at position [pos] of the name
    and [inRun] tells that the previous character was a digit. *)
Fixpoint digitRuns (s : jsstring) (pos : nat) (inRun : bool) : list (nat * jsstring) :=
  match s with
  | [] => []
  | c :: r =>
      if isDigit c then
        if inRun then digitRuns r (S pos) true
        else (pos, takeDigits s) :: digitRuns r (S pos) true
      else digitRuns r (S pos) false
  end.

Definition numbersOf (fileName : jsstring) : list NumberToken.t :=
  map (fun pm => mkToken (fst pm) (snd pm)) (digitRuns fileName 0 false).

Lemma digitRuns_inRun s : forall pos,
  digitRuns s pos true =
  digitRuns (skipn (List.length (takeDigits s)) s)
            (pos + List.length (takeDigits s)) false.
Proof.
  induction s as [|c r IH]; intros pos; [reflexivity|].
  cbn [digitRuns takeDigits]. destruct (isDigit c) eqn:E.
  - cbn [List.length skipn]. rewrite IH. f_equal. lia.
  - cbn [List.length skipn digitRuns]. rewrite E. f_equal. lia.
Qed.

Lemma findDigitRun_spec rest : forall pos,
  match findDigitRun rest pos with
  | None => digitRuns rest pos false = []
  | Some (p, m) =>
      (pos <= p)%nat /\ m <> [] /\
      (p + List.length m <= pos + List.length rest)%nat /\
      digitRuns rest pos false =
      (p, m) :: digitRuns (skipn (p + List.length m - pos) rest)
                          (p + List.length m) false
  end.
Proof.
  induction rest as [|c r IH]; intros pos; [reflexivity|].
  cbn [findDigitRun digitRuns]. destruct (isDigit c) eqn:E.
  - cbn [takeDigits]. rewrite E. cbn [List.length].
    assert (Hle : (List.length (takeDigits r) <= List.length r)%nat).
    { clear. induction r as [|x r IH]; cbn; [lia|].
      destruct (isDigit x); cbn; lia. }
    repeat split; [lia|discriminate|lia|].
    f_equal. rewrite digitRuns_inRun.
    replace (pos + S (List.length (takeDigits r)) - pos)%nat
      with (S (List.length (takeDigits r))) by lia.
    cbn [skipn]. f_equal. lia.
  - specialize (IH (S pos)). destruct (findDigitRun r (S pos)) as [[p m]|].
    + destruct IH as (H1 & H2 & H3 & H4). cbn [List.length].
      repeat split; [lia|exact H2|lia|].
      rewrite H4. f_equal.
      replace (p + List.length m - pos)%nat
        with (S (p + List.length m - S pos)) by lia.
      reflexivity.
    + exact IH.
Qed.

Lemma execLoop_runs fuel : forall s li acc,
  (li <= List.length s)%nat -> (List.length s - li < fuel)%nat ->
  execLoop fuel s li acc =
  Some (acc ++ map (fun pm => mkToken (fst pm) (snd pm))
                   (digitRuns (skipn li s) li false), 0%nat).
Proof.
  induction fuel as [|f IH]; intros s li acc Hli Hf; [lia|].
  cbn [execLoop]. unfold exec.
  destruct (List.length s <? li)%nat eqn:G; [apply Nat.ltb_lt in G; lia|].
  pose proof (findDigitRun_spec (skipn li s) li) as Hs.
  rewrite length_skipn in Hs.
  destruct (findDigitRun (skipn li s) li) as [[p m]|].
  - destruct Hs as (H1 & H2 & H3 & H4).
    assert (0 < List.length m)%nat by (destruct m; [congruence|cbn; lia]).
    rewrite IH by lia. rewrite H4. cbn [map fst snd].
    rewrite <- app_assoc. cbn [app]. rewrite skipn_skipn.
    replace (p + List.length m - li + li)%nat with (p + List.length m)%nat by lia.
    reflexivity.
  - rewrite Hs. cbn [map]. now rewrite app_nil_r.
Qed.

(** The loop of [extractNumbers] ends, with the tokens of the maximal
    digit runs and [lastIndex] back at 0. *)
Lemma execLoop_total fileName :
  execLoop (S (List.length fileName)) fileName 0 [] = Some (numbersOf fileName, 0%nat).
Proof. rewrite execLoop_runs by lia. reflexivity. Qed.

(** The element [extractNumbers] builds for the file at position [i]. *)
Definition ranked (i : nat) (fileObj : FileObj.t) : RankedFile.t :=
  let fileName := Utils.removeFileExtension (FileObj.name fileObj) in
  {| RankedFile.fileObj := fileObj;
     RankedFile.fileName := fileName;
     RankedFile.numbers := numbersOf fileName;
     RankedFile.primaryNumber := getPrimaryNumber (numbersOf fileName) fileName;
     RankedFile.originalIndex := i |}.

Lemma rankFile_total i fileObj : rankFile i fileObj = Some (ranked i fileObj, 0%nat).
Proof. unfold rankFile. now rewrite execLoop_total. Qed.

Lemma extractNumbersFrom_total files : forall i li,
  extractNumbersFrom i files li =
  Some (mapIndexFrom (fun f k => ranked k f) i files,
        match files with [] => li | _ => 0%nat end).
Proof.
  induction files as [|f rest IH]; intros i li; [reflexivity|].
  cbn [extractNumbersFrom mapIndexFrom]. rewrite rankFile_total, IH.
  now destruct rest.
Qed.

Lemma length_mapIndexFrom (A B : Type) (f : A -> nat -> B) l : forall i,
  List.length (mapIndexFrom f i l) = List.length l.
Proof. induction l as [|x r IH]; intros i; cbn; [reflexivity|now rewrite IH]. Qed.

Lemma nth_error_mapIndexFrom (A B : Type) (f : A -> nat -> B) l : forall i k,
  nth_error (mapIndexFrom f i l) k =
  option_map (fun x => f x (i + k)%nat) (nth_error l k).
Proof.
  induction l as [|x r IH]; intros i [|k]; cbn; try reflexivity.
  - now rewrite Nat.add_0_r.
  - rewrite IH. now replace (S i + k)%nat with (i + S k)%nat by lia.
Qed.

(** *** Output naming *)

Lemma outputNameOf_inj digits a b : outputNameOf digits a = outputNameOf digits b -> a = b.
Proof.
  unfold outputNameOf. intros H. apply app_inv_tail in H.
  apply Nat2Z.inj. rewrite <- !parseDigits_toString.
  rewrite <- (parseDigits_padStart (toString a) digits).
  rewrite <- (parseDigits_padStart (toString b) digits).
  now rewrite H.
Qed.

(** Within a batch of [n] files every rank is padded to exactly [digits]
    characters, so the names compare as their ranks do. *)
Lemma outputNameOf_lexLt n a b :
  let digits := Nat.max 3 (List.length (toString n)) in
  (a < b)%nat -> (b <= n)%nat ->
  lexLt (outputNameOf digits a) (outputNameOf digits b).
Proof.
  intros digits Hab Hbn. unfold outputNameOf.
  pose proof (toString_length_mono Hbn) as Lb.
  assert (La : (List.length (toString a) <= List.length (toString n))%nat)
    by (apply toString_length_mono; lia).
  apply lexLt_app.
  - rewrite !padStart_length. unfold digits. lia.
  - apply lexLt_parseDigits.
    + rewrite !padStart_length. unfold digits. lia.
    + apply padStart_digits, toString_digits.
    + apply padStart_digits, toString_digits.
    + rewrite !parseDigits_padStart, !parseDigits_toString. lia.
Qed.

Definition mappingOf (digits : nat) (fileObj : RankedFile.t) (index : nat) : OutputMapping.t :=
  {| OutputMapping.fileId := FileObj.id (RankedFile.fileObj fileObj);
     OutputMapping.originalName := FileObj.name (RankedFile.fileObj fileObj);
     OutputMapping.outputName := outputNameOf digits (index + 1);
     OutputMapping.sequenceNumber := (index + 1)%nat;
     OutputMapping.primaryNumber := RankedFile.primaryNumber fileObj |}.

Lemma generateOutputNames_length sorted :
  List.length (generateOutputNames sorted) = List.length sorted.
Proof. apply length_mapIndexFrom. Qed.

Lemma generateOutputNames_nth sorted k :
  nth_error (generateOutputNames sorted) k =
  option_map
    (fun f => mappingOf (Nat.max 3 (List.length (toString (List.length sorted)))) f k)
    (nth_error sorted k).
Proof. unfold generateOutputNames. now rewrite nth_error_mapIndexFrom. Qed.

Lemma map_mapIndexFrom_const (A B C : Type) (f : A -> nat -> B) (g : B -> C)
    (h : nat -> C) l :
  (forall x i, g (f x i) = h i) ->
  forall i, map g (mapIndexFrom f i l) = map h (seq i (List.length l)).
Proof.
  intros Hgf. induction l as [|x r IH]; intros i; cbn; [reflexivity|].
  now rewrite Hgf, IH.
Qed.

Lemma generateOutputNames_sequenceNumbers sorted :
  map OutputMapping.sequenceNumber (generateOutputNames sorted) =
  seq 1 (List.length sorted).
Proof.
  unfold generateOutputNames.
  rewrite (map_mapIndexFrom_const _ OutputMapping.sequenceNumber (fun i => (i + 1)%nat))
    by reflexivity.
  rewrite <- seq_shift. apply map_ext. intros; lia.
Qed.

Lemma generateOutputNames_outputNames sorted :
  map OutputMapping.outputName (generateOutputNames sorted) =
  map (outputNameOf (Nat.max 3 (List.length (toString (List.length sorted)))))
      (seq 1 (List.length sorted)).
Proof.
  unfold generateOutputNames.
  rewrite (map_mapIndexFrom_const _ OutputMapping.outputName
             (fun i => outputNameOf (Nat.max 3 (List.length (toString (List.length sorted))))
                                    (i + 1)))
    by reflexivity.
  rewrite <- seq_shift, map_map. apply map_ext. intros a. f_equal. lia.
Qed.

Lemma generateOutputNames_In sorted m :
  In m (generateOutputNames sorted) ->
  (1 <= OutputMapping.sequenceNumber m <= List.length sorted)%nat /\
  OutputMapping.outputName m =
  outputNameOf (Nat.max 3 (List.length (toString (List.length sorted))))
               (OutputMapping.sequenceNumber m).
Proof.
  intros H. apply In_nth_error in H. destruct H as [k Hk].
  assert (Hlt : (k < List.length sorted)%nat).
  { rewrite <- generateOutputNames_length. apply nth_error_Some. congruence. }
  rewrite generateOutputNames_nth in Hk.
  destruct (nth_error sorted k) as [f|]; [|discriminate].
  injection Hk as <-. cbn. split; [lia|reflexivity].
Qed.

Section Sequencing.
Variable localeCompare : jsstring -> jsstring -> Z.

(** [processFileNames] always returns: the mapping is the naming of the
    sorted ranked batch, and the pattern is left with [lastIndex] 0. *)
Lemma processFileNames_eq files st :
  processFileNames localeCompare files st =
  let sorted :=
    sortFilesByNumbers localeCompare (mapIndexFrom (fun f k => ranked k f) 0 files) in
  Some (generateOutputNames sorted,
        {| lastIndex := match files with [] => lastIndex st | _ => 0%nat end;
           sortedFiles := sorted |}).
Proof.
  unfold processFileNames, extractNumbers.
  now rewrite extractNumbersFrom_total.
Qed.

Lemma sortFilesByNumbers_length l :
  List.length (sortFilesByNumbers localeCompare l) = List.length l.
Proof. apply sort_length. Qed.

(** C1. For a batch of N files the Name Sequencer returns N mappings; their
    sequence numbers are 1..N in order; the output name of rank r is r
    zero-padded to max(3, number of digits of N) characters followed by
    ".zip"; the names are pairwise distinct and their lexicographic order
    is the order of the ranks. With N = 1000 the width is 4 and the names
    run from 0001.zip to 1000.zip. *)
Theorem processFileNames_sequence files st :
  let N := List.length files in
  let digits := Nat.max 3 (List.length (toString N)) in
  exists mapping st',
    processFileNames localeCompare files st = Some (mapping, st') /\
    List.length mapping = N /\
    map OutputMapping.sequenceNumber mapping = seq 1 N /\
    map OutputMapping.outputName mapping =
      map (fun r => padStart (toString r) digits 48%Z ++ str ".zip") (seq 1 N) /\
    NoDup (map OutputMapping.outputName mapping) /\
    (forall a b, In a mapping -> In b mapping ->
       (OutputMapping.sequenceNumber a < OutputMapping.sequenceNumber b)%nat <->
       lexLt (OutputMapping.outputName a) (OutputMapping.outputName b)) /\
    (N = 1000%nat ->
       digits = 4%nat /\
       option_map OutputMapping.outputName (nth_error mapping 0) = Some (str "0001.zip") /\
       option_map OutputMapping.outputName (nth_error mapping 999) = Some (str "1000.zip")).
Proof.
  intros N digits. rewrite processFileNames_eq. cbv zeta.
  set (sorted := sortFilesByNumbers localeCompare _).
  assert (HN : List.length sorted = N).
  { unfold sorted. rewrite sortFilesByNumbers_length. apply length_mapIndexFrom. }
  eexists _, _. split; [reflexivity|].
  split; [now rewrite generateOutputNames_length|].
  split; [now rewrite generateOutputNames_sequenceNumbers, HN|].
  split; [rewrite generateOutputNames_outputNames, HN; reflexivity|].
  split.
  { rewrite generateOutputNames_outputNames.
    apply Injective_map_NoDup; [|apply seq_NoDup].
    intros a b. apply outputNameOf_inj. }
  split.
  { intros a b Ha Hb.
    apply generateOutputNames_In in Ha, Hb. rewrite HN in Ha, Hb.
    destruct Ha as [Ra ->], Hb as [Rb ->]. fold N digits.
    split; [intros Hlt; apply outputNameOf_lexLt; lia|].
    intros Hlex.
    destruct (Nat.lt_trichotomy (OutputMapping.sequenceNumber a)
                                (OutputMapping.sequenceNumber b)) as [L|[E|G]].
    - exact L.
    - rewrite E in Hlex. now apply lexLt_irrefl in Hlex.
    - exfalso. apply (lexLt_asym _ _ Hlex).
      apply outputNameOf_lexLt; lia. }
  intros E. rewrite !generateOutputNames_nth, HN.
  assert (Hd : digits = 4%nat) by (unfold digits; rewrite E; reflexivity).
  split; [exact Hd|]. fold N digits. rewrite Hd.
  destruct (nth_error sorted 0) eqn:E0, (nth_error sorted 999) eqn:E9;
    try (apply nth_error_None in E0; lia); try (apply nth_error_None in E9; lia).
  split; reflexivity.
Qed.

End Sequencing.

(** *** The hash of a name *)

Lemma toInt32_range z : (- 2 ^ 31 <= toInt32 z < 2 ^ 31)%Z.
Proof.
  unfold toInt32.
  pose proof (Z.mod_pos_bound (z + 2 ^ 31) (2 ^ 32) ltac:(lia)). lia.
Qed.

Lemma fold_hashStep_range s : forall h,
  (- 2 ^ 31 <= h < 2 ^ 31)%Z ->
  (- 2 ^ 31 <= fold_left hashStep s h < 2 ^ 31)%Z.
Proof.
  induction s as [|c s IH]; intros h Hh; cbn [fold_left]; [exact Hh|].
  apply IH. unfold hashStep. apply toInt32_range.
Qed.

Lemma hashCode_range s : (0 <= hashCode s <= 2 ^ 31)%Z.
Proof.
  unfold hashCode.
  pose proof (fold_hashStep_range s (h := 0%Z) ltac:(lia)). lia.
Qed.

(** *** Names without digits *)

Definition hasNoDigit (s : jsstring) : bool := forallb (fun c => negb (isDigit c)) s.

Lemma digitRuns_nil_iff s : forall pos,
  digitRuns s pos false = [] <-> hasNoDigit s = true.
Proof.
  induction s as [|c r IH]; intros pos; cbn [digitRuns hasNoDigit forallb]; [tauto|].
  destruct (isDigit c); cbn [negb andb].
  - split; discriminate.
  - apply IH.
Qed.

Lemma numbersOf_nil_iff s : numbersOf s = [] <-> hasNoDigit s = true.
Proof.
  unfold numbersOf. rewrite <- (digitRuns_nil_iff s 0).
  destruct (digitRuns s 0 false); cbn; split; congruence.
Qed.

(** *** The score, as the specification words it *)

(** +50 for a token that starts at index 0 or ends at the end of the name,
    otherwise +30 for one that starts in the first or in the last 20%. *)
Definition positionBonus (index length nameLength : nat) : Z :=
  if (index =? 0)%nat || (index + length =? nameLength)%nat then 50%Z
  else if (5 * index <? nameLength)%nat || (4 * nameLength <? 5 * index)%nat then 30%Z
  else 0%Z.

(** +30 - (length - 1) * 5 for a token of 1 to 3 digits. *)
Definition lengthBonus (length : nat) : Z :=
  if (1 <=? length)%nat && (length <=? 3)%nat then (30 - (Z.of_nat length - 1) * 5)%Z
  else 0%Z.

(** +max(0, 20 - floor(value / 50)) for a value of at most 999. *)
Definition valueBonus (value : Z) : Z :=
  if (value <=? 999)%Z then Z.max 0 (20 - value / 50) else 0%Z.

(** +15 when the character just before or just after the token is one of
    [- _ space . ( ) [ ]]; there is no such character out of bounds. *)
Definition separatorBonus (fileName : jsstring) (index length : nat) : Z :=
  let before := match index with O => None | S i => nth_error fileName i end in
  let after := nth_error fileName (index + length) in
  if isSeparator before || isSeparator after then 15%Z else 0%Z.

Definition scoreSpec (n : NumberToken.t) (fileName : jsstring) : Z :=
  (positionBonus (NumberToken.index n) (NumberToken.length n) (List.length fileName)
   + lengthBonus (NumberToken.length n)
   + valueBonus (NumberToken.value n)
   + separatorBonus fileName (NumberToken.index n) (NumberToken.length n))%Z.

Lemma calculateNumberScore_spec n fileName :
  calculateNumberScore n fileName = scoreSpec n fileName.
Proof.
  unfold calculateNumberScore, scoreSpec, positionBonus, lengthBonus, valueBonus,
    separatorBonus, charAt.
  destruct n as [value orig index length]; cbn [NumberToken.value NumberToken.index NumberToken.length].
  assert (Hb : (if (0 <? index)%nat then nth_error fileName (index - 1) else None)
               = match index with O => None | S i => nth_error fileName i end).
  { destruct index as [|i]; [reflexivity|].
    cbn [Nat.ltb Nat.leb]. now replace (S i - 1)%nat with i by lia. }
  assert (Ha : (if (index + length <? List.length fileName)%nat
                then nth_error fileName (index + length) else None)
               = nth_error fileName (index + length)).
  { destruct (index + length <? List.length fileName)%nat eqn:E; [reflexivity|].
    symmetry. apply nth_error_None. apply Nat.ltb_ge in E. exact E. }
  rewrite Hb, Ha.
  repeat match goal with |- context [if ?c then _ else _] => destruct c end; lia.
Qed.

(** *** The tokens of a name *)

Lemma takeDigits_prefix s : firstn (List.length (takeDigits s)) s = takeDigits s.
Proof.
  induction s as [|c r IH]; cbn [takeDigits]; [reflexivity|].
  destruct (isDigit c); [|reflexivity]. cbn [List.length firstn]. now rewrite IH.
Qed.

Lemma takeDigits_digits s : Forall (fun c => isDigit c = true) (takeDigits s).
Proof.
  induction s as [|c r IH]; cbn [takeDigits]; [constructor|].
  destruct (isDigit c) eqn:E; [now constructor|constructor].
Qed.

Lemma takeDigits_maximal s c :
  nth_error s (List.length (takeDigits s)) = Some c -> isDigit c = false.
Proof.
  induction s as [|x r IH]; cbn [takeDigits]; [discriminate|].
  destruct (isDigit x) eqn:E; cbn [List.length nth_error]; [exact IH|].
  intros H. injection H as <-. exact E.
Qed.

(** The digits [m] are the text of [s] at position [p], and the run cannot
    be extended to the left or to the right. *)
Definition maximalRun (s : jsstring) (p : nat) (m : jsstring) : Prop :=
  m <> [] /\
  Forall (fun c => isDigit c = true) m /\
  firstn (List.length m) (skipn p s) = m /\
  (forall c, p <> 0%nat -> nth_error s (p - 1) = Some c -> isDigit c = false) /\
  (forall c, nth_error s (p + List.length m) = Some c -> isDigit c = false).

Lemma digitRuns_lower s : forall pos inRun p m,
  In (p, m) (digitRuns s pos inRun) -> (pos <= p)%nat.
Proof.
  induction s as [|c r IH]; intros pos inRun p m H; cbn [digitRuns] in H; [contradiction|].
  destruct (isDigit c); [destruct inRun|].
  - apply IH in H. lia.
  - destruct H as [H|H]; [injection H as <- _; lia|apply IH in H; lia].
  - apply IH in H. lia.
Qed.

Lemma digitRuns_after_run s : forall pos p m,
  In (p, m) (digitRuns s pos true) -> (pos + List.length (takeDigits s) < p)%nat.
Proof.
  induction s as [|c r IH]; intros pos p m H; cbn [digitRuns takeDigits] in *; [contradiction|].
  destruct (isDigit c).
  - apply IH in H. cbn [List.length]. lia.
  - apply digitRuns_lower in H. cbn [List.length]. lia.
Qed.

Lemma digitRuns_cons c r pos inRun :
  digitRuns (c :: r) pos inRun =
  if isDigit c then
    if inRun then digitRuns r (S pos) true
    else (pos, takeDigits (c :: r)) :: digitRuns r (S pos) true
  else digitRuns r (S pos) false.
Proof. reflexivity. Qed.

Lemma digitRuns_maximal rest : forall pre inRun p m,
  (inRun = false -> forall pre' c, pre = pre' ++ [c] -> isDigit c = false) ->
  In (p, m) (digitRuns rest (List.length pre) inRun) ->
  maximalRun (pre ++ rest) p m.
Proof.
  induction rest as [|c r IH]; intros pre inRun p m Hpre H; [contradiction|].
  rewrite digitRuns_cons in H.
  assert (Hnext : forall b,
            (b = false -> isDigit c = false) ->
            In (p, m) (digitRuns r (S (List.length pre)) b) ->
            maximalRun (pre ++ c :: r) p m).
  { intros b Hb Hin.
    replace (pre ++ c :: r) with ((pre ++ [c]) ++ r) by (now rewrite <- app_assoc).
    apply (IH (pre ++ [c]) b).
    - intros -> pre' c' E. apply app_inj_tail in E. destruct E as [_ <-]. now apply Hb.
    - rewrite length_app. cbn [List.length]. now rewrite Nat.add_1_r. }
  destruct (isDigit c) eqn:E; [destruct inRun|].
  - apply (Hnext true); [discriminate|exact H].
  - destruct H as [H|H]; [|apply (Hnext true); [discriminate|exact H]].
    apply pair_equal_spec in H. destruct H as [<- <-]. unfold maximalRun.
    split; [cbn [takeDigits]; rewrite E; discriminate|].
    split; [apply takeDigits_digits|].
    split; [rewrite skipn_app, skipn_all, Nat.sub_diag; cbn [skipn app];
            apply takeDigits_prefix|].
    split.
    + intros x Hp Hx.
      destruct (exists_last (l := pre)) as (pre' & y & Hy).
      { intros ->. now apply Hp. }
      rewrite Hy in Hx. rewrite length_app in Hx. cbn [List.length] in Hx.
      rewrite <- app_assoc in Hx.
      rewrite nth_error_app2 in Hx by lia.
      replace (List.length pre' + 1 - 1 - List.length pre')%nat with 0%nat in Hx by lia.
      cbn in Hx. injection Hx as <-. now apply (Hpre eq_refl pre').
    + intros x Hx. rewrite nth_error_app2 in Hx by lia.
      replace (List.length pre + List.length (takeDigits (c :: r)) - List.length pre)%nat
        with (List.length (takeDigits (c :: r))) in Hx by lia.
      now apply takeDigits_maximal in Hx.
  - apply (Hnext false); [reflexivity|exact H].
Qed.

Lemma digitRuns_cover s : forall pos inRun i c,
  nth_error s i = Some c -> isDigit c = true ->
  (exists p m, In (p, m) (digitRuns s pos inRun) /\
               (p <= pos + i < p + List.length m)%nat) \/
  (inRun = true /\ (i < List.length (takeDigits s))%nat).
Proof.
  induction s as [|c0 r IH]; intros pos inRun i c Hi Hc; [destruct i; discriminate|].
  cbn [digitRuns takeDigits].
  destruct i as [|j]; cbn [nth_error] in Hi.
  - injection Hi as ->. rewrite Hc. destruct inRun.
    + right. split; [reflexivity|cbn [List.length]; lia].
    + left. exists pos, (c :: takeDigits r). split; [now left|cbn [List.length]; lia].
  - destruct (isDigit c0) eqn:E; [destruct inRun|].
    + destruct (IH (S pos) true j c Hi Hc) as [(p & m & Hin & Hr)|[_ Hr]].
      * left. exists p, m. split; [exact Hin|lia].
      * right. split; [reflexivity|cbn [List.length]; lia].
    + left. destruct (IH (S pos) true j c Hi Hc) as [(p & m & Hin & Hr)|[_ Hr]].
      * exists p, m. split; [now right|lia].
      * exists pos, (c0 :: takeDigits r). split; [now left|cbn [List.length]; lia].
    + destruct (IH (S pos) false j c Hi Hc) as [(p & m & Hin & Hr)|[Hb _]];
        [|discriminate].
      left. exists p, m. split; [exact Hin|lia].
Qed.

Lemma digitRuns_sorted s : forall pos inRun,
  StronglySorted (fun a b => (fst a + List.length (snd a) < fst b)%nat)
                 (digitRuns s pos inRun).
Proof.
  induction s as [|c r IH]; intros pos inRun; cbn [digitRuns]; [constructor|].
  destruct (isDigit c) eqn:E; [destruct inRun|]; try apply IH.
  constructor; [apply IH|].
  apply Forall_forall. intros [p m] H. apply digitRuns_after_run in H.
  cbn [fst snd takeDigits]. rewrite E. cbn [List.length]. lia.
Qed.

Lemma StronglySorted_map (A B : Type) (R : B -> B -> Prop) (f : A -> B) (l : list A) :
  StronglySorted (fun a b => R (f a) (f b)) l -> StronglySorted R (map f l).
Proof.
  induction 1 as [|a l Hs IH Hall]; cbn [map]; constructor; [exact IH|].
  apply Forall_forall. intros y Hy. apply in_map_iff in Hy.
  destruct Hy as (x & <- & Hx). rewrite Forall_forall in Hall. now apply Hall.
Qed.

(** The tokens of a name: each is a maximal run of digits of the name,
    with its text, its index, its length and the Number of its digits;
    they are in the order of the name, and every digit of the name is in
    one of them. *)
Definition tokensOf (fileName : jsstring) (numbers : list NumberToken.t) : Prop :=
  (forall n, In n numbers ->
     NumberToken.originalString n =
       firstn (NumberToken.length n) (skipn (NumberToken.index n) fileName) /\
     NumberToken.length n = List.length (NumberToken.originalString n) /\
     (1 <= NumberToken.length n)%nat /\
     Forall (fun c => isDigit c = true) (NumberToken.originalString n) /\
     NumberToken.value n = toNumber (parseDigits (NumberToken.originalString n)) /\
     (forall c, NumberToken.index n <> 0%nat ->
        nth_error fileName (NumberToken.index n - 1) = Some c -> isDigit c = false) /\
     (forall c, nth_error fileName (NumberToken.index n + NumberToken.length n) = Some c ->
        isDigit c = false)) /\
  StronglySorted
    (fun a b => (NumberToken.index a + NumberToken.length a < NumberToken.index b)%nat)
    numbers /\
  (forall i c, nth_error fileName i = Some c -> isDigit c = true ->
     exists n, In n numbers /\
       (NumberToken.index n <= i < NumberToken.index n + NumberToken.length n)%nat).

Lemma numbersOf_tokens fileName : tokensOf fileName (numbersOf fileName).
Proof.
  split; [|split].
  - intros n Hn. unfold numbersOf in Hn. apply in_map_iff in Hn.
    destruct Hn as ([p m] & <- & Hin). cbn [fst snd mkToken NumberToken.originalString
      NumberToken.length NumberToken.index NumberToken.value].
    apply (@digitRuns_maximal fileName [] false) in Hin.
    2:{ intros _ pre' c E. destruct pre'; discriminate. }
    cbn [app] in Hin. destruct Hin as (Hne & Hd & Ht & Hb & Ha).
    split; [now symmetry|]. split; [reflexivity|].
    split; [destruct m; [congruence|cbn; lia]|].
    split; [exact Hd|]. split; [reflexivity|]. split; assumption.
  - unfold numbersOf. apply StronglySorted_map.
    cbn [mkToken NumberToken.index NumberToken.length].
    apply (digitRuns_sorted fileName 0 false).
  - intros i c Hi Hc.
    destruct (@digitRuns_cover fileName 0 false i c Hi Hc) as [(p & m & Hin & Hr)|[Hb _]];
      [|discriminate].
    exists (mkToken p m). split; [|cbn; lia].
    unfold numbersOf. apply in_map_iff. now exists (p, m).
Qed.

(** *** Selection of the primary number *)

(** [best], at position [k] of [l], has the highest score of [l] and is the
    leftmost token with that score. *)
Definition leftmostMax (score : NumberToken.t -> Z) (l : list NumberToken.t)
    (k : nat) (best : NumberToken.t) : Prop :=
  nth_error l k = Some best /\
  (forall n, In n l -> (score n <= score best)%Z) /\
  (forall j n, (j < k)%nat -> nth_error l j = Some n -> (score n < score best)%Z).

Lemma leftmostMax_snoc_keep score l k best n :
  leftmostMax score l k best -> (score n <= score best)%Z ->
  leftmostMax score (l ++ [n]) k best.
Proof.
  intros (Hk & Hmax & Hleft) Hn.
  assert (Hlt : (k < List.length l)%nat) by (apply nth_error_Some; congruence).
  split; [|split].
  - now rewrite nth_error_app1.
  - intros x Hx. apply in_app_or in Hx. destruct Hx as [Hx|[<-|[]]]; auto.
  - intros j x Hj Hx. rewrite nth_error_app1 in Hx by lia. eauto.
Qed.

Lemma leftmostMax_snoc_new score l k best n :
  leftmostMax score l k best -> (score best < score n)%Z ->
  leftmostMax score (l ++ [n]) (List.length l) n.
Proof.
  intros (Hk & Hmax & Hleft) Hn. split; [|split].
  - rewrite nth_error_app2, Nat.sub_diag by lia. reflexivity.
  - intros x Hx. apply in_app_or in Hx. destruct Hx as [Hx|[<-|[]]]; [|lia].
    specialize (Hmax _ Hx). lia.
  - intros j x Hj Hx. rewrite nth_error_app1 in Hx by lia.
    apply nth_error_In in Hx. specialize (Hmax _ Hx). lia.
Qed.

Lemma bestFrom_leftmostMax fileName rest : forall pre k best,
  leftmostMax (fun n => calculateNumberScore n fileName) pre k best ->
  exists k',
    leftmostMax (fun n => calculateNumberScore n fileName) (pre ++ rest) k'
      (bestFrom fileName rest best (calculateNumberScore best fileName)).
Proof.
  induction rest as [|n rest IH]; intros pre k best H.
  - exists k. now rewrite app_nil_r.
  - cbn [bestFrom].
    replace (pre ++ n :: rest) with ((pre ++ [n]) ++ rest)
      by (now rewrite <- app_assoc).
    destruct (calculateNumberScore best fileName <? calculateNumberScore n fileName)%Z eqn:E.
    + apply Z.ltb_lt in E. eapply IH, leftmostMax_snoc_new; eauto.
    + apply Z.ltb_ge in E. eapply IH, leftmostMax_snoc_keep; eauto.
Qed.

Lemma leftmostMax_ext (f g : NumberToken.t -> Z) l k best :
  (forall n, f n = g n) -> leftmostMax f l k best -> leftmostMax g l k best.
Proof.
  intros E (H1 & H2 & H3). split; [exact H1|split].
  - intros n Hn. rewrite <- !E. auto.
  - intros j n Hj Hn. rewrite <- !E. eauto.
Qed.

(** C3. The primary number of a file: the hash of the stripped name (a
    non-negative integer) when the name has no digit run; the value of the
    number when it has exactly one; and with several, the value of the token
    with the highest score, the leftmost of those with that score, where the
    score is the sum of the position, length, value and separator bonuses.
    The tokens are the maximal runs of digits of the stripped name, in its
    order, each with its text, its index, its length and, as value, the
    Number [parseInt] gives for its digits: the number they write when
    there are 15 of them at most, and the double nearest to it otherwise. *)
Theorem getPrimaryNumber_selection (i : nat) (fileObj : FileObj.t) :
  let stripped := Utils.removeFileExtension (FileObj.name fileObj) in
  exists r,
    rankFile i fileObj = Some (r, 0%nat) /\
    RankedFile.fileName r = stripped /\
    RankedFile.numbers r = numbersOf stripped /\
    tokensOf stripped (RankedFile.numbers r) /\
    (forall n, In n (RankedFile.numbers r) ->
       (0 <= NumberToken.value n <= 2 ^ 1024)%Z /\
       ((NumberToken.length n <= 15)%nat ->
        NumberToken.value n = parseDigits (NumberToken.originalString n))) /\
    (forall n, calculateNumberScore n stripped = scoreSpec n stripped) /\
    (RankedFile.numbers r = [] <-> hasNoDigit stripped = true) /\
    (RankedFile.numbers r = [] ->
       RankedFile.primaryNumber r = hashCode stripped /\
       (0 <= RankedFile.primaryNumber r)%Z) /\
    (forall n, RankedFile.numbers r = [n] ->
       RankedFile.primaryNumber r = NumberToken.value n) /\
    ((2 <= List.length (RankedFile.numbers r))%nat ->
       exists k best,
         leftmostMax (fun n => scoreSpec n stripped) (RankedFile.numbers r) k best /\
         RankedFile.primaryNumber r = NumberToken.value best).
Proof.
  intros stripped. exists (ranked i fileObj).
  split; [apply rankFile_total|].
  cbn [ranked RankedFile.fileName RankedFile.numbers RankedFile.primaryNumber].
  fold stripped.
  split; [reflexivity|]. split; [reflexivity|].
  split; [apply numbersOf_tokens|].
  split.
  { intros n Hn. destruct (numbersOf_tokens stripped) as [Htok _].
    destruct (Htok n Hn) as (_ & Hl & _ & Hd & Hv & _).
    rewrite Hv. split.
    - apply toNumber_range. apply (parseDigits_bound Hd).
    - intros H15. apply parseInt_exact; [exact Hd|]. now rewrite <- Hl. }
  split; [intros n; apply calculateNumberScore_spec|].
  split; [apply numbersOf_nil_iff|].
  split; [|split].
  - intros ->. cbn [getPrimaryNumber]. split; [reflexivity|apply hashCode_range].
  - intros n ->. reflexivity.
  - intros Hlen.
    destruct (numbersOf stripped) as [|n0 [|n1 rest]]; cbn [List.length] in Hlen; try lia.
    cbn [getPrimaryNumber].
    destruct (bestFrom_leftmostMax stripped (n1 :: rest) (pre := [n0]) (k := 0%nat) (best := n0))
      as [k Hk].
    { split; [reflexivity|split].
      - intros n [<-|[]]. lia.
      - intros j n Hj. lia. }
    exists k, (bestFrom stripped (n1 :: rest) n0 (calculateNumberScore n0 stripped)).
    split; [|reflexivity].
    eapply leftmostMax_ext; [|exact Hk].
    intros n. apply calculateNumberScore_spec.
Qed.

(** Several numbers: in [vol1-ch12 (2020)] the tokens 1, 12 and 2020 score
    95, 60 and 15, so the primary number is 1; in [1-2] and [2-1] both tokens
    score 115 and the leftmost one is kept. *)
Example getPrimaryNumber_several :
  map (fun n => calculateNumberScore n (str "vol1-ch12 (2020)"))
      (numbersOf (str "vol1-ch12 (2020)")) = [95; 60; 15]%Z /\
  getPrimaryNumber (numbersOf (str "vol1-ch12 (2020)")) (str "vol1-ch12 (2020)") = 1%Z /\
  map (fun n => calculateNumberScore n (str "1-2")) (numbersOf (str "1-2")) = [115; 115]%Z /\
  getPrimaryNumber (numbersOf (str "1-2")) (str "1-2") = 1%Z /\
  getPrimaryNumber (numbersOf (str "2-1")) (str "2-1") = 2%Z.
Proof. repeat split. Qed.

(** *** Totality and determinism of the sequencer *)

Lemma generateOutputNames_mappingOf sorted :
  generateOutputNames sorted =
  mapIndexFrom (mappingOf (Nat.max 3 (List.length (toString (List.length sorted)))))
               0 sorted.
Proof. reflexivity. Qed.

Lemma map_fileId_generateOutputNames sorted :
  map OutputMapping.fileId (generateOutputNames sorted) =
  map (fun r => FileObj.id (RankedFile.fileObj r)) sorted.
Proof.
  rewrite generateOutputNames_mappingOf.
  generalize (Nat.max 3 (List.length (toString (List.length sorted)))) as d.
  generalize 0%nat as i. intros i d. revert i.
  induction sorted as [|x r IH]; intros i; cbn [mapIndexFrom map]; [reflexivity|].
  now rewrite IH.
Qed.

Lemma map_id_ranked files : forall i,
  map (fun r => FileObj.id (RankedFile.fileObj r))
      (mapIndexFrom (fun f k => ranked k f) i files) = map FileObj.id files.
Proof. induction files as [|f r IH]; intros i; cbn; [reflexivity|now rewrite IH]. Qed.

(** Two ranked files with the same id, name, stripped name, primary number
    and position. *)
Definition sameKey (a b : RankedFile.t) : Prop :=
  FileObj.id (RankedFile.fileObj a) = FileObj.id (RankedFile.fileObj b) /\
  FileObj.name (RankedFile.fileObj a) = FileObj.name (RankedFile.fileObj b) /\
  RankedFile.fileName a = RankedFile.fileName b /\
  RankedFile.primaryNumber a = RankedFile.primaryNumber b /\
  RankedFile.originalIndex a = RankedFile.originalIndex b.

Lemma ranked_sameKey files : forall files' i,
  map FileObj.id files' = map FileObj.id files ->
  map FileObj.name files' = map FileObj.name files ->
  Forall2 sameKey (mapIndexFrom (fun f k => ranked k f) i files')
                  (mapIndexFrom (fun f k => ranked k f) i files).
Proof.
  induction files as [|f r IH]; intros [|f' r'] i Hi Hn; cbn in *; try discriminate.
  - constructor.
  - injection Hi as Hi1 Hi2. injection Hn as Hn1 Hn2.
    constructor; [|now apply IH].
    unfold sameKey, ranked. cbn. now rewrite Hi1, Hn1.
Qed.

Lemma generateOutputNames_sameKey l l' :
  Forall2 sameKey l l' -> generateOutputNames l = generateOutputNames l'.
Proof.
  intros H. rewrite !generateOutputNames_mappingOf.
  rewrite (Forall2_length H).
  generalize (Nat.max 3 (List.length (toString (List.length l')))) as d.
  generalize 0%nat as i. intros i d. revert i.
  induction H as [|x x' l l' (H1 & H2 & H3 & H4 & H5) Hl IH]; intros i;
    cbn [mapIndexFrom]; [reflexivity|].
  rewrite IH. unfold mappingOf. now rewrite H1, H2, H4.
Qed.

Section Determinism.
Variable localeCompare : jsstring -> jsstring -> Z.

Lemma compareFiles_sameKey a a' b b' :
  sameKey a a' -> sameKey b b' ->
  compareFiles localeCompare a b = compareFiles localeCompare a' b'.
Proof.
  intros (_ & _ & Ha3 & Ha4 & Ha5) (_ & _ & Hb3 & Hb4 & Hb5).
  unfold compareFiles. now rewrite Ha3, Ha4, Ha5, Hb3, Hb4, Hb5.
Qed.

(** The mapping depends on the batch only through the ids and names of its
    files, in their order; not on the state of the processor, nor on the
    sizes, statuses or output names the file objects carry. *)
Lemma processFileNames_depends_on_names files files' st st' :
  map FileObj.id files' = map FileObj.id files ->
  map FileObj.name files' = map FileObj.name files ->
  option_map fst (processFileNames localeCompare files' st') =
  option_map fst (processFileNames localeCompare files st).
Proof.
  intros Hi Hn. rewrite !processFileNames_eq. cbn [option_map fst]. f_equal.
  apply generateOutputNames_sameKey. unfold sortFilesByNumbers.
  apply sort_Forall2.
  - intros x x' y y'. apply compareFiles_sameKey.
  - now apply ranked_sameKey.
Qed.

(** C5. Running [processFileNames] a second time on the same batch, on
    the processor as the first run left it, returns the same mappings; so
    does a run from any other state of the processor, and a run on file
    objects that carry the same ids and names in the same order (whatever
    their sizes, statuses and previously assigned output names). *)
Theorem processFileNames_idempotent files st :
  exists mapping st1 st2,
    processFileNames localeCompare files st = Some (mapping, st1) /\
    processFileNames localeCompare files st1 = Some (mapping, st2) /\
    (forall st', option_map fst (processFileNames localeCompare files st') = Some mapping) /\
    (forall files' st',
       map FileObj.id files' = map FileObj.id files ->
       map FileObj.name files' = map FileObj.name files ->
       option_map fst (processFileNames localeCompare files' st') = Some mapping).
Proof.
  pose proof (processFileNames_eq localeCompare files st) as E. cbv zeta in E.
  eexists _, _, _. split; [exact E|].
  split; [rewrite processFileNames_eq; cbv zeta; reflexivity|].
  split.
  - intros st'. rewrite processFileNames_eq. reflexivity.
  - intros files' st' Hi Hn.
    rewrite (processFileNames_depends_on_names files files' st st' Hi Hn), E.
    reflexivity.
Qed.

(** C8. For every string, whatever its code units, the extraction loop
    ends with the tokens of its digit runs, the hash is an integer between 0
    and 2^31, and a name without a digit gets its hash as primary number;
    for every batch the whole of [processFileNames] returns (the [catch]
    branch is never taken), with one mapping for each file of the batch. *)
Theorem nameSequencer_never_throws (s : jsstring) (files : list FileObj.t) (st : State) :
  execLoop (S (List.length s)) s 0 [] = Some (numbersOf s, 0%nat) /\
  (0 <= hashCode s <= 2 ^ 31)%Z /\
  (hasNoDigit s = true -> getPrimaryNumber (numbersOf s) s = hashCode s) /\
  (forall i fileObj, exists r, rankFile i fileObj = Some (r, 0%nat)) /\
  exists mapping st',
    processFileNames localeCompare files st = Some (mapping, st') /\
    Permutation (map OutputMapping.fileId mapping) (map FileObj.id files).
Proof.
  split; [apply execLoop_total|].
  split; [apply hashCode_range|].
  split.
  { intros H. apply numbersOf_nil_iff in H. now rewrite H. }
  split; [intros i fileObj; eexists; apply rankFile_total|].
  rewrite processFileNames_eq. cbv zeta. eexists _, _. split; [reflexivity|].
  rewrite map_fileId_generateOutputNames.
  rewrite <- (map_id_ranked files 0).
  apply Permutation_map, Permutation_sym. unfold sortFilesByNumbers. apply sort_perm.
Qed.

End Determinism.

(** *** The comparator of the sort *)

Section Comparator.
Variable localeCompare : jsstring -> jsstring -> Z.

(** The comparator returns 0 in two cases only: same primary number, same
    stripped name and same position; or same primary number and two
    different stripped names that the collation holds equal. *)
Lemma compareFiles_zero_iff a b :
  compareFiles localeCompare a b = 0%Z <->
  RankedFile.primaryNumber a = RankedFile.primaryNumber b /\
  ((RankedFile.fileName a = RankedFile.fileName b /\
    RankedFile.originalIndex a = RankedFile.originalIndex b) \/
   (RankedFile.fileName a <> RankedFile.fileName b /\
    localeCompare (RankedFile.fileName a) (RankedFile.fileName b) = 0%Z)).
Proof.
  unfold compareFiles.
  destruct (RankedFile.primaryNumber a =? RankedFile.primaryNumber b)%Z eqn:Ep;
    cbn [negb].
  - apply Z.eqb_eq in Ep.
    destruct (streq (RankedFile.fileName a) (RankedFile.fileName b)) eqn:En; cbn [negb].
    + apply streq_true in En. split.
      * intros H. split; [exact Ep|left; split; [exact En|lia]].
      * intros [_ [[_ H]|[H _]]]; [lia|congruence].
    + apply streq_false in En. split.
      * intros H. split; [exact Ep|right; split; assumption].
      * intros [_ [[H _]|[_ H]]]; [congruence|exact H].
  - apply Z.eqb_neq in Ep. split; [lia|]. intros [H _]. congruence.
Qed.

(** With a collation that never holds two different names equal, two files
    at different positions never compare equal. *)
Lemma compareFiles_strict_of_separating :
  (forall x y, x <> y -> localeCompare x y <> 0%Z) ->
  forall a b, RankedFile.originalIndex a <> RankedFile.originalIndex b ->
  compareFiles localeCompare a b <> 0%Z.
Proof.
  intros Hsep a b Hi H. apply compareFiles_zero_iff in H.
  destruct H as [_ [[_ H]|[Hn H]]]; [congruence|]. now apply (Hsep _ _ Hn).
Qed.

(** "Natural ordering" of the specification: ch2, ch10, ch1 have primary
    numbers 2, 10, 1 and are named 002.zip, 003.zip, 001.zip. *)
Example processFileNames_natural_ordering :
  option_map
    (fun r => map (fun m => (OutputMapping.originalName m, OutputMapping.primaryNumber m,
                             OutputMapping.outputName m)) (fst r))
    (processFileNames localeCompare
       [newFileObj (str "f1") (Archive []) (str "ch2.epub") 1;
        newFileObj (str "f2") (Archive []) (str "ch10.epub") 1;
        newFileObj (str "f3") (Archive []) (str "ch1.epub") 1] init) =
  Some [(str "ch1.epub", 1%Z, str "001.zip");
        (str "ch2.epub", 2%Z, str "002.zip");
        (str "ch10.epub", 10%Z, str "003.zip")].
Proof. reflexivity. Qed.

(** "No-number fallback": cover.epub alone is named 001.zip. *)
Example processFileNames_no_number :
  option_map (fun r => map OutputMapping.outputName (fst r))
    (processFileNames localeCompare [newFileObj (str "f1") (Archive []) (str "cover.epub") 1] init)
  = Some [str "001.zip"].
Proof. reflexivity. Qed.

End Comparator.

(** *** The arrangement the sort produces *)

Section Arrangement.
Variable localeCompare : jsstring -> jsstring -> Z.

(** The order of the specification: by primary number, then by the
    collation of the stripped names, then by position in the batch. *)
Definition fileLt (a b : RankedFile.t) : Prop :=
  (RankedFile.primaryNumber a < RankedFile.primaryNumber b)%Z \/
  (RankedFile.primaryNumber a = RankedFile.primaryNumber b /\
   ((localeCompare (RankedFile.fileName a) (RankedFile.fileName b) < 0)%Z \/
    (localeCompare (RankedFile.fileName a) (RankedFile.fileName b) = 0%Z /\
     (RankedFile.originalIndex a < RankedFile.originalIndex b)%nat))).

(** The collation is a consistent comparison: a name equals itself,
    swapping the names swaps the sign, and "not after" is transitive. *)
Hypothesis collation_refl : forall x, localeCompare x x = 0%Z.
Hypothesis collation_swap : forall x y, (localeCompare x y < 0 <-> 0 < localeCompare y x)%Z.
Hypothesis collation_trans : forall x y z,
  (localeCompare x y <= 0 -> localeCompare y z <= 0 -> localeCompare x z <= 0)%Z.

Lemma collation_zero_swap x y : localeCompare x y = 0%Z -> localeCompare y x = 0%Z.
Proof.
  intros H. pose proof (collation_swap x y). pose proof (collation_swap y x). lia.
Qed.

Lemma fileLt_irrefl a : ~ fileLt a a.
Proof.
  unfold fileLt. rewrite collation_refl. intros [H|[_ [H|[_ H]]]]; lia.
Qed.

Lemma fileLt_trans a b c : fileLt a b -> fileLt b c -> fileLt a c.
Proof.
  unfold fileLt. intros [Hab|[Eab Hab]] [Hbc|[Ebc Hbc]]; try (left; lia).
  right. split; [lia|].
  set (na := RankedFile.fileName a) in *. set (nb := RankedFile.fileName b) in *.
  set (nc := RankedFile.fileName c) in *.
  assert (Hle : (localeCompare na nc <= 0)%Z)
    by (apply collation_trans with (y := nb); lia).
  destruct (Z.eq_dec (localeCompare na nc) 0) as [E|NE]; [|left; lia].
  right. split; [exact E|].
  pose proof (collation_zero_swap E) as E'.
  destruct Hab as [Hab|[Zab Iab]].
  - exfalso. assert ((localeCompare nb na <= 0)%Z)
      by (apply collation_trans with (y := nc); lia).
    pose proof (collation_swap na nb). lia.
  - destruct Hbc as [Hbc|[Zbc Ibc]]; [|lia].
    exfalso. assert ((localeCompare nc nb <= 0)%Z).
    { apply collation_trans with (y := na); lia. }
    pose proof (collation_swap nb nc). lia.
Qed.

(** Files at different positions are never equal in the order. *)
Lemma fileLt_total a b :
  RankedFile.originalIndex a <> RankedFile.originalIndex b ->
  fileLt a b \/ fileLt b a.
Proof.
  intros Hi. unfold fileLt.
  pose proof (collation_swap (RankedFile.fileName a) (RankedFile.fileName b)).
  pose proof (collation_swap (RankedFile.fileName b) (RankedFile.fileName a)).
  destruct (Z.lt_trichotomy (RankedFile.primaryNumber a) (RankedFile.primaryNumber b))
    as [L|[E|G]]; [now left; left| |now right; left].
  destruct (Z.lt_trichotomy
              (localeCompare (RankedFile.fileName a) (RankedFile.fileName b)) 0)
    as [L|[Z0|G]].
  - left. right. split; [exact E|now left].
  - destruct (Nat.lt_trichotomy (RankedFile.originalIndex a) (RankedFile.originalIndex b))
      as [L|[E'|G]]; [|congruence|].
    + left. right. split; [exact E|right; split; assumption].
    + right. right. split; [now symmetry|]. right. split; [lia|exact G].
  - right. right. split; [now symmetry|]. left. lia.
Qed.

(** What the comparator says of a file that comes earlier in the batch. *)
Lemma compareFiles_earlier a b :
  (RankedFile.originalIndex a < RankedFile.originalIndex b)%nat ->
  ((compareFiles localeCompare a b <= 0)%Z -> fileLt a b) /\
  ((0 < compareFiles localeCompare a b)%Z -> fileLt b a).
Proof.
  intros Hi. unfold compareFiles, fileLt.
  destruct (RankedFile.primaryNumber a =? RankedFile.primaryNumber b)%Z eqn:Ep;
    cbn [negb].
  - apply Z.eqb_eq in Ep.
    destruct (streq (RankedFile.fileName a) (RankedFile.fileName b)) eqn:En; cbn [negb].
    + apply streq_true in En. rewrite En, collation_refl. split; intros H.
      * right. split; [exact Ep|]. right. split; [reflexivity|exact Hi].
      * lia.
    + pose proof (collation_swap (RankedFile.fileName a) (RankedFile.fileName b)).
      pose proof (collation_swap (RankedFile.fileName b) (RankedFile.fileName a)).
      split; intros Hc.
      * right. split; [exact Ep|].
        destruct (Z.eq_dec (localeCompare (RankedFile.fileName a) (RankedFile.fileName b)) 0);
          [right; split; assumption|left; lia].
      * right. split; [now symmetry|]. left. lia.
  - apply Z.eqb_neq in Ep. split; intros H; left; lia.
Qed.

Lemma insertSorted_fileLt x : forall l,
  Forall (fun y => (RankedFile.originalIndex x < RankedFile.originalIndex y)%nat) l ->
  StronglySorted fileLt l ->
  StronglySorted fileLt (insertSorted (compareFiles localeCompare) x l).
Proof.
  induction l as [|y r IH]; intros Hidx Hs; cbn [insertSorted].
  - repeat constructor.
  - inversion Hidx as [|? ? Hy Hr]; subst.
    apply StronglySorted_inv in Hs. destruct Hs as [Hs Hall].
    destruct (compareFiles_earlier x y Hy) as [Hle Hgt].
    destruct (compareFiles localeCompare x y <=? 0)%Z eqn:E.
    + apply Z.leb_le in E. specialize (Hle E).
      constructor; [now constructor|].
      constructor; [exact Hle|].
      eapply Forall_impl; [|exact Hall]. intros z Hz. now apply fileLt_trans with (b := y).
    + apply Z.leb_gt in E. specialize (Hgt E).
      constructor; [now apply IH|].
      apply Forall_forall. intros z Hz.
      apply (Permutation_in _ (Permutation_sym (insertSorted_perm _ x r))) in Hz.
      destruct Hz as [<-|Hz]; [exact Hgt|].
      rewrite Forall_forall in Hall. now apply Hall.
Qed.

Lemma sort_fileLt l : forall i,
  map RankedFile.originalIndex l = seq i (List.length l) ->
  StronglySorted fileLt (sort (compareFiles localeCompare) l).
Proof.
  induction l as [|x r IH]; intros i Hseq; cbn [sort]; [constructor|].
  cbn [map List.length seq] in Hseq. injection Hseq as Hx Hr.
  apply insertSorted_fileLt; [|now apply (IH (S i))].
  apply Forall_forall. intros y Hy.
  apply (Permutation_in _ (Permutation_sym (sort_perm _ r))) in Hy.
  apply (in_map RankedFile.originalIndex) in Hy. rewrite Hr in Hy.
  apply in_seq in Hy. lia.
Qed.

(** A file that is before another in the order never compares greater. *)
Lemma fileLt_compareFiles a b : fileLt a b -> (compareFiles localeCompare a b <= 0)%Z.
Proof.
  unfold fileLt, compareFiles.
  destruct (RankedFile.primaryNumber a =? RankedFile.primaryNumber b)%Z eqn:Ep;
    cbn [negb].
  - apply Z.eqb_eq in Ep.
    destruct (streq (RankedFile.fileName a) (RankedFile.fileName b)) eqn:En; cbn [negb].
    + apply streq_true in En. rewrite En, collation_refl.
      intros [H|[_ [H|[_ H]]]]; lia.
    + intros [H|[_ [H|[H _]]]]; lia.
  - apply Z.eqb_neq in Ep. intros [H|[H _]]; lia.
Qed.

(** Sorting a sorted arrangement leaves it as it is. *)
Lemma sort_sorted l :
  StronglySorted fileLt l -> sort (compareFiles localeCompare) l = l.
Proof.
  induction 1 as [|x r Hs IH Hall]; cbn [sort]; [reflexivity|].
  rewrite IH. destruct r as [|y r']; [reflexivity|]. cbn [insertSorted].
  inversion Hall as [|? ? Hy _]; subst.
  apply fileLt_compareFiles in Hy. apply Z.leb_le in Hy. now rewrite Hy.
Qed.

End Arrangement.

Lemma map_originalIndex_ranked files : forall i,
  map RankedFile.originalIndex (mapIndexFrom (fun f k => ranked k f) i files)
  = seq i (List.length files).
Proof. induction files as [|f r IH]; intros i; cbn; [reflexivity|now rewrite IH]. Qed.

(** C4, as the code has it. With a collation that is a consistent
    comparison, the files come out of the sort in strictly ascending order
    of (a) primary number, then (b) collation of the stripped names, then
    (c) position in the batch; this order is a strict total order on the
    batch (irreflexive, transitive, and files at different positions are
    never equal in it). The comparator reaches tie-break (c) only for
    identical stripped names: it returns 0 exactly for the same file
    position, or for two different stripped names that collate equal, which
    then keep their batch order. *)
Theorem sortFilesByNumbers_strict_order (localeCompare : jsstring -> jsstring -> Z)
    (files : list FileObj.t) (st0 : State) :
  (forall x, localeCompare x x = 0%Z) ->
  (forall x y, (localeCompare x y < 0 <-> 0 < localeCompare y x)%Z) ->
  (forall x y z,
     (localeCompare x y <= 0 -> localeCompare y z <= 0 -> localeCompare x z <= 0)%Z) ->
  exists filesWithNumbers st,
    extractNumbers files st0 = Some (filesWithNumbers, st) /\
    map RankedFile.originalIndex filesWithNumbers = seq 0 (List.length files) /\
    Permutation filesWithNumbers (sortFilesByNumbers localeCompare filesWithNumbers) /\
    StronglySorted (fileLt localeCompare)
                   (sortFilesByNumbers localeCompare filesWithNumbers) /\
    (forall a, ~ fileLt localeCompare a a) /\
    (forall a b c, fileLt localeCompare a b -> fileLt localeCompare b c ->
                   fileLt localeCompare a c) /\
    (forall a b, RankedFile.originalIndex a <> RankedFile.originalIndex b ->
                 fileLt localeCompare a b \/ fileLt localeCompare b a) /\
    (forall a b,
       compareFiles localeCompare a b = 0%Z <->
       RankedFile.primaryNumber a = RankedFile.primaryNumber b /\
       ((RankedFile.fileName a = RankedFile.fileName b /\
         RankedFile.originalIndex a = RankedFile.originalIndex b) \/
        (RankedFile.fileName a <> RankedFile.fileName b /\
         localeCompare (RankedFile.fileName a) (RankedFile.fileName b) = 0%Z))).
Proof.
  intros Hrefl Hswap Htrans.
  unfold extractNumbers. rewrite extractNumbersFrom_total.
  eexists _, _. split; [reflexivity|].
  split; [apply map_originalIndex_ranked|].
  split; [apply sort_perm|].
  split.
  { apply (@sort_fileLt localeCompare Hrefl Hswap Htrans _ 0%nat).
    rewrite length_mapIndexFrom. apply map_originalIndex_ranked. }
  split; [intros a; now apply fileLt_irrefl|].
  split; [intros a b c; now apply fileLt_trans|].
  split; [intros a b; now apply fileLt_total|].
  intros a b. apply compareFiles_zero_iff.
Qed.

(** A reference for the collation with [numeric: true]: runs of digits
    compare by their value, so leading zeros do not count; the other code
    units compare by their codes. The collation of the host orders letters by
    the rules of the locale; on digit runs it does what this one does. The
    theorems on sorting take the collation as a parameter
    [localeCompare]; this one runs the examples. *)
Fixpoint dropDigits (s : jsstring) : jsstring :=
  match s with
  | c :: r => if isDigit c then dropDigits r else s
  | [] => []
  end.

Fixpoint numericCollateFuel (fuel : nat) (a b : jsstring) : Z :=
  match fuel with
  | O => 0%Z
  | S f =>
      match a, b with
      | [], [] => 0%Z
      | [], _ :: _ => (-1)%Z
      | _ :: _, [] => 1%Z
      | x :: a', y :: b' =>
          if isDigit x && isDigit y then
            let va := parseDigits (takeDigits a) in
            let vb := parseDigits (takeDigits b) in
            if (va <? vb)%Z then (-1)%Z
            else if (vb <? va)%Z then 1%Z
            else numericCollateFuel f (dropDigits a) (dropDigits b)
          else if (x <? y)%Z then (-1)%Z
          else if (y <? x)%Z then 1%Z
          else numericCollateFuel f a' b'
      end
  end.

Definition numericCollate (a b : jsstring) : Z :=
  numericCollateFuel (List.length a + List.length b) a b.

(** The comparator alone is not a strict order. In the batch a1.epub,
    a01.epub, a1.epub (two files may share a name when their sizes differ)
    the three files have primary number 1; the first two have different
    stripped names that the numeric collation holds equal, so they compare
    equal in both directions although they are distinct inputs, and their
    positions are not consulted; the second and the third compare equal as
    well, while the first is before the third. *)
Lemma compareFiles_ties_distinct_inputs :
  exists r0 r1 r2 st,
    extractNumbers
      [newFileObj (str "f0") (Archive []) (str "a1.epub") 100;
       newFileObj (str "f1") (Archive []) (str "a01.epub") 200;
       newFileObj (str "f2") (Archive []) (str "a1.epub") 300] init
      = Some ([r0; r1; r2], st) /\
    RankedFile.originalIndex r0 <> RankedFile.originalIndex r1 /\
    RankedFile.fileName r0 <> RankedFile.fileName r1 /\
    compareFiles numericCollate r0 r1 = 0%Z /\
    compareFiles numericCollate r1 r0 = 0%Z /\
    compareFiles numericCollate r1 r2 = 0%Z /\
    (compareFiles numericCollate r0 r2 < 0)%Z.
Proof.
  eexists _, _, _, _. split; [reflexivity|].
  cbn [RankedFile.originalIndex RankedFile.fileName].
  split; [discriminate|]. split; [discriminate|].
  repeat split.
Qed.

(** X5. For every name the loop of [extractNumbers] over the pattern ends,
    and its tokens are the maximal runs of digits of the name, from left to
    right: the text of a token is the text of the name at the token's index,
    it is made of one digit or more, its value is the Number [parseInt]
    gives for these digits (the number they write in base 10 when there
    are 15 of them at most, and the double nearest to it otherwise, never
    negative), the characters just before and just after it (when there are
    any) are not digits, the tokens do not overlap or touch, and every digit
    of the name belongs to a token. *)
Theorem extractNumbers_tokens (fileName : jsstring) :
  exists numbers,
    execLoop (S (List.length fileName)) fileName 0 [] = Some (numbers, 0%nat) /\
    (forall n, In n numbers ->
       NumberToken.originalString n =
         firstn (NumberToken.length n) (skipn (NumberToken.index n) fileName) /\
       NumberToken.length n = List.length (NumberToken.originalString n) /\
       (1 <= NumberToken.length n)%nat /\
       Forall (fun c => isDigit c = true) (NumberToken.originalString n) /\
       NumberToken.value n = toNumber (parseDigits (NumberToken.originalString n)) /\
       ((NumberToken.length n <= 15)%nat ->
        NumberToken.value n = parseDigits (NumberToken.originalString n)) /\
       (0 <= NumberToken.value n)%Z /\
       (forall c, NumberToken.index n <> 0%nat ->
          nth_error fileName (NumberToken.index n - 1) = Some c -> isDigit c = false) /\
       (forall c, nth_error fileName (NumberToken.index n + NumberToken.length n) = Some c ->
          isDigit c = false)) /\
    StronglySorted
      (fun a b => (NumberToken.index a + NumberToken.length a < NumberToken.index b)%nat)
      numbers /\
    (forall i c, nth_error fileName i = Some c -> isDigit c = true ->
       exists n, In n numbers /\
         (NumberToken.index n <= i < NumberToken.index n + NumberToken.length n)%nat).
Proof.
  exists (numbersOf fileName). split; [apply execLoop_total|].
  destruct (numbersOf_tokens fileName) as (Htok & Hsorted & Hcover).
  split; [|split; [exact Hsorted|exact Hcover]].
  intros n Hn. destruct (Htok n Hn) as (Ht & Hl & H1 & Hd & Hv & Hb & Ha).
  split; [exact Ht|]. split; [exact Hl|]. split; [exact H1|]. split; [exact Hd|].
  split; [exact Hv|]. split.
  { intros H15. rewrite Hv. apply parseInt_exact; [exact Hd|]. now rewrite <- Hl. }
  split; [|split; assumption].
  rewrite Hv. apply toNumber_range. apply (parseDigits_bound Hd).
Qed.

(** *** The hash as a polynomial *)

(** The sum of the code units, each multiplied by 31 to the power of the
    number of code units after it. *)
Fixpoint polynomial31 (s : jsstring) : Z :=
  match s with
  | [] => 0%Z
  | c :: r => (c * 31 ^ Z.of_nat (List.length r) + polynomial31 r)%Z
  end.

Lemma toInt32_congr a b : (a mod 2 ^ 32 = b mod 2 ^ 32)%Z -> toInt32 a = toInt32 b.
Proof.
  intros H. unfold toInt32.
  rewrite <- (Zplus_mod_idemp_l a), <- (Zplus_mod_idemp_l b), H. reflexivity.
Qed.

Lemma toInt32_mod a : (toInt32 a mod 2 ^ 32 = a mod 2 ^ 32)%Z.
Proof.
  unfold toInt32. rewrite Zminus_mod_idemp_l. f_equal. lia.
Qed.

Lemma toInt32_small a : (- 2 ^ 31 <= a < 2 ^ 31)%Z -> toInt32 a = a.
Proof. intros H. unfold toInt32. rewrite Z.mod_small; lia. Qed.

Lemma hashStep_mod h h' c :
  (h mod 2 ^ 32 = h' mod 2 ^ 32)%Z ->
  (hashStep h c mod 2 ^ 32 = (31 * h' + c) mod 2 ^ 32)%Z.
Proof.
  intros H. unfold hashStep. rewrite toInt32_mod.
  rewrite <- Zplus_mod_idemp_l, <- Zminus_mod_idemp_l, toInt32_mod.
  rewrite Zminus_mod_idemp_l, Zplus_mod_idemp_l.
  replace (h * 32 - h + c)%Z with (31 * h + c)%Z by ring.
  rewrite <- Zplus_mod_idemp_l, <- Zmult_mod_idemp_r, H.
  now rewrite Zmult_mod_idemp_r, Zplus_mod_idemp_l.
Qed.

Lemma fold_hashStep_mod s : forall h h',
  (h mod 2 ^ 32 = h' mod 2 ^ 32)%Z ->
  (fold_left hashStep s h mod 2 ^ 32
   = (h' * 31 ^ Z.of_nat (List.length s) + polynomial31 s) mod 2 ^ 32)%Z.
Proof.
  induction s as [|c r IH]; intros h h' H; cbn [fold_left polynomial31 List.length].
  - rewrite H. f_equal. change (31 ^ Z.of_nat 0)%Z with 1%Z. lia.
  - rewrite (IH _ (31 * h' + c)%Z) by now apply hashStep_mod.
    f_equal. rewrite Nat2Z.inj_succ, Z.pow_succ_r by lia. ring.
Qed.

(** X6. The hash of a name is the absolute value of its polynomial in 31
    (the code unit at position i times 31 to the power of the number of code
    units after it, summed) wrapped to a signed 32-bit integer: wrapping at
    each step of the loop, as the shift and the bitwise operator do, gives
    what one wrap of the exact sum gives. The hash of the empty name is 0,
    and a hash is never negative. *)
Theorem hashCode_polynomial (s : jsstring) :
  hashCode s = Z.abs (toInt32 (polynomial31 s)) /\
  hashCode [] = 0%Z /\
  (0 <= hashCode s <= 2 ^ 31)%Z /\
  (forall c, polynomial31 (s ++ [c]) = (31 * polynomial31 s + c)%Z).
Proof.
  split; [|split; [reflexivity|split; [apply hashCode_range|]]].
  - unfold hashCode. f_equal.
    rewrite <- (toInt32_small (fold_hashStep_range s (h := 0%Z) ltac:(lia))).
    apply toInt32_congr. rewrite (fold_hashStep_mod s 0 0 eq_refl). reflexivity.
  - intros c. induction s as [|x r IH]; cbn [app polynomial31 List.length].
    + change (31 ^ Z.of_nat 0)%Z with 1%Z. lia.
    + rewrite IH, length_app. cbn [List.length].
      rewrite Nat2Z.inj_add. change (Z.of_nat 1) with 1%Z.
      rewrite Z.pow_add_r by lia. change (31 ^ 1)%Z with 31%Z. ring.
Qed.

(** *** [validateNameMapping] *)

(** The issues [validateNameMapping] reports (their messages are built
    from the fields kept here). *)
Inductive MappingIssue :=
| duplicate_output (outputName fileId : jsstring)
| duplicate_sequence (sequenceNumber : nat) (fileId : jsstring)
| sequence_gap (expected actual : nat) (fileId : jsstring).

(** [{isValid, issues, totalFiles, uniqueOutputNames}] *)
Module MappingValidation.
Record t := {
  isValid : bool;
  issues : list MappingIssue;
  totalFiles : nat;
  uniqueOutputNames : nat
}.
End MappingValidation.

(** The callback of [nameMapping.forEach], from position [index] on, with
    the array of issues and the two sets it fills. *)
Fixpoint validateLoop (nameMapping : list OutputMapping.t) (index : nat)
    (issues : list MappingIssue) (outputNames : list jsstring) (sequenceNumbers : list nat)
    : list MappingIssue * list jsstring * list nat :=
  match nameMapping with
  | [] => (issues, outputNames, sequenceNumbers)
  | mapping :: rest =>
      let issues :=
        if setHas streq outputNames (OutputMapping.outputName mapping)
        then issues ++ [duplicate_output (OutputMapping.outputName mapping)
                                         (OutputMapping.fileId mapping)]
        else issues in
      let outputNames := setAdd streq outputNames (OutputMapping.outputName mapping) in
      let issues :=
        if setHas Nat.eqb sequenceNumbers (OutputMapping.sequenceNumber mapping)
        then issues ++ [duplicate_sequence (OutputMapping.sequenceNumber mapping)
                                           (OutputMapping.fileId mapping)]
        else issues in
      let sequenceNumbers :=
        setAdd Nat.eqb sequenceNumbers (OutputMapping.sequenceNumber mapping) in
      let issues :=
        if negb (OutputMapping.sequenceNumber mapping =? index + 1)%nat
        then issues ++ [sequence_gap (index + 1) (OutputMapping.sequenceNumber mapping)
                                     (OutputMapping.fileId mapping)]
        else issues in
      validateLoop rest (S index) issues outputNames sequenceNumbers
  end.

Definition validateNameMapping (nameMapping : list OutputMapping.t) : MappingValidation.t :=
  let '(issues, outputNames, _) := validateLoop nameMapping 0 [] [] [] in
  {| MappingValidation.isValid := (List.length issues =? 0)%nat;
     MappingValidation.issues := issues;
     MappingValidation.totalFiles := List.length nameMapping;
     MappingValidation.uniqueOutputNames := List.length outputNames |}.

(** The issues of one round. *)
Definition issuesOf (mapping : OutputMapping.t) (index : nat)
    (outputNames : list jsstring) (sequenceNumbers : list nat) : list MappingIssue :=
  (if setHas streq outputNames (OutputMapping.outputName mapping)
   then [duplicate_output (OutputMapping.outputName mapping) (OutputMapping.fileId mapping)]
   else [])
  ++ (if setHas Nat.eqb sequenceNumbers (OutputMapping.sequenceNumber mapping)
      then [duplicate_sequence (OutputMapping.sequenceNumber mapping)
                               (OutputMapping.fileId mapping)]
      else [])
  ++ (if negb (OutputMapping.sequenceNumber mapping =? index + 1)%nat
      then [sequence_gap (index + 1) (OutputMapping.sequenceNumber mapping)
                         (OutputMapping.fileId mapping)]
      else []).

Lemma validateLoop_cons mapping rest index issues outputNames sequenceNumbers :
  validateLoop (mapping :: rest) index issues outputNames sequenceNumbers =
  validateLoop rest (S index)
    (issues ++ issuesOf mapping index outputNames sequenceNumbers)
    (setAdd streq outputNames (OutputMapping.outputName mapping))
    (setAdd Nat.eqb sequenceNumbers (OutputMapping.sequenceNumber mapping)).
Proof.
  cbn [validateLoop]. unfold issuesOf. f_equal.
  destruct (setHas streq outputNames (OutputMapping.outputName mapping)),
           (setHas Nat.eqb sequenceNumbers (OutputMapping.sequenceNumber mapping)),
           (negb (OutputMapping.sequenceNumber mapping =? index + 1)%nat);
    cbn [app]; rewrite <- ?app_assoc, ?app_nil_r; reflexivity.
Qed.

(** The mapping from position [index] on raises no issue. *)
Fixpoint clean (nameMapping : list OutputMapping.t) (index : nat)
    (outputNames : list jsstring) (sequenceNumbers : list nat) : Prop :=
  match nameMapping with
  | [] => True
  | mapping :: rest =>
      ~ In (OutputMapping.outputName mapping) outputNames /\
      ~ In (OutputMapping.sequenceNumber mapping) sequenceNumbers /\
      OutputMapping.sequenceNumber mapping = (index + 1)%nat /\
      clean rest (S index) (outputNames ++ [OutputMapping.outputName mapping])
            (sequenceNumbers ++ [OutputMapping.sequenceNumber mapping])
  end.

Lemma issuesOf_nil mapping index outputNames sequenceNumbers :
  issuesOf mapping index outputNames sequenceNumbers = [] <->
  ~ In (OutputMapping.outputName mapping) outputNames /\
  ~ In (OutputMapping.sequenceNumber mapping) sequenceNumbers /\
  OutputMapping.sequenceNumber mapping = (index + 1)%nat.
Proof.
  unfold issuesOf.
  rewrite <- (setHas_not_In streq streq_true), <- (setHas_not_In Nat.eqb Nat.eqb_eq).
  rewrite <- Nat.eqb_eq.
  destruct (setHas streq outputNames (OutputMapping.outputName mapping)),
           (setHas Nat.eqb sequenceNumbers (OutputMapping.sequenceNumber mapping)),
           (OutputMapping.sequenceNumber mapping =? index + 1)%nat;
    cbn [negb app]; split; try discriminate; try tauto; intros (H1 & H2 & H3); discriminate.
Qed.

Lemma validateLoop_issues nameMapping : forall index issues outputNames sequenceNumbers,
  exists more,
    fst (fst (validateLoop nameMapping index issues outputNames sequenceNumbers))
      = issues ++ more /\
    (more = [] <-> clean nameMapping index outputNames sequenceNumbers).
Proof.
  induction nameMapping as [|mapping rest IH]; intros index issues outputNames sequenceNumbers.
  - exists []. cbn. rewrite app_nil_r. tauto.
  - rewrite validateLoop_cons.
    destruct (IH (S index)
                (issues ++ issuesOf mapping index outputNames sequenceNumbers)
                (setAdd streq outputNames (OutputMapping.outputName mapping))
                (setAdd Nat.eqb sequenceNumbers (OutputMapping.sequenceNumber mapping)))
      as (more & Hm & Hclean).
    exists (issuesOf mapping index outputNames sequenceNumbers ++ more).
    split; [now rewrite Hm, app_assoc|].
    cbn [clean]. split.
    + intros H. apply app_eq_nil in H. destruct H as [H1 H2].
      pose proof H1 as H1'. apply issuesOf_nil in H1'. destruct H1' as (Ha & Hb & Hc).
      split; [exact Ha|]. split; [exact Hb|]. split; [exact Hc|].
      apply Hclean in H2. unfold setAdd in H2.
      apply (setHas_not_In streq streq_true) in Ha.
      apply (setHas_not_In Nat.eqb Nat.eqb_eq) in Hb.
      now rewrite Ha, Hb in H2.
    + intros (Ha & Hb & Hc & Hr).
      assert (H1 : issuesOf mapping index outputNames sequenceNumbers = [])
        by (apply issuesOf_nil; auto).
      rewrite H1. cbn [app]. apply Hclean. unfold setAdd.
      apply (setHas_not_In streq streq_true) in Ha.
      apply (setHas_not_In Nat.eqb Nat.eqb_eq) in Hb.
      now rewrite Ha, Hb.
Qed.

Lemma validateLoop_outputNames nameMapping : forall index issues outputNames sequenceNumbers,
  snd (fst (validateLoop nameMapping index issues outputNames sequenceNumbers))
  = fold_left (setAdd streq) (map OutputMapping.outputName nameMapping) outputNames.
Proof.
  induction nameMapping as [|mapping rest IH]; intros index issues outputNames sequenceNumbers;
    [reflexivity|].
  rewrite validateLoop_cons, IH. reflexivity.
Qed.

Lemma clean_iff nameMapping : forall index outputNames sequenceNumbers,
  clean nameMapping index outputNames sequenceNumbers <->
  map OutputMapping.sequenceNumber nameMapping = seq (index + 1) (List.length nameMapping) /\
  NoDup (map OutputMapping.outputName nameMapping) /\
  (forall x, In x (map OutputMapping.outputName nameMapping) -> ~ In x outputNames) /\
  (forall x, In x (map OutputMapping.sequenceNumber nameMapping) -> ~ In x sequenceNumbers).
Proof.
  induction nameMapping as [|mapping rest IH]; intros index outputNames sequenceNumbers;
    cbn [clean map List.length seq].
  - split; [intros _|tauto]. repeat split; [constructor| |]; intros x [].
  - rewrite IH. replace (S index + 1)%nat with (S (index + 1)) by lia. split.
    + intros (Ha & Hb & Hc & Hs & Hn & Ho & Hq). split; [now rewrite Hc, Hs|].
      split.
      { constructor; [|exact Hn]. intros Hin. apply (Ho _ Hin).
        apply in_or_app. right. now left. }
      split.
      * intros x [<-|Hx]; [exact Ha|]. intros Hin. apply (Ho _ Hx).
        apply in_or_app. now left.
      * intros x [<-|Hx]; [exact Hb|]. intros Hin. apply (Hq _ Hx).
        apply in_or_app. now left.
    + intros (Hs & Hn & Ho & Hq). injection Hs as Hc Hs.
      apply NoDup_cons_iff in Hn. destruct Hn as [Hn1 Hn2].
      split; [apply Ho; now left|]. split; [apply Hq; now left|].
      split; [exact Hc|]. split; [exact Hs|]. split; [exact Hn2|]. split.
      * intros x Hx Hin. apply in_app_or in Hin. destruct Hin as [Hin|[<-|[]]].
        -- apply (Ho x); [now right|exact Hin].
        -- contradiction.
      * intros x Hx Hin. apply in_app_or in Hin. destruct Hin as [Hin|[<-|[]]].
        -- apply (Hq x); [now right|exact Hin].
        -- rewrite Hs, Hc in Hx. apply in_seq in Hx. lia.
Qed.

(** X7. [validateNameMapping] holds a mapping valid (it reports no issue)
    exactly when the sequence numbers are 1, 2, ..., n in this order and the
    output names are pairwise distinct; the total it reports is the number
    of mappings, and the number of unique output names is the number of
    different output names, never more than the total. *)
Theorem validateNameMapping_sound (nameMapping : list OutputMapping.t) :
  let v := validateNameMapping nameMapping in
  (MappingValidation.isValid v = true <-> MappingValidation.issues v = []) /\
  (MappingValidation.isValid v = true <->
   map OutputMapping.sequenceNumber nameMapping = seq 1 (List.length nameMapping) /\
   NoDup (map OutputMapping.outputName nameMapping)) /\
  MappingValidation.totalFiles v = List.length nameMapping /\
  MappingValidation.uniqueOutputNames v =
    List.length (nodup jsstring_eq_dec (map OutputMapping.outputName nameMapping)) /\
  (MappingValidation.uniqueOutputNames v <= MappingValidation.totalFiles v)%nat.
Proof.
  intros v. unfold v, validateNameMapping.
  destruct (validateLoop_issues nameMapping 0 [] [] []) as (more & Hm & Hclean).
  pose proof (validateLoop_outputNames nameMapping 0 [] [] []) as Ho.
  destruct (validateLoop nameMapping 0 [] [] []) as [[issues outputNames] sequenceNumbers].
  cbn [fst snd app] in Hm, Ho. subst issues.
  cbn [MappingValidation.isValid MappingValidation.issues MappingValidation.totalFiles
       MappingValidation.uniqueOutputNames].
  assert (Hv : (List.length more =? 0)%nat = true <-> more = []).
  { rewrite Nat.eqb_eq. destruct more; cbn; split; congruence. }
  assert (Hu : List.length outputNames =
               List.length (nodup jsstring_eq_dec (map OutputMapping.outputName nameMapping))).
  { apply Permutation_length, NoDup_Permutation.
    - rewrite Ho. apply (fold_setAdd_NoDup streq streq_true). constructor.
    - apply NoDup_nodup.
    - intros x. rewrite Ho, (fold_setAdd_In streq streq_true), nodup_In. cbn [In]. tauto. }
  split; [exact Hv|]. split.
  { rewrite Hv, Hclean, clean_iff. cbn [Nat.add]. split.
    - intros (H1 & H2 & _). now split.
    - intros [H1 H2]. repeat split; auto. }
  split; [reflexivity|]. split; [exact Hu|].
  rewrite Hu. rewrite <- (length_map OutputMapping.outputName nameMapping).
  apply NoDup_incl_length; [apply NoDup_nodup|].
  intros x Hx. now apply nodup_In in Hx.
Qed.

Section Validation.
Variable localeCompare : jsstring -> jsstring -> Z.

(** X8. Whatever the batch, the mapping [processFileNames] returns passes
    [validateNameMapping]: no issue is reported, and the number of unique
    output names is the number of files. *)
Theorem processFileNames_passes_validation (files : list FileObj.t) (st : State) :
  exists nameMapping st',
    processFileNames localeCompare files st = Some (nameMapping, st') /\
    validateNameMapping nameMapping =
    {| MappingValidation.isValid := true;
       MappingValidation.issues := [];
       MappingValidation.totalFiles := List.length files;
       MappingValidation.uniqueOutputNames := List.length files |}.
Proof.
  rewrite processFileNames_eq. cbv zeta.
  set (sorted := sortFilesByNumbers localeCompare _).
  assert (HN : List.length sorted = List.length files).
  { unfold sorted. rewrite sortFilesByNumbers_length. apply length_mapIndexFrom. }
  eexists _, _. split; [reflexivity|].
  set (nameMapping := generateOutputNames sorted).
  assert (Hlen : List.length nameMapping = List.length files).
  { unfold nameMapping. now rewrite generateOutputNames_length. }
  assert (Hseq : map OutputMapping.sequenceNumber nameMapping
                 = seq 1 (List.length nameMapping)).
  { unfold nameMapping.
    now rewrite generateOutputNames_sequenceNumbers, generateOutputNames_length. }
  assert (Hnd : NoDup (map OutputMapping.outputName nameMapping)).
  { unfold nameMapping. rewrite generateOutputNames_outputNames.
    apply Injective_map_NoDup; [|apply seq_NoDup].
    intros a b. apply outputNameOf_inj. }
  unfold validateNameMapping.
  destruct (validateLoop_issues nameMapping 0 [] [] []) as (more & Hm & Hclean).
  pose proof (validateLoop_outputNames nameMapping 0 [] [] []) as Ho.
  destruct (validateLoop nameMapping 0 [] [] []) as [[issues outputNames] sequenceNumbers].
  cbn [fst snd app] in Hm, Ho. subst issues.
  assert (Hmore : more = []).
  { apply Hclean, clean_iff. cbn [Nat.add]. repeat split; auto. }
  assert (Hu : List.length outputNames = List.length files).
  { rewrite <- Hlen, <- (length_map OutputMapping.outputName nameMapping).
    apply Permutation_length, NoDup_Permutation.
    - rewrite Ho. apply (fold_setAdd_NoDup streq streq_true). constructor.
    - exact Hnd.
    - intros x. rewrite Ho, (fold_setAdd_In streq streq_true). cbn [In]. tauto. }
  rewrite Hmore, Hu, Hlen. reflexivity.
Qed.

End Validation.

(** *** [previewSorting], [getDebugInfo], [getSortedFiles] and [reset] *)

(** [{originalName, outputName, primaryNumber, sequenceNumber}] *)
Module Preview.
Record t := {
  originalName : jsstring;
  outputName : jsstring;
  primaryNumber : Z;
  sequenceNumber : nat
}.
End Preview.

(** [{originalOrder, extractedNumbers, sortedOrder, nameMapping}]; an
    element of [extractedNumbers] is [{name, numbers, primaryNumber}]. *)
Module DebugInfo.
Record t := {
  originalOrder : list jsstring;
  extractedNumbers : list (jsstring * list NumberToken.t * Z);
  sortedOrder : list jsstring;
  nameMapping : list OutputMapping.t
}.
End DebugInfo.

Definition getSortedFiles (st : State) : list RankedFile.t := sortedFiles st.

Definition reset (st : State) : State :=
  {| lastIndex := lastIndex st; sortedFiles := [] |}.

Definition previewOf (mapping : OutputMapping.t) : Preview.t :=
  {| Preview.originalName := OutputMapping.originalName mapping;
     Preview.outputName := OutputMapping.outputName mapping;
     Preview.primaryNumber := OutputMapping.primaryNumber mapping;
     Preview.sequenceNumber := OutputMapping.sequenceNumber mapping |}.

Section Previews.
Variable localeCompare : jsstring -> jsstring -> Z.

(** [previewSorting]: the processor keeps its [sortedFiles]. *)
Definition previewSorting (files : list FileObj.t) (st : State)
    : option (list Preview.t * State) :=
  match extractNumbers files st with
  | None => None
  | Some (filesWithNumbers, st1) =>
      let sorted := sortFilesByNumbers localeCompare filesWithNumbers in
      let nameMapping := generateOutputNames sorted in
      Some (map previewOf nameMapping, st1)
  end.

(** [getDebugInfo]. The fields of the object are computed in the order of
    the source, and [sortFilesByNumbers] sorts the array it is given in
    place: [extractedNumbers] is read off the array in batch order, then the
    array is sorted for [sortedOrder], and the sorted array is sorted once
    more for [nameMapping]. *)
Definition getDebugInfo (files : list FileObj.t) (st : State)
    : option (DebugInfo.t * State) :=
  match extractNumbers files st with
  | None => None
  | Some (filesWithNumbers, st1) =>
      let originalOrder := map FileObj.name files in
      let extractedNumbers :=
        map (fun f => (FileObj.name (RankedFile.fileObj f), RankedFile.numbers f,
                       RankedFile.primaryNumber f)) filesWithNumbers in
      let filesWithNumbers := sortFilesByNumbers localeCompare filesWithNumbers in
      let sortedOrder := map (fun f => FileObj.name (RankedFile.fileObj f)) filesWithNumbers in
      let filesWithNumbers := sortFilesByNumbers localeCompare filesWithNumbers in
      let nameMapping := generateOutputNames filesWithNumbers in
      Some ({| DebugInfo.originalOrder := originalOrder;
               DebugInfo.extractedNumbers := extractedNumbers;
               DebugInfo.sortedOrder := sortedOrder;
               DebugInfo.nameMapping := nameMapping |}, st1)
  end.

Lemma map_originalName_generateOutputNames sorted :
  map OutputMapping.originalName (generateOutputNames sorted) =
  map (fun r => FileObj.name (RankedFile.fileObj r)) sorted.
Proof.
  rewrite generateOutputNames_mappingOf.
  generalize (Nat.max 3 (List.length (toString (List.length sorted)))) as d.
  generalize 0%nat as i. intros i d. revert i.
  induction sorted as [|x r IH]; intros i; cbn [mapIndexFrom map]; [reflexivity|].
  now rewrite IH.
Qed.

Lemma map_name_ranked files : forall i,
  map (fun r => FileObj.name (RankedFile.fileObj r))
      (mapIndexFrom (fun f k => ranked k f) i files) = map FileObj.name files.
Proof. induction files as [|f r IH]; intros i; cbn; [reflexivity|now rewrite IH]. Qed.

(** X9. [previewSorting] returns, for every batch, what [processFileNames]
    returns for it, mapping by mapping and in the same order (original name,
    output name, primary number and sequence number), and it leaves the
    sorted files of the processor as they were, where [processFileNames]
    replaces them by the sorted batch; [reset] empties them. *)
Theorem previewSorting_agrees (files : list FileObj.t) (st : State) :
  exists nameMapping st1 preview st2,
    processFileNames localeCompare files st = Some (nameMapping, st1) /\
    previewSorting files st = Some (preview, st2) /\
    preview = map previewOf nameMapping /\
    map Preview.outputName preview = map OutputMapping.outputName nameMapping /\
    getSortedFiles st2 = getSortedFiles st /\
    Permutation (map (fun r => FileObj.id (RankedFile.fileObj r)) (getSortedFiles st1))
                (map FileObj.id files) /\
    map OutputMapping.originalName nameMapping =
      map (fun r => FileObj.name (RankedFile.fileObj r)) (getSortedFiles st1) /\
    lastIndex st2 = lastIndex st1 /\
    getSortedFiles (reset st1) = [].
Proof.
  unfold previewSorting. rewrite processFileNames_eq. cbv zeta.
  unfold extractNumbers. rewrite extractNumbersFrom_total.
  eexists _, _, _, _. split; [reflexivity|]. split; [reflexivity|].
  split; [reflexivity|]. split; [now rewrite map_map|].
  split; [reflexivity|]. split.
  { cbn [getSortedFiles sortedFiles]. rewrite <- (map_id_ranked files 0).
    apply Permutation_map, Permutation_sym. unfold sortFilesByNumbers. apply sort_perm. }
  split; [apply map_originalName_generateOutputNames|].
  split; reflexivity.
Qed.

End Previews.

(** X10. With a collation that is a consistent comparison, sorting the
    sorted batch once more changes nothing, so that [getDebugInfo], which
    sorts the array twice, reports the mapping [processFileNames] returns,
    the names in the order of that mapping, and the names and the numbers
    extracted in the order of the batch. *)
Theorem getDebugInfo_agrees (localeCompare : jsstring -> jsstring -> Z)
    (files : list FileObj.t) (st : State) :
  (forall x, localeCompare x x = 0%Z) ->
  (forall x y, (localeCompare x y < 0 <-> 0 < localeCompare y x)%Z) ->
  (forall x y z,
     (localeCompare x y <= 0 -> localeCompare y z <= 0 -> localeCompare x z <= 0)%Z) ->
  exists filesWithNumbers st0 nameMapping st1 info st2,
    extractNumbers files st = Some (filesWithNumbers, st0) /\
    sortFilesByNumbers localeCompare (sortFilesByNumbers localeCompare filesWithNumbers)
      = sortFilesByNumbers localeCompare filesWithNumbers /\
    processFileNames localeCompare files st = Some (nameMapping, st1) /\
    getDebugInfo localeCompare files st = Some (info, st2) /\
    DebugInfo.nameMapping info = nameMapping /\
    DebugInfo.sortedOrder info = map OutputMapping.originalName nameMapping /\
    DebugInfo.originalOrder info = map FileObj.name files /\
    map (fun e => fst (fst e)) (DebugInfo.extractedNumbers info) = map FileObj.name files /\
    map (fun e => snd e) (DebugInfo.extractedNumbers info)
      = map RankedFile.primaryNumber filesWithNumbers.
Proof.
  intros Hrefl Hswap Htrans.
  unfold getDebugInfo. rewrite processFileNames_eq. cbv zeta.
  unfold extractNumbers. rewrite extractNumbersFrom_total.
  set (filesWithNumbers := mapIndexFrom (fun f k => ranked k f) 0 files).
  assert (Hsorted : sortFilesByNumbers localeCompare
                      (sortFilesByNumbers localeCompare filesWithNumbers)
                    = sortFilesByNumbers localeCompare filesWithNumbers).
  { unfold sortFilesByNumbers at 1.
    apply (@sort_sorted localeCompare Hrefl).
    apply (@sort_fileLt localeCompare Hrefl Hswap Htrans _ 0%nat).
    unfold filesWithNumbers. rewrite length_mapIndexFrom. apply map_originalIndex_ranked. }
  eexists _, _, _, _, _, _. split; [reflexivity|]. split; [exact Hsorted|].
  split; [reflexivity|]. split; [reflexivity|].
  cbn [DebugInfo.nameMapping DebugInfo.sortedOrder DebugInfo.originalOrder
       DebugInfo.extractedNumbers].
  split; [now rewrite Hsorted|].
  split; [now rewrite map_originalName_generateOutputNames|].
  split; [reflexivity|]. split.
  - rewrite map_map. cbn [fst]. apply map_name_ranked.
  - rewrite map_map. reflexivity.
Qed.

(** The stripped name of an accepted file, as [extractNumbers] computes
    it. *)
Lemma ranked_fileName i fileObj :
  RankedFile.fileName (ranked i fileObj) = Utils.removeFileExtension (FileObj.name fileObj).
Proof. reflexivity. Qed.

(** X4. For a file that [isValidFileType] accepts as [.epub], the name the
    sequencer works on (the name [extractNumbers] strips of its extension) is
    the name of the file without its last five characters, which are
    [.epub] in some mix of cases: nothing more is cut, whatever dots the
    rest of the name holds. *)
Theorem extractNumbers_strips_epub (file : UserFile.t) (fileId : jsstring) (i : nat) :
  Utils.isValidFileType file [str ".epub"] = true ->
  let name := UserFile.name file in
  exists r,
    rankFile i (newFileObj fileId (UserFile.file file) name (UserFile.size file))
      = Some (r, 0%nat) /\
    RankedFile.fileName r = firstn (List.length name - 5) name /\
    name = RankedFile.fileName r ++ skipn (List.length name - 5) name /\
    toLowerCase (skipn (List.length name - 5) name) = str ".epub".
Proof.
  intros Hv name. apply Utils.isValidFileType_epub in Hv.
  destruct (Utils.removeFileExtension_epub Hv) as [Hs He]. fold name in Hs, He.
  eexists. split; [apply rankFile_total|].
  rewrite ranked_fileName. cbn [newFileObj FileObj.name]. rewrite Hs.
  split; [reflexivity|]. split; [now rewrite firstn_skipn|exact He].
Qed.

(** The file [Vol.2 part 3.EPUB]. *)
Lemma extractNumbers_strips_epub_witness :
  let file := {| UserFile.name := str "Vol.2 part 3.EPUB"; UserFile.size := 1024;
                 UserFile.header := Ok [80; 75; 3; 4]%Z; UserFile.file := Archive [] |} in
  Utils.isValidFileType file [str ".epub"] = true /\
  exists r,
    rankFile 0 (newFileObj (str "id") (UserFile.file file) (UserFile.name file)
                  (UserFile.size file)) = Some (r, 0%nat) /\
    RankedFile.fileName r
      = firstn (List.length (UserFile.name file) - 5) (UserFile.name file) /\
    UserFile.name file
      = RankedFile.fileName r
        ++ skipn (List.length (UserFile.name file) - 5) (UserFile.name file) /\
    toLowerCase (skipn (List.length (UserFile.name file) - 5) (UserFile.name file))
      = str ".epub".
Proof.
  intros file. split; [reflexivity|].
  apply (extractNumbers_strips_epub file (str "id") 0). reflexivity.
Defined.

End NameProcessor.

(* ================================================================== *)
(** ** Maps keyed by strings *)
(* ================================================================== *)

(** A [Map] (or the [files] object of a [JSZip] instance) with string keys:
    the entries in insertion order. [set] on a key that is present
    replaces its value in place, as [Map.prototype.set] does. *)
Module JSMap.
Import JS.

Section Map.
Variable V : Type.

Definition t := list (jsstring * V).

Fixpoint get (m : t) (key : jsstring) : option V :=
  match m with
  | [] => None
  | (k, v) :: r => if streq k key then Some v else get r key
  end.

Fixpoint set (m : t) (key : jsstring) (value : V) : t :=
  match m with
  | [] => [(key, value)]
  | (k, v) :: r => if streq k key then (k, value) :: r else (k, v) :: set r key value
  end.

Definition values (m : t) : list V := map snd m.

Lemma get_set_same m key value : get (set m key value) key = Some value.
Proof.
  induction m as [|[k v] r IH]; cbn.
  - now rewrite streq_refl.
  - destruct (streq k key) eqn:E; cbn; rewrite E; [reflexivity|exact IH].
Qed.

Lemma get_set_other m key value key' :
  key <> key' -> get (set m key value) key' = get m key'.
Proof.
  intros Hne. induction m as [|[k v] r IH]; cbn.
  - apply streq_false in Hne. now rewrite Hne.
  - destruct (streq k key) eqn:E; cbn.
    + apply streq_true in E. subst k. apply streq_false in Hne. now rewrite Hne.
    + destruct (streq k key'); [reflexivity|exact IH].
Qed.

Lemma get_None_iff m key : get m key = None <-> ~ In key (map fst m).
Proof.
  induction m as [|[k v] r IH]; cbn; [tauto|].
  destruct (streq k key) eqn:E.
  - apply streq_true in E. split; [discriminate|]. intros H. exfalso. apply H. now left.
  - apply streq_false in E. rewrite IH. tauto.
Qed.

Lemma set_fresh m key value :
  get m key = None -> set m key value = m ++ [(key, value)].
Proof.
  induction m as [|[k v] r IH]; cbn; [reflexivity|].
  destruct (streq k key); [discriminate|]. intros H. now rewrite IH.
Qed.

Lemma set_set m key v1 v2 : set (set m key v1) key v2 = set m key v2.
Proof.
  induction m as [|[k v] r IH]; cbn.
  - now rewrite streq_refl.
  - destruct (streq k key) eqn:E; cbn; rewrite E; [reflexivity|now rewrite IH].
Qed.

(** [Map.prototype.delete] *)
Fixpoint delete (m : t) (key : jsstring) : t :=
  match m with
  | [] => []
  | (k, v) :: r => if streq k key then r else (k, v) :: delete r key
  end.

Lemma get_In m key value : get m key = Some value -> In (key, value) m.
Proof.
  induction m as [|[k v] r IH]; cbn; [discriminate|].
  destruct (streq k key) eqn:E.
  - apply streq_true in E. subst k. intros H. injection H as ->. now left.
  - intros H. right. now apply IH.
Qed.

Lemma In_get m key value : NoDup (map fst m) -> In (key, value) m -> get m key = Some value.
Proof.
  induction m as [|[k v] r IH]; cbn; intros Hnd Hin; [contradiction|].
  apply NoDup_cons_iff in Hnd. destruct Hnd as [Hk Hnd].
  destruct Hin as [Hin|Hin].
  - injection Hin as -> ->. now rewrite streq_refl.
  - destruct (streq k key) eqn:E; [|now apply IH].
    apply streq_true in E. subst k. exfalso. apply Hk.
    apply (in_map fst) in Hin. exact Hin.
Qed.

Lemma keys_set m key value :
  map fst (set m key value) =
  match get m key with Some _ => map fst m | None => map fst m ++ [key] end.
Proof.
  induction m as [|[k v] r IH]; cbn; [reflexivity|].
  destruct (streq k key) eqn:E; cbn; [reflexivity|].
  rewrite IH. now destruct (get r key).
Qed.

Lemma keys_delete m key : NoDup (map fst m) ->
  map fst (delete m key) = filter (fun k => negb (streq k key)) (map fst m).
Proof.
  induction m as [|[k v] r IH]; cbn; intros Hnd; [reflexivity|].
  apply NoDup_cons_iff in Hnd. destruct Hnd as [Hk Hnd].
  destruct (streq k key) eqn:E; cbn [negb].
  - apply streq_true in E. subst k. symmetry. apply forallb_filter_id.
    apply forallb_forall. intros x Hx. apply negb_true_iff, streq_false.
    intros ->. contradiction.
  - cbn. now rewrite IH.
Qed.

Lemma delete_In m key kv : In kv (delete m key) -> In kv m.
Proof.
  induction m as [|[k v] r IH]; cbn; [tauto|].
  destruct (streq k key); [now right|]. intros [H|H]; [now left|right; now apply IH].
Qed.

Lemma get_delete_same m key : NoDup (map fst m) -> get (delete m key) key = None.
Proof.
  intros Hnd. apply get_None_iff. rewrite keys_delete by exact Hnd.
  intros H. apply filter_In in H. destruct H as [_ H].
  rewrite streq_refl in H. discriminate.
Qed.

Lemma get_delete_other m key key' : key <> key' -> get (delete m key) key' = get m key'.
Proof.
  intros Hne. induction m as [|[k v] r IH]; cbn; [reflexivity|].
  destruct (streq k key) eqn:E; cbn.
  - apply streq_true in E. subst k. apply streq_false in Hne. now rewrite Hne.
  - now rewrite IH.
Qed.

End Map.
End JSMap.

(** The [JSZip] instance under construction, holding only files: [file] is
    [zip.file(name)] (the entry, or null) and [add] is
    [zip.file(name, data)]. For a name that holds a slash [JSZip] also
    creates the entries of the folders of the name, and it lists the names
    that are array indices before the others: the entries of the model are
    the entries of the archive, in their order, for names without a slash
    that hold a character other than a digit. *)
Module JSZip.
Definition t := JSMap.t Blob.
Definition file (zip : t) (name : JS.jsstring) : option Blob := JSMap.get zip name.
Definition add (zip : t) (name : JS.jsstring) (data : Blob) : t := JSMap.set zip name data.
End JSZip.

(* ================================================================== *)
(** ** js/epubParser.js: class EpubParser *)
(* ================================================================== *)

(** [{originalPath, fileName, blob, size}] of an extracted image (the MIME
    type and the empty dimensions, which no later step reads, are left
    out). *)
Module ExtractedImage.
Record t := {
  originalPath : JS.jsstring;
  fileName : JS.jsstring;
  blob : Blob;
  size : nat
}.
End ExtractedImage.

(** The object [parseEpub] resolves to (without the metadata, which is
    informational and whose extraction catches its own errors). *)
Module ParseResult.
Record t := {
  success : bool;
  error : option string;
  images : list ExtractedImage.t
}.
End ParseResult.

Module EpubParser.
Import JS.

Definition imageExtensions : list jsstring :=
  map str [".jpg"; ".jpeg"; ".png"; ".gif"; ".webp"; ".bmp"; ".svg"]%string.

(** The directory names of [/\/(images?|pics?|graphics?|assets?|media)\//i]. *)
Definition imageDirectories : list jsstring :=
  map str ["image"; "images"; "pic"; "pics"; "graphic"; "graphics";
           "asset"; "assets"; "media"]%string.

(** [/\/(images?|pics?|graphics?|assets?|media)\//i.test(path)] *)
Definition isInImageDirectory (path : jsstring) : bool :=
  existsb (fun d => includes (toLowerCase path) (str "/" ++ d ++ str "/"))
          imageDirectories.

(** The words of [/thumb|thumbnail|cover|icon/i]. *)
Definition thumbnailWords : list jsstring :=
  map str ["thumb"; "thumbnail"; "cover"; "icon"]%string.

(** [/thumb|thumbnail|cover|icon/i.test(s)] *)
Definition looksLikeThumbnail (s : jsstring) : bool :=
  existsb (includes (toLowerCase s)) thumbnailWords.

Definition isImageFile (path : jsstring) : bool :=
  let lowerPath := toLowerCase path in
  let hasImageExtension := existsb (endsWith lowerPath) imageExtensions in
  let isInImageDirectory := isInImageDirectory path in
  let isNotThumbnail := negb (looksLikeThumbnail lowerPath) in
  hasImageExtension && (isInImageDirectory || isNotThumbnail).

(** [path.match(/\.([^.]+)$/)]: the text after the last dot, when there is
    a dot and the text is not empty, in lower case; otherwise empty. Only
    the letters A..Z are folded here; the source folds the capital letters
    outside ASCII too. The only caller is the branch of
    [generateImageFileName] for a path whose last segment is empty or a
    lone dot, which no path of an image entry reaches: such a path ends
    with an image extension. *)
Definition getFileExtension (path : jsstring) : jsstring :=
  let i := lastIndexOf path 46 in
  if (i <? 0)%Z then []
  else toLowerCase (skipn (Z.to_nat i + 1) path).

(** The class [[a-zA-Z0-9._-]]. *)
Definition isPlainChar (c : Z) : bool :=
  ((97 <=? c) && (c <=? 122) || (65 <=? c) && (c <=? 90) || (48 <=? c) && (c <=? 57)
   || (c =? 46) || (c =? 95) || (c =? 45))%Z.

Definition generateImageFileName (originalPath : jsstring) : jsstring :=
  let pathParts := splitOn 47 originalPath in
  let originalFileName := last pathParts [] in
  if (0 <? List.length originalFileName)%nat && negb (streq originalFileName (str "."))
  then originalFileName
  else
    let cleanPath := map (fun c => if isPlainChar c then c else 95%Z) originalPath in
    let extension :=
      match getFileExtension originalPath with
      | [] => str "jpg"
      | e => e
      end in
    str "image_" ++ cleanPath ++ str "." ++ extension.

(** [extractImageData]: null when the bytes cannot be read. *)
Definition extractImageData (entry : ZipObject.t) : option ExtractedImage.t :=
  match ZipObject.data entry with
  | Ok bytes =>
      Some {| ExtractedImage.originalPath := ZipObject.path entry;
              ExtractedImage.fileName := generateImageFileName (ZipObject.path entry);
              ExtractedImage.blob := bytes;
              ExtractedImage.size := List.length bytes |}
  | Throw _ => None
  end.

Section Extraction.
Variable localeCompare : jsstring -> jsstring -> Z.

(** [extractImages]: the image entries, sorted by path, each read in turn;
    an entry that cannot be read is skipped. *)
Definition extractImages (zipContent : list ZipObject.t) : list ExtractedImage.t :=
  let imageFiles :=
    filter (fun e => negb (ZipObject.dir e) && isImageFile (ZipObject.path e)) zipContent in
  let imageFiles :=
    sort (fun a b => localeCompare (ZipObject.path a) (ZipObject.path b)) imageFiles in
  flat_map (fun e => match extractImageData e with Some img => [img] | None => [] end)
           imageFiles.

(** [zipContent.file(name)]: the first entry of that path that is a file. *)
Definition zipContentFile (zipContent : list ZipObject.t) (name : jsstring)
    : option ZipObject.t :=
  find (fun e => streq (ZipObject.path e) name && negb (ZipObject.dir e)) zipContent.

(** [validateEpubStructure]: reads [mimetype] when it is there (a wrong
    content only warns) and requires [META-INF/container.xml]. *)
Definition validateEpubStructure (zipContent : list ZipObject.t) : Result unit :=
  match zipContentFile zipContent (str "mimetype") with
  | Some {| ZipObject.data := Throw message |} => Throw message
  | _ =>
      match zipContentFile zipContent (str "META-INF/container.xml") with
      | None => Throw "缺少META-INF/container.xml文件"%string
      | Some _ => Ok tt
      end
  end.

(** [error.message || '解析失败'] *)
Definition messageOr (message fallback : string) : string :=
  match message with
  | EmptyString => fallback
  | _ => message
  end.

Definition parseEpub (file : File) : ParseResult.t :=
  let failure message :=
    {| ParseResult.success := false;
       ParseResult.error := Some (messageOr message "解析失败"%string);
       ParseResult.images := [] |} in
  match file with
  | Unreadable message => failure message
  | Archive zipContent =>
      match validateEpubStructure zipContent with
      | Throw message => failure message
      | Ok _ =>
          {| ParseResult.success := true;
             ParseResult.error := None;
             ParseResult.images := extractImages zipContent |}
      end
  end.

End Extraction.

(** *** Thumbnails, covers and icons *)

(** The path lies in an image directory: one of its segments, after the
    first and before the file name, is a directory name of the pattern
    (compared without case). *)
Definition inImageDirectorySegment (path : jsstring) : bool :=
  existsb (fun segment => existsb (streq segment) imageDirectories)
          (interiorSegments 47 (toLowerCase path)).

Lemma imageDirectories_plain :
  Forall (fun d => forallb (fun c => negb (c =? 47)%Z) d = true) imageDirectories.
Proof. repeat constructor. Qed.

(** The test of the regular expression is the test on the segments. *)
Lemma isInImageDirectory_segments path :
  isInImageDirectory path = inImageDirectorySegment path.
Proof.
  apply eq_true_iff_eq. unfold isInImageDirectory, inImageDirectorySegment.
  rewrite !existsb_exists. split.
  - intros (d & Hd & Hinc). exists d.
    pose proof imageDirectories_plain as Hplain.
    rewrite Forall_forall in Hplain. specialize (Hplain d Hd).
    split.
    + apply (@interiorSegments_iff 47%Z d _ Hplain).
      apply includes_iff in Hinc. destruct Hinc as (pre & r & H).
      exists pre, r. rewrite H. cbn [str map list_ascii_of_string app].
      now rewrite <- app_assoc.
    + apply existsb_exists. exists d. split; [exact Hd|apply streq_refl].
  - intros (segment & Hseg & Hdir).
    apply existsb_exists in Hdir. destruct Hdir as (d & Hd & Heq).
    apply streq_true in Heq. subst segment. exists d. split; [exact Hd|].
    pose proof imageDirectories_plain as Hplain.
    rewrite Forall_forall in Hplain. specialize (Hplain d Hd).
    apply (@interiorSegments_iff 47%Z d _ Hplain) in Hseg. destruct Hseg as (pre & r & H).
    apply includes_iff. exists pre, r. rewrite H.
    cbn [str map list_ascii_of_string app]. now rewrite <- app_assoc.
Qed.

Section ExtractionFacts.
Variable localeCompare : jsstring -> jsstring -> Z.

(** Every extracted image comes from an entry that is a file and passes
    [isImageFile]. *)
Lemma extractImages_origin zipContent image :
  In image (extractImages localeCompare zipContent) ->
  exists e, In e zipContent /\ ZipObject.dir e = false /\
            isImageFile (ZipObject.path e) = true /\
            ExtractedImage.originalPath image = ZipObject.path e.
Proof.
  unfold extractImages. intros H. apply in_flat_map in H. destruct H as (e & He & Himg).
  apply (Permutation_in _ (Permutation_sym (sort_perm _ _))) in He.
  apply filter_In in He. destruct He as [Hin Hf].
  apply andb_prop in Hf. destruct Hf as [Hdir Hfile].
  exists e. split; [exact Hin|]. split; [now apply negb_true_iff|]. split; [exact Hfile|].
  unfold extractImageData in Himg.
  destruct (ZipObject.data e); [|contradiction].
  destruct Himg as [<-|[]]. reflexivity.
Qed.

Lemma filter_image_without path zipContent :
  isImageFile path = false ->
  filter (fun e => negb (ZipObject.dir e) && isImageFile (ZipObject.path e))
         (filter (fun e => negb (streq (ZipObject.path e) path)) zipContent) =
  filter (fun e => negb (ZipObject.dir e) && isImageFile (ZipObject.path e)) zipContent.
Proof.
  intros Hp. induction zipContent as [|e r IH]; cbn [filter]; [reflexivity|].
  destruct (streq (ZipObject.path e) path) eqn:E; cbn [negb].
  - apply streq_true in E. rewrite E, Hp, andb_false_r. exact IH.
  - cbn [filter]. now rewrite IH.
Qed.

(** C10. An entry whose lower-cased path contains thumb, thumbnail, cover
    or icon and which does not lie in an image directory is not an image
    file for the parser, whatever its extension: no extracted image comes
    from it, and the images extracted (hence the archive built from them)
    are those of the EPUB without that entry. *)
Theorem isImageFile_excludes_thumbnails (path : jsstring) (zipContent : list ZipObject.t) :
  looksLikeThumbnail (toLowerCase path) = true ->
  inImageDirectorySegment path = false ->
  isImageFile path = false /\
  (forall image, In image (extractImages localeCompare zipContent) ->
     ExtractedImage.originalPath image <> path) /\
  extractImages localeCompare
    (filter (fun e => negb (streq (ZipObject.path e) path)) zipContent)
  = extractImages localeCompare zipContent.
Proof.
  intros Hthumb Hdir.
  assert (Hfile : isImageFile path = false).
  { unfold isImageFile. rewrite isInImageDirectory_segments, Hdir, Hthumb.
    cbn [negb orb]. apply andb_false_r. }
  split; [exact Hfile|]. split.
  - intros image Himg Heq.
    apply extractImages_origin in Himg. destruct Himg as (e & _ & _ & He & Hpath).
    rewrite Hpath in Heq. rewrite Heq in He. congruence.
  - unfold extractImages. now rewrite filter_image_without.
Qed.

End ExtractionFacts.

(** A cover at the top level of the EPUB has an image extension and is not
    an image file for the parser; in [OEBPS/images] it is one. *)
Example isImageFile_cover :
  existsb (endsWith (toLowerCase (str "cover.jpg"))) imageExtensions = true /\
  isImageFile (str "cover.jpg") = false /\
  isImageFile (str "images/cover.jpg") = false /\
  isImageFile (str "OEBPS/Images/cover.jpg") = true /\
  isImageFile (str "OEBPS/images/page1.jpg") = true.
Proof. repeat split. Qed.

(** *** The name of an extracted image *)

Lemma toLowerCase_plain b : forall e,
  toLowerCase b = e ->
  forallb (fun c => negb (c =? 47)%Z) e = true ->
  forallb (fun c => negb (c =? 47)%Z) b = true.
Proof.
  induction b as [|c b IH]; intros e He Hp; [reflexivity|].
  subst e. cbn [toLowerCase map forallb] in Hp |- *.
  apply andb_prop in Hp. destruct Hp as [Hc Hr].
  rewrite (IH _ eq_refl Hr), andb_true_r.
  apply negb_true_iff, Z.eqb_neq. apply negb_true_iff, Z.eqb_neq in Hc.
  intros ->. now apply Hc.
Qed.

(** An image extension is a dot and three or four letters. *)
Lemma imageExtensions_shape :
  Forall (fun ext =>
            (4 <= List.length ext)%nat /\
            forallb (fun c => negb (c =? 47)%Z) ext = true /\
            exists e, ext = 46%Z :: e /\ forallb (fun c => negb (c =? 46)%Z) e = true)
         imageExtensions.
Proof. repeat constructor; eexists; split; reflexivity. Qed.

Definition hasImageExtension (path : jsstring) : bool :=
  existsb (endsWith (toLowerCase path)) imageExtensions.

Lemma isImageFile_hasImageExtension path :
  isImageFile path = true -> hasImageExtension path = true.
Proof. unfold isImageFile. intros H. apply andb_prop in H. tauto. Qed.

Lemma hasImageExtension_split path :
  hasImageExtension path = true ->
  exists a b ext, path = a ++ b /\ toLowerCase b = ext /\ In ext imageExtensions.
Proof.
  intros H. apply existsb_exists in H. destruct H as (ext & Hin & He).
  apply endsWith_iff in He. destruct He as [pre He].
  apply toLowerCase_app_inv in He. destruct He as (a & b & Hp & _ & Hb).
  now exists a, b, ext.
Qed.

(** X11. The name given to the image of an entry that [isImageFile]
    accepts is the last segment of the entry's path: the path is a directory
    part (empty, or ended by a slash) followed by that name, and the name
    holds no slash, has four characters or more and ends with an image
    extension; the branch of [generateImageFileName] that builds a name from
    the whole path is not taken for such an entry. *)
Theorem generateImageFileName_basename (path : jsstring) :
  isImageFile path = true ->
  let fileName := generateImageFileName path in
  fileName = last (splitOn 47 path) [] /\
  (exists dir, path = dir ++ fileName /\ (dir = [] \/ exists d, dir = d ++ str "/")) /\
  forallb (fun c => negb (c =? 47)%Z) fileName = true /\
  (4 <= List.length fileName)%nat /\
  hasImageExtension fileName = true.
Proof.
  intros Himg fileName.
  destruct (hasImageExtension_split _ (isImageFile_hasImageExtension _ Himg))
    as (a & b & ext & Hp & Hb & Hext).
  pose proof imageExtensions_shape as Hshape. rewrite Forall_forall in Hshape.
  destruct (Hshape ext Hext) as (Hlen & Hplain & _).
  assert (Hbplain : forallb (fun c => negb (c =? 47)%Z) b = true)
    by exact (toLowerCase_plain b Hb Hplain).
  assert (Hblen : (4 <= List.length b)%nat).
  { rewrite <- (toLowerCase_length b), Hb. exact Hlen. }
  assert (Hlast : last (splitOn 47 path) [] = last (splitOn 47 a) [] ++ b).
  { rewrite Hp. now apply last_splitOn_app_plain. }
  assert (Hname : fileName = last (splitOn 47 path) []).
  { unfold fileName, generateImageFileName. rewrite Hlast.
    set (seg := last (splitOn 47 a) [] ++ b).
    assert (Hseg : (4 <= List.length seg)%nat)
      by (unfold seg; rewrite length_app; lia).
    replace (0 <? List.length seg)%nat with true
      by (symmetry; apply Nat.ltb_lt; lia).
    replace (streq seg (str ".")) with false; [reflexivity|].
    symmetry. apply streq_false. intros E. rewrite E in Hseg. cbn in Hseg. lia. }
  split; [exact Hname|]. rewrite Hname.
  destruct (splitOn_last 47 path) as (dir & Hdir & Hend & Hseg).
  split; [exists dir; split; [exact Hdir|exact Hend]|].
  split; [exact Hseg|]. rewrite Hlast.
  split; [rewrite length_app; lia|].
  unfold hasImageExtension. apply existsb_exists. exists ext. split; [exact Hext|].
  apply endsWith_iff. exists (toLowerCase (last (splitOn 47 a) [])).
  now rewrite toLowerCase_app, Hb.
Qed.

(** The entry [OEBPS/Images/Page 01.JPG]. *)
Lemma generateImageFileName_basename_witness :
  isImageFile (str "OEBPS/Images/Page 01.JPG") = true /\
  (generateImageFileName (str "OEBPS/Images/Page 01.JPG")
     = last (splitOn 47 (str "OEBPS/Images/Page 01.JPG")) [] /\
   (exists dir,
      str "OEBPS/Images/Page 01.JPG"
        = dir ++ generateImageFileName (str "OEBPS/Images/Page 01.JPG") /\
      (dir = [] \/ exists d, dir = d ++ str "/")) /\
   forallb (fun c => negb (c =? 47)%Z)
           (generateImageFileName (str "OEBPS/Images/Page 01.JPG")) = true /\
   (4 <= List.length (generateImageFileName (str "OEBPS/Images/Page 01.JPG")))%nat /\
   hasImageExtension (generateImageFileName (str "OEBPS/Images/Page 01.JPG")) = true).
Proof.
  split; [reflexivity|].
  apply (generateImageFileName_basename (str "OEBPS/Images/Page 01.JPG")). reflexivity.
Defined.

(** *** What [extractImages] extracts *)

(** The entry is a file, passes [isImageFile], and its bytes can be read. *)
Definition isReadableImage (e : ZipObject.t) : bool :=
  negb (ZipObject.dir e) && isImageFile (ZipObject.path e) &&
  match ZipObject.data e with Ok _ => true | Throw _ => false end.

Lemma length_extracted l :
  List.length
    (flat_map (fun e => match extractImageData e with Some img => [img] | None => [] end) l)
  = List.length
      (filter (fun e => match ZipObject.data e with Ok _ => true | Throw _ => false end) l).
Proof.
  induction l as [|e l IH]; cbn [flat_map filter]; [reflexivity|].
  unfold extractImageData at 1. destruct (ZipObject.data e); cbn [app List.length]; lia.
Qed.

Lemma filter_filter_and (A : Type) (f g : A -> bool) (l : list A) :
  filter g (filter f l) = filter (fun x => f x && g x) l.
Proof.
  induction l as [|x l IH]; cbn [filter]; [reflexivity|].
  destruct (f x); cbn [filter andb]; [destruct (g x)|]; now rewrite IH.
Qed.

Section ExtractionOrder.
Variable localeCompare : jsstring -> jsstring -> Z.

(** X12. [extractImages] returns one image for each entry of the archive
    that is a file, passes [isImageFile] and whose bytes can be read, and
    nothing else: an entry that cannot be read is left out without failing
    the extraction. The image carries the path of the entry, the bytes read,
    their number as size, and the name [generateImageFileName] gives to the
    path. *)
Theorem extractImages_exact (zipContent : list ZipObject.t) :
  (forall image,
     In image (extractImages localeCompare zipContent) <->
     exists e bytes,
       In e zipContent /\ ZipObject.dir e = false /\
       isImageFile (ZipObject.path e) = true /\ ZipObject.data e = Ok bytes /\
       image = {| ExtractedImage.originalPath := ZipObject.path e;
                  ExtractedImage.fileName := generateImageFileName (ZipObject.path e);
                  ExtractedImage.blob := bytes;
                  ExtractedImage.size := List.length bytes |}) /\
  List.length (extractImages localeCompare zipContent)
    = List.length (filter isReadableImage zipContent) /\
  Permutation (map ExtractedImage.originalPath (extractImages localeCompare zipContent))
              (map ZipObject.path (filter isReadableImage zipContent)).
Proof.
  unfold extractImages.
  set (imageFiles :=
         filter (fun e => negb (ZipObject.dir e) && isImageFile (ZipObject.path e)) zipContent).
  set (sorted := sort (fun a b => localeCompare (ZipObject.path a) (ZipObject.path b))
                      imageFiles).
  assert (Hperm : Permutation imageFiles sorted) by apply sort_perm.
  split; [|split].
  - intros image. rewrite in_flat_map. split.
    + intros (e & He & Himg).
      apply (Permutation_in _ (Permutation_sym Hperm)) in He.
      apply filter_In in He. destruct He as [Hin Hf].
      apply andb_prop in Hf. destruct Hf as [Hdir Hfile].
      unfold extractImageData in Himg.
      destruct (ZipObject.data e) as [bytes|message] eqn:Ed; [|contradiction].
      destruct Himg as [<-|[]]. exists e, bytes.
      repeat split; auto. now apply negb_true_iff.
    + intros (e & bytes & Hin & Hdir & Hfile & Hd & ->). exists e. split.
      * apply (Permutation_in _ Hperm). apply filter_In. split; [exact Hin|].
        now rewrite Hdir, Hfile.
      * unfold extractImageData. rewrite Hd. now left.
  - rewrite length_extracted.
    rewrite <- (Permutation_length
                  (Permutation_filter
                     (fun e => match ZipObject.data e with Ok _ => true | Throw _ => false end)
                     Hperm)).
    unfold imageFiles. rewrite filter_filter_and. reflexivity.
  - transitivity
      (map ExtractedImage.originalPath
         (flat_map (fun e => match extractImageData e with Some img => [img] | None => [] end)
                   imageFiles)).
    + apply Permutation_map, Permutation_flat_map, Permutation_sym, Hperm.
    + unfold imageFiles. clear. induction zipContent as [|e l IH]; [constructor|].
      unfold isReadableImage. cbn [filter].
      destruct (negb (ZipObject.dir e) && isImageFile (ZipObject.path e)); cbn [andb];
        [|exact IH].
      cbn [flat_map]. unfold extractImageData at 1.
      destruct (ZipObject.data e); cbn [app map ExtractedImage.originalPath];
        [now constructor|exact IH].
Qed.

(** X13. With a collation that is a consistent comparison, the images come
    out of [extractImages] in the order of the collation of their paths, the
    order in which their entries are then added to the archive. *)
Theorem extractImages_sorted (zipContent : list ZipObject.t) :
  (forall x y, (0 < localeCompare x y -> localeCompare y x <= 0)%Z) ->
  (forall x y z,
     (localeCompare x y <= 0 -> localeCompare y z <= 0 -> localeCompare x z <= 0)%Z) ->
  StronglySorted
    (fun a b => (localeCompare (ExtractedImage.originalPath a)
                               (ExtractedImage.originalPath b) <= 0)%Z)
    (extractImages localeCompare zipContent).
Proof.
  intros Hswap Htrans. unfold extractImages.
  apply (@StronglySorted_filter_map _ _
           (fun a b => (localeCompare (ZipObject.path a) (ZipObject.path b) <= 0)%Z)).
  - intros a a' b b' HR Ha Ha'. unfold extractImageData in Ha, Ha'.
    destruct (ZipObject.data a); [|discriminate].
    destruct (ZipObject.data a'); [|discriminate].
    injection Ha as <-. injection Ha' as <-. exact HR.
  - apply (@sort_StronglySorted _
             (fun a b => localeCompare (ZipObject.path a) (ZipObject.path b))).
    + intros x y. apply Hswap.
    + intros x y z. apply Htrans.
Qed.

Lemma validateEpubStructure_ok zipContent :
  validateEpubStructure zipContent = Ok tt <->
  zipContentFile zipContent (str "META-INF/container.xml") <> None /\
  (forall e message, zipContentFile zipContent (str "mimetype") = Some e ->
     ZipObject.data e <> Throw message).
Proof.
  unfold validateEpubStructure.
  destruct (zipContentFile zipContent (str "mimetype")) as [[p d dat]|] eqn:Em.
  - destruct dat as [bytes|message].
    + destruct (zipContentFile zipContent (str "META-INF/container.xml")) eqn:Ec.
      * split; [|reflexivity]. intros _. split; [discriminate|].
        intros e m He. injection He as <-. cbn. discriminate.
      * split; [discriminate|]. intros [Hc _]. congruence.
    + split; [discriminate|]. intros [_ Hm]. exfalso.
      now apply (Hm _ message eq_refl).
  - destruct (zipContentFile zipContent (str "META-INF/container.xml")) eqn:Ec.
    + split; [|reflexivity]. intros _. split; [discriminate|]. intros e m He. discriminate.
    + split; [discriminate|]. intros [Hc _]. congruence.
Qed.

(** X14. [parseEpub] never throws. It succeeds exactly on a file that
    opens as an archive, holds the file [META-INF/container.xml] and, when
    it holds a file [mimetype], lets it be read (what [mimetype] says is not
    checked); the result then carries the images of [extractImages] and no
    error. Otherwise the result carries no image and a message that is not
    empty: the message of the error, or [解析失败] when the error has none;
    a missing container gives [缺少META-INF/container.xml文件]. *)
Theorem parseEpub_outcome (file : File) :
  let result := parseEpub localeCompare file in
  (ParseResult.success result = true <->
   exists zipContent,
     file = Archive zipContent /\
     zipContentFile zipContent (str "META-INF/container.xml") <> None /\
     (forall e message, zipContentFile zipContent (str "mimetype") = Some e ->
        ZipObject.data e <> Throw message)) /\
  (forall zipContent, file = Archive zipContent -> ParseResult.success result = true ->
     ParseResult.error result = None /\
     ParseResult.images result = extractImages localeCompare zipContent) /\
  (ParseResult.success result = false ->
     ParseResult.images result = [] /\
     exists message, ParseResult.error result = Some message /\ message <> ""%string) /\
  (forall zipContent, file = Archive zipContent ->
     zipContentFile zipContent (str "mimetype") = None ->
     zipContentFile zipContent (str "META-INF/container.xml") = None ->
     ParseResult.error result = Some "缺少META-INF/container.xml文件"%string).
Proof.
  intros result. unfold result, parseEpub.
  assert (Hmsg : forall m, messageOr m "解析失败" <> ""%string).
  { intros [|a m]; cbn; discriminate. }
  destruct file as [message|zipContent].
  - cbn [ParseResult.success ParseResult.error ParseResult.images].
    split; [split; [discriminate|intros (z & H & _); discriminate]|].
    split; [discriminate|]. split; [|discriminate].
    intros _. split; [reflexivity|]. eexists. split; [reflexivity|apply Hmsg].
  - pose proof (validateEpubStructure_ok zipContent) as Hok.
    split; [|split; [|split]].
    + destruct (validateEpubStructure zipContent) as [[]|message];
        cbn [ParseResult.success].
      * split; [|reflexivity]. intros _. exists zipContent. split; [reflexivity|].
        now apply Hok.
      * split; [discriminate|]. intros (z & Hz & Hc). injection Hz as <-.
        apply Hok in Hc. discriminate.
    + intros z Hz. injection Hz as <-.
      destruct (validateEpubStructure zipContent) as [[]|message];
        cbn [ParseResult.success ParseResult.error ParseResult.images];
        [intros _; split; reflexivity|discriminate].
    + destruct (validateEpubStructure zipContent) as [[]|message];
        cbn [ParseResult.success ParseResult.error ParseResult.images];
        [discriminate|].
      intros _. split; [reflexivity|]. eexists. split; [reflexivity|apply Hmsg].
    + intros z Hz Hm Hc. injection Hz as <-.
      unfold validateEpubStructure. rewrite Hm, Hc. reflexivity.
Qed.

End ExtractionOrder.

(** *** The type of an image *)

(** [supportedImageTypes] *)
Definition supportedImageTypes : list jsstring :=
  map str ["image/jpeg"; "image/jpg"; "image/png"; "image/gif"; "image/webp";
           "image/bmp"; "image/svg+xml"]%string.

(** The object [mimeMap] of [getMimeTypeFromExtension]. *)
Definition mimeMap : JSMap.t jsstring :=
  [(str "jpg", str "image/jpeg"); (str "jpeg", str "image/jpeg");
   (str "png", str "image/png"); (str "gif", str "image/gif");
   (str "webp", str "image/webp"); (str "bmp", str "image/bmp");
   (str "svg", str "image/svg+xml")].

(** The names in lower case of the properties every object inherits: for
    these keys [mimeMap[extension]] is the inherited value, which is truthy
    and is not a string. *)
Definition inheritedKeys : list jsstring := map str ["constructor"; "__proto__"]%string.

(** The value of [mimeMap[extension] || 'image/jpeg']. *)
Inductive MimeValue :=
| MimeString (type : jsstring)
| InheritedValue (key : jsstring).

(** [getMimeTypeFromExtension]: [extension] is
    [path.toLowerCase().split('.').pop()]. *)
Definition getMimeTypeFromExtension (path : jsstring) : MimeValue :=
  let extension := last (splitOn 46 (toLowerCase path)) [] in
  match JSMap.get mimeMap extension with
  | Some type => MimeString type
  | None =>
      if existsb (streq extension) inheritedKeys then InheritedValue extension
      else MimeString (str "image/jpeg")
  end.

(** [data[offset] === b0 && data[offset + 1] === b1 && ...]; a byte that is
    not there equals none. *)
Definition bytesAt (data : list Z) (offset : nat) (signature : list Z) : bool :=
  startsWith (skipn offset data) signature.

(** [detectImageType]. The text decoded from the first 1000 bytes holds
    [<svg] or [<?xml] exactly when these bytes hold the codes of the one or
    of the other: a byte below 128 is decoded to the character of its code,
    whatever surrounds it, and the other bytes to characters above 127. *)
Definition detectImageType (data : list Z) (path : jsstring) : MimeValue :=
  if (List.length data <? 4)%nat then getMimeTypeFromExtension path
  else if bytesAt data 0 [255; 216; 255]%Z then MimeString (str "image/jpeg")
  else if bytesAt data 0 [137; 80; 78; 71]%Z then MimeString (str "image/png")
  else if bytesAt data 0 [71; 73; 70; 56]%Z then MimeString (str "image/gif")
  else if (12 <=? List.length data)%nat && bytesAt data 0 [82; 73; 70; 70]%Z
          && bytesAt data 8 [87; 69; 66; 80]%Z
  then MimeString (str "image/webp")
  else if bytesAt data 0 [66; 77]%Z then MimeString (str "image/bmp")
  else
    let textContent := firstn (Nat.min 1000 (List.length data)) data in
    if includes textContent (str "<svg") || includes textContent (str "<?xml")
    then MimeString (str "image/svg+xml")
    else getMimeTypeFromExtension path.

(** The type [mimeMap] gives to each image extension. *)
Lemma getMimeTypeFromExtension_image path :
  hasImageExtension path = true ->
  exists extension type,
    endsWith (toLowerCase path) (str "." ++ extension) = true /\
    JSMap.get mimeMap extension = Some type /\
    getMimeTypeFromExtension path = MimeString type /\
    In type supportedImageTypes.
Proof.
  intros H. destruct (hasImageExtension_split _ H) as (a & b & ext & Hp & Hb & Hext).
  assert (Hlow : toLowerCase path = toLowerCase a ++ ext)
    by (now rewrite Hp, toLowerCase_app, Hb).
  assert (Hcase : forall e type,
            ext = 46%Z :: e -> forallb (fun c => negb (c =? 46)%Z) e = true ->
            JSMap.get mimeMap e = Some type -> In type supportedImageTypes ->
            exists extension type,
              endsWith (toLowerCase path) (str "." ++ extension) = true /\
              JSMap.get mimeMap extension = Some type /\
              getMimeTypeFromExtension path = MimeString type /\
              In type supportedImageTypes).
  { intros e type He Hplain Hget Hin. exists e, type.
    split; [apply endsWith_iff; exists (toLowerCase a); now rewrite Hlow, He|].
    split; [exact Hget|]. split; [|exact Hin].
    unfold getMimeTypeFromExtension. rewrite Hlow, He, splitOn_app.
    rewrite (splitOn_whole 46 e Hplain), last_last, Hget. reflexivity. }
  cbn in Hext.
  destruct Hext as [<-|[<-|[<-|[<-|[<-|[<-|[<-|[]]]]]]]];
    eapply Hcase; try reflexivity; cbn; tauto.
Qed.

(** X15. For every entry whose path ends with an image extension (so for
    every entry that [isImageFile] accepts) and whatever its bytes,
    [detectImageType] returns one of the supported image types. With fewer
    than four bytes the type is the one [mimeMap] gives to the extension;
    with four bytes or more a signature decides before the extension does:
    bytes that begin with FF D8 FF are [image/jpeg] and bytes that begin
    with 89 50 4E 47 are [image/png], whatever the extension says. *)
Theorem detectImageType_supported (data : list Z) (path : jsstring) :
  hasImageExtension path = true ->
  (exists type, detectImageType data path = MimeString type /\
                In type supportedImageTypes) /\
  (exists extension type,
     endsWith (toLowerCase path) (str "." ++ extension) = true /\
     JSMap.get mimeMap extension = Some type /\
     getMimeTypeFromExtension path = MimeString type) /\
  ((List.length data < 4)%nat ->
     detectImageType data path = getMimeTypeFromExtension path) /\
  ((4 <= List.length data)%nat -> startsWith data [255; 216; 255]%Z = true ->
     detectImageType data path = MimeString (str "image/jpeg")) /\
  ((4 <= List.length data)%nat -> startsWith data [137; 80; 78; 71]%Z = true ->
     detectImageType data path = MimeString (str "image/png")).
Proof.
  intros H.
  destruct (getMimeTypeFromExtension_image path H) as (extension & type & He & Hg & Hm & Hin).
  split; [|split; [|split; [|split]]].
  - unfold detectImageType.
    repeat match goal with
           | |- context [if ?c then _ else _] => destruct c
           end;
      try (eexists; split; [reflexivity|cbn; tauto]);
      exists type; now split.
  - now exists extension, type.
  - intros Hl. unfold detectImageType.
    apply Nat.ltb_lt in Hl. now rewrite Hl.
  - intros Hl Hs. unfold detectImageType, bytesAt. cbn [skipn].
    replace (List.length data <? 4)%nat with false
      by (symmetry; apply Nat.ltb_ge; lia).
    now rewrite Hs.
  - intros Hl Hs. unfold detectImageType, bytesAt. cbn [skipn].
    replace (List.length data <? 4)%nat with false
      by (symmetry; apply Nat.ltb_ge; lia).
    rewrite Hs.
    destruct (startsWith data [255; 216; 255]%Z) eqn:E; [|reflexivity].
    exfalso. destruct data as [|b0 r]; [discriminate|].
    cbn [startsWith] in Hs, E.
    apply andb_prop in Hs. apply andb_prop in E.
    destruct Hs as [Hs _], E as [E _]. apply Z.eqb_eq in Hs, E. lia.
Qed.

(** A page named [.png] whose bytes are those of a JPEG file. *)
Lemma detectImageType_supported_witness :
  hasImageExtension (str "OEBPS/images/p1.png") = true /\
  ((exists type,
      detectImageType [255; 216; 255; 224; 0; 16]%Z (str "OEBPS/images/p1.png")
        = MimeString type /\ In type supportedImageTypes) /\
   (exists extension type,
      endsWith (toLowerCase (str "OEBPS/images/p1.png")) (str "." ++ extension) = true /\
      JSMap.get mimeMap extension = Some type /\
      getMimeTypeFromExtension (str "OEBPS/images/p1.png") = MimeString type) /\
   ((List.length [255; 216; 255; 224; 0; 16]%Z < 4)%nat ->
      detectImageType [255; 216; 255; 224; 0; 16]%Z (str "OEBPS/images/p1.png")
        = getMimeTypeFromExtension (str "OEBPS/images/p1.png")) /\
   ((4 <= List.length [255; 216; 255; 224; 0; 16]%Z)%nat ->
      startsWith [255; 216; 255; 224; 0; 16]%Z [255; 216; 255]%Z = true ->
      detectImageType [255; 216; 255; 224; 0; 16]%Z (str "OEBPS/images/p1.png")
        = MimeString (str "image/jpeg")) /\
   ((4 <= List.length [255; 216; 255; 224; 0; 16]%Z)%nat ->
      startsWith [255; 216; 255; 224; 0; 16]%Z [137; 80; 78; 71]%Z = true ->
      detectImageType [255; 216; 255; 224; 0; 16]%Z (str "OEBPS/images/p1.png")
        = MimeString (str "image/png"))).
Proof.
  split; [reflexivity|].
  apply (detectImageType_supported [255; 216; 255; 224; 0; 16]%Z (str "OEBPS/images/p1.png")).
  reflexivity.
Defined.

End EpubParser.

(* ================================================================== *)
(** ** js/zipGenerator.js: class ZipGenerator *)
(* ================================================================== *)

(** [{fileId, fileName, originalName, blob, size, imageCount, success}],
    the result [processBatch] stores for a converted file. *)
Module ConversionResult.
Record t := {
  fileId : JS.jsstring;
  fileName : JS.jsstring;
  originalName : JS.jsstring;
  blob : Blob;
  size : nat;
  imageCount : nat;
  success : bool
}.
End ConversionResult.

Module ZipGenerator.
Import JS.

(** The candidate [`${nameWithoutExt}_${counter}.${extension}`]. *)
Definition suffixed (originalName : jsstring) (counter : nat) : jsstring :=
  Utils.removeFileExtension originalName ++ str "_" ++ toString counter ++ str "."
  ++ Utils.getFileExtension originalName.

(** The loop of [generateUniqueFileName], entered with the name to test and
    the counter of the next candidate; [None] when the fuel is used up. *)
Fixpoint uniqueLoop (fuel : nat) (zip : JSZip.t) (originalName fileName : jsstring)
    (counter : nat) : option jsstring :=
  match fuel with
  | O => None
  | S f =>
      match JSZip.file zip fileName with
      | Some _ => uniqueLoop f zip originalName (suffixed originalName counter) (S counter)
      | None => Some fileName
      end
  end.

Definition generateUniqueFileName (zip : JSZip.t) (originalName : jsstring)
    : option jsstring :=
  uniqueLoop (S (S (List.length zip))) zip originalName originalName 1.

(** The loop of [generateZipFromImages] that fills the archive. *)
Fixpoint addImages (zip : JSZip.t) (images : list ExtractedImage.t) : option JSZip.t :=
  match images with
  | [] => Some zip
  | image :: rest =>
      match generateUniqueFileName zip (ExtractedImage.fileName image) with
      | None => None
      | Some uniqueFileName =>
          addImages (JSZip.add zip uniqueFileName (ExtractedImage.blob image)) rest
      end
  end.

Section Serialization.
(** [zip.generateAsync(...)]: the bytes of the archive, or the error of
    the serialization. *)
Variable generateAsync : JSZip.t -> Result Blob.

(** [generateZipFromImages] (the progress callback, which only reports, is
    left out). [None]: a naming loop that does not end. *)
Definition generateZipFromImages (images : list ExtractedImage.t)
    : option (Result Blob) :=
  match images with
  | [] => Some (Throw ("生成ZIP文件失败: " ++ "没有图片可以打包")%string)
  | _ =>
      match addImages [] images with
      | None => None
      | Some zip =>
          match generateAsync zip with
          | Ok zipBlob => Some (Ok zipBlob)
          | Throw message => Some (Throw ("生成ZIP文件失败: " ++ message)%string)
          end
      end
  end.

(** The archive [createArchive] fills before it serializes it. *)
Definition archiveOf (successfulResults : list ConversionResult.t) : JSZip.t :=
  fold_left
    (fun archive result =>
       JSZip.add archive (ConversionResult.fileName result) (ConversionResult.blob result))
    successfulResults [].

(** [createArchive] ([result.blob] is an object, hence truthy). *)
Definition createArchive (zipResults : list ConversionResult.t) : Result Blob :=
  let successfulResults := filter ConversionResult.success zipResults in
  match successfulResults with
  | [] => Throw ("创建总压缩包失败: " ++ "没有成功生成的ZIP文件可以打包")%string
  | _ =>
      match generateAsync (archiveOf successfulResults) with
      | Ok archiveBlob => Ok archiveBlob
      | Throw message => Throw ("创建总压缩包失败: " ++ message)%string
      end
  end.

End Serialization.

(** *** Unique names *)

(** The names [generateUniqueFileName] tests, in order: the original name,
    then the candidates of the counters 1, 2, ... *)
Definition nameAt (originalName : jsstring) (k : nat) : jsstring :=
  match k with
  | O => originalName
  | S _ => suffixed originalName k
  end.

Lemma suffixed_inj originalName a b :
  suffixed originalName a = suffixed originalName b -> a = b.
Proof.
  unfold suffixed. intros H.
  apply app_inv_head in H. apply app_inv_head in H.
  apply app_inv_tail in H. now apply toString_inj.
Qed.

Lemma uniqueLoop_first_free fuel : forall zip originalName j,
  (exists k, (j <= k < j + fuel)%nat /\ JSZip.file zip (nameAt originalName k) = None) ->
  exists k,
    (j <= k < j + fuel)%nat /\
    uniqueLoop fuel zip originalName (nameAt originalName j) (S j)
      = Some (nameAt originalName k) /\
    JSZip.file zip (nameAt originalName k) = None /\
    (forall i, (j <= i < k)%nat -> JSZip.file zip (nameAt originalName i) <> None).
Proof.
  induction fuel as [|f IH]; intros zip o j (k & Hk & Hfree); [lia|].
  cbn [uniqueLoop].
  destruct (JSZip.file zip (nameAt o j)) eqn:E.
  - assert (k <> j) by (intros ->; congruence).
    destruct (IH zip o (S j)) as (k' & Hk' & Hrun & Hfree' & Htaken).
    { exists k. split; [lia|exact Hfree]. }
    exists k'. split; [lia|]. split; [exact Hrun|]. split; [exact Hfree'|].
    intros i Hi. destruct (Nat.eq_dec i j) as [->|Hne]; [congruence|].
    apply Htaken. lia.
  - exists j. split; [lia|]. split; [reflexivity|]. split; [exact E|]. intros i Hi. lia.
Qed.

(** One of the candidates 1 .. n+1 is free in an archive of n entries. *)
Lemma suffixed_free zip originalName :
  exists k, (1 <= k <= S (List.length zip))%nat /\
            JSZip.file zip (suffixed originalName k) = None.
Proof.
  set (cands := map (suffixed originalName) (seq 1 (S (List.length zip)))).
  destruct (existsb (fun k => match JSZip.file zip (suffixed originalName k) with
                              | None => true | Some _ => false end)
                    (seq 1 (S (List.length zip)))) eqn:E.
  - apply existsb_exists in E. destruct E as (k & Hk & Hf).
    apply in_seq in Hk. exists k. split; [lia|].
    now destruct (JSZip.file zip (suffixed originalName k)).
  - exfalso.
    assert (Hincl : incl cands (map fst zip)).
    { intros x Hx. unfold cands in Hx. apply in_map_iff in Hx.
      destruct Hx as (k & <- & Hk).
      destruct (in_dec jsstring_eq_dec (suffixed originalName k) (map fst zip)) as [Hin|Hout];
        [exact Hin|].
      apply JSMap.get_None_iff in Hout.
      assert (Ht : existsb (fun k => match JSZip.file zip (suffixed originalName k) with
                                     | None => true | Some _ => false end)
                           (seq 1 (S (List.length zip))) = true).
      { apply existsb_exists. exists k. split; [exact Hk|].
        unfold JSZip.file. now rewrite Hout. }
      congruence. }
    assert (Hnd : NoDup cands).
    { apply Injective_map_NoDup; [|apply seq_NoDup].
      intros a b. apply suffixed_inj. }
    pose proof (NoDup_incl_length Hnd Hincl) as Hlen.
    unfold cands in Hlen. rewrite !length_map, length_seq in Hlen. lia.
Qed.

Lemma generateUniqueFileName_first_free zip originalName :
  exists k,
    (k <= S (List.length zip))%nat /\
    generateUniqueFileName zip originalName = Some (nameAt originalName k) /\
    JSZip.file zip (nameAt originalName k) = None /\
    (forall i, (i < k)%nat -> JSZip.file zip (nameAt originalName i) <> None).
Proof.
  destruct (suffixed_free zip originalName) as (k0 & Hk0 & Hfree0).
  destruct (@uniqueLoop_first_free (S (S (List.length zip))) zip originalName 0)
    as (k & Hk & Hrun & Hfree & Htaken).
  { exists k0. split; [lia|]. destruct k0; [lia|exact Hfree0]. }
  exists k. split; [lia|]. split; [exact Hrun|]. split; [exact Hfree|].
  intros i Hi. apply Htaken. lia.
Qed.


(** The template on other names: without extension the candidate ends
    with a dot, and for a name that is only an extension
    [removeFileExtension] and [getFileExtension] both return the empty
    string. *)
Example suffixed_other_names :
  suffixed (str "image.jpg") 1 = str "image_1.jpg" /\
  suffixed (str "a.b.png") 12 = str "a.b_12.png" /\
  suffixed (str "image") 1 = str "image_1." /\
  suffixed (str ".jpg") 1 = str "_1.".
Proof. repeat split. Qed.


(** *** Building an archive always ends *)

Lemma addImages_total images : forall zip, exists zip', addImages zip images = Some zip'.
Proof.
  induction images as [|image rest IH]; intros zip; cbn [addImages].
  - now exists zip.
  - destruct (generateUniqueFileName_first_free zip (ExtractedImage.fileName image))
      as (k & _ & Hrun & _).
    rewrite Hrun. apply IH.
Qed.

Lemma generateZipFromImages_total generateAsync images :
  exists r, generateZipFromImages generateAsync images = Some r.
Proof.
  unfold generateZipFromImages. destruct images as [|image rest]; [eauto|].
  destruct (addImages_total (image :: rest) []) as [zip Hzip]. rewrite Hzip.
  destruct (generateAsync zip); eauto.
Qed.

(** *** The wrapper archive *)

Lemma fold_add_fresh (results : list ConversionResult.t) : forall archive,
  NoDup (map fst archive ++ map ConversionResult.fileName results) ->
  fold_left
    (fun archive result =>
       JSZip.add archive (ConversionResult.fileName result) (ConversionResult.blob result))
    results archive =
  archive ++ map (fun r => (ConversionResult.fileName r, ConversionResult.blob r)) results.
Proof.
  induction results as [|r rest IH]; intros archive Hnd; cbn [fold_left map].
  - now rewrite app_nil_r.
  - assert (Hfresh : JSMap.get archive (ConversionResult.fileName r) = None).
    { apply JSMap.get_None_iff. intros Hin.
      apply NoDup_remove_2 in Hnd. apply Hnd. apply in_or_app. now left. }
    unfold JSZip.add at 2. rewrite JSMap.set_fresh by exact Hfresh.
    rewrite IH.
    + now rewrite <- app_assoc.
    + rewrite map_app. cbn [map fst]. rewrite <- app_assoc. exact Hnd.
Qed.

(** With pairwise distinct output names, the entries of the wrapper archive
    are the output names of the results, each with the bytes of its
    archive. *)
Lemma archiveOf_entries results :
  NoDup (map ConversionResult.fileName results) ->
  archiveOf results =
  map (fun r => (ConversionResult.fileName r, ConversionResult.blob r)) results.
Proof. intros H. unfold archiveOf. now rewrite fold_add_fresh. Qed.


(** *** The counter of jobs of [generateMultipleZips] *)

(** The fields of a generator. *)
Record State := {
  compressionLevel : Z;
  maxConcurrentJobs : Z;
  currentJobs : Z
}.

(** The constructor. *)
Definition init : State :=
  {| compressionLevel := 6; maxConcurrentJobs := 3; currentJobs := 0 |}.

Definition setMaxConcurrentJobs (maxJobs : Z) (st : State) : State :=
  if (0 <? maxJobs)%Z then
    {| compressionLevel := compressionLevel st;
       maxConcurrentJobs := maxJobs;
       currentJobs := currentJobs st |}
  else st.

(** Where a call of [generateMultipleZips] stands, between two of its
    suspension points. [Polling n]: in [waitForAvailableSlot] for the next
    of [n] tasks not yet begun ([Polling 0]: the loop is over). [Granted n]:
    the test of the wait loop has passed and [waitForAvailableSlot] has
    returned; the call resumes after its [await] with [this.currentJobs++].
    [Running n]: the counter is incremented and [generateZipFromImages] is
    awaited; [n] tasks remain after this one. *)
Inductive Invocation :=
| Polling (remaining : nat)
| Granted (remaining : nat)
| Running (remaining : nat).

(** One generator and the calls of [generateMultipleZips] under way on
    it. *)
Record System := {
  generator : State;
  invocations : list Invocation
}.

Definition withJobs (st : State) (jobs : Z) : State :=
  {| compressionLevel := compressionLevel st;
     maxConcurrentJobs := maxConcurrentJobs st;
     currentJobs := jobs |}.

(** A call runs from one suspension point to the next: the test of
    [waitForAvailableSlot] (which waits 100 ms and tests again when
    [currentJobs >= maxConcurrentJobs]); the increment after the [await] of
    the slot; the [finally] block after the [await] of the job. *)
Definition stepInvocation (st : State) (inv : Invocation) : State * Invocation :=
  match inv with
  | Polling O => (st, Polling O)
  | Polling (S n) =>
      if (maxConcurrentJobs st <=? currentJobs st)%Z then (st, Polling (S n))
      else (st, Granted n)
  | Granted n => (withJobs st (currentJobs st + 1), Running n)
  | Running n => (withJobs st (currentJobs st - 1), Polling n)
  end.

Fixpoint setNth (A : Type) (i : nat) (x : A) (l : list A) : list A :=
  match l, i with
  | [], _ => []
  | _ :: r, O => x :: r
  | y :: r, S j => y :: setNth j x r
  end.

(** The call number [i] is the one that resumes. *)
Definition step (i : nat) (sys : System) : System :=
  match nth_error (invocations sys) i with
  | None => sys
  | Some inv =>
      let (st, inv') := stepInvocation (generator sys) inv in
      {| generator := st; invocations := setNth i inv' (invocations sys) |}
  end.

Definition run (schedule : list nat) (sys : System) : System :=
  fold_left (fun sys i => step i sys) schedule sys.

(** Calls that begin on a generator, each given with the number of its
    tasks. *)
Definition start (st : State) (calls : list nat) : System :=
  {| generator := st; invocations := map Polling calls |}.





















(** *** Every image gets an entry *)

Lemma generateUniqueFileName_free zip originalName :
  JSZip.file zip originalName = None ->
  generateUniqueFileName zip originalName = Some originalName.
Proof. intros H. unfold generateUniqueFileName. cbn [uniqueLoop]. now rewrite H. Qed.

Lemma add_fresh zip name (data : Blob) :
  JSZip.file zip name = None -> NoDup (map fst zip) ->
  JSZip.add zip name data = zip ++ [(name, data)] /\
  NoDup (map fst (zip ++ [(name, data)])).
Proof.
  intros Hfree Hnd. split; [now apply JSMap.set_fresh|].
  rewrite map_app. cbn [map fst].
  apply NoDup_app; [exact Hnd|repeat constructor; intros []|].
  intros x Hx [<-|[]]. now apply JSMap.get_None_iff in Hfree.
Qed.

Lemma addImages_append images : forall zip,
  NoDup (map fst zip) ->
  exists entries,
    addImages zip images = Some (zip ++ entries) /\
    map snd entries = map ExtractedImage.blob images /\
    NoDup (map fst (zip ++ entries)) /\
    Forall2 (fun entry image =>
               exists k, fst entry = nameAt (ExtractedImage.fileName image) k)
            entries images.
Proof.
  induction images as [|image rest IH]; intros zip Hnd; cbn [addImages].
  - exists []. rewrite app_nil_r. repeat split; [exact Hnd|constructor].
  - destruct (generateUniqueFileName_first_free zip (ExtractedImage.fileName image))
      as (k & _ & Hrun & Hfree & _).
    rewrite Hrun.
    destruct (@add_fresh zip _ (ExtractedImage.blob image) Hfree Hnd) as [Hadd Hnd'].
    rewrite Hadd.
    destruct (IH _ Hnd') as (entries & Hrest & Hblobs & Hnd'' & Hall).
    exists ((nameAt (ExtractedImage.fileName image) k, ExtractedImage.blob image) :: entries).
    rewrite <- app_assoc in Hrest, Hnd''. cbn [app] in Hrest, Hnd''.
    split; [exact Hrest|]. split; [cbn [map snd]; now rewrite Hblobs|].
    split; [exact Hnd''|]. constructor; [now exists k|exact Hall].
Qed.

Lemma addImages_distinct images : forall zip,
  NoDup (map fst zip ++ map ExtractedImage.fileName images) ->
  addImages zip images
  = Some (zip ++ map (fun image => (ExtractedImage.fileName image, ExtractedImage.blob image))
                     images).
Proof.
  induction images as [|image rest IH]; intros zip Hnd; cbn [addImages map].
  - now rewrite app_nil_r.
  - cbn [map] in Hnd.
    assert (Hfree : JSZip.file zip (ExtractedImage.fileName image) = None).
    { apply JSMap.get_None_iff. intros Hin.
      apply NoDup_remove_2 in Hnd. apply Hnd, in_or_app. now left. }
    rewrite (generateUniqueFileName_free _ _ Hfree).
    unfold JSZip.add. rewrite (JSMap.set_fresh _ _ _ Hfree).
    rewrite IH.
    + now rewrite <- app_assoc.
    + rewrite map_app. cbn [map fst]. now rewrite <- app_assoc.
Qed.

(** A name without a slash that holds a character other than a digit: the
    name [generateImageFileName] gives to an image entry is one (it is the
    last segment of a path and ends with an image extension). *)
Definition plainName (name : jsstring) : bool :=
  forallb (fun c => negb (c =? 47)%Z) name && existsb (fun c => negb (isDigit c)) name.

Lemma suffixed_chars originalName counter c :
  In c (suffixed originalName counter) ->
  In c originalName \/ c = 95%Z \/ c = 46%Z \/ isDigit c = true.
Proof.
  unfold suffixed. intros H.
  apply in_app_or in H. destruct H as [H|H].
  { left. destruct (Utils.removeFileExtension_cut originalName) as (rest & Hr & _).
    rewrite Hr. apply in_or_app. now left. }
  apply in_app_or in H. destruct H as [[<-|[]]|H]; [auto|].
  apply in_app_or in H. destruct H as [H|H].
  { right. right. right. pose proof (toString_digits counter) as Hd.
    rewrite Forall_forall in Hd. now apply Hd. }
  apply in_app_or in H. destruct H as [[<-|[]]|H]; [auto|].
  left. unfold Utils.getFileExtension, sliceFrom in H.
  destruct (Z.of_nat (List.length originalName) <=? _)%Z; [contradiction|].
  match type of H with In c (skipn ?k _) =>
    rewrite <- (firstn_skipn k originalName); apply in_or_app; now right
  end.
Qed.

Lemma nameAt_plain originalName k :
  plainName originalName = true -> plainName (nameAt originalName k) = true.
Proof.
  intros H. destruct k as [|k]; [exact H|]. cbn [nameAt].
  unfold plainName in *. apply andb_prop in H. destruct H as [Hs _].
  apply andb_true_intro. split.
  - apply forallb_forall. intros c Hc. apply negb_true_iff, Z.eqb_neq. intros ->.
    apply suffixed_chars in Hc. destruct Hc as [Hc|[Hc|[Hc|Hc]]]; try discriminate.
    rewrite forallb_forall in Hs. specialize (Hs _ Hc). discriminate.
  - apply existsb_exists. exists 95%Z. split; [|reflexivity].
    unfold suffixed. apply in_or_app. right. now left.
Qed.

Section ArchiveOfImages.
Variable generateAsync : JSZip.t -> Result Blob.

(** X16. [generateZipFromImages] loses no image. For images whose names
    hold no slash and are not made of digits only (as the names given to
    the entries of a book are), the archive it fills holds one entry for
    each image, in the order of the images and with the bytes of each; the
    names of the entries are pairwise distinct, each is the name of its
    image or one of its candidates, none holds a slash or is made of digits
    only, and when the names of the images are pairwise distinct each image
    is stored under its own name. This archive is the one that is
    serialized; with no image the call fails with [没有图片可以打包] before
    an archive is built. *)
Theorem generateZipFromImages_keeps_images (images : list ExtractedImage.t) :
  Forall (fun image => plainName (ExtractedImage.fileName image) = true) images ->
  exists zip,
    addImages [] images = Some zip /\
    List.length zip = List.length images /\
    map snd zip = map ExtractedImage.blob images /\
    NoDup (map fst zip) /\
    Forall2 (fun entry image =>
               exists k, fst entry = nameAt (ExtractedImage.fileName image) k)
            zip images /\
    Forall (fun entry => plainName (fst entry) = true) zip /\
    (NoDup (map ExtractedImage.fileName images) ->
     zip = map (fun image => (ExtractedImage.fileName image, ExtractedImage.blob image))
               images) /\
    generateZipFromImages generateAsync images =
      Some (match images with
            | [] => Throw ("生成ZIP文件失败: " ++ "没有图片可以打包")%string
            | _ =>
                match generateAsync zip with
                | Ok zipBlob => Ok zipBlob
                | Throw message => Throw ("生成ZIP文件失败: " ++ message)%string
                end
            end).
Proof.
  intros Hplain.
  destruct (@addImages_append images [] (NoDup_nil _)) as (zip & Hrun & Hblobs & Hnd & Hall).
  cbn [app] in Hrun, Hnd. exists zip. split; [exact Hrun|].
  split.
  { rewrite <- (length_map snd zip), Hblobs. apply length_map. }
  split; [exact Hblobs|]. split; [exact Hnd|]. split; [exact Hall|]. split; [|split].
  - clear Hrun Hblobs Hnd. induction Hall as [|entry image zip' images' (k & Hk) _ IH];
      [constructor|].
    apply Forall_cons_iff in Hplain. destruct Hplain as [Hp Hps].
    constructor; [|now apply IH]. rewrite Hk. now apply nameAt_plain.
  - intros Hd. pose proof (@addImages_distinct images [] Hd) as Hrun'.
    cbn [app] in Hrun'. congruence.
  - unfold generateZipFromImages. destruct images as [|image rest]; [reflexivity|].
    rewrite Hrun. now destruct (generateAsync zip).
Qed.

End ArchiveOfImages.

(** *** The settings of a generator *)

Definition setCompressionLevel (level : Z) (st : State) : State :=
  if (0 <=? level)%Z && (level <=? 9)%Z then
    {| compressionLevel := level;
       maxConcurrentJobs := maxConcurrentJobs st;
       currentJobs := currentJobs st |}
  else st.

(** [cleanup] (the job queue, which nothing fills, is not kept). *)
Definition cleanup (st : State) : State := withJobs st 0.

(** A call of a setter, with an integer. *)
Inductive Setting :=
| SetCompressionLevel (level : Z)
| SetMaxConcurrentJobs (maxJobs : Z)
| Cleanup.

Definition applySetting (st : State) (setting : Setting) : State :=
  match setting with
  | SetCompressionLevel level => setCompressionLevel level st
  | SetMaxConcurrentJobs maxJobs => setMaxConcurrentJobs maxJobs st
  | Cleanup => cleanup st
  end.

(** X17. Whatever setters are called on a new generator, in whatever
    order and with whatever integers, its compression level stays between 0
    and 9 and its bound on the jobs stays at least 1: a value out of range
    is refused and leaves the field as it was, and a value in range is
    taken. *)
Theorem settings_keep_ranges (settings : list Setting) :
  let st := fold_left applySetting settings init in
  (0 <= compressionLevel st <= 9)%Z /\
  (1 <= maxConcurrentJobs st)%Z /\
  currentJobs st = 0%Z /\
  (forall level,
     compressionLevel (setCompressionLevel level st) =
     if (0 <=? level)%Z && (level <=? 9)%Z then level else compressionLevel st) /\
  (forall maxJobs,
     maxConcurrentJobs (setMaxConcurrentJobs maxJobs st) =
     if (0 <? maxJobs)%Z then maxJobs else maxConcurrentJobs st).
Proof.
  intros st.
  assert (H : (0 <= compressionLevel st <= 9)%Z /\ (1 <= maxConcurrentJobs st)%Z /\
              currentJobs st = 0%Z).
  { unfold st.
    assert (H0 : (0 <= compressionLevel init <= 9)%Z /\ (1 <= maxConcurrentJobs init)%Z /\
                 currentJobs init = 0%Z) by (cbn; lia).
    revert H0. generalize init.
    induction settings as [|setting rest IH]; intros s H0; cbn [fold_left]; [exact H0|].
    apply IH. destruct H0 as (H1 & H2 & H3).
    destruct setting as [level|maxJobs|]; cbn [applySetting].
    - unfold setCompressionLevel.
      destruct ((0 <=? level)%Z && (level <=? 9)%Z) eqn:E; [|auto].
      apply andb_prop in E. destruct E as [Ea Eb]. apply Z.leb_le in Ea, Eb.
      cbn. auto.
    - unfold setMaxConcurrentJobs.
      destruct (0 <? maxJobs)%Z eqn:E; [|auto]. apply Z.ltb_lt in E. cbn.
      repeat split; try lia; auto.
    - cbn. auto. }
  destruct H as (H1 & H2 & H3). repeat split; try lia.
  - intros level. unfold setCompressionLevel.
    now destruct ((0 <=? level)%Z && (level <=? 9)%Z).
  - intros maxJobs. unfold setMaxConcurrentJobs. now destruct (0 <? maxJobs)%Z.
Qed.

(** *** The results of [generateMultipleZips] *)

(** [{images, fileName}]; [images] may be missing. *)
Module Task.
Record t := {
  images : option (list ExtractedImage.t);
  fileName : jsstring
}.
End Task.

(** [{success, fileName, blob, size, imageCount}], with [error] for a
    failure. *)
Module ZipResult.
Record t := {
  success : bool;
  fileName : jsstring;
  error : option string;
  blob : option Blob;
  size : nat;
  imageCount : nat
}.
End ZipResult.

(** [task.images], or no image when the field is missing. *)
Definition imagesOf (task : Task.t) : list ExtractedImage.t :=
  match Task.images task with
  | Some images => images
  | None => []
  end.

Definition resultOf (task : Task.t) (outcome : Result Blob) : ZipResult.t :=
  match outcome with
  | Ok zipBlob =>
      {| ZipResult.success := true;
         ZipResult.fileName := Task.fileName task;
         ZipResult.error := None;
         ZipResult.blob := Some zipBlob;
         ZipResult.size := List.length zipBlob;
         ZipResult.imageCount := List.length (imagesOf task) |}
  | Throw message =>
      {| ZipResult.success := false;
         ZipResult.fileName := Task.fileName task;
         ZipResult.error := Some message;
         ZipResult.blob := None;
         ZipResult.size := 0;
         ZipResult.imageCount := List.length (imagesOf task) |}
  end.

Section MultipleZips.
Variable generateAsync : JSZip.t -> Result Blob.

(** One call of [generateMultipleZips] that runs alone on the generator
    (the progress callback is left out): the loop from the tasks that remain,
    with the results pushed so far. While the call waits for a slot nothing
    else changes the counter, so a wait that begins with no slot free does
    not end, which is [None] here, as is a naming loop that does not end. *)
Fixpoint generateMultipleZipsFrom (tasks : list Task.t) (results : list ZipResult.t)
    (st : State) : option (list ZipResult.t * State) :=
  match tasks with
  | [] => Some (results, st)
  | task :: rest =>
      if (maxConcurrentJobs st <=? currentJobs st)%Z then None
      else
        let st := withJobs st (currentJobs st + 1) in
        match generateZipFromImages generateAsync (imagesOf task) with
        | None => None
        | Some outcome =>
            let results := results ++ [resultOf task outcome] in
            let st := withJobs st (currentJobs st - 1) in
            generateMultipleZipsFrom rest results st
        end
  end.

Definition generateMultipleZips (tasks : list Task.t) (st : State)
    : option (list ZipResult.t * State) :=
  generateMultipleZipsFrom tasks [] st.

Lemma withJobs_restore st :
  withJobs (withJobs st (currentJobs st + 1))
           (currentJobs (withJobs st (currentJobs st + 1)) - 1) = st.
Proof. destruct st as [level bound jobs]. unfold withJobs. cbn. f_equal. lia. Qed.

Lemma generateMultipleZipsFrom_spec tasks : forall results st,
  (currentJobs st < maxConcurrentJobs st)%Z ->
  exists outcomes,
    Forall2 (fun task outcome =>
               generateZipFromImages generateAsync (imagesOf task) = Some outcome)
            tasks outcomes /\
    generateMultipleZipsFrom tasks results st
    = Some (results ++ map (fun to => resultOf (fst to) (snd to)) (combine tasks outcomes), st).
Proof.
  induction tasks as [|task rest IH]; intros results st Hslot.
  - exists []. split; [constructor|]. cbn. now rewrite app_nil_r.
  - cbn [generateMultipleZipsFrom].
    replace (maxConcurrentJobs st <=? currentJobs st)%Z with false
      by (symmetry; apply Z.leb_gt; exact Hslot).
    destruct (generateZipFromImages_total generateAsync (imagesOf task)) as [outcome Ho].
    rewrite Ho, withJobs_restore.
    destruct (IH (results ++ [resultOf task outcome]) st Hslot) as (outcomes & Hall & Hrun).
    exists (outcome :: outcomes). split; [now constructor|].
    rewrite Hrun. cbn [combine map fst snd]. now rewrite <- app_assoc.
Qed.

(** X18. A call of [generateMultipleZips] that finds a slot free and runs
    alone returns one result for each task, in the order of the tasks, and
    leaves the counter of jobs as it found it. The result of a task carries
    the task's file name and its number of images; it is a success with the
    bytes of the archive when the archive could be built, and otherwise a
    failure with the message of the error, which does not stop the tasks
    that follow: a task without images fails with [没有图片可以打包]. A call
    that finds no slot free while nothing else runs on the generator does
    not return. *)
Theorem generateMultipleZips_results (tasks : list Task.t) (st : State) :
  (currentJobs st < maxConcurrentJobs st)%Z ->
  exists results,
    generateMultipleZips tasks st = Some (results, st) /\
    List.length results = List.length tasks /\
    map ZipResult.fileName results = map Task.fileName tasks /\
    map ZipResult.imageCount results = map (fun task => List.length (imagesOf task)) tasks /\
    Forall2
      (fun task result =>
         match generateZipFromImages generateAsync (imagesOf task) with
         | Some (Ok zipBlob) =>
             ZipResult.success result = true /\ ZipResult.blob result = Some zipBlob /\
             ZipResult.size result = List.length zipBlob /\ ZipResult.error result = None
         | Some (Throw message) =>
             ZipResult.success result = false /\ ZipResult.blob result = None /\
             ZipResult.size result = 0%nat /\ ZipResult.error result = Some message
         | None => False
         end)
      tasks results /\
    Forall2
      (fun task result =>
         imagesOf task = [] ->
         ZipResult.success result = false /\
         ZipResult.error result = Some ("生成ZIP文件失败: " ++ "没有图片可以打包")%string)
      tasks results /\
    (forall task rest st',
       (maxConcurrentJobs st' <= currentJobs st')%Z ->
       generateMultipleZips (task :: rest) st' = None).
Proof.
  intros Hslot. unfold generateMultipleZips.
  destruct (@generateMultipleZipsFrom_spec tasks [] st Hslot) as (outcomes & Hall & Hrun).
  cbn [app] in Hrun. eexists. split; [exact Hrun|].
  pose proof (Forall2_length Hall) as Hlen.
  split; [now rewrite length_map, length_combine, <- Hlen, Nat.min_id|].
  split; [|split; [|split; [|split]]].
  - clear Hrun Hlen. induction Hall as [|task o ts os Ho Hr IH]; [reflexivity|].
    cbn [combine map fst snd]. rewrite IH. f_equal. now destruct o.
  - clear Hrun Hlen. induction Hall as [|task o ts os Ho Hr IH]; [reflexivity|].
    cbn [combine map fst snd]. rewrite IH. f_equal. now destruct o.
  - clear Hrun Hlen. induction Hall as [|task o ts os Ho Hr IH]; [constructor|].
    cbn [combine map fst snd]. constructor; [|exact IH].
    rewrite Ho. destruct o; cbn; auto.
  - clear Hrun Hlen. induction Hall as [|task o ts os Ho Hr IH]; [constructor|].
    cbn [combine map fst snd]. constructor; [|exact IH].
    intros He. rewrite He in Ho. cbn in Ho. injection Ho as <-. cbn. auto.
  - intros task rest st' Hfull. cbn [generateMultipleZipsFrom].
    apply Z.leb_le in Hfull. now rewrite Hfull.
Qed.

End MultipleZips.

(** *** [validateImages] *)

(** What [validateImages] reads of an image: [image.blob] and
    [image.fileName], either of which may be missing. *)
Module ImageInput.
Record t := {
  blob : option Blob;
  fileName : option jsstring
}.
End ImageInput.

Inductive ImageIssue :=
| invalid_input
| empty_array
| missing_blob (index : nat)
| missing_filename (index : nat)
| duplicate_filename (fileName : jsstring) (index : nat).

(** [{isValid, issues, totalSize, fileCount, uniqueFileNames}]; the last
    three are missing when the input is not an array. *)
Module ImageValidation.
Record t := {
  isValid : bool;
  issues : list ImageIssue;
  totalSize : option nat;
  fileCount : option nat;
  uniqueFileNames : option nat
}.
End ImageValidation.

(** [image.fileName] when it is truthy: a string that is not empty. *)
Definition truthyName (image : ImageInput.t) : option jsstring :=
  match ImageInput.fileName image with
  | Some (c :: r) => Some (c :: r)
  | _ => None
  end.

(** The callback of [images.forEach], from position [index] on. *)
Fixpoint validateImagesLoop (images : list ImageInput.t) (index : nat)
    (issues : list ImageIssue) (totalSize : nat) (fileNames : list jsstring)
    : list ImageIssue * nat * list jsstring :=
  match images with
  | [] => (issues, totalSize, fileNames)
  | image :: rest =>
      let issues :=
        match ImageInput.blob image with
        | None => issues ++ [missing_blob index]
        | Some _ => issues
        end in
      let issues :=
        match truthyName image with
        | None => issues ++ [missing_filename index]
        | Some _ => issues
        end in
      let issues :=
        match truthyName image with
        | Some fileName =>
            if setHas streq fileNames fileName
            then issues ++ [duplicate_filename fileName index]
            else issues
        | None => issues
        end in
      let fileNames :=
        match truthyName image with
        | Some fileName => setAdd streq fileNames fileName
        | None => fileNames
        end in
      let totalSize :=
        match ImageInput.blob image with
        | Some blob =>
            if (0 <? List.length blob)%nat then (totalSize + List.length blob)%nat
            else totalSize
        | None => totalSize
        end in
      validateImagesLoop rest (S index) issues totalSize fileNames
  end.

(** [validateImages(images)]; [None] is an input that is not an array. *)
Definition validateImages (images : option (list ImageInput.t)) : ImageValidation.t :=
  match images with
  | None =>
      {| ImageValidation.isValid := false;
         ImageValidation.issues := [invalid_input];
         ImageValidation.totalSize := None;
         ImageValidation.fileCount := None;
         ImageValidation.uniqueFileNames := None |}
  | Some images =>
      let issues := match images with [] => [empty_array] | _ => [] end in
      let '(issues, totalSize, fileNames) := validateImagesLoop images 0 issues 0 [] in
      {| ImageValidation.isValid := (List.length issues =? 0)%nat;
         ImageValidation.issues := issues;
         ImageValidation.totalSize := Some totalSize;
         ImageValidation.fileCount := Some (List.length images);
         ImageValidation.uniqueFileNames := Some (List.length fileNames) |}
  end.

(** An extracted image, as [validateImages] reads it. *)
Definition inputOf (image : ExtractedImage.t) : ImageInput.t :=
  {| ImageInput.blob := Some (ExtractedImage.blob image);
     ImageInput.fileName := Some (ExtractedImage.fileName image) |}.

(** The issues of one round. *)
Definition issuesOfImage (image : ImageInput.t) (index : nat) (fileNames : list jsstring)
    : list ImageIssue :=
  (match ImageInput.blob image with None => [missing_blob index] | Some _ => [] end)
  ++ (match truthyName image with None => [missing_filename index] | Some _ => [] end)
  ++ (match truthyName image with
      | Some fileName =>
          if setHas streq fileNames fileName then [duplicate_filename fileName index] else []
      | None => []
      end).

Definition sizeOfImage (image : ImageInput.t) : nat :=
  match ImageInput.blob image with
  | Some blob => List.length blob
  | None => 0
  end.

Lemma validateImagesLoop_cons image rest index issues totalSize fileNames :
  validateImagesLoop (image :: rest) index issues totalSize fileNames =
  validateImagesLoop rest (S index)
    (issues ++ issuesOfImage image index fileNames)
    (totalSize + sizeOfImage image)
    (match truthyName image with
     | Some fileName => setAdd streq fileNames fileName
     | None => fileNames
     end).
Proof.
  cbn [validateImagesLoop]. unfold issuesOfImage, sizeOfImage. f_equal.
  - destruct (ImageInput.blob image), (truthyName image) as [fileName|];
      [destruct (setHas streq fileNames fileName)| |destruct (setHas streq fileNames fileName)|];
      cbn [app]; rewrite <- ?app_assoc, ?app_nil_r; reflexivity.
  - destruct (ImageInput.blob image) as [blob|]; [|lia].
    destruct (0 <? List.length blob)%nat eqn:E; [reflexivity|].
    apply Nat.ltb_ge in E. lia.
Qed.

(** The images from a position on raise no issue. *)
Fixpoint cleanImages (images : list ImageInput.t) (fileNames : list jsstring) : Prop :=
  match images with
  | [] => True
  | image :: rest =>
      ImageInput.blob image <> None /\
      exists fileName,
        truthyName image = Some fileName /\
        ~ In fileName fileNames /\
        cleanImages rest (fileNames ++ [fileName])
  end.

Lemma validateImagesLoop_issues images : forall index issues totalSize fileNames,
  exists more,
    fst (fst (validateImagesLoop images index issues totalSize fileNames)) = issues ++ more /\
    (more = [] <-> cleanImages images fileNames).
Proof.
  induction images as [|image rest IH]; intros index issues totalSize fileNames.
  - exists []. cbn. rewrite app_nil_r. tauto.
  - rewrite validateImagesLoop_cons.
    destruct (IH (S index) (issues ++ issuesOfImage image index fileNames)
                (totalSize + sizeOfImage image)%nat
                (match truthyName image with
                 | Some fileName => setAdd streq fileNames fileName
                 | None => fileNames
                 end)) as (more & Hm & Hclean).
    exists (issuesOfImage image index fileNames ++ more).
    split; [now rewrite Hm, app_assoc|].
    cbn [cleanImages]. unfold issuesOfImage.
    destruct (ImageInput.blob image) as [blob|].
    2:{ split; [discriminate|]. intros [H _]. now contradiction H. }
    destruct (truthyName image) as [fileName|].
    2:{ split; [discriminate|]. intros [_ (fileName & H & _)]. discriminate. }
    cbn [app]. destruct (setHas streq fileNames fileName) eqn:E.
    + split; [discriminate|]. intros [_ (fileName' & H & Hnot & _)].
      injection H as <-. apply (setHas_In streq streq_true) in E. contradiction.
    + cbn [app]. rewrite Hclean. unfold setAdd. rewrite E.
      apply (setHas_not_In streq streq_true) in E. split.
      * intros H. split; [discriminate|]. now exists fileName.
      * intros [_ (fileName' & H & _ & Hr)]. now injection H as <-.
Qed.

Lemma validateImagesLoop_totals images : forall index issues totalSize fileNames,
  snd (fst (validateImagesLoop images index issues totalSize fileNames))
    = (totalSize + list_sum (map sizeOfImage images))%nat /\
  snd (validateImagesLoop images index issues totalSize fileNames)
    = fold_left (setAdd streq) (flat_map (fun image => match truthyName image with
                                                        | Some fileName => [fileName]
                                                        | None => []
                                                        end) images) fileNames.
Proof.
  induction images as [|image rest IH]; intros index issues totalSize fileNames.
  - cbn. split; [lia|reflexivity].
  - rewrite validateImagesLoop_cons.
    destruct (IH (S index) (issues ++ issuesOfImage image index fileNames)
                (totalSize + sizeOfImage image)%nat
                (match truthyName image with
                 | Some fileName => setAdd streq fileNames fileName
                 | None => fileNames
                 end)) as [H1 H2].
    rewrite H1, H2. cbn [map flat_map]. split; [unfold list_sum; cbn [fold_right]; lia|].
    rewrite fold_left_app. now destruct (truthyName image).
Qed.

Lemma cleanImages_iff images : forall fileNames,
  cleanImages images fileNames <->
  Forall (fun image => ImageInput.blob image <> None /\ truthyName image <> None) images /\
  NoDup (map ImageInput.fileName images) /\
  (forall x, In x fileNames -> ~ In (Some x) (map ImageInput.fileName images)).
Proof.
  induction images as [|image rest IH]; intros fileNames; cbn [cleanImages map].
  - split; [intros _|tauto]. split; [constructor|]. split; [constructor|]. intros x _ [].
  - assert (Hname : forall fileName, truthyName image = Some fileName ->
                      ImageInput.fileName image = Some fileName).
    { intros fileName. unfold truthyName.
      destruct (ImageInput.fileName image) as [[|c r]|]; congruence. }
    split.
    + intros [Hb (fileName & Ht & Hnot & Hr)]. apply IH in Hr.
      destruct Hr as (Hf & Hn & Ho). rewrite (Hname _ Ht). split.
      { constructor; [|exact Hf]. split; [exact Hb|]. now rewrite Ht. }
      split.
      { constructor; [|exact Hn]. intros Hin. apply (Ho fileName); [|exact Hin].
        apply in_or_app. right. now left. }
      intros x Hx [E|Hin].
      * injection E as <-. contradiction.
      * apply (Ho x); [|exact Hin]. apply in_or_app. now left.
    + intros (Hf & Hn & Ho). apply Forall_cons_iff in Hf. destruct Hf as [[Hb Ht] Hf].
      apply NoDup_cons_iff in Hn. destruct Hn as [Hn1 Hn2].
      split; [exact Hb|]. destruct (truthyName image) as [fileName|] eqn:E; [|congruence].
      exists fileName. split; [reflexivity|]. rewrite (Hname _ eq_refl) in Hn1, Ho. split.
      { intros Hin. apply (Ho _ Hin). now left. }
      apply IH. split; [exact Hf|]. split; [exact Hn2|].
      intros x Hx Hin. apply in_app_or in Hx. destruct Hx as [Hx|[<-|[]]].
      * apply (Ho x Hx). now right.
      * contradiction.
Qed.

(** X24. [validateImages] finds a list of images valid (it reports no
    issue)
    exactly when the list is not empty, every image has a blob and a name
    that is not empty, and the names are pairwise distinct; the images of
    such a list are stored in the archive under their own names, none
    renamed. The file count is the number of images, the total size is the
    sum of the sizes of the blobs, and the number of unique names is never
    more than the file count. An input that is not an array is invalid. *)
Theorem validateImages_sound (images : list ImageInput.t) :
  let v := validateImages (Some images) in
  (ImageValidation.isValid v = true <-> ImageValidation.issues v = []) /\
  (ImageValidation.isValid v = true <->
   images <> [] /\
   Forall (fun image => ImageInput.blob image <> None /\ truthyName image <> None) images /\
   NoDup (map ImageInput.fileName images)) /\
  ImageValidation.fileCount v = Some (List.length images) /\
  ImageValidation.totalSize v = Some (list_sum (map sizeOfImage images)) /\
  (exists unique,
     ImageValidation.uniqueFileNames v = Some unique /\ (unique <= List.length images)%nat) /\
  (forall extracted,
     images = map inputOf extracted -> ImageValidation.isValid v = true ->
     addImages [] extracted =
     Some (map (fun image => (ExtractedImage.fileName image, ExtractedImage.blob image))
               extracted)) /\
  ImageValidation.isValid (validateImages None) = false.
Proof.
  intros v. unfold v, validateImages.
  set (first := match images with [] => [empty_array] | _ => [] end).
  destruct (validateImagesLoop_issues images 0 first 0 []) as (more & Hm & Hclean).
  destruct (validateImagesLoop_totals images 0 first 0 []) as [Hsize Hnames].
  destruct (validateImagesLoop images 0 first 0 []) as [[issues totalSize] fileNames].
  cbn [fst snd] in Hm, Hsize, Hnames. subst issues.
  cbn [ImageValidation.isValid ImageValidation.issues ImageValidation.totalSize
       ImageValidation.fileCount ImageValidation.uniqueFileNames].
  assert (Hv : (List.length (first ++ more) =? 0)%nat = true <-> first ++ more = []).
  { rewrite Nat.eqb_eq. destruct (first ++ more); cbn; split; congruence. }
  assert (Hvalid : (List.length (first ++ more) =? 0)%nat = true <->
            images <> [] /\
            Forall (fun image => ImageInput.blob image <> None /\ truthyName image <> None)
                   images /\
            NoDup (map ImageInput.fileName images)).
  { rewrite Hv. split.
    - intros H. apply app_eq_nil in H. destruct H as [Hf Hmore].
      apply Hclean, cleanImages_iff in Hmore. destruct Hmore as (H1 & H2 & _).
      split; [|now split]. intros ->. discriminate.
    - intros (Hne & H1 & H2).
      assert (Hf : first = []) by (unfold first; now destruct images).
      rewrite Hf. cbn [app]. apply Hclean, cleanImages_iff.
      split; [exact H1|]. split; [exact H2|]. intros x []. }
  split; [exact Hv|]. split; [exact Hvalid|]. split; [reflexivity|].
  split; [now rewrite Hsize|]. split.
  { eexists. split; [reflexivity|]. rewrite Hnames.
    set (names := flat_map _ images).
    assert (Hnd : NoDup (fold_left (setAdd streq) names [])).
    { apply (fold_setAdd_NoDup streq streq_true). constructor. }
    transitivity (List.length names).
    - apply NoDup_incl_length; [exact Hnd|]. intros x Hx.
      apply (fold_setAdd_In streq streq_true) in Hx. destruct Hx as [[]|Hx]. exact Hx.
    - unfold names. clear. induction images as [|image rest IH]; cbn; [lia|].
      rewrite length_app. destruct (truthyName image); cbn; lia. }
  split; [|reflexivity].
  intros extracted Himages Hval. apply Hvalid in Hval. destruct Hval as (_ & _ & Hnd).
  apply (@addImages_distinct extracted []). cbn [map app].
  rewrite Himages, map_map in Hnd. cbn [inputOf ImageInput.fileName] in Hnd.
  change (fun x => Some (ExtractedImage.fileName x))
    with (fun x => (@Some jsstring) (ExtractedImage.fileName x)) in Hnd.
  rewrite <- (map_map ExtractedImage.fileName (@Some jsstring)) in Hnd.
  now apply NoDup_map_inv in Hnd.
Qed.

End ZipGenerator.

(* ================================================================== *)
(** ** js/utils.js: class EpubToZipApp *)
(* ================================================================== *)

(** The types of [Utils.showNotification]. *)
Module Notification.
Inductive kind := success | error | warning | info.
End Notification.

(** The texts of the notifications. *)
Inductive Message :=
| Text (text : string)
| DownloadStarted (fileName : JS.jsstring)       (* `开始下载 ${fileName}` *)
| ArchiveDownloadStarted (count : nat)           (* `开始下载打包文件 (包含 ${count} 个ZIP文件)` *)
| ProcessingDone (count : nat)                   (* `处理完成！成功转换 ${count} 个文件` *)
| Failed (context message : string).             (* `${context}: ${message}` *)

(** What the application does to its collaborators, in order. *)
Inductive Event :=
| updateFileProgressItem (fileId : JS.jsstring) (status : Status) (text : string)
| updateOverallProgress (completed total successful : nat)
| addResultItem (result : ConversionResult.t)
| showNotification (message : Message) (kind : Notification.kind)
| downloadBlob (blob : Blob) (filename : JS.jsstring).

Module App.
Import JS.

(** The application: the results registry ([processedResults]), the file
    registry of the file handler ([selectedFiles]) and the trace of the
    calls to the user interface and to the download helper. *)
Record State := {
  isProcessing : bool;
  processedResults : JSMap.t ConversionResult.t;
  selectedFiles : JSMap.t FileObj.t;
  events : list Event
}.

Definition emit (e : Event) (st : State) : State :=
  {| isProcessing := isProcessing st;
     processedResults := processedResults st;
     selectedFiles := selectedFiles st;
     events := events st ++ [e] |}.

(** [fileHandler.updateFileStatus(fileId, status, data)]: nothing for an
    unknown id; [data] is [{}] or [{error: message}]. *)
Definition updateFileStatus (fileId : jsstring) (status : Status) (data : option string)
    (files : JSMap.t FileObj.t) : JSMap.t FileObj.t :=
  match JSMap.get files fileId with
  | None => files
  | Some fileObj =>
      JSMap.set files fileId
        {| FileObj.id := FileObj.id fileObj;
           FileObj.file := FileObj.file fileObj;
           FileObj.name := FileObj.name fileObj;
           FileObj.size := FileObj.size fileObj;
           FileObj.status := status;
           FileObj.outputName := FileObj.outputName fileObj;
           FileObj.progress := FileObj.progress fileObj;
           FileObj.error := match data with
                            | Some message => Some message
                            | None => FileObj.error fileObj
                            end |}
  end.

Definition setFileStatus (fileId : jsstring) (status : Status) (data : option string)
    (st : State) : State :=
  {| isProcessing := isProcessing st;
     processedResults := processedResults st;
     selectedFiles := updateFileStatus fileId status data (selectedFiles st);
     events := events st |}.

Definition setResult (fileId : jsstring) (result : ConversionResult.t) (st : State) : State :=
  {| isProcessing := isProcessing st;
     processedResults := JSMap.set (processedResults st) fileId result;
     selectedFiles := selectedFiles st;
     events := events st |}.

(** [fileHandler.updateOutputNames(nameMapping)] *)
Definition updateOutputNames (nameMapping : list OutputMapping.t)
    (files : JSMap.t FileObj.t) : JSMap.t FileObj.t :=
  fold_left
    (fun files mapping =>
       match JSMap.get files (OutputMapping.fileId mapping) with
       | None => files
       | Some fileObj =>
           JSMap.set files (OutputMapping.fileId mapping)
             {| FileObj.id := FileObj.id fileObj;
                FileObj.file := FileObj.file fileObj;
                FileObj.name := FileObj.name fileObj;
                FileObj.size := FileObj.size fileObj;
                FileObj.status := FileObj.status fileObj;
                FileObj.outputName := OutputMapping.outputName mapping;
                FileObj.progress := FileObj.progress fileObj;
                FileObj.error := FileObj.error fileObj |}
       end)
    nameMapping files.

Section Pipeline.
Variable localeCompare : jsstring -> jsstring -> Z.
Variable generateAsync : JSZip.t -> Result Blob.

(** The [catch] block of the loop of [processBatch]. *)
Definition failFile (fileId : jsstring) (message : string) (st : State) : State :=
  setFileStatus fileId error (Some message)
    (emit (updateFileProgressItem fileId error message) st).

(** One round of the loop of [processBatch], up to the end of the
    [try]/[catch]: the state, and whether the file was converted. [None]: a
    naming loop that does not end. *)
Definition processFile (fileObj : FileObj.t) (st : State) : option (State * bool) :=
  let fileId := FileObj.id fileObj in
  let st := emit (updateFileProgressItem fileId processing "正在解析EPUB...") st in
  let st := setFileStatus fileId processing None st in
  let parseResult := EpubParser.parseEpub localeCompare (FileObj.file fileObj) in
  if negb (ParseResult.success parseResult) then
    Some (failFile fileId
            (EpubParser.messageOr
               (match ParseResult.error parseResult with Some m => m | None => "" end)
               "解析失败") st, false)
  else
    match ParseResult.images parseResult with
    | [] => Some (failFile fileId "未找到图片文件" st, false)
    | images =>
        let st := emit (updateFileProgressItem fileId processing "正在生成ZIP...") st in
        match ZipGenerator.generateZipFromImages generateAsync images with
        | None => None
        | Some (Throw message) => Some (failFile fileId message st, false)
        | Some (Ok zipBlob) =>
            let result :=
              {| ConversionResult.fileId := fileId;
                 ConversionResult.fileName := FileObj.outputName fileObj;
                 ConversionResult.originalName := FileObj.name fileObj;
                 ConversionResult.blob := zipBlob;
                 ConversionResult.size := List.length zipBlob;
                 ConversionResult.imageCount := List.length images;
                 ConversionResult.success := true |} in
            let st := setResult fileId result st in
            let st := emit (updateFileProgressItem fileId completed "处理完成") st in
            let st := setFileStatus fileId completed None st in
            Some (st, true)
        end
    end.

(** The loop of [processBatch]. *)
Fixpoint processLoop (files : list FileObj.t) (totalFiles completedFiles successfulFiles : nat)
    (st : State) : option State :=
  match files with
  | [] => Some st
  | fileObj :: rest =>
      match processFile fileObj st with
      | None => None
      | Some (st, converted) =>
          let successfulFiles := if converted then S successfulFiles else successfulFiles in
          let completedFiles := S completedFiles in
          let st := emit (updateOverallProgress completedFiles totalFiles successfulFiles) st in
          processLoop rest totalFiles completedFiles successfulFiles st
      end
  end.

Definition processBatch (files : list FileObj.t) (st : State) : option State :=
  let totalFiles := List.length files in
  processLoop files totalFiles 0 0 (emit (updateOverallProgress 0 totalFiles 0) st).

(** [handleProcessingComplete] *)
Definition handleProcessingComplete (st : State) : State :=
  let successfulResults :=
    filter ConversionResult.success (JSMap.values (processedResults st)) in
  match successfulResults with
  | [] => emit (showNotification (Text "没有文件处理成功") Notification.error) st
  | _ =>
      let st := fold_left (fun st result => emit (addResultItem result) st)
                          successfulResults st in
      emit (showNotification (ProcessingDone (List.length successfulResults))
                             Notification.success) st
  end.

(** [downloadAllResults] *)
Definition downloadAllResults (st : State) : State :=
  let successfulResults :=
    filter ConversionResult.success (JSMap.values (processedResults st)) in
  match successfulResults with
  | [] => emit (showNotification (Text "没有可下载的文件") Notification.warning) st
  | [result] =>
      let st := emit (downloadBlob (ConversionResult.blob result)
                                   (ConversionResult.fileName result)) st in
      emit (showNotification (DownloadStarted (ConversionResult.fileName result))
                             Notification.success) st
  | _ =>
      let st := emit (showNotification (Text "正在打包文件...") Notification.info) st in
      match ZipGenerator.createArchive generateAsync successfulResults with
      | Ok archiveBlob =>
          let st := emit (downloadBlob archiveBlob (str "epub_converted_files.zip")) st in
          emit (showNotification (ArchiveDownloadStarted (List.length successfulResults))
                                 Notification.success) st
      | Throw message =>
          emit (showNotification (Failed "批量下载" message) Notification.error) st
      end
  end.

End Pipeline.

(** *** Per-file isolation in [processBatch] *)

Section PipelineFacts.
Variable localeCompare : jsstring -> jsstring -> Z.
Variable generateAsync : JSZip.t -> Result Blob.

(** What the [try] block of a round computes for a file: the result it
    stores, or the message of the error it throws. *)
Definition outcome (fileObj : FileObj.t) : option (Result ConversionResult.t) :=
  let parseResult := EpubParser.parseEpub localeCompare (FileObj.file fileObj) in
  if negb (ParseResult.success parseResult) then
    Some (Throw (EpubParser.messageOr
                   (match ParseResult.error parseResult with Some m => m | None => "" end)
                   "解析失败"))
  else
    match ParseResult.images parseResult with
    | [] => Some (Throw "未找到图片文件")
    | images =>
        match ZipGenerator.generateZipFromImages generateAsync images with
        | None => None
        | Some (Throw message) => Some (Throw message)
        | Some (Ok zipBlob) =>
            Some (Ok {| ConversionResult.fileId := FileObj.id fileObj;
                        ConversionResult.fileName := FileObj.outputName fileObj;
                        ConversionResult.originalName := FileObj.name fileObj;
                        ConversionResult.blob := zipBlob;
                        ConversionResult.size := List.length zipBlob;
                        ConversionResult.imageCount := List.length images;
                        ConversionResult.success := true |})
        end
    end.

Lemma outcome_total fileObj : exists o, outcome fileObj = Some o.
Proof.
  unfold outcome.
  destruct (negb (ParseResult.success _)); [eauto|].
  destruct (ParseResult.images _) as [|image rest]; [eauto|].
  destruct (ZipGenerator.generateZipFromImages_total generateAsync (image :: rest))
    as [[zipBlob|message] ->]; eauto.
Qed.

Lemma outcome_success fileObj result :
  outcome fileObj = Some (Ok result) ->
  ConversionResult.success result = true /\
  ConversionResult.fileId result = FileObj.id fileObj /\
  ConversionResult.fileName result = FileObj.outputName fileObj.
Proof.
  unfold outcome.
  destruct (negb (ParseResult.success _)); [discriminate|].
  destruct (ParseResult.images _) as [|image rest]; [discriminate|].
  destruct (ZipGenerator.generateZipFromImages generateAsync (image :: rest))
    as [[zipBlob|message]|]; try discriminate.
  intros H. injection H as <-. cbn. auto.
Qed.

(** The state a round leaves, by the outcome of the file. *)
Definition afterFile (fileObj : FileObj.t) (o : Result ConversionResult.t) (st : State)
    : State * bool :=
  let fileId := FileObj.id fileObj in
  let st := emit (updateFileProgressItem fileId processing "正在解析EPUB...") st in
  let st := setFileStatus fileId processing None st in
  match o with
  | Throw message =>
      match EpubParser.parseEpub localeCompare (FileObj.file fileObj) with
      | {| ParseResult.success := true; ParseResult.images := _ :: _ |} =>
          (failFile fileId message
             (emit (updateFileProgressItem fileId processing "正在生成ZIP...") st), false)
      | _ => (failFile fileId message st, false)
      end
  | Ok result =>
      let st := emit (updateFileProgressItem fileId processing "正在生成ZIP...") st in
      let st := setResult fileId result st in
      let st := emit (updateFileProgressItem fileId completed "处理完成") st in
      (setFileStatus fileId completed None st, true)
  end.

Lemma processFile_afterFile fileObj st :
  processFile localeCompare generateAsync fileObj st =
  option_map (fun o => afterFile fileObj o st) (outcome fileObj).
Proof.
  unfold processFile, outcome, afterFile.
  destruct (EpubParser.parseEpub localeCompare (FileObj.file fileObj))
    as [success err images].
  cbn [ParseResult.success ParseResult.error ParseResult.images].
  destruct success; cbn [negb option_map]; [|reflexivity].
  destruct images as [|image rest]; [reflexivity|].
  destruct (ZipGenerator.generateZipFromImages generateAsync (image :: rest))
    as [[zipBlob|message]|]; reflexivity.
Qed.

End PipelineFacts.

Lemma updateFileStatus_twice fileId s1 s2 d2 files :
  updateFileStatus fileId s2 d2 (updateFileStatus fileId s1 None files) =
  updateFileStatus fileId s2 d2 files.
Proof.
  unfold updateFileStatus at 2 3.
  destruct (JSMap.get files fileId) as [fileObj|] eqn:E.
  - unfold updateFileStatus. rewrite JSMap.get_set_same, JSMap.set_set. reflexivity.
  - unfold updateFileStatus. now rewrite E.
Qed.

Definition isOk (A : Type) (o : Result A) : bool :=
  match o with Ok _ => true | Throw _ => false end.

(** The last call to the user interface for a file: completed, or error
    with the message of the failure. *)
Definition terminalEvent (fileObj : FileObj.t) (o : Result ConversionResult.t) : Event :=
  match o with
  | Ok _ => updateFileProgressItem (FileObj.id fileObj) completed "处理完成"
  | Throw message => updateFileProgressItem (FileObj.id fileObj) error message
  end.

(** The results registry after a round: a result is stored for a converted
    file, nothing is stored for a failed one. *)
Definition store (results : JSMap.t ConversionResult.t)
    (fo : FileObj.t * Result ConversionResult.t) : JSMap.t ConversionResult.t :=
  match snd fo with
  | Ok result => JSMap.set results (FileObj.id (fst fo)) result
  | Throw _ => results
  end.

(** The file registry after a round: completed, or error with the message. *)
Definition finalStatus (files : JSMap.t FileObj.t)
    (fo : FileObj.t * Result ConversionResult.t) : JSMap.t FileObj.t :=
  match snd fo with
  | Ok _ => updateFileStatus (FileObj.id (fst fo)) completed None files
  | Throw message => updateFileStatus (FileObj.id (fst fo)) error (Some message) files
  end.

Section BatchFacts.
Variable localeCompare : jsstring -> jsstring -> Z.
Variable generateAsync : JSZip.t -> Result Blob.

Let outcomeOf := outcome localeCompare generateAsync.
Let after := afterFile localeCompare.

Lemma afterFile_results fileObj o st :
  processedResults (fst (after fileObj o st)) = store (processedResults st) (fileObj, o).
Proof.
  unfold after, afterFile, store. cbn [fst snd].
  destruct o as [result|message]; [reflexivity|].
  destruct (EpubParser.parseEpub _ _) as [[] err [|image rest]]; reflexivity.
Qed.

Lemma afterFile_files fileObj o st :
  selectedFiles (fst (after fileObj o st)) = finalStatus (selectedFiles st) (fileObj, o).
Proof.
  unfold after, afterFile, finalStatus. cbn [fst snd].
  destruct o as [result|message].
  - cbn. apply updateFileStatus_twice.
  - destruct (EpubParser.parseEpub _ _) as [[] err [|image rest]]; cbn;
      apply updateFileStatus_twice.
Qed.

Lemma afterFile_converted fileObj o st : snd (after fileObj o st) = isOk o.
Proof.
  unfold after, afterFile. destruct o as [result|message]; [reflexivity|].
  destruct (EpubParser.parseEpub _ _) as [[] err [|image rest]]; reflexivity.
Qed.

(** The calls a round makes to the user interface: it starts with the
    "processing" status of the file and ends with its terminal status. *)
Lemma afterFile_events fileObj o st :
  exists middle,
    events (fst (after fileObj o st)) =
    events st
    ++ updateFileProgressItem (FileObj.id fileObj) processing "正在解析EPUB..."
    :: middle ++ [terminalEvent fileObj o].
Proof.
  unfold after, afterFile, terminalEvent.
  destruct o as [result|message].
  - exists [updateFileProgressItem (FileObj.id fileObj) processing "正在生成ZIP..."].
    cbn. now rewrite <- !app_assoc.
  - destruct (EpubParser.parseEpub _ _) as [[] err [|image rest]]; cbn.
    + exists []. now rewrite <- !app_assoc.
    + exists [updateFileProgressItem (FileObj.id fileObj) processing "正在生成ZIP..."].
      now rewrite <- !app_assoc.
    + exists []. now rewrite <- !app_assoc.
    + exists []. now rewrite <- !app_assoc.
Qed.

Lemma outcomes_exist files :
  exists outcomes, Forall2 (fun f o => outcomeOf f = Some o) files outcomes.
Proof.
  induction files as [|f rest [os IH]]; [exists []; constructor|].
  destruct (outcome_total localeCompare generateAsync f) as [o Ho].
  exists (o :: os). now constructor.
Qed.

Lemma processLoop_spec files : forall outcomes total completedFiles successfulFiles st,
  Forall2 (fun f o => outcomeOf f = Some o) files outcomes ->
  exists st',
    processLoop localeCompare generateAsync files total completedFiles successfulFiles st
      = Some st' /\
    isProcessing st' = isProcessing st /\
    processedResults st' = fold_left store (combine files outcomes) (processedResults st) /\
    selectedFiles st' = fold_left finalStatus (combine files outcomes) (selectedFiles st) /\
    (exists trace,
       events st' = events st ++ trace /\
       (forall f o, In (f, o) (combine files outcomes) ->
          In (updateFileProgressItem (FileObj.id f) processing "正在解析EPUB...") trace /\
          In (terminalEvent f o) trace) /\
       (files <> [] ->
          last trace (updateOverallProgress 0 0 0) =
          updateOverallProgress (completedFiles + List.length files) total
            (successfulFiles + List.length (filter (@isOk _) outcomes)))).
Proof.
  induction files as [|f rest IH]; intros outcomes total c s st H.
  - inversion H; subst. exists st. cbn [processLoop combine fold_left].
    do 4 (split; [reflexivity|]).
    exists []. rewrite app_nil_r. split; [reflexivity|].
    split; [intros f' o' []|congruence].
  - inversion H as [|? o ? os Ho Hrest]; subst. cbn [processLoop].
    rewrite processFile_afterFile. fold outcomeOf. rewrite Ho. cbn [option_map].
    fold after.
    destruct (after f o st) as [st1 converted] eqn:E.
    pose proof (afterFile_results f o st) as Hr.
    pose proof (afterFile_files f o st) as Hf.
    pose proof (afterFile_converted f o st) as Hc.
    destruct (afterFile_events f o st) as [middle He].
    assert (Hp : isProcessing st1 = isProcessing st).
    { replace st1 with (fst (after f o st)) by now rewrite E.
      unfold after, afterFile. destruct o as [result|message]; [reflexivity|].
      destruct (EpubParser.parseEpub _ _) as [[] err [|image rest']]; reflexivity. }
    rewrite E in Hr, Hf, Hc, He. cbn [fst snd] in Hr, Hf, Hc, He.
    set (s' := if converted then S s else s).
    destruct (IH os total (S c) s'
                (emit (updateOverallProgress (S c) total s') st1) Hrest)
      as (st' & Hrun & Hproc & Hres & Hfiles & trace & Hev & Hin & Hlast).
    exists st'. split; [exact Hrun|]. cbn [combine fold_left].
    split; [now rewrite Hproc|].
    split; [now rewrite Hres; cbn; rewrite Hr|].
    split; [now rewrite Hfiles; cbn; rewrite Hf|].
    exists (updateFileProgressItem (FileObj.id f) processing "正在解析EPUB..."
            :: middle ++ [terminalEvent f o]
            ++ updateOverallProgress (S c) total s' :: trace).
    split; [|split].
    + rewrite Hev. cbn [emit events]. rewrite He.
      rewrite <- !app_assoc. cbn [app]. now rewrite <- !app_assoc.
    + intros f' o' [Heq|Hin'].
      * injection Heq as <- <-. split; [now left|].
        right. apply in_or_app. right. now left.
      * destruct (Hin f' o' Hin') as [H1 H2].
        split; right; apply in_or_app; right; right; right; assumption.
    + intros _. cbn [List.length filter].
      assert (Hs : (s' + List.length (filter (@isOk _) os)
                    = s + List.length (if isOk o then o :: filter (@isOk _) os
                                       else filter (@isOk _) os))%nat).
      { unfold s'. rewrite Hc. destruct (isOk o); cbn [List.length]; lia. }
      replace (updateFileProgressItem (FileObj.id f) processing "正在解析EPUB..."
               :: middle ++ [terminalEvent f o]
               ++ updateOverallProgress (S c) total s' :: trace)
        with ((updateFileProgressItem (FileObj.id f) processing "正在解析EPUB..."
               :: middle ++ [terminalEvent f o])
              ++ updateOverallProgress (S c) total s' :: trace)
        by (cbn [app]; rewrite <- app_assoc; reflexivity).
      rewrite last_app_cons.
      destruct rest as [|f2 rest2].
      * inversion Hrest; subst.
        cbn [processLoop] in Hrun. injection Hrun as <-.
        assert (trace = []) as ->.
        { apply (f_equal (@List.length _)) in Hev. rewrite length_app in Hev.
          destruct trace; [reflexivity|cbn in Hev; lia]. }
        cbn [last filter List.length] in Hs |- *. f_equal; lia.
      * specialize (Hlast ltac:(discriminate)).
        destruct trace as [|e trace']; [cbn in Hlast; discriminate|].
        change (last (updateOverallProgress (S c) total s' :: e :: trace')
                     (updateOverallProgress 0 0 0))
          with (last (e :: trace') (updateOverallProgress 0 0 0)).
        rewrite Hlast. f_equal; [cbn [List.length]; lia|].
        rewrite <- Hs. reflexivity.
Qed.

End BatchFacts.

Section Isolation.
Variable localeCompare : jsstring -> jsstring -> Z.
Variable generateAsync : JSZip.t -> Result Blob.

Lemma store_success files : forall outcomes results fileId r,
  Forall2 (fun f o => outcome localeCompare generateAsync f = Some o) files outcomes ->
  JSMap.get (fold_left store (combine files outcomes) results) fileId = Some r ->
  JSMap.get results fileId = Some r \/ ConversionResult.success r = true.
Proof.
  induction files as [|f rest IH]; intros outcomes results fileId r H Hget.
  - inversion H; subst. now left.
  - inversion H as [|? o ? os Ho Hrest]; subst. cbn [combine fold_left] in Hget.
    destruct (IH os _ fileId r Hrest Hget) as [Hprev|Hs]; [|now right].
    unfold store in Hprev. cbn [fst snd] in Hprev.
    destruct o as [result|message]; [|now left].
    destruct (jsstring_eq_dec (FileObj.id f) fileId) as [<-|Hne].
    + rewrite JSMap.get_set_same in Hprev. injection Hprev as <-.
      right. now apply (outcome_success localeCompare generateAsync f).
    + rewrite JSMap.get_set_other in Hprev by exact Hne. now left.
Qed.

(** C2, as the code has it. [processBatch] returns for every batch and
    makes a round for each of the N files, whatever happens to the others:
    each file gets its "processing" status and then its terminal status;
    the last progress report is N of N, with the number of converted files.
    A converted file gets a ConversionResult (success: true) in the results
    registry; for a failed file (archive not readable, structure not valid,
    no image, serialization error) nothing is stored there: the failure is
    the status [error] and the message, on the file object and on the user
    interface. *)
Theorem processBatch_isolates_failures files st :
  exists st' outcomes,
    processBatch localeCompare generateAsync files st = Some st' /\
    Forall2 (fun f o => outcome localeCompare generateAsync f = Some o) files outcomes /\
    processedResults st' = fold_left store (combine files outcomes) (processedResults st) /\
    selectedFiles st' = fold_left finalStatus (combine files outcomes) (selectedFiles st) /\
    (forall f o, In (f, o) (combine files outcomes) ->
       In (updateFileProgressItem (FileObj.id f) processing "正在解析EPUB...") (events st') /\
       In (terminalEvent f o) (events st')) /\
    last (events st') (updateOverallProgress 0 0 0) =
      updateOverallProgress (List.length files) (List.length files)
                            (List.length (filter (@isOk _) outcomes)) /\
    (forall fileId r, JSMap.get (processedResults st') fileId = Some r ->
       JSMap.get (processedResults st) fileId = Some r \/
       ConversionResult.success r = true).
Proof.
  destruct (outcomes_exist localeCompare generateAsync files) as [outcomes Hout].
  unfold processBatch.
  destruct (@processLoop_spec localeCompare generateAsync files outcomes
              (List.length files) 0 0
              (emit (updateOverallProgress 0 (List.length files) 0) st) Hout)
    as (st' & Hrun & _ & Hres & Hfiles & trace & Hev & Hin & Hlast).
  exists st', outcomes. split; [exact Hrun|]. split; [exact Hout|].
  split; [exact Hres|]. split; [exact Hfiles|]. split; [|split].
  - intros f o Hfo. destruct (Hin f o Hfo) as [H1 H2].
    rewrite Hev. split; apply in_or_app; now right.
  - destruct files as [|f rest].
    + inversion Hout; subst. cbn [processLoop] in Hrun. injection Hrun as <-.
      cbn [emit events List.length filter]. now rewrite last_last.
    + specialize (Hlast ltac:(discriminate)). rewrite Hev.
      destruct trace as [|e trace']; [cbn in Hlast; discriminate|].
      now rewrite last_app_cons.
  - intros fileId r Hget. rewrite Hres in Hget.
    now apply (@store_success files outcomes _ _ _ Hout) in Hget.
Qed.

End Isolation.

(** *** Aggregation *)

Section Aggregation.
Variable generateAsync : JSZip.t -> Result Blob.



End Aggregation.

End App.

(* ================================================================== *)
(** ** js/fileHandler.js and js/utils.js: the events of a session *)
(* ================================================================== *)

(** The file handler ([FileHandler]) and the handlers of the application
    ([EpubToZipApp]) that its events call. An event of the handler calls its
    listeners at once, so that a method of the handler runs the handler of
    the application before it returns. The calls that only show, hide or
    redraw parts of the page are left out. *)
Module Lifecycle.
Import JS.

(** The notifications of the file handler (their texts are built from the
    fields kept here). *)
Inductive Notice :=
| possiblyInvalid (names : list jsstring)
| added (count : nat)
| alreadyThere (name : jsstring)
| removed (name : jsstring)
| cleared (count : nat).

(** The page: the application with its two registries, the name processor,
    the number of ids generated so far, and the notifications of the file
    handler. *)
Record Page := {
  app : App.State;
  nameProcessor : NameProcessor.State;
  generatedIds : nat;
  notices : list Notice
}.

(** The constructors. *)
Definition init : Page :=
  {| app := {| App.isProcessing := false;
               App.processedResults := [];
               App.selectedFiles := [];
               App.events := [] |};
     nameProcessor := NameProcessor.init;
     generatedIds := 0;
     notices := [] |}.

Definition withFiles (files : JSMap.t FileObj.t) (st : App.State) : App.State :=
  {| App.isProcessing := App.isProcessing st;
     App.processedResults := App.processedResults st;
     App.selectedFiles := files;
     App.events := App.events st |}.

Definition withResults (results : JSMap.t ConversionResult.t) (st : App.State) : App.State :=
  {| App.isProcessing := App.isProcessing st;
     App.processedResults := results;
     App.selectedFiles := App.selectedFiles st;
     App.events := App.events st |}.

Definition setProcessing (value : bool) (st : App.State) : App.State :=
  {| App.isProcessing := value;
     App.processedResults := App.processedResults st;
     App.selectedFiles := App.selectedFiles st;
     App.events := App.events st |}.

Definition withApp (st : App.State) (page : Page) : Page :=
  {| app := st;
     nameProcessor := nameProcessor page;
     generatedIds := generatedIds page;
     notices := notices page |}.

Definition notify (notice : Notice) (page : Page) : Page :=
  {| app := app page;
     nameProcessor := nameProcessor page;
     generatedIds := generatedIds page;
     notices := notices page ++ [notice] |}.

Definition registry (page : Page) : JSMap.t FileObj.t := App.selectedFiles (app page).

Definition results (page : Page) : JSMap.t ConversionResult.t :=
  App.processedResults (app page).

Section Handlers.
Variable localeCompare : jsstring -> jsstring -> Z.
Variable generateAsync : JSZip.t -> Result Blob.
(** [Utils.generateId()]: the id that the call number [n] returns. *)
Variable generateId : nat -> jsstring.

(** [EpubToZipApp.handleFilesAdded(files)] *)
Definition handleFilesAdded (files : list FileObj.t) (page : Page) : option Page :=
  match NameProcessor.processFileNames localeCompare files (nameProcessor page) with
  | None => None
  | Some (nameMapping, processor) =>
      Some {| app := withFiles (App.updateOutputNames nameMapping (registry page)) (app page);
              nameProcessor := processor;
              generatedIds := generatedIds page;
              notices := notices page |}
  end.

(** The loop of [FileHandler.addFiles(files)]. *)
Fixpoint addLoop (files : list UserFile.t) (page : Page) : Page :=
  match files with
  | [] => page
  | file :: rest =>
      let existingFile :=
        find (fun f => streq (FileObj.name f) (UserFile.name file)
                       && (FileObj.size f =? UserFile.size file)%Z)
             (JSMap.values (registry page)) in
      match existingFile with
      | Some _ => addLoop rest (notify (alreadyThere (UserFile.name file)) page)
      | None =>
          let fileId := generateId (generatedIds page) in
          let fileObj :=
            newFileObj fileId (UserFile.file file) (UserFile.name file) (UserFile.size file) in
          addLoop rest
            {| app := withFiles (JSMap.set (registry page) fileId fileObj) (app page);
               nameProcessor := nameProcessor page;
               generatedIds := S (generatedIds page);
               notices := notices page |}
      end
  end.

(** [FileHandler.addFiles(files)]: the loop, then the event [filesAdded]
    with the files of the registry. *)
Definition addFiles (files : list UserFile.t) (page : Page) : option Page :=
  let page := addLoop files page in
  handleFilesAdded (JSMap.values (registry page)) page.

(** [FileHandler.handleFileSelect(files)] *)
Definition handleFileSelect (files : list UserFile.t) (page : Page) : option Page :=
  match files with
  | [] => Some page
  | _ =>
      let (valid, invalid) := Utils.validateFiles files in
      let page :=
        match invalid with
        | [] => page
        | _ => notify (possiblyInvalid (map UserFile.name invalid)) page
        end in
      match valid with
      | [] => Some page
      | _ =>
          match addFiles valid page with
          | None => None
          | Some page => Some (notify (added (List.length valid)) page)
          end
      end
  end.

(** [FileHandler.removeFile(fileId)], with
    [EpubToZipApp.handleFileRemoved(fileObj)]. *)
Definition removeFile (fileId : jsstring) (page : Page) : Page :=
  match JSMap.get (registry page) fileId with
  | None => page
  | Some fileObj =>
      let st := withFiles (JSMap.delete (registry page) fileId) (app page) in
      let st := withResults (JSMap.delete (App.processedResults st) (FileObj.id fileObj)) st in
      notify (removed (FileObj.name fileObj)) (withApp st page)
  end.

(** [FileHandler.clearAllFiles()], with [EpubToZipApp.handleFilesCleared()]. *)
Definition clearAllFiles (page : Page) : Page :=
  let count := List.length (registry page) in
  let st := withResults [] (withFiles [] (app page)) in
  let page :=
    {| app := st;
       nameProcessor := NameProcessor.reset (nameProcessor page);
       generatedIds := generatedIds page;
       notices := notices page |} in
  if (0 <? count)%nat then notify (cleared count) page else page.

(** [EpubToZipApp.startProcessing()], run in one piece: a conversion that
    nothing interrupts, from the click to the end of the [finally] block.
    The function is asynchronous, and the user can act while it is
    suspended; [Processing] below runs it from suspension to suspension and
    shows that the two agree on a conversion that nothing interrupts. The
    [catch] block is not reached: [processBatch] catches the errors of each
    file. *)
Definition startProcessing (st : App.State) : option App.State :=
  if App.isProcessing st then
    Some (App.emit (showNotification (Text "正在处理中，请稍候...") Notification.warning) st)
  else
    let files := JSMap.values (App.selectedFiles st) in
    match files with
    | [] => Some (App.emit (showNotification (Text "请先选择EPUB文件") Notification.warning) st)
    | _ =>
        let st := setProcessing true st in
        match App.processBatch localeCompare generateAsync files st with
        | None => None
        | Some st =>
            let st := App.handleProcessingComplete st in
            Some (setProcessing false st)
        end
    end.

(** [EpubToZipApp.downloadSingleResult(fileName)], which the download button
    of a result calls with the output name of the result. *)
Definition downloadSingleResult (fileName : jsstring) (st : App.State) : App.State :=
  let result :=
    find (fun r => streq (ConversionResult.fileName r) fileName)
         (JSMap.values (App.processedResults st)) in
  match result with
  | None => App.emit (showNotification (Text "找不到指定的文件") Notification.error) st
  | Some result =>
      let st := App.emit (downloadBlob (ConversionResult.blob result)
                                       (ConversionResult.fileName result)) st in
      App.emit (showNotification (DownloadStarted (ConversionResult.fileName result))
                                 Notification.success) st
  end.

(** What the user does, one action after the other; a started conversion
    has ended when the next action comes. *)
Inductive Action :=
| Select (files : list UserFile.t)
| Remove (fileId : jsstring)
| Clear
| Start.

Definition act (action : Action) (page : Page) : option Page :=
  match action with
  | Select files => handleFileSelect files page
  | Remove fileId => Some (removeFile fileId page)
  | Clear => Some (clearAllFiles page)
  | Start =>
      match startProcessing (app page) with
      | None => None
      | Some st => Some (withApp st page)
      end
  end.

Fixpoint run (actions : list Action) (page : Page) : option Page :=
  match actions with
  | [] => Some page
  | action :: rest =>
      match act action page with
      | None => None
      | Some page => run rest page
      end
  end.

End Handlers.

(** *** Facts on the registries *)

Lemma streq_sym a b : streq a b = streq b a.
Proof.
  destruct (streq a b) eqn:E.
  - apply streq_true in E. subst. symmetry. apply streq_refl.
  - apply streq_false in E. symmetry. apply streq_false. congruence.
Qed.

Section MapFacts.
Variable V : Type.
Implicit Types m : JSMap.t V.

Lemma set_In m key value kv :
  In kv (JSMap.set m key value) -> In kv m \/ kv = (key, value).
Proof.
  induction m as [|[k v] r IH]; cbn.
  - intros [<-|[]]. now right.
  - destruct (streq k key) eqn:E.
    + apply streq_true in E. subst k. intros [<-|H]; [now right|left; now right].
    + intros [<-|H]; [left; now left|].
      destruct (IH H) as [H'|H']; [left; now right|now right].
Qed.

Lemma set_keys_NoDup m key value :
  NoDup (map fst m) -> NoDup (map fst (JSMap.set m key value)).
Proof.
  intros Hnd. rewrite JSMap.keys_set.
  destruct (JSMap.get m key) eqn:E; [exact Hnd|].
  apply JSMap.get_None_iff in E.
  apply NoDup_app; [exact Hnd|repeat constructor; intros []|].
  intros x Hx [<-|[]]. contradiction.
Qed.

Lemma set_keys_incl m key value : incl (map fst m) (map fst (JSMap.set m key value)).
Proof.
  rewrite JSMap.keys_set. destruct (JSMap.get m key); [apply incl_refl|].
  apply incl_appl, incl_refl.
Qed.

Lemma set_replace m key value old :
  JSMap.get m key = Some old ->
  exists l1 l2, m = l1 ++ (key, old) :: l2 /\ JSMap.set m key value = l1 ++ (key, value) :: l2.
Proof.
  induction m as [|[k v] r IH]; cbn; [discriminate|].
  destruct (streq k key) eqn:E.
  - apply streq_true in E. subst k. intros H. injection H as ->. now exists [], r.
  - intros H. destruct (IH H) as (l1 & l2 & -> & Hs).
    exists ((k, v) :: l1), l2. cbn [app]. now rewrite Hs.
Qed.

Lemma delete_split m key old :
  JSMap.get m key = Some old ->
  exists l1 l2, m = l1 ++ (key, old) :: l2 /\ JSMap.delete m key = l1 ++ l2.
Proof.
  induction m as [|[k v] r IH]; cbn; [discriminate|].
  destruct (streq k key) eqn:E.
  - apply streq_true in E. subst k. intros H. injection H as ->. now exists [], r.
  - intros H. destruct (IH H) as (l1 & l2 & -> & Hs).
    exists ((k, v) :: l1), l2. cbn [app]. now rewrite Hs.
Qed.

Lemma delete_absent m key : JSMap.get m key = None -> JSMap.delete m key = m.
Proof.
  induction m as [|[k v] r IH]; cbn; [reflexivity|].
  destruct (streq k key); [discriminate|]. intros H. now rewrite IH.
Qed.

(** With distinct keys, [set] on a key that is present changes the entry of
    that key and no other. *)
Lemma set_update (upd : V -> V) m key old :
  NoDup (map fst m) -> JSMap.get m key = Some old ->
  JSMap.set m key (upd old) =
  map (fun kv => if streq (fst kv) key then (fst kv, upd (snd kv)) else kv) m.
Proof.
  induction m as [|[k v] r IH]; cbn [JSMap.get JSMap.set map fst snd]; [discriminate|].
  intros Hnd. apply NoDup_cons_iff in Hnd. destruct Hnd as [Hk Hnd].
  destruct (streq k key) eqn:E.
  - apply streq_true in E. subst k. intros H. injection H as ->. f_equal.
    symmetry. rewrite <- (map_id r) at 2. apply map_ext_in. intros [k' v'] Hin.
    cbn [fst snd]. destruct (streq k' key) eqn:E'; [|reflexivity].
    apply streq_true in E'. subst k'. exfalso. apply Hk.
    apply (in_map fst) in Hin. exact Hin.
  - intros H. f_equal. now apply IH.
Qed.

Lemma map_absent (upd : V -> V) m key :
  JSMap.get m key = None ->
  map (fun kv => if streq (fst kv) key then (fst kv, upd (snd kv)) else kv) m = m.
Proof.
  intros H. rewrite <- (map_id m) at 2. apply map_ext_in. intros [k v] Hin.
  cbn [fst snd]. destruct (streq k key) eqn:E; [|reflexivity].
  apply streq_true in E. subst k. apply JSMap.get_None_iff in H. exfalso. apply H.
  apply (in_map fst) in Hin. exact Hin.
Qed.

Lemma NoDup_keys_NoDup m : NoDup (map fst m) -> NoDup m.
Proof. apply NoDup_map_inv. Qed.

Lemma In_keys m k : In k (map fst m) -> exists v, In (k, v) m.
Proof.
  intros H. apply in_map_iff in H. destruct H as ([k' v] & <- & Hin). now exists v.
Qed.

End MapFacts.

Lemma NoDup_map_inj (A B : Type) (g : A -> B) (l : list A) a b :
  NoDup (map g l) -> In a l -> In b l -> g a = g b -> a = b.
Proof.
  induction l as [|x l IH]; cbn; intros Hnd Ha Hb E; [contradiction|].
  apply NoDup_cons_iff in Hnd. destruct Hnd as [Hx Hnd].
  destruct Ha as [<-|Ha], Hb as [<-|Hb]; auto.
  - exfalso. apply Hx. rewrite E. now apply in_map.
  - exfalso. apply Hx. rewrite <- E. now apply in_map.
Qed.

Lemma NoDup_replace (A B : Type) (g : A -> B) (l1 l2 : list A) x x' :
  NoDup (map g (l1 ++ x :: l2)) ->
  ~ In (g x') (map g (l1 ++ x :: l2)) ->
  NoDup (map g (l1 ++ x' :: l2)).
Proof.
  rewrite !map_app. cbn [map]. intros Hnd Hx'.
  apply NoDup_remove_1 in Hnd.
  apply (Permutation_NoDup (Permutation_middle _ _ _)).
  constructor; [|exact Hnd].
  intros Hin. apply Hx'. apply in_app_or in Hin. apply in_or_app.
  destruct Hin as [Hin|Hin]; [now left|right; now right].
Qed.

(** *** What the updates of the file registry keep *)

(** Two registries with the same keys, in the same order, whose files
    agree under [g]. *)
Definition same (B : Type) (g : FileObj.t -> B) (reg reg' : JSMap.t FileObj.t) : Prop :=
  map (fun kv => (fst kv, g (snd kv))) reg' = map (fun kv => (fst kv, g (snd kv))) reg.

Lemma same_refl (B : Type) (g : FileObj.t -> B) reg : same g reg reg.
Proof. reflexivity. Qed.

Lemma same_trans (B : Type) (g : FileObj.t -> B) r1 r2 r3 :
  same g r1 r2 -> same g r2 r3 -> same g r1 r3.
Proof. unfold same. congruence. Qed.

Lemma same_compose (B C : Type) (g : FileObj.t -> B) (h : B -> C) reg reg' :
  same g reg reg' -> same (fun f => h (g f)) reg reg'.
Proof.
  unfold same. intros H.
  apply (f_equal (map (fun p : jsstring * B => (fst p, h (snd p))))) in H.
  now rewrite !map_map in H.
Qed.

Lemma same_keys (B : Type) (g : FileObj.t -> B) reg reg' :
  same g reg reg' -> map fst reg' = map fst reg.
Proof.
  unfold same. intros H.
  apply (f_equal (map (@fst jsstring B))) in H.
  now rewrite !map_map in H.
Qed.

Lemma same_map (B C : Type) (g : FileObj.t -> B) (h : jsstring -> B -> C) reg reg' :
  same g reg reg' ->
  map (fun kv => h (fst kv) (g (snd kv))) reg' = map (fun kv => h (fst kv) (g (snd kv))) reg.
Proof.
  unfold same. intros H.
  apply (f_equal (map (fun p : jsstring * B => h (fst p) (snd p)))) in H.
  now rewrite !map_map in H.
Qed.

Lemma same_get (B : Type) (g : FileObj.t -> B) reg reg' key f :
  same g reg reg' -> JSMap.get reg key = Some f ->
  exists f', JSMap.get reg' key = Some f' /\ g f' = g f.
Proof.
  unfold same. revert reg'.
  induction reg as [|[k v] r IH]; intros [|[k' v'] r']; cbn; try discriminate.
  intros H. injection H as Hk Hg Hr. subst k'.
  destruct (streq k key); [|now apply IH].
  intros E. injection E as <-. now exists v'.
Qed.

Lemma same_set (B : Type) (g : FileObj.t -> B) reg key old value :
  JSMap.get reg key = Some old -> g value = g old ->
  same g reg (JSMap.set reg key value).
Proof.
  intros Hget Hg. destruct (@set_replace _ reg key value old Hget) as (l1 & l2 & -> & ->).
  unfold same. rewrite !map_app. cbn [map fst snd]. now rewrite Hg.
Qed.

Lemma same_updateFileStatus (B : Type) (g : FileObj.t -> B) fileId status data reg :
  (forall id file name size s s' outputName progress e e',
     g (FileObj.Build_t id file name size s outputName progress e) =
     g (FileObj.Build_t id file name size s' outputName progress e')) ->
  same g reg (App.updateFileStatus fileId status data reg).
Proof.
  intros Hg. unfold App.updateFileStatus.
  destruct (JSMap.get reg fileId) as [[id file name size s outputName progress e]|] eqn:E;
    [|apply same_refl].
  eapply same_set; [exact E|]. cbn. apply Hg.
Qed.

Lemma same_finalStatus (B : Type) (g : FileObj.t -> B) reg fo :
  (forall id file name size s s' outputName progress e e',
     g (FileObj.Build_t id file name size s outputName progress e) =
     g (FileObj.Build_t id file name size s' outputName progress e')) ->
  same g reg (App.finalStatus reg fo).
Proof.
  intros Hg. unfold App.finalStatus.
  destruct (snd fo); now apply same_updateFileStatus.
Qed.

Lemma same_fold_finalStatus (B : Type) (g : FileObj.t -> B) fos : forall reg,
  (forall id file name size s s' outputName progress e e',
     g (FileObj.Build_t id file name size s outputName progress e) =
     g (FileObj.Build_t id file name size s' outputName progress e')) ->
  same g reg (fold_left App.finalStatus fos reg).
Proof.
  induction fos as [|fo fos IH]; intros reg Hg; cbn [fold_left]; [apply same_refl|].
  eapply same_trans; [apply same_finalStatus, Hg|]. now apply IH.
Qed.

Lemma same_updateOutputNames (B : Type) (g : FileObj.t -> B) nameMapping : forall reg,
  (forall id file name size s outputName outputName' progress e,
     g (FileObj.Build_t id file name size s outputName progress e) =
     g (FileObj.Build_t id file name size s outputName' progress e)) ->
  same g reg (App.updateOutputNames nameMapping reg).
Proof.
  unfold App.updateOutputNames.
  induction nameMapping as [|m ms IH]; intros reg Hg; cbn [fold_left]; [apply same_refl|].
  eapply same_trans; [|now apply IH].
  destruct (JSMap.get reg (OutputMapping.fileId m))
    as [[id file name size s outputName progress e]|] eqn:E; [|apply same_refl].
  eapply same_set; [exact E|]. cbn. apply Hg.
Qed.

(** What identifies a file of the registry: its id, its content, its name
    and its size. *)
Definition identity (f : FileObj.t) : jsstring * File * jsstring * Z :=
  (FileObj.id f, FileObj.file f, FileObj.name f, FileObj.size f).

(** *** The invariants of the two registries *)

(** The keys of the file registry are pairwise distinct and every file is
    stored under its id. *)
Definition wf (reg : JSMap.t FileObj.t) : Prop :=
  NoDup (map fst reg) /\ Forall (fun kv => FileObj.id (snd kv) = fst kv) reg.

(** No two files of the registry have the same name and the same size. *)
Definition distinctFiles (reg : JSMap.t FileObj.t) : Prop :=
  NoDup (map (fun kv => (FileObj.name (snd kv), FileObj.size (snd kv))) reg).

(** Every file of the registry has a name that ends with [.epub] and a
    size that is not zero. *)
Definition accepted (reg : JSMap.t FileObj.t) : Prop :=
  Forall (fun kv => Utils.hasEpubExtension (FileObj.name (snd kv))
                    /\ FileObj.size (snd kv) <> 0%Z) reg.

(** The output names of the registry are pairwise distinct. *)
Definition named (reg : JSMap.t FileObj.t) : Prop :=
  NoDup (map (fun kv => FileObj.outputName (snd kv)) reg).

Lemma wf_same reg reg' : same identity reg reg' -> wf reg -> wf reg'.
Proof.
  intros H [Hk Hid]. split.
  - now rewrite (same_keys H).
  - apply Forall_forall. intros kv Hin.
    pose proof (same_map (fun k (i : jsstring * File * jsstring * Z) =>
                            (k, fst (fst (fst i)))) H) as Hm.
    cbn in Hm.
    assert (Hin' : In (fst kv, FileObj.id (snd kv))
                      (map (fun kv => (fst kv, FileObj.id (snd kv))) reg')).
    { apply in_map_iff. now exists kv. }
    rewrite Hm in Hin'. apply in_map_iff in Hin'. destruct Hin' as (kv0 & E & Hin0).
    rewrite Forall_forall in Hid. specialize (Hid _ Hin0).
    injection E as E1 E2. congruence.
Qed.

Lemma distinctFiles_same reg reg' :
  same identity reg reg' -> distinctFiles reg -> distinctFiles reg'.
Proof.
  intros H. unfold distinctFiles.
  pose proof (same_map (fun (_ : jsstring) (i : jsstring * File * jsstring * Z) =>
                          (snd (fst i), snd i)) H) as Hm.
  cbn in Hm. now rewrite Hm.
Qed.

Lemma accepted_same reg reg' :
  same identity reg reg' -> accepted reg -> accepted reg'.
Proof.
  intros H Ha. unfold accepted in *. rewrite Forall_forall in *. intros kv Hin.
  pose proof (same_map (fun (_ : jsstring) (i : jsstring * File * jsstring * Z) =>
                          (snd (fst i), snd i)) H) as Hm.
  cbn in Hm.
  assert (Hin' : In (FileObj.name (snd kv), FileObj.size (snd kv))
                    (map (fun kv => (FileObj.name (snd kv), FileObj.size (snd kv))) reg')).
  { apply in_map_iff. now exists kv. }
  rewrite Hm in Hin'. apply in_map_iff in Hin'. destruct Hin' as (kv0 & E & Hin0).
  injection E as E1 E2. rewrite <- E1, <- E2. now apply Ha.
Qed.

Lemma named_same reg reg' :
  same FileObj.outputName reg reg' -> named reg -> named reg'.
Proof.
  intros H. unfold named.
  pose proof (same_map (fun (_ : jsstring) (n : jsstring) => n) H) as Hm.
  cbn in Hm. now rewrite Hm.
Qed.

Lemma wf_get reg key f : wf reg -> JSMap.get reg key = Some f -> FileObj.id f = key.
Proof.
  intros [_ Hid] Hget. apply JSMap.get_In in Hget.
  rewrite Forall_forall in Hid. exact (Hid _ Hget).
Qed.

Lemma wf_values reg : wf reg -> map FileObj.id (JSMap.values reg) = map fst reg.
Proof.
  intros [_ Hid]. unfold JSMap.values. rewrite map_map.
  apply map_ext_in. intros kv Hin. rewrite Forall_forall in Hid. now apply Hid.
Qed.

Lemma wf_In_values reg f : wf reg -> In f (JSMap.values reg) -> In (FileObj.id f, f) reg.
Proof.
  intros [_ Hid] Hin. unfold JSMap.values in Hin. apply in_map_iff in Hin.
  destruct Hin as ([k v] & <- & Hin). rewrite Forall_forall in Hid.
  specialize (Hid _ Hin). cbn in *. now rewrite Hid.
Qed.

(** *** The renaming of the registry *)

Definition withOutputName (outputName : jsstring) (fileObj : FileObj.t) : FileObj.t :=
  {| FileObj.id := FileObj.id fileObj;
     FileObj.file := FileObj.file fileObj;
     FileObj.name := FileObj.name fileObj;
     FileObj.size := FileObj.size fileObj;
     FileObj.status := FileObj.status fileObj;
     FileObj.outputName := outputName;
     FileObj.progress := FileObj.progress fileObj;
     FileObj.error := FileObj.error fileObj |}.

(** The entry of a key after [updateOutputNames], for a mapping with
    pairwise distinct ids. *)
Definition renamed (nameMapping : list OutputMapping.t) (kv : jsstring * FileObj.t)
    : jsstring * FileObj.t :=
  match find (fun m => streq (OutputMapping.fileId m) (fst kv)) nameMapping with
  | Some m => (fst kv, withOutputName (OutputMapping.outputName m) (snd kv))
  | None => kv
  end.

Lemma find_fileId_None nameMapping key :
  ~ In key (map OutputMapping.fileId nameMapping) ->
  find (fun m => streq (OutputMapping.fileId m) key) nameMapping = None.
Proof.
  induction nameMapping as [|m ms IH]; cbn; [reflexivity|]. intros H.
  destruct (streq (OutputMapping.fileId m) key) eqn:E.
  - apply streq_true in E. exfalso. apply H. now left.
  - apply IH. intros Hin. apply H. now right.
Qed.

Lemma find_fileId_Some nameMapping key :
  In key (map OutputMapping.fileId nameMapping) ->
  exists m, find (fun m => streq (OutputMapping.fileId m) key) nameMapping = Some m /\
            In m nameMapping /\ OutputMapping.fileId m = key.
Proof.
  intros H. destruct (find _ nameMapping) as [m|] eqn:E.
  - exists m. apply find_some in E. destruct E as [Hin E]. apply streq_true in E. auto.
  - exfalso. apply in_map_iff in H. destruct H as (m & Hm & Hin).
    apply (find_none _ _ E) in Hin. cbn in Hin. rewrite Hm, streq_refl in Hin. discriminate.
Qed.

Lemma updateOutputNames_renamed nameMapping : forall reg,
  NoDup (map fst reg) -> NoDup (map OutputMapping.fileId nameMapping) ->
  App.updateOutputNames nameMapping reg = map (renamed nameMapping) reg.
Proof.
  unfold App.updateOutputNames.
  induction nameMapping as [|m ms IH]; intros reg Hreg Hnd; cbn [fold_left].
  { symmetry. rewrite <- (map_id reg) at 2. now apply map_ext. }
  cbn [map] in Hnd. apply NoDup_cons_iff in Hnd. destruct Hnd as [Hm Hnd].
  set (step := fun kv : jsstring * FileObj.t =>
                 if streq (fst kv) (OutputMapping.fileId m)
                 then (fst kv, withOutputName (OutputMapping.outputName m) (snd kv))
                 else kv).
  assert (Hstep : match JSMap.get reg (OutputMapping.fileId m) with
                  | None => reg
                  | Some fileObj =>
                      JSMap.set reg (OutputMapping.fileId m)
                        (withOutputName (OutputMapping.outputName m) fileObj)
                  end = map step reg).
  { destruct (JSMap.get reg (OutputMapping.fileId m)) as [old|] eqn:E.
    - exact (@set_update _ (withOutputName (OutputMapping.outputName m)) reg _ old Hreg E).
    - symmetry. exact (@map_absent _ (withOutputName (OutputMapping.outputName m)) reg _ E). }
  unfold withOutputName in Hstep at 1. rewrite Hstep.
  assert (Hkeys : map fst (map step reg) = map fst reg).
  { rewrite map_map. apply map_ext. intros kv. unfold step.
    now destruct (streq (fst kv) (OutputMapping.fileId m)). }
  rewrite IH; [|now rewrite Hkeys|exact Hnd].
  rewrite map_map. apply map_ext. intros kv. unfold renamed at 2. cbn [find].
  rewrite (streq_sym (OutputMapping.fileId m) (fst kv)). unfold step.
  destruct (streq (fst kv) (OutputMapping.fileId m)) eqn:E; [|reflexivity].
  apply streq_true in E. unfold renamed. cbn [fst snd].
  rewrite find_fileId_None; [reflexivity|]. now rewrite E.
Qed.

Lemma renamed_names nameMapping reg :
  NoDup (map fst reg) ->
  Permutation (map OutputMapping.fileId nameMapping) (map fst reg) ->
  NoDup (map OutputMapping.outputName nameMapping) ->
  Permutation (map (fun kv => FileObj.outputName (snd kv)) (map (renamed nameMapping) reg))
              (map OutputMapping.outputName nameMapping).
Proof.
  intros Hreg Hperm Hnames.
  assert (Hids : NoDup (map OutputMapping.fileId nameMapping)).
  { apply (Permutation_NoDup (Permutation_sym Hperm)), Hreg. }
  assert (Hfind : forall kv, In kv reg ->
            exists m, In m nameMapping /\ OutputMapping.fileId m = fst kv /\
                      FileObj.outputName (snd (renamed nameMapping kv))
                      = OutputMapping.outputName m).
  { intros kv Hin.
    destruct (@find_fileId_Some nameMapping (fst kv)) as (m & Hf & Hm & Hk).
    { apply (Permutation_in _ (Permutation_sym Hperm)). now apply in_map. }
    exists m. split; [exact Hm|]. split; [exact Hk|]. unfold renamed. now rewrite Hf. }
  rewrite map_map. apply NoDup_Permutation.
  - apply NoDup_map_NoDup_ForallPairs; [|now apply NoDup_keys_NoDup].
    intros kv1 kv2 H1 H2 E.
    destruct (Hfind _ H1) as (m1 & Hm1 & Hk1 & Hn1).
    destruct (Hfind _ H2) as (m2 & Hm2 & Hk2 & Hn2).
    rewrite Hn1, Hn2 in E.
    assert (m1 = m2) by exact (NoDup_map_inj _ _ _ _ Hnames Hm1 Hm2 E). subst m2.
    apply (NoDup_map_inj _ _ _ _ Hreg H1 H2). congruence.
  - exact Hnames.
  - intros x. split.
    + intros H. apply in_map_iff in H. destruct H as (kv & <- & Hin).
      destruct (Hfind _ Hin) as (m & Hm & _ & ->). now apply in_map.
    + intros H. apply in_map_iff in H. destruct H as (m & <- & Hm).
      assert (Hk : In (OutputMapping.fileId m) (map fst reg)).
      { apply (Permutation_in _ Hperm). now apply in_map. }
      apply in_map_iff in Hk. destruct Hk as (kv & Hk & Hin).
      destruct (Hfind _ Hin) as (m' & Hm' & Hk' & Hn').
      assert (m' = m).
      { apply (NoDup_map_inj _ _ _ _ Hids Hm' Hm). congruence. }
      subst m'. apply in_map_iff. exists kv. split; [exact Hn'|exact Hin].
Qed.

(** *** The invariants of the page *)

(** The results registry, against the file registry: the keys are pairwise
    distinct and are keys of the file registry, and every result is a
    success stored under the id it carries. *)
Definition resultsOk (reg : JSMap.t FileObj.t) (res : JSMap.t ConversionResult.t) : Prop :=
  NoDup (map fst res) /\
  incl (map fst res) (map fst reg) /\
  Forall (fun kv => ConversionResult.success (snd kv) = true
                    /\ ConversionResult.fileId (snd kv) = fst kv) res.

Definition consistent (page : Page) : Prop :=
  App.isProcessing (app page) = false /\
  wf (registry page) /\
  distinctFiles (registry page) /\
  accepted (registry page) /\
  named (registry page) /\
  resultsOk (registry page) (results page).

(** Every stored result carries the name and the output name that its file
    has in the file registry. *)
Definition current (page : Page) : Prop :=
  forall key result, JSMap.get (results page) key = Some result ->
    exists fileObj,
      JSMap.get (registry page) key = Some fileObj /\
      ConversionResult.fileName result = FileObj.outputName fileObj /\
      ConversionResult.originalName result = FileObj.name fileObj.

Lemma consistent_init : consistent init.
Proof.
  repeat split; try constructor. intros k [].
Qed.

Lemma resultsOk_same (B : Type) (g : FileObj.t -> B) reg reg' res :
  same g reg reg' -> resultsOk reg res -> resultsOk reg' res.
Proof.
  intros H (H1 & H2 & H3). repeat split; auto. now rewrite (same_keys H).
Qed.

Lemma identity_status id file name size s s' outputName progress e e' :
  identity (FileObj.Build_t id file name size s outputName progress e) =
  identity (FileObj.Build_t id file name size s' outputName progress e').
Proof. reflexivity. Qed.

Lemma identity_outputName id file name size s outputName outputName' progress e :
  identity (FileObj.Build_t id file name size s outputName progress e) =
  identity (FileObj.Build_t id file name size s outputName' progress e).
Proof. reflexivity. Qed.

Section Invariants.
Variable localeCompare : jsstring -> jsstring -> Z.
Variable generateAsync : JSZip.t -> Result Blob.
Variable generateId : nat -> jsstring.

(** The names [processFileNames] gives to a batch. *)
Definition sequenceNames (N : nat) : list jsstring :=
  map (NameProcessor.outputNameOf (Nat.max 3 (List.length (toString N)))) (seq 1 N).

Lemma sequenceNames_NoDup N : NoDup (sequenceNames N).
Proof.
  apply Injective_map_NoDup; [|apply seq_NoDup].
  intros a b. apply NameProcessor.outputNameOf_inj.
Qed.

Lemma processFileNames_mapping files st :
  exists nameMapping processor,
    NameProcessor.processFileNames localeCompare files st = Some (nameMapping, processor) /\
    Permutation (map OutputMapping.fileId nameMapping) (map FileObj.id files) /\
    map OutputMapping.outputName nameMapping = sequenceNames (List.length files).
Proof.
  rewrite NameProcessor.processFileNames_eq. cbv zeta.
  eexists _, _. split; [reflexivity|]. split.
  - rewrite NameProcessor.map_fileId_generateOutputNames.
    rewrite <- (NameProcessor.map_id_ranked files 0).
    apply Permutation_map, Permutation_sym. unfold NameProcessor.sortFilesByNumbers.
    apply JS.sort_perm.
  - rewrite NameProcessor.generateOutputNames_outputNames.
    rewrite NameProcessor.sortFilesByNumbers_length, NameProcessor.length_mapIndexFrom.
    reflexivity.
Qed.

(** [handleFilesAdded] on the files of the registry: the files keep their
    identity and get the names of the sequence. *)
Lemma handleFilesAdded_spec page :
  wf (registry page) ->
  exists page',
    handleFilesAdded localeCompare (JSMap.values (registry page)) page = Some page' /\
    same identity (registry page) (registry page') /\
    Permutation (map (fun kv => FileObj.outputName (snd kv)) (registry page'))
                (sequenceNames (List.length (registry page))) /\
    results page' = results page /\
    generatedIds page' = generatedIds page /\
    notices page' = notices page /\
    App.isProcessing (app page') = App.isProcessing (app page).
Proof.
  intros Hwf. unfold handleFilesAdded.
  destruct (processFileNames_mapping (JSMap.values (registry page)) (nameProcessor page))
    as (nameMapping & processor & -> & Hperm & Hnames).
  eexists. split; [reflexivity|]. unfold registry at 2 4. cbn.
  fold (registry page). split.
  { apply same_updateOutputNames. intros. apply identity_outputName. }
  split; [|auto].
  rewrite (wf_values Hwf) in Hperm.
  assert (Hlen : List.length (JSMap.values (registry page)) = List.length (registry page)).
  { unfold JSMap.values. apply length_map. }
  rewrite Hlen in Hnames.
  rewrite updateOutputNames_renamed.
  - rewrite <- Hnames. apply renamed_names; [apply Hwf|exact Hperm|].
    rewrite Hnames. apply sequenceNames_NoDup.
  - apply Hwf.
  - apply (Permutation_NoDup (Permutation_sym Hperm)), Hwf.
Qed.

(** The loop of [addFiles], on accepted files. *)
Lemma addLoop_spec files : forall page,
  Forall (fun file => Utils.validateEpubFile file = true) files ->
  wf (registry page) -> distinctFiles (registry page) -> accepted (registry page) ->
  let page' := addLoop generateId files page in
  wf (registry page') /\ distinctFiles (registry page') /\ accepted (registry page') /\
  incl (map fst (registry page)) (map fst (registry page')) /\
  results page' = results page /\
  App.isProcessing (app page') = App.isProcessing (app page).
Proof.
  induction files as [|file rest IH]; intros page Hfiles Hwf Hdist Hacc; cbn [addLoop].
  { repeat split; auto; try apply Hwf. apply incl_refl. }
  apply Forall_cons_iff in Hfiles. destruct Hfiles as [Hfile Hrest].
  destruct (find _ (JSMap.values (registry page))) as [existing|] eqn:Efind.
  { apply (IH (notify (alreadyThere (UserFile.name file)) page)); assumption. }
  set (fileId := generateId (generatedIds page)).
  set (fileObj := newFileObj fileId (UserFile.file file) (UserFile.name file)
                             (UserFile.size file)).
  set (page1 := {| app := withFiles (JSMap.set (registry page) fileId fileObj) (app page);
                   nameProcessor := nameProcessor page;
                   generatedIds := S (generatedIds page);
                   notices := notices page |}).
  assert (Hreg1 : registry page1 = JSMap.set (registry page) fileId fileObj) by reflexivity.
  assert (Hnew : ~ In (FileObj.name fileObj, FileObj.size fileObj)
                      (map (fun kv => (FileObj.name (snd kv), FileObj.size (snd kv)))
                           (registry page))).
  { intros Hin. apply in_map_iff in Hin. destruct Hin as (kv & E & Hin).
    injection E as En Es.
    assert (Hv : In (snd kv) (JSMap.values (registry page))).
    { unfold JSMap.values. now apply in_map. }
    apply (find_none _ _ Efind) in Hv. cbn beta in Hv.
    cbn [fileObj newFileObj FileObj.name FileObj.size] in En, Es.
    rewrite En, Es, streq_refl, Z.eqb_refl in Hv. discriminate. }
  assert (Hwf1 : wf (registry page1)).
  { rewrite Hreg1. destruct Hwf as [Hk Hid]. split; [now apply set_keys_NoDup|].
    apply Forall_forall. intros kv Hin. apply set_In in Hin.
    destruct Hin as [Hin| ->]; [|reflexivity].
    rewrite Forall_forall in Hid. now apply Hid. }
  assert (Hdist1 : distinctFiles (registry page1)).
  { rewrite Hreg1. unfold distinctFiles in *.
    destruct (JSMap.get (registry page) fileId) as [old|] eqn:E.
    - destruct (@set_replace _ (registry page) fileId fileObj old E) as (l1 & l2 & Hl & ->).
      rewrite Hl in Hdist, Hnew.
      exact (@NoDup_replace _ _ (fun kv => (FileObj.name (snd kv), FileObj.size (snd kv)))
               l1 l2 (fileId, old) (fileId, fileObj) Hdist Hnew).
    - rewrite (JSMap.set_fresh _ _ _ E), map_app. cbn [map].
      apply NoDup_app; [exact Hdist|repeat constructor; intros []|].
      intros x Hx [<-|[]]. now apply Hnew. }
  assert (Hacc1 : accepted (registry page1)).
  { rewrite Hreg1. unfold accepted in *. apply Forall_forall. intros kv Hin.
    apply set_In in Hin. destruct Hin as [Hin| ->].
    - rewrite Forall_forall in Hacc. now apply Hacc.
    - cbn [snd fileObj newFileObj FileObj.name FileObj.size].
      rewrite Utils.validateEpubFile_eq, andb_true_iff in Hfile.
      destruct Hfile as [He Hs]. apply Utils.isValidFileType_epub in He.
      apply negb_true_iff, Z.eqb_neq in Hs. now split. }
  destruct (IH page1 Hrest Hwf1 Hdist1 Hacc1) as (H1 & H2 & H3 & H4 & H5 & H6).
  repeat split; try assumption; try apply H1.
  intros k Hk. apply H4. rewrite Hreg1. now apply set_keys_incl.
Qed.

Lemma handleFileSelect_spec files page :
  consistent page ->
  exists page',
    handleFileSelect localeCompare generateId files page = Some page' /\
    consistent page' /\
    incl (map fst (registry page)) (map fst (registry page')) /\
    results page' = results page /\
    (fst (Utils.validateFiles files) <> [] ->
     Permutation (map (fun kv => FileObj.outputName (snd kv)) (registry page'))
                 (sequenceNames (List.length (registry page')))).
Proof.
  intros (Hidle & Hwf & Hdist & Hacc & Hnamed & Hres).
  unfold handleFileSelect.
  destruct files as [|file0 files0].
  { exists page. repeat split; auto; try apply Hwf; try apply Hres; try apply incl_refl.
    cbn. congruence. }
  set (files := file0 :: files0).
  destruct (Utils.validateFiles files) as [valid invalid] eqn:Ev.
  assert (Hvalid : Forall (fun file => Utils.validateEpubFile file = true) valid).
  { assert (E : valid = fst (Utils.validateFiles files)) by now rewrite Ev.
    unfold Utils.validateFiles in E. cbn [fst] in E.
    rewrite (Utils.map_fst_filter_snd Utils.validateEpubFile Utils.validateEpubFile) in E
      by reflexivity.
    rewrite E. apply Forall_forall. intros f Hf. now apply filter_In in Hf. }
  set (page0 := match invalid with
                | [] => page
                | _ => notify (possiblyInvalid (map UserFile.name invalid)) page
                end).
  assert (Hp0 : app page0 = app page) by (unfold page0; now destruct invalid).
  assert (Hr0 : registry page0 = registry page) by (unfold registry; now rewrite Hp0).
  assert (Hs0 : results page0 = results page) by (unfold results; now rewrite Hp0).
  cbn [fst].
  destruct valid as [|v0 vs].
  { exists page0. unfold consistent. rewrite Hr0, Hs0, Hp0.
    repeat split; auto; try apply Hwf; try apply Hres; try apply incl_refl. congruence. }
  set (valid := v0 :: vs) in *. unfold addFiles.
  destruct (@addLoop_spec valid page0 Hvalid) as (Hwf1 & Hdist1 & Hacc1 & Hincl1 & Hres1 & Hidle1);
    try (rewrite Hr0; assumption).
  set (page1 := addLoop generateId valid page0) in *.
  destruct (handleFilesAdded_spec page1 Hwf1)
    as (page2 & -> & Hsame & Hperm & Hres2 & _ & _ & Hidle2).
  exists (notify (added (List.length valid)) page2). unfold consistent.
  change (app (notify (added (List.length valid)) page2)) with (app page2).
  change (registry (notify (added (List.length valid)) page2)) with (registry page2).
  change (results (notify (added (List.length valid)) page2)) with (results page2).
  assert (Hkeys : map fst (registry page2) = map fst (registry page1))
    by exact (same_keys Hsame).
  assert (Hlen : List.length (registry page2) = List.length (registry page1)).
  { rewrite <- (length_map fst (registry page2)), Hkeys. apply length_map. }
  split; [reflexivity|]. split; [|split; [|split]].
  - split; [congruence|].
    split; [exact (wf_same Hsame Hwf1)|].
    split; [exact (distinctFiles_same Hsame Hdist1)|].
    split; [exact (accepted_same Hsame Hacc1)|].
    split.
    + unfold named. apply (Permutation_NoDup (Permutation_sym Hperm)), sequenceNames_NoDup.
    + rewrite Hres2, Hres1, Hs0. destruct Hres as (R1 & R2 & R3).
      repeat split; auto. rewrite Hkeys. intros k Hk. apply Hincl1. rewrite Hr0. now apply R2.
  - rewrite Hkeys, <- Hr0. exact Hincl1.
  - now rewrite Hres2, Hres1, Hs0.
  - intros _. now rewrite Hlen.
Qed.

Lemma removeFile_spec fileId page :
  consistent page ->
  consistent (removeFile fileId page) /\
  (forall key,
     JSMap.get (registry (removeFile fileId page)) key =
     if streq fileId key then None else JSMap.get (registry page) key) /\
  (forall key,
     JSMap.get (results (removeFile fileId page)) key =
     if streq fileId key then None else JSMap.get (results page) key).
Proof.
  intros (Hidle & Hwf & Hdist & Hacc & Hnamed & Hres).
  destruct Hres as (R1 & R2 & R3).
  unfold removeFile.
  destruct (JSMap.get (registry page) fileId) as [fileObj|] eqn:E.
  2:{ split; [repeat split; auto; apply Hwf|]. split; intros key.
      - destruct (streq fileId key) eqn:Ek; [|reflexivity].
        apply streq_true in Ek. now subst key.
      - destruct (streq fileId key) eqn:Ek; [|reflexivity].
        apply streq_true in Ek. subst key. apply JSMap.get_None_iff.
        intros Hin. apply R2 in Hin. apply JSMap.get_None_iff in E. contradiction. }
  rewrite (@wf_get _ _ _ Hwf E).
  set (reg' := JSMap.delete (registry page) fileId).
  set (res' := JSMap.delete (results page) fileId).
  unfold consistent.
  change (app (notify _ _)) with
    (withResults res' (withFiles reg' (app page))).
  change (registry (notify _ _)) with reg'.
  change (results (notify _ _)) with res'.
  destruct (@delete_split _ (registry page) fileId fileObj E) as (l1 & l2 & Hl & Hd).
  fold reg' in Hd.
  assert (Hsub : forall (B : Type) (g : jsstring * FileObj.t -> B),
            NoDup (map g (registry page)) -> NoDup (map g reg')).
  { intros B g. rewrite Hl, Hd, !map_app. cbn [map]. apply NoDup_remove_1. }
  assert (Hin : forall kv, In kv reg' -> In kv (registry page)).
  { intros kv. apply JSMap.delete_In. }
  assert (Hkeys : map fst reg' = filter (fun k => negb (streq k fileId)) (map fst (registry page))).
  { apply JSMap.keys_delete, Hwf. }
  assert (Hkeys' : map fst res' = filter (fun k => negb (streq k fileId)) (map fst (results page))).
  { apply JSMap.keys_delete, R1. }
  split; [|split].
  - split; [exact Hidle|].
    split.
    { split; [apply Hsub, Hwf|]. destruct Hwf as [_ Hid].
      rewrite Forall_forall in *. intros kv H. now apply Hid, Hin. }
    split; [apply (Hsub _ (fun kv => (FileObj.name (snd kv), FileObj.size (snd kv)))), Hdist|].
    split.
    { unfold accepted in *. rewrite Forall_forall in *. intros kv H. now apply Hacc, Hin. }
    split; [apply (Hsub _ (fun kv => FileObj.outputName (snd kv))), Hnamed|].
    split; [|split].
    + rewrite Hkeys'. now apply NoDup_filter.
    + rewrite Hkeys, Hkeys'. intros k Hk. apply filter_In in Hk. apply filter_In.
      destruct Hk as [Hk Hne]. split; [now apply R2|exact Hne].
    + rewrite Forall_forall in *. intros kv H. apply R3. revert H. apply JSMap.delete_In.
  - intros key. unfold reg'. destruct (streq fileId key) eqn:Ek.
    + apply streq_true in Ek. subst key. apply JSMap.get_delete_same, Hwf.
    + apply streq_false in Ek. now apply JSMap.get_delete_other.
  - intros key. unfold res'. destruct (streq fileId key) eqn:Ek.
    + apply streq_true in Ek. subst key. apply JSMap.get_delete_same, R1.
    + apply streq_false in Ek. now apply JSMap.get_delete_other.
Qed.

Lemma clearAllFiles_spec page :
  App.isProcessing (app page) = false ->
  consistent (clearAllFiles page) /\
  registry (clearAllFiles page) = [] /\ results (clearAllFiles page) = [].
Proof.
  intros Hidle. unfold clearAllFiles.
  destruct (0 <? List.length (registry page))%nat;
    (split; [|split; reflexivity]);
    (split; [exact Hidle|]); repeat split; try constructor; intros k [].
Qed.

(** *** A run of [startProcessing] *)

Lemma fold_emit_results (A : Type) (e : A -> Event) (l : list A) : forall st,
  App.processedResults (fold_left (fun st x => App.emit (e x) st) l st)
  = App.processedResults st /\
  App.selectedFiles (fold_left (fun st x => App.emit (e x) st) l st)
  = App.selectedFiles st /\
  App.isProcessing (fold_left (fun st x => App.emit (e x) st) l st)
  = App.isProcessing st.
Proof.
  induction l as [|x l IH]; intros st; cbn [fold_left]; [auto|].
  destruct (IH (App.emit (e x) st)) as (H1 & H2 & H3). now rewrite H1, H2, H3.
Qed.

Lemma handleProcessingComplete_registries st :
  App.processedResults (App.handleProcessingComplete st) = App.processedResults st /\
  App.selectedFiles (App.handleProcessingComplete st) = App.selectedFiles st.
Proof.
  unfold App.handleProcessingComplete.
  destruct (filter _ _) as [|r rs]; [now split|].
  cbn [App.emit App.processedResults App.selectedFiles].
  destruct (fold_emit_results addResultItem (r :: rs) st) as (H1 & H2 & _). now split.
Qed.

Lemma outcome_names fileObj result :
  App.outcome localeCompare generateAsync fileObj = Some (Ok result) ->
  ConversionResult.fileName result = FileObj.outputName fileObj /\
  ConversionResult.originalName result = FileObj.name fileObj.
Proof.
  unfold App.outcome.
  destruct (negb (ParseResult.success _)); [discriminate|].
  destruct (ParseResult.images _) as [|image rest]; [discriminate|].
  destruct (ZipGenerator.generateZipFromImages generateAsync (image :: rest))
    as [[zipBlob|message]|]; try discriminate.
  intros H. injection H as <-. cbn. auto.
Qed.

Lemma Forall2_combine_In (A B : Type) (R : A -> B -> Prop) (l : list A) (l' : list B) a b :
  Forall2 R l l' -> In (a, b) (combine l l') -> R a b /\ In a l.
Proof.
  induction 1 as [|x y l l' Hxy H IH]; cbn; [intros []|].
  intros [E|Hin].
  - injection E as <- <-. split; [exact Hxy|now left].
  - destruct (IH Hin). split; [assumption|now right].
Qed.

Lemma fold_store_get fos : forall res key result,
  JSMap.get (fold_left App.store fos res) key = Some result ->
  (exists fileObj, In (fileObj, Ok result) fos /\ FileObj.id fileObj = key) \/
  JSMap.get res key = Some result.
Proof.
  induction fos as [|[f o] fos IH]; intros res key result; cbn [fold_left]; [now right|].
  intros H. apply IH in H. destruct H as [(f' & Hin & Hid)|H].
  { left. exists f'. split; [now right|exact Hid]. }
  unfold App.store in H. cbn [fst snd] in H.
  destruct o as [r|message]; [|now right].
  destruct (streq (FileObj.id f) key) eqn:E.
  - apply streq_true in E. subst key. rewrite JSMap.get_set_same in H. injection H as ->.
    left. exists f. split; [now left|reflexivity].
  - apply streq_false in E. rewrite JSMap.get_set_other in H by exact E. now right.
Qed.

Lemma fold_store_ok reg fos : forall res,
  (forall f o, In (f, o) fos ->
     App.outcome localeCompare generateAsync f = Some o /\ In (FileObj.id f) (map fst reg)) ->
  resultsOk reg res -> resultsOk reg (fold_left App.store fos res).
Proof.
  induction fos as [|[f o] fos IH]; intros res Hfos Hres; cbn [fold_left]; [exact Hres|].
  apply IH; [intros f' o' Hin; apply Hfos; now right|].
  destruct (Hfos f o (or_introl eq_refl)) as [Ho Hk].
  unfold App.store. cbn [fst snd]. destruct o as [r|message]; [|exact Hres].
  destruct Hres as (R1 & R2 & R3). split; [now apply set_keys_NoDup|]. split.
  - rewrite JSMap.keys_set. destruct (JSMap.get res (FileObj.id f)); [exact R2|].
    intros k Hin. apply in_app_or in Hin. destruct Hin as [Hin|[<-|[]]]; [now apply R2|exact Hk].
  - apply Forall_forall. intros kv Hin. apply set_In in Hin.
    destruct Hin as [Hin| ->]; [rewrite Forall_forall in R3; now apply R3|].
    apply App.outcome_success in Ho. cbn [fst snd]. tauto.
Qed.

(** What [consistent] and [current] need of a file. *)
Definition core (f : FileObj.t) : (jsstring * File * jsstring * Z) * jsstring :=
  (identity f, FileObj.outputName f).

Lemma same_core reg reg' :
  same core reg reg' ->
  same identity reg reg' /\ same FileObj.outputName reg reg'.
Proof.
  intros H. split.
  - exact (same_compose (fun c : (jsstring * File * jsstring * Z) * jsstring => fst c) H).
  - exact (same_compose (fun c : (jsstring * File * jsstring * Z) * jsstring => snd c) H).
Qed.

Lemma consistent_same_core page page' :
  App.isProcessing (app page') = false ->
  same core (registry page) (registry page') ->
  resultsOk (registry page') (results page') ->
  consistent page -> consistent page'.
Proof.
  intros Hidle Hsame Hres (_ & Hwf & Hdist & Hacc & Hnamed & _).
  destruct (same_core Hsame) as [Hi Hn].
  split; [exact Hidle|].
  split; [exact (wf_same Hi Hwf)|].
  split; [exact (distinctFiles_same Hi Hdist)|].
  split; [exact (accepted_same Hi Hacc)|].
  split; [exact (named_same Hn Hnamed)|exact Hres].
Qed.

Lemma startProcessing_spec page :
  consistent page ->
  exists st,
    startProcessing localeCompare generateAsync (app page) = Some st /\
    consistent (withApp st page) /\
    same core (registry page) (registry (withApp st page)) /\
    (current page -> current (withApp st page)).
Proof.
  intros Hc. pose proof Hc as (Hidle & Hwf & Hdist & Hacc & Hnamed & Hres).
  unfold startProcessing. rewrite Hidle.
  fold (registry page).
  destruct (JSMap.values (registry page)) as [|f0 fs] eqn:Efiles.
  { eexists. split; [reflexivity|]. split; [exact Hc|]. split; [apply same_refl|auto]. }
  rewrite <- Efiles. set (files := JSMap.values (registry page)).
  destruct (App.outcomes_exist localeCompare generateAsync files) as [outcomes Hout].
  unfold App.processBatch.
  destruct (@App.processLoop_spec localeCompare generateAsync files outcomes
              (List.length files) 0 0
              (App.emit (updateOverallProgress 0 (List.length files) 0)
                        (setProcessing true (app page))) Hout)
    as (st' & -> & _ & Hresults & Hfiles & _).
  cbn [App.emit setProcessing App.processedResults App.selectedFiles] in Hresults, Hfiles.
  fold (results page) in Hresults. fold (registry page) in Hfiles.
  destruct (handleProcessingComplete_registries st') as [Hr Hf].
  eexists. split; [reflexivity|].
  set (page' := withApp _ page).
  assert (Hreg' : registry page' = fold_left App.finalStatus (combine files outcomes)
                                             (registry page)).
  { unfold page', registry. cbn. now rewrite Hf, Hfiles. }
  assert (Hres' : results page' = fold_left App.store (combine files outcomes) (results page)).
  { unfold page', results. cbn. now rewrite Hr, Hresults. }
  assert (Hsame : same core (registry page) (registry page')).
  { rewrite Hreg'. apply same_fold_finalStatus. reflexivity. }
  assert (Hfo : forall f o, In (f, o) (combine files outcomes) ->
            App.outcome localeCompare generateAsync f = Some o /\
            JSMap.get (registry page) (FileObj.id f) = Some f).
  { intros f o Hin. destruct (@Forall2_combine_In _ _
                (fun f o => App.outcome localeCompare generateAsync f = Some o)
                files outcomes f o Hout Hin) as [Ho Hf']. cbn beta in Ho. split; [exact Ho|].
    apply JSMap.In_get; [apply Hwf|]. now apply wf_In_values. }
  split; [|split; [exact Hsame|]].
  - apply (consistent_same_core (page := page)); [reflexivity|exact Hsame| |exact Hc].
    rewrite Hres'. apply fold_store_ok.
    + intros f o Hin. destruct (Hfo f o Hin) as [Ho Hg]. split; [exact Ho|].
      rewrite (same_keys Hsame). apply JSMap.get_In in Hg.
      apply (in_map fst) in Hg. exact Hg.
    + exact (resultsOk_same Hsame Hres).
  - intros Hcur key result Hget. rewrite Hres' in Hget.
    assert (Hold : exists f, JSMap.get (registry page) key = Some f /\
                     ConversionResult.fileName result = FileObj.outputName f /\
                     ConversionResult.originalName result = FileObj.name f).
    { apply fold_store_get in Hget. destruct Hget as [(f & Hin & <-)|Hget].
      - destruct (Hfo f _ Hin) as [Ho Hg]. exists f. split; [exact Hg|].
        now apply outcome_names.
      - now apply Hcur. }
    destruct Hold as (f & Hg & Hn & Ho).
    destruct (same_get key Hsame Hg) as (f' & Hg' & Hcore).
    exists f'. split; [exact Hg'|]. unfold core, identity in Hcore.
    injection Hcore as _ _ En _ Eo. split; congruence.
Qed.

(** *** Sequences of actions *)

Definition isSelect (action : Action) : bool :=
  match action with Select _ => true | _ => false end.

Lemma run_app actions actions' page :
  run localeCompare generateAsync generateId (actions ++ actions') page =
  match run localeCompare generateAsync generateId actions page with
  | None => None
  | Some page => run localeCompare generateAsync generateId actions' page
  end.
Proof.
  revert page. induction actions as [|a l IH]; intros page; [reflexivity|].
  rewrite <- app_comm_cons. cbn [run].
  destruct (act localeCompare generateAsync generateId a page); [apply IH|reflexivity].
Qed.

Lemma current_empty page : results page = [] -> current page.
Proof. intros H key result. rewrite H. discriminate. Qed.

Lemma act_spec action page :
  consistent page ->
  exists page',
    act localeCompare generateAsync generateId action page = Some page' /\
    consistent page' /\
    (isSelect action = true -> results page' = results page) /\
    (isSelect action = false -> current page -> current page').
Proof.
  intros Hc. destruct action as [files|fileId| |]; cbn [act isSelect].
  - destruct (handleFileSelect_spec files Hc) as (page' & -> & Hc' & _ & Hres & _).
    exists page'. split; [reflexivity|]. split; [exact Hc'|]. split; [auto|discriminate].
  - destruct (removeFile_spec fileId Hc) as (Hc' & Hreg & Hres).
    eexists. split; [reflexivity|]. split; [exact Hc'|]. split; [discriminate|].
    intros _ Hcur key result Hget. rewrite Hres in Hget. rewrite Hreg.
    destruct (streq fileId key); [discriminate|]. now apply Hcur.
  - destruct (clearAllFiles_spec page) as (Hc' & _ & Hres); [apply Hc|].
    eexists. split; [reflexivity|]. split; [exact Hc'|]. split; [discriminate|].
    intros _ _. now apply current_empty.
  - destruct (startProcessing_spec Hc) as (st & -> & Hc' & _ & Hcur).
    eexists. split; [reflexivity|]. split; [exact Hc'|]. split; [discriminate|auto].
Qed.

Lemma run_consistent actions : forall page,
  consistent page ->
  exists page',
    run localeCompare generateAsync generateId actions page = Some page' /\ consistent page'.
Proof.
  induction actions as [|a l IH]; intros page Hc; cbn [run]; [now exists page|].
  destruct (act_spec a Hc) as (page1 & -> & Hc1 & _). now apply IH.
Qed.

Lemma run_selects selections : forall page,
  consistent page -> results page = [] ->
  exists page',
    run localeCompare generateAsync generateId (map Select selections) page = Some page' /\
    consistent page' /\ results page' = [].
Proof.
  induction selections as [|files l IH]; intros page Hc Hres; cbn [run map]; [now exists page|].
  destruct (act_spec (Select files) Hc) as (page1 & -> & Hc1 & Hr & _).
  apply IH; [exact Hc1|]. now rewrite Hr.
Qed.

Lemma run_current actions : forall page,
  forallb (fun action => negb (isSelect action)) actions = true ->
  consistent page -> current page ->
  exists page',
    run localeCompare generateAsync generateId actions page = Some page' /\
    consistent page' /\ current page'.
Proof.
  induction actions as [|a l IH]; intros page Hsel Hc Hcur; cbn [run]; [now exists page|].
  cbn [forallb] in Hsel. apply andb_prop in Hsel. destruct Hsel as [Ha Hl].
  apply negb_true_iff in Ha.
  destruct (act_spec a Hc) as (page1 & -> & Hc1 & _ & Hcur1).
  apply IH; auto.
Qed.

(** The session: selections of files, then actions none of which is a
    selection. *)
Lemma run_session selections later :
  forallb (fun action => negb (isSelect action)) later = true ->
  exists page,
    run localeCompare generateAsync generateId (map Select selections ++ later) init
      = Some page /\
    consistent page /\ current page.
Proof.
  intros Hlater. rewrite run_app.
  destruct (run_selects selections consistent_init eq_refl) as (page0 & -> & Hc0 & Hr0).
  apply run_current; [exact Hlater|exact Hc0|now apply current_empty].
Qed.

Lemma consistent_success page :
  consistent page ->
  filter ConversionResult.success (JSMap.values (results page)) = JSMap.values (results page).
Proof.
  intros (_ & _ & _ & _ & _ & _ & _ & R3).
  apply forallb_filter_id, forallb_forall. intros r Hin.
  unfold JSMap.values in Hin. apply in_map_iff in Hin. destruct Hin as (kv & <- & Hin).
  rewrite Forall_forall in R3. now apply R3.
Qed.

Lemma current_names page :
  consistent page -> current page ->
  NoDup (map ConversionResult.fileName (JSMap.values (results page))).
Proof.
  intros (_ & Hwf & _ & _ & Hnamed & R1 & _ & _) Hcur.
  unfold JSMap.values. rewrite map_map.
  apply NoDup_map_NoDup_ForallPairs; [|now apply NoDup_keys_NoDup].
  intros [k1 r1] [k2 r2] H1 H2 E. cbn [snd] in E.
  pose proof (JSMap.In_get _ _ _ R1 H1) as G1.
  pose proof (JSMap.In_get _ _ _ R1 H2) as G2.
  destruct (Hcur _ _ G1) as (f1 & F1 & N1 & _).
  destruct (Hcur _ _ G2) as (f2 & F2 & N2 & _).
  apply JSMap.get_In in F1, F2.
  assert (Ekv : (k1, f1) = (k2, f2)).
  { apply (NoDup_map_inj (fun kv => FileObj.outputName (snd kv)) _ _ _ Hnamed F1 F2).
    cbn [snd]. congruence. }
  injection Ekv as -> _. rewrite G1 in G2. now injection G2 as ->.
Qed.

Lemma find_fileName (l : list ConversionResult.t) result :
  NoDup (map ConversionResult.fileName l) -> In result l ->
  find (fun r => streq (ConversionResult.fileName r) (ConversionResult.fileName result)) l
  = Some result.
Proof.
  induction l as [|x l IH]; cbn [find map]; intros Hnd Hin; [contradiction|].
  apply NoDup_cons_iff in Hnd. destruct Hnd as [Hx Hnd].
  destruct (streq (ConversionResult.fileName x) (ConversionResult.fileName result)) eqn:E.
  - apply streq_true in E. destruct Hin as [->|Hin]; [reflexivity|].
    exfalso. apply Hx. rewrite E. now apply in_map.
  - destruct Hin as [->|Hin]; [now rewrite streq_refl in E|]. now apply IH.
Qed.

End Invariants.

(** *** What a session of actions that run in one piece keeps *)

(** X20. A selection of files, at any point of a session, leaves the
    stored results as they are and removes no id from the list; when at
    least one selected file is accepted, all the files of the list, the
    earlier ones too, are named anew: the output names of the list are then
    exactly the names of the sequence 1..N, N the number of files of the
    list, each once. *)
Theorem handleFileSelect_renumbers
    (localeCompare : jsstring -> jsstring -> Z) (generateAsync : JSZip.t -> Result Blob)
    (generateId : nat -> jsstring) (actions : list Action) (files : list UserFile.t) :
  exists before page,
    run localeCompare generateAsync generateId actions init = Some before /\
    handleFileSelect localeCompare generateId files before = Some page /\
    results page = results before /\
    incl (map fst (registry before)) (map fst (registry page)) /\
    (fst (Utils.validateFiles files) <> [] ->
     Permutation (map FileObj.outputName (JSMap.values (registry page)))
                 (sequenceNames (List.length (JSMap.values (registry page))))).
Proof.
  destruct (run_consistent localeCompare generateAsync generateId actions consistent_init)
    as (before & Hrun & Hc).
  destruct (handleFileSelect_spec localeCompare generateId files Hc)
    as (page & Hsel & _ & Hincl & Hres & Hnames).
  exists before, page. repeat (split; [assumption|]).
  intros Hvalid. unfold JSMap.values. rewrite map_map, length_map. now apply Hnames.
Qed.

(** X21. Removing a file, at any point of a session, removes the file of
    that id from the list and its result from the stored results, and
    leaves every other file and every other result as it is; for an id
    that is not in the list, nothing changes. *)
Theorem removeFile_removes_file_and_result
    (localeCompare : jsstring -> jsstring -> Z) (generateAsync : JSZip.t -> Result Blob)
    (generateId : nat -> jsstring) (actions : list Action) (fileId : jsstring) :
  exists before,
    run localeCompare generateAsync generateId actions init = Some before /\
    let page := removeFile fileId before in
    (forall key,
       JSMap.get (registry page) key =
       if streq fileId key then None else JSMap.get (registry before) key) /\
    (forall key,
       JSMap.get (results page) key =
       if streq fileId key then None else JSMap.get (results before) key) /\
    (JSMap.get (registry before) fileId = None -> page = before).
Proof.
  destruct (run_consistent localeCompare generateAsync generateId actions consistent_init)
    as (before & Hrun & Hc).
  exists before. split; [exact Hrun|].
  destruct (removeFile_spec fileId Hc) as (_ & Hreg & Hres).
  split; [exact Hreg|]. split; [exact Hres|].
  intros Hnone. unfold removeFile. now rewrite Hnone.
Qed.

(** X23. In a session that selects files and then removes files, clears
    the list and starts conversions in any order, the download button of a
    stored result, which calls [downloadSingleResult] with the output name
    of the result, downloads the bytes of that very result under that name;
    a name that no stored result carries downloads nothing and shows an
    error. *)
Theorem downloadSingleResult_finds_result
    (localeCompare : jsstring -> jsstring -> Z) (generateAsync : JSZip.t -> Result Blob)
    (generateId : nat -> jsstring)
    (selections : list (list UserFile.t)) (later : list Action) :
  forallb (fun action => negb (isSelect action)) later = true ->
  exists page,
    run localeCompare generateAsync generateId (map Select selections ++ later) init
      = Some page /\
    (forall key result, JSMap.get (results page) key = Some result ->
       downloadSingleResult (ConversionResult.fileName result) (app page) =
       App.emit (showNotification (DownloadStarted (ConversionResult.fileName result))
                                  Notification.success)
         (App.emit (downloadBlob (ConversionResult.blob result)
                                 (ConversionResult.fileName result)) (app page))) /\
    (forall fileName,
       ~ In fileName (map ConversionResult.fileName (JSMap.values (results page))) ->
       downloadSingleResult fileName (app page) =
       App.emit (showNotification (Text "找不到指定的文件") Notification.error) (app page)).
Proof.
  intros Hlater.
  destruct (run_session localeCompare generateAsync generateId selections later Hlater)
    as (page & Hrun & Hc & Hcur).
  exists page. split; [exact Hrun|]. split.
  - intros key result Hget. unfold downloadSingleResult. fold (results page).
    rewrite find_fileName; [reflexivity|now apply current_names|].
    unfold JSMap.values. apply JSMap.get_In in Hget.
    apply (in_map snd) in Hget. exact Hget.
  - intros fileName Hnot. unfold downloadSingleResult. fold (results page).
    destruct (find _ (JSMap.values (results page))) as [r|] eqn:E; [|reflexivity].
    apply find_some in E. destruct E as [Hin E]. apply streq_true in E.
    exfalso. apply Hnot. rewrite <- E. now apply in_map.
Qed.

End Lifecycle.

(* ================================================================== *)
(** ** js/utils.js: the page while a conversion is under way *)
(* ================================================================== *)

(** [startProcessing] is asynchronous: it is suspended while a book is
    parsed, while its archive is built and during the pause after each
    file, and the page goes on answering the user meanwhile. Only a second
    start is refused while [isProcessing] is set; files can be selected
    and removed and the list cleared at each suspension. [Lifecycle.act]
    runs a conversion in one piece; here it runs from suspension to
    suspension, with the actions of the user in between.

    [handleFileSelect] is asynchronous too, but it reads and changes
    nothing of the page before its files are validated, and from there it
    runs to the end of [addFiles], the listeners of [filesAdded] included,
    in one piece: a selection is a step at the moment its files are added.
    Its last notification, issued when [addFiles] has returned, is
    recorded with that step. *)
Module Processing.
Import JS.
Import Lifecycle.

(** The files a conversion works on are the objects the list held when it
    started, not copies. An entry keeps the fields of its object as they
    are now, and whether the object is still the one the list holds under
    its id ([attached]): a removal, the clearing of the list and a new
    object stored under the same id detach it for good, and what changes
    an object ([updateOutputNames], [updateFileStatus]) finds it through
    the list, so that it reaches the attached objects only. *)
Record Entry := {
  fileObj : FileObj.t;
  attached : bool
}.

(** Where [processBatch] is suspended in the round of a file. *)
Inductive Suspension :=
| parsing                                     (* [await this.epubParser.parseEpub(...)] *)
| zipping (images : list ExtractedImage.t)    (* [await this.zipGenerator.generateZipFromImages(...)] *)
| pausing.                                    (* [await Utils.delay(50)] *)

(** A call of [processBatch] between two of its suspensions: the file of
    the round, the files after it and the three counters. *)
Record Conversion := {
  inRound : Entry;
  rest : list Entry;
  suspension : Suspension;
  totalFiles : nat;
  completedFiles : nat;
  successfulFiles : nat
}.

(** The page and the conversion under way, if there is one. *)
Record Running := {
  page : Page;
  conversion : option Conversion
}.

Definition started : Running := {| page := init; conversion := None |}.

Definition entries (conversion : option Conversion) : list Entry :=
  match conversion with
  | Some c => inRound c :: rest c
  | None => []
  end.

Definition detach (e : Entry) : Entry := {| fileObj := fileObj e; attached := false |}.

(** The entry after the list has changed: an attached object is read in
    the list, and it is detached when the list has nothing under its id. *)
Definition refresh (files : JSMap.t FileObj.t) (e : Entry) : Entry :=
  if attached e then
    match JSMap.get files (FileObj.id (fileObj e)) with
    | Some f => {| fileObj := f; attached := true |}
    | None => detach e
    end
  else e.

(** The entries after a step: [replaced] are the ids under which the step
    has stored new objects. *)
Definition settleEntry (files : JSMap.t FileObj.t) (replaced : list jsstring) (e : Entry)
    : Entry :=
  refresh files
    (if existsb (streq (FileObj.id (fileObj e))) replaced then detach e else e).

Definition settle (files : JSMap.t FileObj.t) (replaced : list jsstring) (c : Conversion)
    : Conversion :=
  {| inRound := settleEntry files replaced (inRound c);
     rest := map (settleEntry files replaced) (rest c);
     suspension := suspension c;
     totalFiles := totalFiles c;
     completedFiles := completedFiles c;
     successfulFiles := successfulFiles c |}.

Section Interleaving.
Variable localeCompare : jsstring -> jsstring -> Z.
Variable generateAsync : JSZip.t -> Result Blob.
Variable generateId : nat -> jsstring.

(** The beginning of a round of [processBatch], up to the [await] of the
    parser. *)
Definition beginFile (e : Entry) (st : App.State) : App.State :=
  let fileId := FileObj.id (fileObj e) in
  let st := App.emit (updateFileProgressItem fileId processing "正在解析EPUB...") st in
  App.setFileStatus fileId processing None st.

(** The end of a round: the counters and the overall progress, up to the
    pause. *)
Definition endRound (converted : bool) (c : Conversion) (st : App.State)
    : option Conversion * App.State :=
  let successfulFiles := if converted then S (successfulFiles c) else successfulFiles c in
  let completedFiles := S (completedFiles c) in
  (Some {| inRound := inRound c;
           rest := rest c;
           suspension := pausing;
           totalFiles := totalFiles c;
           completedFiles := completedFiles;
           successfulFiles := successfulFiles |},
   App.emit (updateOverallProgress completedFiles (totalFiles c) successfulFiles) st).

(** [processBatch] resumes and runs to its next suspension; after the last
    pause [startProcessing] resumes in its turn and runs to its end.
    [None]: a naming loop that does not end. *)
Definition resume (c : Conversion) (st : App.State)
    : option (option Conversion * App.State) :=
  let fileObj := fileObj (inRound c) in
  let fileId := FileObj.id fileObj in
  match suspension c with
  | parsing =>
      let parseResult := EpubParser.parseEpub localeCompare (FileObj.file fileObj) in
      if negb (ParseResult.success parseResult) then
        Some (endRound false c
                (App.failFile fileId
                   (EpubParser.messageOr
                      (match ParseResult.error parseResult with Some m => m | None => "" end)
                      "解析失败") st))
      else
        match ParseResult.images parseResult with
        | [] => Some (endRound false c (App.failFile fileId "未找到图片文件" st))
        | images =>
            Some (Some {| inRound := inRound c;
                          rest := rest c;
                          suspension := zipping images;
                          totalFiles := totalFiles c;
                          completedFiles := completedFiles c;
                          successfulFiles := successfulFiles c |},
                  App.emit (updateFileProgressItem fileId processing "正在生成ZIP...") st)
        end
  | zipping images =>
      match ZipGenerator.generateZipFromImages generateAsync images with
      | None => None
      | Some (Throw message) => Some (endRound false c (App.failFile fileId message st))
      | Some (Ok zipBlob) =>
          let result :=
            {| ConversionResult.fileId := fileId;
               ConversionResult.fileName := FileObj.outputName fileObj;
               ConversionResult.originalName := FileObj.name fileObj;
               ConversionResult.blob := zipBlob;
               ConversionResult.size := List.length zipBlob;
               ConversionResult.imageCount := List.length images;
               ConversionResult.success := true |} in
          let st := App.setResult fileId result st in
          let st := App.emit (updateFileProgressItem fileId completed "处理完成") st in
          let st := App.setFileStatus fileId completed None st in
          Some (endRound true c st)
      end
  | pausing =>
      match rest c with
      | next :: rest =>
          Some (Some {| inRound := next;
                        rest := rest;
                        suspension := parsing;
                        totalFiles := totalFiles c;
                        completedFiles := completedFiles c;
                        successfulFiles := successfulFiles c |},
                beginFile next st)
      | [] => Some (None, setProcessing false (App.handleProcessingComplete st))
      end
  end.

(** [startProcessing], up to its first suspension. *)
Definition begin (r : Running) : Running :=
  let st := app (page r) in
  if App.isProcessing st then
    {| page := withApp (App.emit (showNotification (Text "正在处理中，请稍候...")
                                                   Notification.warning) st) (page r);
       conversion := conversion r |}
  else
    match JSMap.values (App.selectedFiles st) with
    | [] =>
        {| page := withApp (App.emit (showNotification (Text "请先选择EPUB文件")
                                                       Notification.warning) st) (page r);
           conversion := conversion r |}
    | first :: others =>
        let entry := fun f => {| fileObj := f; attached := true |} in
        let totalFiles := List.length (first :: others) in
        let st := setProcessing true st in
        let st := App.emit (updateOverallProgress 0 totalFiles 0) st in
        let st := beginFile (entry first) st in
        {| page := withApp st (page r);
           conversion :=
             Some (settle (App.selectedFiles st) []
                     {| inRound := entry first;
                        rest := map entry others;
                        suspension := parsing;
                        totalFiles := totalFiles;
                        completedFiles := 0;
                        successfulFiles := 0 |}) |}
    end.

(** What happens next on the page: the user acts, or the conversion
    resumes. *)
Inductive Step :=
| User (action : Action)
| Resume.

Definition after (page' : Page) (replaced : list jsstring) (r : Running) : Running :=
  {| page := page';
     conversion := option_map (settle (registry page') replaced) (conversion r) |}.

Definition next (step : Step) (r : Running) : option Running :=
  match step with
  | User (Select files) =>
      match handleFileSelect localeCompare generateId files (page r) with
      | None => None
      | Some page' =>
          let created := (generatedIds page' - generatedIds (page r))%nat in
          Some (after page' (map generateId (seq (generatedIds (page r)) created)) r)
      end
  | User (Remove fileId) => Some (after (removeFile fileId (page r)) [] r)
  | User Clear => Some (after (clearAllFiles (page r)) [] r)
  | User Start => Some (begin r)
  | Resume =>
      match conversion r with
      | None => Some r
      | Some c =>
          match resume c (app (page r)) with
          | None => None
          | Some (c', st) =>
              let page' := withApp st (page r) in
              Some {| page := page';
                      conversion := option_map (settle (registry page') []) c' |}
          end
      end
  end.

Fixpoint play (steps : list Step) (r : Running) : option Running :=
  match steps with
  | [] => Some r
  | step :: steps =>
      match next step r with
      | None => None
      | Some r => play steps r
      end
  end.

(** *** What every step keeps *)

Lemma same_sym (B : Type) (g : FileObj.t -> B) reg reg' : same g reg reg' -> same g reg' reg.
Proof. unfold same. intros H. now symmetry. Qed.

Lemma core_status id file name size s s' outputName progress e e' :
  core (FileObj.Build_t id file name size s outputName progress e) =
  core (FileObj.Build_t id file name size s' outputName progress e').
Proof. reflexivity. Qed.

Lemma same_core_updateFileStatus fileId status data reg :
  same core reg (App.updateFileStatus fileId status data reg).
Proof. apply same_updateFileStatus. intros. apply core_status. Qed.

(** The registry invariants of a page. *)
Definition tidy (reg : JSMap.t FileObj.t) : Prop :=
  wf reg /\ distinctFiles reg /\ accepted reg /\ named reg.

Lemma tidy_same reg reg' : same core reg reg' -> tidy reg -> tidy reg'.
Proof.
  intros H (Hwf & Hdist & Hacc & Hnamed). destruct (same_core H) as [Hi Hn].
  split; [exact (wf_same Hi Hwf)|].
  split; [exact (distinctFiles_same Hi Hdist)|].
  split; [exact (accepted_same Hi Hacc)|exact (named_same Hn Hnamed)].
Qed.

(** Every stored result is a success, stored under the id it carries, and
    the keys of the results are pairwise distinct. *)
Definition sound (res : JSMap.t ConversionResult.t) : Prop :=
  NoDup (map fst res) /\
  Forall (fun kv => ConversionResult.success (snd kv) = true
                    /\ ConversionResult.fileId (snd kv) = fst kv) res.

Definition orderly (r : Running) : Prop :=
  App.isProcessing (app (page r))
    = (match conversion r with Some _ => true | None => false end) /\
  tidy (registry (page r)) /\
  sound (results (page r)).

Lemma orderly_started : orderly started.
Proof.
  split; [reflexivity|]. split.
  - repeat split; constructor.
  - split; constructor.
Qed.

Lemma sound_set res key result :
  sound res -> ConversionResult.success result = true ->
  ConversionResult.fileId result = key ->
  sound (JSMap.set res key result).
Proof.
  intros [Hnd Hall] Hs Hk. split; [now apply set_keys_NoDup|].
  apply Forall_forall. intros kv Hin. apply set_In in Hin.
  destruct Hin as [Hin| ->]; [rewrite Forall_forall in Hall; now apply Hall|].
  now split.
Qed.

Lemma get_delete_Some (V : Type) (m : JSMap.t V) key k v :
  NoDup (map fst m) -> JSMap.get (JSMap.delete m key) k = Some v ->
  k <> key /\ JSMap.get m k = Some v.
Proof.
  intros Hnd H. destruct (streq key k) eqn:E.
  - apply streq_true in E. subst k. rewrite JSMap.get_delete_same in H by exact Hnd.
    discriminate.
  - apply streq_false in E. rewrite JSMap.get_delete_other in H by exact E.
    split; [congruence|exact H].
Qed.

Lemma sound_delete res key : sound res -> sound (JSMap.delete res key).
Proof.
  intros [Hnd Hall]. split.
  - rewrite JSMap.keys_delete by exact Hnd. now apply NoDup_filter.
  - rewrite Forall_forall in *. intros kv H. apply Hall. revert H. apply JSMap.delete_In.
Qed.

Lemma tidy_delete reg key : tidy reg -> tidy (JSMap.delete reg key).
Proof.
  intros (Hwf & Hdist & Hacc & Hnamed).
  destruct (JSMap.get reg key) as [old|] eqn:E.
  2:{ rewrite delete_absent by exact E. repeat split; try assumption; apply Hwf. }
  destruct (@delete_split _ reg key old E) as (l1 & l2 & Hl & Hd).
  assert (Hsub : forall (B : Type) (g : jsstring * FileObj.t -> B),
            NoDup (map g reg) -> NoDup (map g (JSMap.delete reg key))).
  { intros B g. rewrite Hl at 1. rewrite Hd, !map_app. cbn [map]. apply NoDup_remove_1. }
  assert (Hin : forall kv, In kv (JSMap.delete reg key) -> In kv reg).
  { intros kv. apply JSMap.delete_In. }
  split; [|split; [|split]].
  - split; [apply Hsub, Hwf|]. destruct Hwf as [_ Hid].
    rewrite Forall_forall in *. intros kv H. now apply Hid, Hin.
  - apply (Hsub _ (fun kv => (FileObj.name (snd kv), FileObj.size (snd kv)))), Hdist.
  - unfold accepted in *. rewrite Forall_forall in *. intros kv H. now apply Hacc, Hin.
  - apply (Hsub _ (fun kv => FileObj.outputName (snd kv))), Hnamed.
Qed.

Lemma tidy_nil : tidy [].
Proof. repeat split; constructor. Qed.

Lemma sound_nil : sound [].
Proof. split; constructor. Qed.

(** A selection keeps the invariants of the list, whatever the results
    and whether a conversion is under way. *)
Lemma handleFileSelect_keeps files page :
  tidy (registry page) ->
  exists page',
    handleFileSelect localeCompare generateId files page = Some page' /\
    tidy (registry page') /\
    results page' = results page /\
    App.isProcessing (app page') = App.isProcessing (app page).
Proof.
  intros (Hwf & Hdist & Hacc & Hnamed).
  unfold handleFileSelect.
  destruct files as [|file0 files0].
  { exists page. repeat split; auto; apply Hwf. }
  set (files := file0 :: files0).
  destruct (Utils.validateFiles files) as [valid invalid] eqn:Ev.
  assert (Hvalid : Forall (fun file => Utils.validateEpubFile file = true) valid).
  { assert (E : valid = fst (Utils.validateFiles files)) by now rewrite Ev.
    unfold Utils.validateFiles in E. cbn [fst] in E.
    rewrite (Utils.map_fst_filter_snd Utils.validateEpubFile Utils.validateEpubFile) in E
      by reflexivity.
    rewrite E. apply Forall_forall. intros f Hf. now apply filter_In in Hf. }
  set (page0 := match invalid with
                | [] => page
                | _ => notify (possiblyInvalid (map UserFile.name invalid)) page
                end).
  assert (Hp0 : app page0 = app page) by (unfold page0; now destruct invalid).
  assert (Hr0 : registry page0 = registry page) by (unfold registry; now rewrite Hp0).
  assert (Hs0 : results page0 = results page) by (unfold results; now rewrite Hp0).
  destruct valid as [|v0 vs].
  { exists page0. rewrite Hr0, Hs0, Hp0. repeat split; auto; apply Hwf. }
  set (valid := v0 :: vs) in *. unfold addFiles.
  destruct (@addLoop_spec generateId valid page0 Hvalid)
    as (Hwf1 & Hdist1 & Hacc1 & Hincl1 & Hres1 & Hidle1);
    try (rewrite Hr0; assumption).
  set (page1 := addLoop generateId valid page0) in *.
  destruct (handleFilesAdded_spec localeCompare page1 Hwf1)
    as (page2 & -> & Hsame & Hperm & Hres2 & _ & _ & Hidle2).
  exists (notify (added (List.length valid)) page2).
  change (app (notify (added (List.length valid)) page2)) with (app page2).
  change (registry (notify (added (List.length valid)) page2)) with (registry page2).
  change (results (notify (added (List.length valid)) page2)) with (results page2).
  split; [reflexivity|]. split; [|split].
  - split; [exact (wf_same Hsame Hwf1)|].
    split; [exact (distinctFiles_same Hsame Hdist1)|].
    split; [exact (accepted_same Hsame Hacc1)|].
    unfold named. apply (Permutation_NoDup (Permutation_sym Hperm)), sequenceNames_NoDup.
  - now rewrite Hres2, Hres1, Hs0.
  - now rewrite Hidle2, Hidle1, Hp0.
Qed.

Lemma removeFile_keeps fileId page :
  tidy (registry page) -> sound (results page) ->
  tidy (registry (removeFile fileId page)) /\
  sound (results (removeFile fileId page)) /\
  App.isProcessing (app (removeFile fileId page)) = App.isProcessing (app page).
Proof.
  intros Ht Hs. unfold removeFile.
  destruct (JSMap.get (registry page) fileId) as [f|]; [|auto].
  split; [apply tidy_delete, Ht|]. split; [apply sound_delete, Hs|reflexivity].
Qed.

Lemma clearAllFiles_keeps page :
  registry (clearAllFiles page) = [] /\ results (clearAllFiles page) = [] /\
  App.isProcessing (app (clearAllFiles page)) = App.isProcessing (app page).
Proof.
  unfold clearAllFiles. now destruct (0 <? List.length (registry page))%nat.
Qed.

(** *** One resumption *)

Lemma resume_total c st : exists c' st', resume c st = Some (c', st').
Proof.
  unfold resume. destruct (suspension c) as [|images|].
  - destruct (negb (ParseResult.success _)); [unfold endRound; eauto|].
    destruct (ParseResult.images _); [unfold endRound; eauto|eauto].
  - destruct (ZipGenerator.generateZipFromImages_total generateAsync images)
      as [[zipBlob|message] ->]; unfold endRound; eauto.
  - destruct (rest c); eauto.
Qed.

(** What a resumption does to the page: the status of files apart, the
    list is as it was; one result at most is stored, the result of the
    file of the round, with the names of that file; and the conversion
    goes on with the files it had. *)
Lemma resume_spec c st c' st' :
  resume c st = Some (c', st') ->
  same core (App.selectedFiles st) (App.selectedFiles st') /\
  App.isProcessing st'
    = (match c' with Some _ => App.isProcessing st | None => false end) /\
  (forall e, In e (entries c') -> In e (inRound c :: rest c)) /\
  (App.processedResults st' = App.processedResults st \/
   exists result,
     App.processedResults st'
       = JSMap.set (App.processedResults st) (FileObj.id (fileObj (inRound c))) result /\
     ConversionResult.fileId result = FileObj.id (fileObj (inRound c)) /\
     ConversionResult.fileName result = FileObj.outputName (fileObj (inRound c)) /\
     ConversionResult.originalName result = FileObj.name (fileObj (inRound c)) /\
     ConversionResult.success result = true).
Proof.
  unfold resume.
  assert (Hfail : forall fileId message,
            same core (App.selectedFiles st)
                 (App.selectedFiles (App.failFile fileId message st)))
    by (intros; apply same_core_updateFileStatus).
  destruct (suspension c) as [|images|].
  - destruct (negb (ParseResult.success _)).
    { intros H. injection H as <- <-. cbn [entries inRound rest].
      split; [apply Hfail|]. split; [reflexivity|]. split; [auto|now left]. }
    destruct (ParseResult.images _) as [|image images'].
    { intros H. injection H as <- <-. cbn [entries inRound rest].
      split; [apply Hfail|]. split; [reflexivity|]. split; [auto|now left]. }
    intros H. injection H as <- <-. cbn [entries inRound rest].
    split; [apply same_refl|]. split; [reflexivity|]. split; [auto|now left].
  - destruct (ZipGenerator.generateZipFromImages generateAsync images)
      as [[zipBlob|message]|]; [| |discriminate].
    + intros H. injection H as <- <-. cbn [entries inRound rest].
      split; [apply same_core_updateFileStatus|]. split; [reflexivity|].
      split; [auto|]. right. eexists. split; [reflexivity|]. cbn. auto.
    + intros H. injection H as <- <-. cbn [entries inRound rest].
      split; [apply Hfail|]. split; [reflexivity|]. split; [auto|now left].
  - destruct (rest c) as [|next others] eqn:E.
    + intros H. injection H as <- <-.
      destruct (handleProcessingComplete_registries st) as [Hr Hf].
      cbn [setProcessing App.selectedFiles App.processedResults App.isProcessing entries].
      rewrite Hf, Hr. split; [apply same_refl|]. split; [reflexivity|].
      split; [intros e []|now left].
    + intros H. injection H as <- <-. cbn [entries inRound rest].
      split; [apply same_core_updateFileStatus|]. split; [reflexivity|].
      split; [|now left]. intros e He. right. exact He.
Qed.

(** *** Whatever the order of the steps *)

Lemma after_orderly page' replaced r :
  orderly r ->
  tidy (registry page') -> sound (results page') ->
  App.isProcessing (app page') = App.isProcessing (app (page r)) ->
  orderly (after page' replaced r).
Proof.
  intros (Hp & _ & _) Ht Hs Hi. split; [|now split].
  cbn [after page conversion]. rewrite Hi, Hp. now destruct (conversion r).
Qed.

Lemma next_orderly step r :
  orderly r -> exists r', next step r = Some r' /\ orderly r'.
Proof.
  intros Ho. pose proof Ho as (Hp & Ht & Hs).
  destruct step as [[files|fileId| |]|]; cbn [next].
  - destruct (@handleFileSelect_keeps files (page r) Ht) as (page' & -> & Ht' & Hr' & Hi').
    eexists. split; [reflexivity|]. apply after_orderly; auto. now rewrite Hr'.
  - destruct (@removeFile_keeps fileId (page r) Ht Hs) as (Ht' & Hs' & Hi').
    eexists. split; [reflexivity|]. now apply after_orderly.
  - destruct (clearAllFiles_keeps (page r)) as (Hr' & Hs' & Hi').
    eexists. split; [reflexivity|]. apply after_orderly; auto.
    + rewrite Hr'. apply tidy_nil.
    + rewrite Hs'. apply sound_nil.
  - eexists. split; [reflexivity|]. unfold begin.
    destruct (App.isProcessing (app (page r))) eqn:E.
    { split; [cbn; now rewrite <- Hp|]. split; assumption. }
    fold (registry (page r)).
    destruct (JSMap.values (registry (page r))) as [|first others].
    { split; [cbn; now rewrite <- Hp|]. split; assumption. }
    split; [reflexivity|]. split; [|exact Hs].
    refine (tidy_same _ Ht). apply same_core_updateFileStatus.
  - destruct (conversion r) as [c|] eqn:Ec; [|exists r; split; [reflexivity|exact Ho]].
    destruct (resume_total c (app (page r))) as (c' & st' & Hr).
    rewrite Hr. eexists. split; [reflexivity|].
    destruct (@resume_spec _ _ _ _ Hr) as (Hsame & Hi & _ & Hres).
    split; [|split].
    + cbn [page conversion withApp app]. rewrite Hi, Hp, ?Ec. now destruct c'.
    + exact (tidy_same Hsame Ht).
    + unfold results. cbn [page withApp app].
      destruct Hres as [->|(result & -> & Hk & _ & _ & Hok)]; [exact Hs|].
      now apply sound_set.
Qed.

Lemma play_orderly steps : forall r,
  orderly r -> exists r', play steps r = Some r' /\ orderly r'.
Proof.
  induction steps as [|step steps IH]; intros r Ho; cbn [play]; [now exists r|].
  destruct (next_orderly step Ho) as (r1 & -> & Ho1). now apply IH.
Qed.

Lemma play_app steps steps' r :
  play (steps ++ steps') r =
  match play steps r with
  | None => None
  | Some r => play steps' r
  end.
Proof.
  revert r. induction steps as [|step steps IH]; intros r; [reflexivity|].
  rewrite <- app_comm_cons. cbn [play].
  destruct (next step r); [apply IH|reflexivity].
Qed.

(** While no conversion is under way, the selections do to the page what
    they do one after the other. *)
Lemma play_selections selections : forall p p',
  run localeCompare generateAsync generateId (map Select selections) p = Some p' ->
  play (map (fun files => User (Select files)) selections) {| page := p; conversion := None |}
  = Some {| page := p'; conversion := None |}.
Proof.
  induction selections as [|files rest IH]; intros p p'; cbn [map run play act next page].
  - intros H. now injection H as <-.
  - destruct (handleFileSelect localeCompare generateId files p) as [p1|]; [|discriminate].
    intros H. cbn [after conversion option_map]. now apply IH.
Qed.

(** *** After the last selection *)

Definition isSelection (step : Step) : bool :=
  match step with
  | User (Select _) => true
  | _ => false
  end.

(** The files of the list, the files of the conversion and the stored
    results are, or are of, files of [listed], with the names they have
    there. *)
Definition fromList (listed : JSMap.t FileObj.t) (r : Running) : Prop :=
  (forall key f, JSMap.get (registry (page r)) key = Some f ->
     exists f0, JSMap.get listed key = Some f0 /\ core f = core f0) /\
  (forall e, In e (entries (conversion r)) ->
     exists f0, JSMap.get listed (FileObj.id (fileObj e)) = Some f0 /\
                core (fileObj e) = core f0) /\
  (forall key result, JSMap.get (results (page r)) key = Some result ->
     exists f0, JSMap.get listed key = Some f0 /\
                ConversionResult.fileName result = FileObj.outputName f0 /\
                ConversionResult.originalName result = FileObj.name f0).

Lemma core_id f f0 : core f = core f0 -> FileObj.id f = FileObj.id f0.
Proof. unfold core, identity. intros H. now injection H. Qed.

Lemma core_names f f0 :
  core f = core f0 ->
  FileObj.outputName f = FileObj.outputName f0 /\ FileObj.name f = FileObj.name f0.
Proof. unfold core, identity. intros H. injection H. auto. Qed.

Lemma settle_fromList listed files replaced c :
  wf listed ->
  (forall key f, JSMap.get files key = Some f ->
     exists f0, JSMap.get listed key = Some f0 /\ core f = core f0) ->
  (forall e, In e (entries c) ->
     exists f0, JSMap.get listed (FileObj.id (fileObj e)) = Some f0 /\
                core (fileObj e) = core f0) ->
  forall e, In e (entries (option_map (settle files replaced) c)) ->
    exists f0, JSMap.get listed (FileObj.id (fileObj e)) = Some f0 /\
               core (fileObj e) = core f0.
Proof.
  intros Hwf Hfiles Hentries e' He'.
  assert (Hin : exists e, In e (entries c) /\ e' = settleEntry files replaced e).
  { destruct c as [c|]; [|contradiction]. cbn [option_map entries settle inRound rest] in He'.
    destruct He' as [<-|He'].
    - exists (inRound c). split; [now left|reflexivity].
    - apply in_map_iff in He'. destruct He' as (e & <- & He).
      exists e. split; [now right|reflexivity]. }
  destruct Hin as (e & He & ->).
  destruct (Hentries e He) as (f0 & Hg & Hc).
  unfold settleEntry.
  set (e1 := if existsb (streq (FileObj.id (fileObj e))) replaced then detach e else e).
  assert (H1 : fileObj e1 = fileObj e) by (unfold e1; now destruct (existsb _ replaced)).
  unfold refresh. rewrite H1.
  destruct (attached e1); [|rewrite H1; now exists f0].
  destruct (JSMap.get files (FileObj.id (fileObj e))) as [f|] eqn:E.
  - cbn [fileObj]. destruct (Hfiles _ _ E) as (f1 & Hg1 & Hc1).
    rewrite Hg in Hg1. injection Hg1 as <-.
    exists f0. split; [|exact Hc1].
    rewrite (@core_id _ _ Hc1). rewrite (@wf_get _ _ _ Hwf Hg). exact Hg.
  - cbn [detach fileObj]. rewrite H1. now exists f0.
Qed.

Lemma fromList_same listed reg reg' :
  same core reg reg' ->
  (forall key f, JSMap.get reg key = Some f ->
     exists f0, JSMap.get listed key = Some f0 /\ core f = core f0) ->
  forall key f, JSMap.get reg' key = Some f ->
    exists f0, JSMap.get listed key = Some f0 /\ core f = core f0.
Proof.
  intros Hsame H key f' Hg.
  destruct (same_get key (@same_sym _ _ _ _ Hsame) Hg) as (f & Hf & Hc).
  destruct (H _ _ Hf) as (f0 & Hg0 & Hc0). exists f0. split; [exact Hg0|congruence].
Qed.

Lemma next_fromList listed step r r' :
  wf listed -> orderly r -> fromList listed r ->
  isSelection step = false -> next step r = Some r' ->
  fromList listed r'.
Proof.
  intros Hwf (Hp & Ht & Hs) (Ha & Hb & Hc) Hsel Hnext.
  destruct step as [[files|fileId| |]|]; cbn [next isSelection] in *; try discriminate.
  - injection Hnext as <-. unfold fromList. cbn [after page conversion].
    assert (Ha' : forall key f, JSMap.get (registry (removeFile fileId (page r))) key = Some f ->
                    exists f0, JSMap.get listed key = Some f0 /\ core f = core f0).
    { intros key f. unfold removeFile.
      destruct (JSMap.get (registry (page r)) fileId); [|apply Ha].
      change (registry (notify _ _)) with (JSMap.delete (registry (page r)) fileId).
      intros H. apply get_delete_Some in H; [|apply Ht]. now apply Ha. }
    split; [exact Ha'|]. split; [now apply settle_fromList|].
    intros key result. unfold removeFile.
    destruct (JSMap.get (registry (page r)) fileId) as [f|]; [|apply Hc].
    change (results (notify _ _)) with (JSMap.delete (results (page r)) (FileObj.id f)).
    intros H. apply get_delete_Some in H; [|apply Hs]. now apply Hc.
  - injection Hnext as <-. unfold fromList. cbn [after page conversion].
    destruct (clearAllFiles_keeps (page r)) as (Hr' & Hs' & _).
    rewrite Hr', Hs'. split; [discriminate|]. split; [|discriminate].
    apply settle_fromList; [exact Hwf|discriminate|exact Hb].
  - injection Hnext as <-. unfold begin.
    destruct (App.isProcessing (app (page r))); [now split|].
    fold (registry (page r)).
    destruct (JSMap.values (registry (page r))) as [|first others] eqn:Ev; [now split|].
    unfold fromList. cbn [page conversion].
    change (registry (withApp _ (page r)))
      with (App.updateFileStatus (FileObj.id first) processing None (registry (page r))).
    change (results (withApp _ (page r))) with (results (page r)).
    assert (Ha' : forall key f,
              JSMap.get (App.updateFileStatus (FileObj.id first) processing None
                           (registry (page r))) key = Some f ->
              exists f0, JSMap.get listed key = Some f0 /\ core f = core f0).
    { apply (@fromList_same listed _ _ (same_core_updateFileStatus _ _ _ _) Ha). }
    split; [exact Ha'|]. split; [|exact Hc].
    apply (@settle_fromList listed _ [] (Some _) Hwf Ha').
    intros e He. cbn [entries inRound rest] in He.
    assert (Hf : exists f, In f (JSMap.values (registry (page r))) /\
                           e = {| fileObj := f; attached := true |}).
    { rewrite Ev. destruct He as [<-|He]; [exists first; split; [now left|reflexivity]|].
      apply in_map_iff in He. destruct He as (f & <- & Hf).
      exists f. split; [now right|reflexivity]. }
    destruct Hf as (f & Hf & ->). cbn [fileObj].
    assert (Hg : JSMap.get (registry (page r)) (FileObj.id f) = Some f).
    { apply JSMap.In_get; [apply Ht|]. apply wf_In_values; [apply Ht|exact Hf]. }
    destruct (Ha _ _ Hg) as (f0 & Hg0 & Hc0). now exists f0.
  - remember (conversion r) as cv eqn:Ec. destruct cv as [c|].
    2:{ injection Hnext as <-. split; [exact Ha|]. split; [|exact Hc].
        rewrite <- Ec. exact Hb. }
    destruct (resume c (app (page r))) as [[c' st']|] eqn:Hr; [|discriminate].
    injection Hnext as <-. unfold fromList. cbn [page conversion].
    destruct (@resume_spec _ _ _ _ Hr) as (Hsame & _ & Hsub & Hres).
    assert (Ha' : forall key f, JSMap.get (registry (withApp st' (page r))) key = Some f ->
                    exists f0, JSMap.get listed key = Some f0 /\ core f = core f0).
    { exact (@fromList_same listed _ _ Hsame Ha). }
    split; [exact Ha'|]. split.
    { apply settle_fromList; [exact Hwf|exact Ha'|].
      intros e He. apply Hb. cbn [entries]. now apply Hsub. }
    intros key result. unfold results. cbn [withApp app].
    destruct Hres as [->|(stored & -> & _ & Hn & Ho & _)]; [apply Hc|].
    destruct (streq (FileObj.id (fileObj (inRound c))) key) eqn:E.
    + apply streq_true in E. subst key. rewrite JSMap.get_set_same.
      intros H. injection H as <-.
      destruct (Hb (inRound c)) as (f0 & Hg0 & Hc0); [now left|].
      exists f0. split; [exact Hg0|]. destruct (@core_names _ _ Hc0). split; congruence.
    + apply streq_false in E. rewrite JSMap.get_set_other by exact E. apply Hc.
Qed.

Lemma play_fromList listed steps : forall r,
  wf listed -> orderly r -> fromList listed r ->
  forallb (fun step => negb (isSelection step)) steps = true ->
  exists r', play steps r = Some r' /\ orderly r' /\ fromList listed r'.
Proof.
  induction steps as [|step steps IH]; intros r Hwf Ho Hf Hsel; cbn [play]; [now exists r|].
  cbn [forallb] in Hsel. apply andb_prop in Hsel. destruct Hsel as [H1 H2].
  apply negb_true_iff in H1.
  destruct (next_orderly step Ho) as (r1 & Hn & Ho1). rewrite Hn.
  apply IH; auto. exact (@next_fromList listed step r r1 Hwf Ho Hf H1 Hn).
Qed.

(** The session: selections of files, then steps none of which is a
    selection. *)
Lemma play_session selections later :
  forallb (fun step => negb (isSelection step)) later = true ->
  exists listed r,
    run localeCompare generateAsync generateId (map Select selections) init = Some listed /\
    play (map (fun files => User (Select files)) selections ++ later) started = Some r /\
    consistent listed /\ orderly r /\ fromList (registry listed) r.
Proof.
  intros Hlater.
  destruct (run_selects localeCompare generateAsync generateId selections consistent_init
              eq_refl) as (listed & Hrun & Hc & Hres).
  pose proof (@play_selections _ _ _ Hrun) as Hplay. fold started in Hplay.
  pose proof Hc as (Hidle & Hwf & Hdist & Hacc & Hnamed & R1 & _ & R3).
  destruct (@play_fromList (registry listed) later {| page := listed; conversion := None |})
    as (r & Hr & Ho & Hf); auto.
  - split; [exact Hidle|]. split; [repeat split; auto; apply Hwf|now split].
  - split; [|split].
    + intros key f Hg. now exists f.
    + intros e [].
    + intros key result. cbn [page]. rewrite Hres. discriminate.
  - exists listed, r. rewrite play_app, Hplay. auto.
Qed.

Lemma fromList_names listed r :
  wf listed -> named listed -> orderly r -> fromList listed r ->
  NoDup (map ConversionResult.fileName (JSMap.values (results (page r)))).
Proof.
  intros Hwf Hnamed (_ & _ & Hnd & _) (_ & _ & Hc).
  unfold JSMap.values. rewrite map_map.
  apply NoDup_map_NoDup_ForallPairs; [|now apply NoDup_keys_NoDup].
  intros [k1 r1] [k2 r2] H1 H2 E. cbn [snd] in E.
  pose proof (JSMap.In_get _ _ _ Hnd H1) as G1.
  pose proof (JSMap.In_get _ _ _ Hnd H2) as G2.
  destruct (Hc _ _ G1) as (f1 & F1 & N1 & _).
  destruct (Hc _ _ G2) as (f2 & F2 & N2 & _).
  apply JSMap.get_In in F1, F2.
  assert (Ekv : (k1, f1) = (k2, f2)).
  { apply (NoDup_map_inj (fun kv => FileObj.outputName (snd kv)) _ _ _ Hnamed F1 F2).
    cbn [snd]. congruence. }
  injection Ekv as -> _. rewrite G1 in G2. now injection G2 as ->.
Qed.

Lemma sound_success res :
  sound res -> filter ConversionResult.success (JSMap.values res) = JSMap.values res.
Proof.
  intros [_ Hall]. apply forallb_filter_id, forallb_forall. intros x Hin.
  unfold JSMap.values in Hin. apply in_map_iff in Hin. destruct Hin as (kv & <- & Hin).
  rewrite Forall_forall in Hall. now apply Hall.
Qed.

(** *** A conversion that nothing interrupts *)

(** In the list, the object under the id of an entry has the fields of
    the entry, the status apart. *)
Definition linked (files : JSMap.t FileObj.t) (es : list Entry) : Prop :=
  forall e g, In e es -> JSMap.get files (FileObj.id (fileObj e)) = Some g ->
    core g = core (fileObj e).

Lemma settleEntry_core files e :
  linked files [e] -> core (fileObj (settleEntry files [] e)) = core (fileObj e).
Proof.
  intros H. unfold settleEntry. cbn [existsb]. unfold refresh.
  destruct (attached e); [|reflexivity].
  destruct (JSMap.get files (FileObj.id (fileObj e))) as [g|] eqn:E; [|reflexivity].
  cbn [fileObj]. apply (H e g); [now left|exact E].
Qed.

Lemma linked_same files files' es :
  same core files files' -> linked files es -> linked files' es.
Proof.
  intros Hsame H e g' He Hg.
  destruct (same_get _ (@same_sym _ _ _ _ Hsame) Hg) as (g & Hg0 & Hc).
  rewrite <- Hc. now apply (H e g).
Qed.

Lemma linked_settle files es :
  linked files es -> linked files (map (settleEntry files []) es).
Proof.
  intros H e' g He' Hg. apply in_map_iff in He'. destruct He' as (e & <- & He).
  assert (Hc : core (fileObj (settleEntry files [] e)) = core (fileObj e)).
  { apply settleEntry_core. intros e0 g0 [<-|[]]. now apply H. }
  rewrite Hc. rewrite (core_id Hc) in Hg. now apply (H e g).
Qed.

Lemma map_core_settle files es :
  linked files es ->
  map (fun e => core (fileObj e)) (map (settleEntry files []) es)
  = map (fun e => core (fileObj e)) es.
Proof.
  intros H. rewrite map_map. apply map_ext_in. intros e He.
  apply settleEntry_core. intros e0 g0 [<-|[]]. now apply H.
Qed.

Lemma processFile_core f f' st :
  core f = core f' ->
  App.processFile localeCompare generateAsync f st
  = App.processFile localeCompare generateAsync f' st.
Proof.
  destruct f, f'. unfold core, identity. cbn. intros H. injection H as -> -> -> -> ->.
  reflexivity.
Qed.

Lemma beginFile_core e e' st :
  core (fileObj e) = core (fileObj e') -> beginFile e st = beginFile e' st.
Proof. intros H. unfold beginFile. now rewrite (core_id H). Qed.

Lemma play_resumes k k' r :
  play (repeat Resume (k + k')) r =
  match play (repeat Resume k) r with
  | None => None
  | Some r => play (repeat Resume k') r
  end.
Proof. rewrite repeat_app. apply play_app. Qed.

(** From the pause of a round on, the resumptions run the files that are
    left as the loop of [processBatch] does, and the end of
    [startProcessing] after them. *)
Lemma core_fields f f' :
  core f = core f' ->
  FileObj.id f = FileObj.id f' /\ FileObj.file f = FileObj.file f' /\
  FileObj.name f = FileObj.name f' /\ FileObj.outputName f = FileObj.outputName f'.
Proof. unfold core, identity. intros H. injection H. auto. Qed.

Lemma pause_rounds p : forall fs es st completed successful total e stF,
  map (fun e => core (fileObj e)) es = map core fs ->
  linked (App.selectedFiles st) es ->
  App.processLoop localeCompare generateAsync fs total completed successful st = Some stF ->
  exists k,
    play (repeat Resume k)
      {| page := withApp st p;
         conversion := Some {| inRound := e;
                               rest := es;
                               suspension := pausing;
                               totalFiles := total;
                               completedFiles := completed;
                               successfulFiles := successful |} |}
    = Some {| page := withApp (setProcessing false (App.handleProcessingComplete stF)) p;
              conversion := None |}.
Proof.
  induction fs as [|f fs IH]; intros es st completed successful total e stF Hcores Hl Hloop.
  { destruct es; [|discriminate]. cbn [App.processLoop] in Hloop. injection Hloop as <-.
    exists 1%nat. reflexivity. }
  destruct es as [|coming es]; [discriminate|]. cbn [map] in Hcores.
  assert (Hcore : core (fileObj coming) = core f) by congruence.
  assert (Hcores' : map (fun e => core (fileObj e)) es = map core fs) by congruence.
  clear Hcores. rename Hcores' into Hcores.
  cbn [App.processLoop] in Hloop.
  rewrite <- (processFile_core _ Hcore) in Hloop.
  (* the end of a round, whatever its outcome *)
  assert (Hend : forall stX cur rs successful' stF',
            map (fun e => core (fileObj e)) rs = map core fs ->
            linked (App.selectedFiles stX) rs ->
            App.processLoop localeCompare generateAsync fs total (S completed) successful' stX
              = Some stF' ->
            exists k,
              play (repeat Resume k)
                {| page := withApp stX p;
                   conversion :=
                     Some (settle (App.selectedFiles stX) []
                             {| inRound := cur; rest := rs; suspension := pausing;
                                totalFiles := total; completedFiles := S completed;
                                successfulFiles := successful' |}) |}
              = Some {| page := withApp (setProcessing false
                                           (App.handleProcessingComplete stF')) p;
                        conversion := None |}).
  { intros stX cur rs successful' stF' Hc Hlk H. unfold settle.
    cbn [inRound rest suspension totalFiles completedFiles successfulFiles].
    apply IH; [|now apply linked_settle|exact H].
    now rewrite map_core_settle. }
  (* the pause ends: the round of [coming] begins *)
  set (st1 := beginFile coming st) in *.
  assert (Hsame1 : same core (App.selectedFiles st) (App.selectedFiles st1))
    by apply same_core_updateFileStatus.
  pose proof (linked_same Hsame1 Hl) as Hl1.
  set (reg1 := App.selectedFiles st1) in *.
  set (coming1 := settleEntry reg1 [] coming).
  set (es1 := map (settleEntry reg1 []) es).
  assert (Hn1 : core (fileObj coming1) = core (fileObj coming)).
  { apply settleEntry_core. intros e0 g0 [<-|[]]. apply Hl1. now left. }
  assert (Hes1 : map (fun e => core (fileObj e)) es1 = map core fs).
  { unfold es1. rewrite map_core_settle; [exact Hcores|].
    intros e0 g0 He0. apply Hl1. now right. }
  assert (Hl1' : linked reg1 (coming1 :: es1)).
  { change (coming1 :: es1) with (map (settleEntry reg1 []) (coming :: es)).
    now apply linked_settle. }
  assert (Hl1es : linked reg1 es1).
  { intros e0 g0 He0. apply Hl1'. now right. }
  assert (Hstep0 : forall k,
            play (repeat Resume (1 + k))
              {| page := withApp st p;
                 conversion := Some {| inRound := e; rest := coming :: es;
                                       suspension := pausing;
                                       totalFiles := total; completedFiles := completed;
                                       successfulFiles := successful |} |}
            = play (repeat Resume k)
                {| page := withApp st1 p;
                   conversion := Some {| inRound := coming1; rest := es1;
                                         suspension := parsing;
                                         totalFiles := total; completedFiles := completed;
                                         successfulFiles := successful |} |}).
  { intros k. reflexivity. }
  (* the round of [coming], by its outcome *)
  unfold App.processFile in Hloop. fold (beginFile coming st) in Hloop. fold st1 in Hloop.
  destruct (core_fields Hn1) as (Hid & Hfile & Hname & Hout).
  destruct (negb (ParseResult.success
                    (EpubParser.parseEpub localeCompare (FileObj.file (fileObj coming)))))
    eqn:Eparse.
  { pose proof (fun Hlk => Hend _ coming1 es1 _ _ Hes1 Hlk Hloop) as Hk0.
    destruct Hk0 as [k Hk].
    { refine (linked_same _ Hl1es). apply same_core_updateFileStatus. }
    exists (1 + (1 + k))%nat.
    rewrite Hstep0. cbn [repeat Nat.add play next conversion page]. unfold resume.
    cbn [suspension inRound]. rewrite Hfile, Hid, Eparse. exact Hk. }
  destruct (ParseResult.images
              (EpubParser.parseEpub localeCompare (FileObj.file (fileObj coming))))
    as [|image images] eqn:Eimages.
  { pose proof (fun Hlk => Hend _ coming1 es1 _ _ Hes1 Hlk Hloop) as Hk0.
    destruct Hk0 as [k Hk].
    { refine (linked_same _ Hl1es). apply same_core_updateFileStatus. }
    exists (1 + (1 + k))%nat.
    rewrite Hstep0. cbn [repeat Nat.add play next conversion page]. unfold resume.
    cbn [suspension inRound]. rewrite Hfile, Hid, Eparse, Eimages. exact Hk. }
  (* the archive is built *)
  set (st2 := App.emit (updateFileProgressItem (FileObj.id (fileObj coming)) processing
                          "正在生成ZIP...") st1) in *.
  set (coming2 := settleEntry reg1 [] coming1).
  set (es2 := map (settleEntry reg1 []) es1).
  assert (Hn2 : core (fileObj coming2) = core (fileObj coming)).
  { rewrite <- Hn1. apply settleEntry_core. intros e0 g0 [<-|[]]. apply Hl1'. now left. }
  assert (Hes2 : map (fun e => core (fileObj e)) es2 = map core fs).
  { unfold es2. now rewrite map_core_settle. }
  assert (Hl2 : linked reg1 es2) by now apply linked_settle.
  assert (Hstep1 : forall k,
            play (repeat Resume (1 + k))
                {| page := withApp st1 p;
                   conversion := Some {| inRound := coming1; rest := es1;
                                         suspension := parsing;
                                         totalFiles := total; completedFiles := completed;
                                         successfulFiles := successful |} |}
            = play (repeat Resume k)
                {| page := withApp st2 p;
                   conversion := Some {| inRound := coming2; rest := es2;
                                         suspension := zipping (image :: images);
                                         totalFiles := total; completedFiles := completed;
                                         successfulFiles := successful |} |}).
  { intros k. cbn [repeat Nat.add play next conversion page]. unfold resume.
    cbn [suspension inRound]. rewrite Hfile, Hid, Eparse, Eimages. reflexivity. }
  destruct (core_fields Hn2) as (Hid2 & Hfile2 & Hname2 & Hout2).
  destruct (ZipGenerator.generateZipFromImages generateAsync (image :: images))
    as [[zipBlob|message]|] eqn:Ezip; [| |discriminate].
  - pose proof (fun Hlk => Hend _ coming2 es2 _ _ Hes2 Hlk Hloop) as Hk0.
    destruct Hk0 as [k Hk].
    { refine (linked_same _ Hl2). apply same_core_updateFileStatus. }
    exists (1 + (1 + (1 + k)))%nat.
    rewrite Hstep0, Hstep1. cbn [repeat Nat.add play next conversion page]. unfold resume.
    cbn [suspension inRound]. rewrite Ezip, Hid2, Hout2, Hname2. exact Hk.
  - pose proof (fun Hlk => Hend _ coming2 es2 _ _ Hes2 Hlk Hloop) as Hk0.
    destruct Hk0 as [k Hk].
    { refine (linked_same _ Hl2). apply same_core_updateFileStatus. }
    exists (1 + (1 + (1 + k)))%nat.
    rewrite Hstep0, Hstep1. cbn [repeat Nat.add play next conversion page]. unfold resume.
    cbn [suspension inRound]. rewrite Ezip, Hid2. exact Hk.
Qed.

Lemma linked_values reg :
  wf reg -> linked reg (map (fun f => {| fileObj := f; attached := true |}) (JSMap.values reg)).
Proof.
  intros Hwf e g He Hg. apply in_map_iff in He. destruct He as (f & <- & Hf).
  cbn [fileObj] in *. apply (@wf_In_values _ _ Hwf) in Hf.
  rewrite (@JSMap.In_get _ _ _ _ (proj1 Hwf) Hf) in Hg. now injection Hg as <-.
Qed.

Lemma startProcessing_total st :
  exists st', startProcessing localeCompare generateAsync st = Some st'.
Proof.
  unfold startProcessing. destruct (App.isProcessing st); [eauto|].
  destruct (JSMap.values (App.selectedFiles st)) as [|f fs] eqn:E; [eauto|].
  destruct (App.outcomes_exist localeCompare generateAsync (f :: fs)) as [outcomes Hout].
  unfold App.processBatch.
  destruct (@App.processLoop_spec localeCompare generateAsync (f :: fs) outcomes
              (List.length (f :: fs)) 0 0
              (App.emit (updateOverallProgress 0 (List.length (f :: fs)) 0)
                        (setProcessing true st)) Hout) as (st' & -> & _).
  eauto.
Qed.

(** A conversion that starts when none is under way and that nothing
    interrupts leaves the page as [startProcessing] computes it. *)
Lemma begin_rounds r :
  orderly r -> conversion r = None ->
  exists page' k,
    act localeCompare generateAsync generateId Start (page r) = Some page' /\
    play (User Start :: repeat Resume k) r = Some {| page := page'; conversion := None |}.
Proof.
  intros (Hp & (Hwf & _) & _) Hc. rewrite Hc in Hp.
  cbn [act play next]. unfold begin.
  destruct (startProcessing_total (app (page r))) as [stF HstF]. rewrite HstF.
  exists (withApp stF (page r)).
  unfold startProcessing in HstF. rewrite Hp in *.
  fold (registry (page r)) in *.
  destruct (JSMap.values (registry (page r))) as [|first others] eqn:Efiles.
  { injection HstF as <-. exists 0%nat. cbn [repeat play]. now rewrite Hc. }
  unfold App.processBatch in HstF.
  destruct (App.processLoop _ _ _ _ _ _ _) as [stL|] eqn:Eloop; [|discriminate].
  injection HstF as <-.
  set (entry := fun f => {| fileObj := f; attached := true |}).
  set (st0 := App.emit (updateOverallProgress 0 (List.length (first :: others)) 0)
                (setProcessing true (app (page r)))) in *.
  destruct (@pause_rounds (page r) (first :: others) (map entry (first :: others)) st0 0 0
              (List.length (first :: others)) (entry first) stL) as [k Hk].
  - rewrite map_map. reflexivity.
  - rewrite <- Efiles. apply linked_values. exact Hwf.
  - exact Eloop.
  - destruct k as [|k]; [discriminate|]. exists k. split; [reflexivity|].
    cbn [repeat play next conversion page] in Hk. unfold resume in Hk.
    cbn [suspension rest map] in Hk. unfold settle.
    cbn [inRound rest suspension totalFiles completedFiles successfulFiles].
    exact Hk.
Qed.

End Interleaving.

(** *** What a session keeps *)

(** X19. Whatever the user does (selecting files, removing a file,
    clearing the list, starting the conversion) and whenever a conversion
    under way resumes in between, every step ends, and after it: the
    application is processing exactly while a conversion is under way;
    every file of the list is stored under its own id, has a name that
    ends with [.epub] and a size that is not zero; no two files of the list
    have the same name and the same size; no two files of the list have
    the same output name; and every stored result is a success, stored
    under the id it carries. *)
Theorem session_keeps_registries
    (localeCompare : jsstring -> jsstring -> Z) (generateAsync : JSZip.t -> Result Blob)
    (generateId : nat -> jsstring) (steps : list Step) :
  exists r,
    play localeCompare generateAsync generateId steps started = Some r /\
    App.isProcessing (app (page r))
      = (match conversion r with Some _ => true | None => false end) /\
    (forall key fileObj, JSMap.get (registry (page r)) key = Some fileObj ->
       FileObj.id fileObj = key /\
       Utils.hasEpubExtension (FileObj.name fileObj) /\
       FileObj.size fileObj <> 0%Z) /\
    NoDup (map (fun f => (FileObj.name f, FileObj.size f))
               (JSMap.values (registry (page r)))) /\
    NoDup (map FileObj.outputName (JSMap.values (registry (page r)))) /\
    (forall key result, JSMap.get (results (page r)) key = Some result ->
       ConversionResult.success result = true /\
       ConversionResult.fileId result = key).
Proof.
  destruct (play_orderly localeCompare generateAsync generateId steps orderly_started)
    as (r & Hplay & Hp & (Hwf & Hdist & Hacc & Hnamed) & (Hnd & Hall)).
  exists r. split; [exact Hplay|]. split; [exact Hp|]. split; [|split; [|split]].
  - intros key fileObj Hget. apply JSMap.get_In in Hget.
    destruct Hwf as [_ Hid]. unfold accepted in Hacc. rewrite Forall_forall in Hid, Hacc.
    split; [exact (Hid _ Hget)|exact (Hacc _ Hget)].
  - unfold JSMap.values. rewrite map_map. exact Hdist.
  - unfold JSMap.values. rewrite map_map. exact Hnamed.
  - intros key result Hget. apply JSMap.get_In in Hget.
    rewrite Forall_forall in Hall. exact (Hall _ Hget).
Qed.

(** X22. In a session that selects files (in one or several selections)
    and then removes files, clears the list and starts conversions in any
    order, whenever the conversions resume in between, every stored result
    carries the name and the output name that its file had in the list
    when the selections ended (the file may have left the list since); so
    the output names of the stored results are pairwise distinct, and the
    archive that [downloadAllResults] packs when there are several results
    has one entry for each stored result, under its output name and with
    its bytes, in the order of the results. *)
Theorem results_carry_output_names
    (localeCompare : jsstring -> jsstring -> Z) (generateAsync : JSZip.t -> Result Blob)
    (generateId : nat -> jsstring)
    (selections : list (list UserFile.t)) (later : list Step) :
  forallb (fun step => negb (isSelection step)) later = true ->
  exists listed r,
    run localeCompare generateAsync generateId (map Select selections) init = Some listed /\
    play localeCompare generateAsync generateId
         (map (fun files => User (Select files)) selections ++ later) started = Some r /\
    (forall key result, JSMap.get (results (page r)) key = Some result ->
       exists fileObj,
         JSMap.get (registry listed) key = Some fileObj /\
         ConversionResult.fileName result = FileObj.outputName fileObj /\
         ConversionResult.originalName result = FileObj.name fileObj) /\
    NoDup (map ConversionResult.fileName (JSMap.values (results (page r)))) /\
    ZipGenerator.archiveOf
      (filter ConversionResult.success (JSMap.values (results (page r)))) =
    map (fun r => (ConversionResult.fileName r, ConversionResult.blob r))
        (JSMap.values (results (page r))).
Proof.
  intros Hlater.
  destruct (play_session localeCompare generateAsync generateId selections later Hlater)
    as (listed & r & Hrun & Hplay & Hc & Ho & Hf).
  exists listed, r. split; [exact Hrun|]. split; [exact Hplay|].
  split; [apply Hf|].
  destruct Hc as (_ & Hwf & _ & _ & Hnamed & _).
  pose proof (fromList_names Hwf Hnamed Ho Hf) as Hnd. split; [exact Hnd|].
  destruct Ho as (_ & _ & Hs). rewrite (sound_success Hs).
  now apply ZipGenerator.archiveOf_entries.
Qed.


(** X25. At any moment of a session at which no conversion is under way,
    a conversion that starts and that nothing interrupts (no action of the
    user before its last resumption) ends, and leaves the page as
    [startProcessing] run in one piece computes it. *)
Theorem uninterrupted_conversion
    (localeCompare : jsstring -> jsstring -> Z) (generateAsync : JSZip.t -> Result Blob)
    (generateId : nat -> jsstring) (steps : list Step) :
  exists r,
    play localeCompare generateAsync generateId steps started = Some r /\
    (conversion r = None ->
     exists page' k,
       act localeCompare generateAsync generateId Start (page r) = Some page' /\
       play localeCompare generateAsync generateId (User Start :: repeat Resume k) r
         = Some {| page := page'; conversion := None |}).
Proof.
  destruct (play_orderly localeCompare generateAsync generateId steps orderly_started)
    as (r & Hplay & Ho).
  exists r. split; [exact Hplay|]. intros Hc. now apply begin_rounds.
Qed.

End Processing.

(* ================================================================== *)
(** ** A session: three selected files, the second without images *)
(* ================================================================== *)

Module Session.
Import JS.

(** A serialization for the examples: the names and the bytes of the
    entries, one after another. *)
Definition serialize (zip : JSZip.t) : Result Blob :=
  Ok (List.concat (map (fun e => fst e ++ snd e) zip)).

Definition container : ZipObject.t :=
  {| ZipObject.path := str "META-INF/container.xml"; ZipObject.dir := false;
     ZipObject.data := Ok [60; 63]%Z |}.

Definition jpeg (path : string) : ZipObject.t :=
  {| ZipObject.path := str path; ZipObject.dir := false;
     ZipObject.data := Ok [255; 216; 255; 224]%Z |}.

Definition epub (images : list string) : File :=
  Archive (container :: map jpeg images).

(** The registry after [addFiles]. *)
Definition selected : JSMap.t FileObj.t :=
  [(str "id-a", newFileObj (str "id-a") (epub ["OEBPS/images/p2.jpg"; "OEBPS/images/p1.jpg"]%string)
                  (str "vol 1.epub") 700);
   (str "id-b", newFileObj (str "id-b") (epub []) (str "vol 2.epub") 300);
   (str "id-c", newFileObj (str "id-c") (epub ["a/image.jpg"; "b/image.jpg"; "cover.jpg"]%string)
                  (str "vol 3.epub") 900)].

(** The application after [handleFilesAdded]: the output names are
    assigned. *)
Definition ready : App.State :=
  {| App.isProcessing := false;
     App.processedResults := [];
     App.selectedFiles :=
       match NameProcessor.processFileNames NameProcessor.numericCollate
               (JSMap.values selected) NameProcessor.init with
       | Some (nameMapping, _) => App.updateOutputNames nameMapping selected
       | None => selected
       end;
     App.events := [] |}.

Definition processed : option App.State :=
  App.processBatch NameProcessor.numericCollate serialize
    (JSMap.values (App.selectedFiles ready)) ready.

Example ready_outputNames :
  map (fun f => FileObj.outputName (snd f)) (App.selectedFiles ready) =
  [str "001.zip"; str "002.zip"; str "003.zip"].
Proof. reflexivity. Qed.

(** Numbers of many digits: the value of a token is the Number that
    [parseInt] gives, so that the primary number of
    [12345678901234567.epub] is 12345678901234568, and two names whose long
    numbers differ can have the same primary number. *)
Example long_numbers_are_rounded :
  map (fun name =>
         option_map (fun r => RankedFile.primaryNumber (fst r))
           (NameProcessor.rankFile 0 (newFileObj (str "id") (epub []) (str name) 1)))
      ["12345678901234567.epub"; "12345678901234568.epub"; "vol 007.epub"]%string
  = [Some 12345678901234568%Z; Some 12345678901234568%Z; Some 7%Z].
Proof. vm_compute. reflexivity. Qed.

(** "Partial failure" of the specification, on the code: the batch of
    three files, the second of which has no image, leaves two
    ConversionResults, both with success: true, and none for the second
    file, whose failure is its status and error message; the completion
    notification counts 2. *)
Lemma processBatch_stores_no_failure_result :
  exists st',
    processed = Some st' /\
    map fst (App.processedResults st') = [str "id-a"; str "id-c"] /\
    List.length (JSMap.values (App.processedResults st')) <> 3%nat /\
    forallb ConversionResult.success (JSMap.values (App.processedResults st')) = true /\
    JSMap.get (App.processedResults st') (str "id-b") = None /\
    option_map (fun f => (FileObj.status f, FileObj.error f))
               (JSMap.get (App.selectedFiles st') (str "id-b"))
      = Some (error, Some "未找到图片文件"%string) /\
    last (App.events (App.handleProcessingComplete st')) (updateOverallProgress 0 0 0)
      = showNotification (ProcessingDone 2) Notification.success.
Proof.
  eexists. split; [vm_compute; reflexivity|].
  repeat split; try reflexivity. vm_compute. discriminate.
Qed.

(** The archive of the third file: the two images [image.jpg] are the
    entries [image.jpg] and [image_1.jpg]; [cover.jpg] is not extracted. *)
Example third_archive_entries :
  option_map (map fst)
    (ZipGenerator.addImages []
       (EpubParser.extractImages NameProcessor.numericCollate
          (container :: map jpeg ["a/image.jpg"; "b/image.jpg"; "cover.jpg"]%string)))
  = Some [str "image.jpg"; str "image_1.jpg"].
Proof. reflexivity. Qed.

(** "Aggregation" of the specification: after the batch, [downloadAll]
    downloads one wrapper archive with the entries 001.zip and 003.zip. *)
Example download_after_batch :
  option_map
    (fun st' =>
       (map fst (ZipGenerator.archiveOf
                   (filter ConversionResult.success (JSMap.values (App.processedResults st')))),
        map (fun e => match e with
                      | downloadBlob _ filename => Some filename
                      | _ => None
                      end)
            (App.events (App.downloadAllResults serialize
                           {| App.isProcessing := false;
                              App.processedResults := App.processedResults st';
                              App.selectedFiles := App.selectedFiles st';
                              App.events := [] |}))))
    processed
  = Some ([str "001.zip"; str "003.zip"],
          [None; Some (str "epub_converted_files.zip"); None]).
Proof. vm_compute. reflexivity. Qed.

(** The exclusion at work on the third EPUB of the session: [cover.jpg]
    matches "cover" and lies in no image directory. *)
Lemma isImageFile_excludes_thumbnails_witness :
  EpubParser.looksLikeThumbnail (toLowerCase (str "cover.jpg")) = true /\
  EpubParser.inImageDirectorySegment (str "cover.jpg") = false /\
  (EpubParser.isImageFile (str "cover.jpg") = false /\
   (forall image,
      In image (EpubParser.extractImages NameProcessor.numericCollate
                  (container :: map jpeg ["a/image.jpg"; "b/image.jpg"; "cover.jpg"]%string)) ->
      ExtractedImage.originalPath image <> str "cover.jpg") /\
   EpubParser.extractImages NameProcessor.numericCollate
     (filter (fun e => negb (streq (ZipObject.path e) (str "cover.jpg")))
             (container :: map jpeg ["a/image.jpg"; "b/image.jpg"; "cover.jpg"]%string))
   = EpubParser.extractImages NameProcessor.numericCollate
       (container :: map jpeg ["a/image.jpg"; "b/image.jpg"; "cover.jpg"]%string)).
Proof.
  split; [reflexivity|]. split; [reflexivity|].
  apply (EpubParser.isImageFile_excludes_thumbnails NameProcessor.numericCollate
           (str "cover.jpg")
           (container :: map jpeg ["a/image.jpg"; "b/image.jpg"; "cover.jpg"]%string));
    reflexivity.
Defined.


(** A consistent comparison of names, for the example below: by length. *)
Definition byLength (a b : jsstring) : Z :=
  (Z.of_nat (List.length a) - Z.of_nat (List.length b))%Z.

(** The order of the sort on the three files of the session. *)
Lemma sortFilesByNumbers_strict_order_witness :
  (forall x, byLength x x = 0%Z) /\
  (forall x y, (byLength x y < 0 <-> 0 < byLength y x)%Z) /\
  (forall x y z, (byLength x y <= 0 -> byLength y z <= 0 -> byLength x z <= 0)%Z) /\
  exists filesWithNumbers st,
    NameProcessor.extractNumbers (JSMap.values selected) NameProcessor.init
      = Some (filesWithNumbers, st) /\
    map RankedFile.originalIndex filesWithNumbers
      = seq 0 (List.length (JSMap.values selected)) /\
    Permutation filesWithNumbers
                (NameProcessor.sortFilesByNumbers byLength filesWithNumbers) /\
    StronglySorted (NameProcessor.fileLt byLength)
                   (NameProcessor.sortFilesByNumbers byLength filesWithNumbers) /\
    (forall a, ~ NameProcessor.fileLt byLength a a) /\
    (forall a b c, NameProcessor.fileLt byLength a b -> NameProcessor.fileLt byLength b c ->
                   NameProcessor.fileLt byLength a c) /\
    (forall a b, RankedFile.originalIndex a <> RankedFile.originalIndex b ->
                 NameProcessor.fileLt byLength a b \/ NameProcessor.fileLt byLength b a) /\
    (forall a b,
       NameProcessor.compareFiles byLength a b = 0%Z <->
       RankedFile.primaryNumber a = RankedFile.primaryNumber b /\
       ((RankedFile.fileName a = RankedFile.fileName b /\
         RankedFile.originalIndex a = RankedFile.originalIndex b) \/
        (RankedFile.fileName a <> RankedFile.fileName b /\
         byLength (RankedFile.fileName a) (RankedFile.fileName b) = 0%Z))).
Proof.
  assert (H1 : forall x, byLength x x = 0%Z) by (intros; unfold byLength; lia).
  assert (H2 : forall x y, (byLength x y < 0 <-> 0 < byLength y x)%Z)
    by (intros; unfold byLength; lia).
  assert (H3 : forall x y z,
            (byLength x y <= 0 -> byLength y z <= 0 -> byLength x z <= 0)%Z)
    by (intros x y z; unfold byLength; lia).
  split; [exact H1|]. split; [exact H2|]. split; [exact H3|].
  exact (NameProcessor.sortFilesByNumbers_strict_order byLength (JSMap.values selected)
           NameProcessor.init H1 H2 H3).
Defined.

(** The debug information of the three files of the session, with the
    comparison by length. *)
Lemma getDebugInfo_agrees_witness :
  (forall x, byLength x x = 0%Z) /\
  (forall x y, (byLength x y < 0 <-> 0 < byLength y x)%Z) /\
  (forall x y z, (byLength x y <= 0 -> byLength y z <= 0 -> byLength x z <= 0)%Z) /\
  exists filesWithNumbers st0 nameMapping st1 info st2,
    NameProcessor.extractNumbers (JSMap.values selected) NameProcessor.init
      = Some (filesWithNumbers, st0) /\
    NameProcessor.sortFilesByNumbers byLength
      (NameProcessor.sortFilesByNumbers byLength filesWithNumbers)
      = NameProcessor.sortFilesByNumbers byLength filesWithNumbers /\
    NameProcessor.processFileNames byLength (JSMap.values selected) NameProcessor.init
      = Some (nameMapping, st1) /\
    NameProcessor.getDebugInfo byLength (JSMap.values selected) NameProcessor.init
      = Some (info, st2) /\
    NameProcessor.DebugInfo.nameMapping info = nameMapping /\
    NameProcessor.DebugInfo.sortedOrder info = map OutputMapping.originalName nameMapping /\
    NameProcessor.DebugInfo.originalOrder info = map FileObj.name (JSMap.values selected) /\
    map (fun e => fst (fst e)) (NameProcessor.DebugInfo.extractedNumbers info)
      = map FileObj.name (JSMap.values selected) /\
    map (fun e => snd e) (NameProcessor.DebugInfo.extractedNumbers info)
      = map RankedFile.primaryNumber filesWithNumbers.
Proof.
  assert (H1 : forall x, byLength x x = 0%Z) by (intros; unfold byLength; lia).
  assert (H2 : forall x y, (byLength x y < 0 <-> 0 < byLength y x)%Z)
    by (intros; unfold byLength; lia).
  assert (H3 : forall x y z,
            (byLength x y <= 0 -> byLength y z <= 0 -> byLength x z <= 0)%Z)
    by (intros x y z; unfold byLength; lia).
  split; [exact H1|]. split; [exact H2|]. split; [exact H3|].
  exact (NameProcessor.getDebugInfo_agrees byLength (JSMap.values selected)
           NameProcessor.init H1 H2 H3).
Defined.

(** The entries of a book whose images are listed out of order. *)
Definition shuffled : list ZipObject.t :=
  container :: map jpeg ["OEBPS/images/page10.jpg"; "OEBPS/p2.jpg"; "OEBPS/img/p1.jpg"]%string.

Lemma extractImages_sorted_witness :
  (forall x y, (0 < byLength x y -> byLength y x <= 0)%Z) /\
  (forall x y z, (byLength x y <= 0 -> byLength y z <= 0 -> byLength x z <= 0)%Z) /\
  StronglySorted
    (fun a b => (byLength (ExtractedImage.originalPath a)
                          (ExtractedImage.originalPath b) <= 0)%Z)
    (EpubParser.extractImages byLength shuffled).
Proof.
  assert (H1 : forall x y, (0 < byLength x y -> byLength y x <= 0)%Z)
    by (intros; unfold byLength in *; lia).
  assert (H2 : forall x y z,
            (byLength x y <= 0 -> byLength y z <= 0 -> byLength x z <= 0)%Z)
    by (intros x y z; unfold byLength; lia).
  split; [exact H1|]. split; [exact H2|].
  exact (EpubParser.extractImages_sorted byLength shuffled H1 H2).
Defined.

(** Two tasks for a new generator, the second of which has no image. *)
Definition twoTasks : list ZipGenerator.Task.t :=
  [{| ZipGenerator.Task.images :=
        Some [{| ExtractedImage.originalPath := str "OEBPS/p1.jpg";
                 ExtractedImage.fileName := str "p1.jpg";
                 ExtractedImage.blob := [255; 216; 255; 224]%Z;
                 ExtractedImage.size := 4 |}];
      ZipGenerator.Task.fileName := str "001.zip" |};
   {| ZipGenerator.Task.images := None; ZipGenerator.Task.fileName := str "002.zip" |}].

Lemma generateMultipleZips_results_witness :
  (ZipGenerator.currentJobs ZipGenerator.init
   < ZipGenerator.maxConcurrentJobs ZipGenerator.init)%Z /\
  exists results,
    ZipGenerator.generateMultipleZips serialize twoTasks ZipGenerator.init
      = Some (results, ZipGenerator.init) /\
    List.length results = List.length twoTasks /\
    map ZipGenerator.ZipResult.fileName results = map ZipGenerator.Task.fileName twoTasks /\
    map ZipGenerator.ZipResult.imageCount results
      = map (fun task => List.length (ZipGenerator.imagesOf task)) twoTasks /\
    Forall2
      (fun task result =>
         match ZipGenerator.generateZipFromImages serialize (ZipGenerator.imagesOf task) with
         | Some (Ok zipBlob) =>
             ZipGenerator.ZipResult.success result = true /\
             ZipGenerator.ZipResult.blob result = Some zipBlob /\
             ZipGenerator.ZipResult.size result = List.length zipBlob /\
             ZipGenerator.ZipResult.error result = None
         | Some (Throw message) =>
             ZipGenerator.ZipResult.success result = false /\
             ZipGenerator.ZipResult.blob result = None /\
             ZipGenerator.ZipResult.size result = 0%nat /\
             ZipGenerator.ZipResult.error result = Some message
         | None => False
         end)
      twoTasks results /\
    Forall2
      (fun task result =>
         ZipGenerator.imagesOf task = [] ->
         ZipGenerator.ZipResult.success result = false /\
         ZipGenerator.ZipResult.error result
           = Some ("生成ZIP文件失败: " ++ "没有图片可以打包")%string)
      twoTasks results /\
    (forall task rest st',
       (ZipGenerator.maxConcurrentJobs st' <= ZipGenerator.currentJobs st')%Z ->
       ZipGenerator.generateMultipleZips serialize (task :: rest) st' = None).
Proof.
  split; [reflexivity|].
  apply (ZipGenerator.generateMultipleZips_results serialize twoTasks ZipGenerator.init).
  reflexivity.
Defined.

(** The files of a selection: two books, and a file that is no book. *)
Definition picked (name : string) (size : Z) (images : list string) : UserFile.t :=
  {| UserFile.name := str name;
     UserFile.size := size;
     UserFile.header := Ok [80; 75; 3; 4]%Z;
     UserFile.file := epub images |}.

Definition selection : list UserFile.t :=
  [picked "vol 2.epub" 700 ["OEBPS/images/p2.jpg"; "OEBPS/images/p1.jpg"];
   picked "notes.txt" 12 [];
   picked "vol 1.EPUB" 900 ["OEBPS/images/a.jpg"]]%string.

(** The ids of the example: [id-0], [id-1], ... *)
Definition issueId (n : nat) : jsstring := str "id-" ++ toString n.

(** What happens after the selection: the conversion starts, and the user
    removes the first book while its archive is built. *)
Definition meanwhile : list Processing.Step :=
  [Processing.User Lifecycle.Start; Processing.Resume;
   Processing.User (Lifecycle.Remove (str "id-0"));
   Processing.Resume; Processing.Resume; Processing.Resume; Processing.Resume;
   Processing.Resume; Processing.Resume].

Lemma results_carry_output_names_witness :
  forallb (fun step => negb (Processing.isSelection step)) meanwhile = true /\
  exists listed r,
    Lifecycle.run NameProcessor.numericCollate serialize issueId
      (map Lifecycle.Select [selection]) Lifecycle.init = Some listed /\
    Processing.play NameProcessor.numericCollate serialize issueId
      (map (fun files => Processing.User (Lifecycle.Select files)) [selection] ++ meanwhile)
      Processing.started = Some r /\
    (forall key result,
       JSMap.get (Lifecycle.results (Processing.page r)) key = Some result ->
       exists fileObj,
         JSMap.get (Lifecycle.registry listed) key = Some fileObj /\
         ConversionResult.fileName result = FileObj.outputName fileObj /\
         ConversionResult.originalName result = FileObj.name fileObj) /\
    NoDup (map ConversionResult.fileName
               (JSMap.values (Lifecycle.results (Processing.page r)))) /\
    ZipGenerator.archiveOf
      (filter ConversionResult.success
              (JSMap.values (Lifecycle.results (Processing.page r)))) =
    map (fun r => (ConversionResult.fileName r, ConversionResult.blob r))
        (JSMap.values (Lifecycle.results (Processing.page r))).
Proof.
  split; [reflexivity|].
  apply (Processing.results_carry_output_names NameProcessor.numericCollate serialize issueId
           [selection] meanwhile).
  reflexivity.
Defined.

(** The book removed while its archive is built has a result all the
    same, under the output name it had; the list no longer has the book. *)
Example result_of_a_removed_file :
  option_map
    (fun r =>
       (map fst (Lifecycle.registry (Processing.page r)),
        map (fun kv => (fst kv, ConversionResult.fileName (snd kv)))
            (Lifecycle.results (Processing.page r)),
        App.isProcessing (Lifecycle.app (Processing.page r))))
    (Processing.play NameProcessor.numericCollate serialize issueId
       (map (fun files => Processing.User (Lifecycle.Select files)) [selection] ++ meanwhile)
       Processing.started)
  = Some ([str "id-1"],
          [(str "id-0", str "002.zip"); (str "id-1", str "001.zip")],
          false).
Proof. vm_compute. reflexivity. Qed.

(** While the conversion is under way the application is processing,
    and a second start is refused. *)
Example processing_while_under_way :
  option_map
    (fun r =>
       (App.isProcessing (Lifecycle.app (Processing.page r)),
        option_map Processing.suspension (Processing.conversion r),
        last (App.events (Lifecycle.app (Processing.page r))) (updateOverallProgress 0 0 0)))
    (Processing.play NameProcessor.numericCollate serialize issueId
       [Processing.User (Lifecycle.Select selection); Processing.User Lifecycle.Start;
        Processing.User (Lifecycle.Remove (str "id-1")); Processing.User Lifecycle.Start]
       Processing.started)
  = Some (true, Some Processing.parsing,
          showNotification (Text "正在处理中，请稍候...") Notification.warning).
Proof. vm_compute. reflexivity. Qed.

Lemma downloadSingleResult_finds_result_witness :
  forallb (fun action => negb (Lifecycle.isSelect action)) [Lifecycle.Start] = true /\
  exists page,
    Lifecycle.run NameProcessor.numericCollate serialize issueId
      (map Lifecycle.Select [selection] ++ [Lifecycle.Start]) Lifecycle.init = Some page /\
    (forall key result, JSMap.get (Lifecycle.results page) key = Some result ->
       Lifecycle.downloadSingleResult (ConversionResult.fileName result) (Lifecycle.app page) =
       App.emit (showNotification (DownloadStarted (ConversionResult.fileName result))
                                  Notification.success)
         (App.emit (downloadBlob (ConversionResult.blob result)
                                 (ConversionResult.fileName result)) (Lifecycle.app page))) /\
    (forall fileName,
       ~ In fileName
            (map ConversionResult.fileName (JSMap.values (Lifecycle.results page))) ->
       Lifecycle.downloadSingleResult fileName (Lifecycle.app page) =
       App.emit (showNotification (Text "找不到指定的文件") Notification.error)
                (Lifecycle.app page)).
Proof.
  split; [reflexivity|].
  apply (Lifecycle.downloadSingleResult_finds_result NameProcessor.numericCollate serialize
           issueId [selection] [Lifecycle.Start]).
  reflexivity.
Defined.

(** The images of a book, two of which have the same name. *)
Definition sameNames : list ExtractedImage.t :=
  EpubParser.extractImages byLength
    (container :: map jpeg ["a/image.jpg"; "b/c/image.jpg"; "page 1.jpg"]%string).

Lemma generateZipFromImages_keeps_images_witness :
  Forall (fun image => ZipGenerator.plainName (ExtractedImage.fileName image) = true)
         sameNames /\
  exists zip,
    ZipGenerator.addImages [] sameNames = Some zip /\
    List.length zip = List.length sameNames /\
    map snd zip = map ExtractedImage.blob sameNames /\
    NoDup (map fst zip) /\
    Forall2 (fun entry image =>
               exists k, fst entry = ZipGenerator.nameAt (ExtractedImage.fileName image) k)
            zip sameNames /\
    Forall (fun entry => ZipGenerator.plainName (fst entry) = true) zip /\
    (NoDup (map ExtractedImage.fileName sameNames) ->
     zip = map (fun image => (ExtractedImage.fileName image, ExtractedImage.blob image))
               sameNames) /\
    ZipGenerator.generateZipFromImages serialize sameNames =
      Some (match sameNames with
            | [] => Throw ("生成ZIP文件失败: " ++ "没有图片可以打包")%string
            | _ =>
                match serialize zip with
                | Ok zipBlob => Ok zipBlob
                | Throw message => Throw ("生成ZIP文件失败: " ++ message)%string
                end
            end).
Proof.
  assert (H : Forall (fun image =>
                        ZipGenerator.plainName (ExtractedImage.fileName image) = true)
                     sameNames)
    by (repeat constructor).
  split; [exact H|].
  exact (ZipGenerator.generateZipFromImages_keeps_images serialize H).
Defined.

End Session.
